(** * Verification of the exoTM engine and its policies (sfu-dis/pact23)

    A shallow embedding of
    - [policies/exoTM/exotm.h]            (module [Exotm]),
    - [policies/include/timestamp_smr.h]  (module [Smr]),
    - [policies/include/redolog_nocast.h] (module [RedoLog]),
    - [policies/hybrid/include/base.h]    (module [Hybrid]),
    - [ds/STMCAS/dlist_omap.h]            (module [Dlist]).

    On top of these, the parts of the same files that a user of the code
    meets together with them, and the code they call:
    - the redo log in use by a transaction          (module [RedoLogUse]),
    - [policies/include/hash.h]                     (module [Hash]),
    - [policies/include/minivector.h]               (module [Minivector]),
    - the orecs a writing step holds                (module [ExotmSteps]),
    - runs of the reclamation context               (module [SmrRuns]),
    - [policies/hybrid/lazy.h], [include/field.h],
      [include/base.h], [include/raii.h]            (module [Lazy]),
    - the operations of [ds/STMCAS/dlist_omap.h]    (module [DlistOps]).

    64-bit unsigned words are integers of [Z] in [0, 2^64) with the
    wrap-around written out; pointers are integers; arrays reached through a
    pointer are total maps from the index to the element. *)

From Stdlib Require Import ZArith Lia List Bool Sorted.
From stdpp Require Import base list gmap.

Local Open Scope Z_scope.

(** ** Machine words *)

Definition wrap64 (x : Z) : Z := x mod 2 ^ 64.

Definition ULLONG_MAX : Z := 2 ^ 64 - 1.

(* ===================================================================== *)
(** * exotm.h: ownership records and the per-thread context              *)
(* ===================================================================== *)

Module Exotm.

(** [static const uint64_t LOCK_BIT = 1ULL << 63] *)
Definition LOCK_BIT : Z := Z.shiftl 1 63.

(** [static const uint64_t END_OF_TIME = ULLONG_MAX] *)
Definition END_OF_TIME : Z := ULLONG_MAX.

(** [enum UNWIND_TYPES { ROLLBACK_ORECS, BUMP_ORECS }] *)
Inductive UNWIND_TYPES := ROLLBACK_ORECS | BUMP_ORECS.

(** [class orec_t]: [curr] is the atomic word, [prev] the owner's copy. *)
Record orec_t := mk_orec { curr : Z; prev : Z }.

(** [orec_t() : curr(0), prev(0)] *)
Definition orec_new : orec_t := mk_orec 0 0.

(** The orecs of the program, by address.  An address at which nothing
    was stored yet holds a freshly constructed orec. *)
Definition load (σ : gmap Z orec_t) (o : Z) : orec_t :=
  default orec_new (σ !! o).

(** [o->curr.store(v)] *)
Definition store_curr (σ : gmap Z orec_t) (o v : Z) : gmap Z orec_t :=
  <[o := mk_orec v (prev (load σ o))]> σ.

(** [o->prev = v] *)
Definition store_prev (σ : gmap Z orec_t) (o v : Z) : gmap Z orec_t :=
  <[o := mk_orec (curr (load σ o)) v]> σ.

(** [o->curr.compare_exchange_strong(expected, desired)], one atomic step. *)
Definition compare_exchange_strong (σ : gmap Z orec_t) (o expected desired : Z)
  : bool * gmap Z orec_t :=
  if curr (load σ o) =? expected then (true, store_curr σ o desired)
  else (false, σ).

(** The shared state an engine call runs against: the orecs, and the
    timestamp counter as the sequence of values its reads return together
    with the number of reads made so far. *)
Record world := mk_world {
  orecs : gmap Z orec_t;
  rdtsc : nat -> Z;
  reads : nat
}.

Definition with_orecs (w : world) (σ : gmap Z orec_t) : world :=
  mk_world σ (rdtsc w) (reads w).

(** [get_time_relaxed()] *)
Definition get_time_relaxed (w : world) : Z * world :=
  (rdtsc w (reads w), mk_world (orecs w) (rdtsc w) (S (reads w))).

(** The private fields of [exotm_t]. *)
Record exotm_t := mk_exotm {
  start_time : Z;
  locks : list Z;
  my_lock : Z;
  last_wo_end_time : Z;
  unwound : bool
}.

(** [exotm_t()], for a context that lives at address [this]. *)
Definition exotm_new (this : Z) : exotm_t :=
  mk_exotm END_OF_TIME [] (Z.lor LOCK_BIT this) 0 false.

Definition set_start_time (me : exotm_t) (t : Z) : exotm_t :=
  mk_exotm t (locks me) (my_lock me) (last_wo_end_time me) (unwound me).

Definition set_locks (me : exotm_t) (l : list Z) : exotm_t :=
  mk_exotm (start_time me) l (my_lock me) (last_wo_end_time me) (unwound me).

Definition set_last_wo_end_time (me : exotm_t) (t : Z) : exotm_t :=
  mk_exotm (start_time me) (locks me) (my_lock me) t (unwound me).

Definition set_unwound (me : exotm_t) (b : bool) : exotm_t :=
  mk_exotm (start_time me) (locks me) (my_lock me) (last_wo_end_time me) b.

(** [locks.push_back(o)] *)
Definition push_lock (me : exotm_t) (o : Z) : exotm_t :=
  set_locks me (locks me ++ [o]).

Definition ro_begin (me : exotm_t) (w : world) : exotm_t * world :=
  let '(time, w1) := get_time_relaxed w in
  (set_start_time me time, w1).

Definition ro_end (me : exotm_t) : exotm_t :=
  set_start_time me END_OF_TIME.

Definition check_orec (me : exotm_t) (w : world) (o : Z) : Z :=
  let res := curr (load (orecs w) o) in
  if (res <=? start_time me) || (res =? my_lock me) then res else END_OF_TIME.

Definition check_continuation (w : world) (o val : Z) : bool :=
  curr (load (orecs w) o) <=? val.

(** The three-argument overload: the result and the [mine] out-parameter. *)
Definition check_continuation_mine (me : exotm_t) (w : world) (o val : Z)
  : bool * bool :=
  let res := curr (load (orecs w) o) in
  (res <=? val, res =? my_lock me).

Definition wo_begin (me : exotm_t) (w : world) : exotm_t * world :=
  let '(time, w1) := get_time_relaxed w in
  (set_unwound (set_start_time me time) false, w1).

(** The acquire functions load the orec and then CAS it.  Other threads
    run between the two steps: [env] is what they do to the orecs there
    ([id] when the caller runs alone). *)
Definition acquire_consistent (env : gmap Z orec_t -> gmap Z orec_t)
    (me : exotm_t) (w : world) (o : Z) : bool * exotm_t * world :=
  let val := curr (load (orecs w) o) in
  if val =? my_lock me then (true, me, w)
  else if val >? start_time me then (false, me, w)
  else
    match compare_exchange_strong (env (orecs w)) o val (my_lock me) with
    | (false, σ) => (false, me, with_orecs w σ)
    | (true, σ) => (true, push_lock me o, with_orecs w (store_prev σ o val))
    end.

Definition acquire_continuation (env : gmap Z orec_t -> gmap Z orec_t)
    (me : exotm_t) (w : world) (o val : Z) : bool * exotm_t * world :=
  let orec_val := curr (load (orecs w) o) in
  if orec_val >? val then (orec_val =? my_lock me, me, w)
  else
    match compare_exchange_strong (env (orecs w)) o orec_val (my_lock me) with
    | (false, σ) => (false, me, with_orecs w σ)
    | (true, σ) =>
        (true, push_lock me o, with_orecs w (store_prev σ o orec_val))
    end.

Definition has_orecs (me : exotm_t) : bool :=
  negb (match locks me with [] => true | _ => false end).

Definition acquire_aggressive (env : gmap Z orec_t -> gmap Z orec_t)
    (me : exotm_t) (w : world) (o : Z) : bool * exotm_t * world :=
  let val := curr (load (orecs w) o) in
  if negb (Z.land val LOCK_BIT =? 0) then (val =? my_lock me, me, w)
  else
    match compare_exchange_strong (env (orecs w)) o val (my_lock me) with
    | (true, σ) => (true, push_lock me o, with_orecs w (store_prev σ o val))
    | (false, σ) => (false, me, with_orecs w σ)
    end.

(** [for (auto o : locks) o->curr.store(f(o))] *)
Definition release_all (f : orec_t -> Z) (l : list Z) (σ : gmap Z orec_t)
  : gmap Z orec_t :=
  foldl (fun σ o => store_curr σ o (f (load σ o))) σ l.

Definition wo_end (me : exotm_t) (w : world) : exotm_t * world :=
  if unwound me then (set_unwound me false, w)
  else
    let me1 := set_start_time me END_OF_TIME in
    let '(t, w1) := get_time_relaxed w in
    let me2 := set_last_wo_end_time me1 t in
    let σ := release_all (fun _ => t) (locks me2) (orecs w1) in
    (set_locks me2 [], with_orecs w1 σ).

Definition unwind (how : UNWIND_TYPES) (me : exotm_t) (w : world)
  : exotm_t * world :=
  let me1 := set_unwound me true in
  let me2 := set_start_time me1 END_OF_TIME in
  let σ :=
    match how with
    | ROLLBACK_ORECS => release_all (fun r => prev r) (locks me2) (orecs w)
    | BUMP_ORECS =>
        release_all (fun r => wrap64 (prev r + 1)) (locks me2) (orecs w)
    end in
  (set_locks me2 [], with_orecs w σ).

Definition get_start_time (me : exotm_t) : Z := start_time me.

Definition get_last_wo_end_time (me : exotm_t) : Z := last_wo_end_time me.

(** *** Stores to orecs *)

Lemma load_store_curr_eq σ o v :
  load (store_curr σ o v) o = mk_orec v (prev (load σ o)).
Proof. unfold load, store_curr. by rewrite lookup_insert_eq. Qed.

Lemma load_store_curr_ne σ o o' v :
  o ≠ o' -> load (store_curr σ o v) o' = load σ o'.
Proof. intros Hne. unfold load, store_curr. by rewrite lookup_insert_ne. Qed.

Lemma load_store_prev_eq σ o v :
  load (store_prev σ o v) o = mk_orec (curr (load σ o)) v.
Proof. unfold load, store_prev. by rewrite lookup_insert_eq. Qed.

Lemma load_store_prev_ne σ o o' v :
  o ≠ o' -> load (store_prev σ o v) o' = load σ o'.
Proof. intros Hne. unfold load, store_prev. by rewrite lookup_insert_ne. Qed.

Lemma prev_store_curr σ o o' v :
  prev (load (store_curr σ o v) o') = prev (load σ o').
Proof.
  destruct (decide (o = o')) as [->|Hne].
  - by rewrite load_store_curr_eq.
  - by rewrite load_store_curr_ne.
Qed.

(** Releasing a list of orecs never touches a [prev] slot. *)
Lemma release_all_prev f l : forall σ o,
  prev (load (release_all f l σ) o) = prev (load σ o).
Proof.
  induction l as [|a l IH]; intros σ o; simpl; [done|].
  unfold release_all in *. simpl. rewrite IH. apply prev_store_curr.
Qed.

(** An orec outside the list keeps its value. *)
Lemma release_all_other f l : forall σ o,
  o ∉ l -> load (release_all f l σ) o = load σ o.
Proof.
  induction l as [|a l IH]; intros σ o Hnin; [done|].
  apply not_elem_of_cons in Hnin as [Hne Hnin].
  unfold release_all in *. simpl. rewrite IH by done.
  by apply load_store_curr_ne.
Qed.

(** An orec of the list ends with the value computed from its [prev]. *)
Lemma release_all_member (g : Z -> Z) l : forall σ o,
  o ∈ l ->
  curr (load (release_all (fun r => g (prev r)) l σ) o) = g (prev (load σ o)).
Proof.
  induction l as [|a l IH]; intros σ o Hin; [by apply elem_of_nil in Hin|].
  change (release_all (fun r => g (prev r)) (a :: l) σ)
    with (release_all (fun r => g (prev r)) l
            (store_curr σ a (g (prev (load σ a))))).
  destruct (decide (o ∈ l)) as [Hl|Hl].
  - rewrite IH by done. by rewrite prev_store_curr.
  - apply elem_of_cons in Hin as [->|Hin]; [|done].
    rewrite release_all_other by done. by rewrite load_store_curr_eq.
Qed.

(** *** Results about single calls *)

Lemma wrap64_small x : 0 <= x < 2 ^ 64 -> wrap64 x = x.
Proof. intros H. unfold wrap64. by apply Z.mod_small. Qed.

Lemma cas_success σ o v d :
  curr (load σ o) = v ->
  compare_exchange_strong σ o v d = (true, store_curr σ o d).
Proof.
  intros H. unfold compare_exchange_strong.
  by rewrite (proj2 (Z.eqb_eq _ _) H).
Qed.

Lemma cas_failure σ o v d :
  curr (load σ o) ≠ v -> compare_exchange_strong σ o v d = (false, σ).
Proof.
  intros H. unfold compare_exchange_strong.
  by rewrite (proj2 (Z.eqb_neq _ _) H).
Qed.

(** A word that is at most a time below [LOCK_BIT] has its lock bit clear. *)
Lemma below_lock_bit_unlocked v t :
  0 <= v -> v <= t -> t < LOCK_BIT -> Z.land v LOCK_BIT = 0.
Proof.
  intros H0 Hle Hlt. unfold LOCK_BIT in *.
  rewrite Z.shiftl_1_l in *.
  apply Z.bits_inj'. intros n Hn. rewrite Z.land_spec, Z.bits_0.
  destruct (decide (n = 63)) as [->|Hne].
  - assert (Z.testbit v 63 = false) as ->; [|done].
    destruct (decide (v = 0)) as [->|Hv]; [apply Z.bits_0|].
    apply Z.bits_above_log2; [lia|]. apply Z.log2_lt_pow2; lia.
  - rewrite Z.pow2_bits_eqb by lia.
    rewrite (proj2 (Z.eqb_neq 63 n)) by lia. apply andb_false_r.
Qed.

(** C3.  [unwind(how)] stores [END_OF_TIME] to [start_time], gives every
    orec of [locks] the value of its [prev] slot (ROLLBACK_ORECS) or that
    value plus one in 64-bit arithmetic (BUMP_ORECS), leaves every other orec
    and every [prev] slot alone, empties [locks] and sets [unwound]; the
    [wo_end] that follows only clears [unwound]: it changes no orec, reads no
    clock and keeps [last_wo_end_time] and [start_time]. *)
Theorem unwind_then_wo_end (how : UNWIND_TYPES) (me : exotm_t) (w : world) :
  let '(me1, w1) := unwind how me w in
  start_time me1 = END_OF_TIME /\
  locks me1 = [] /\
  unwound me1 = true /\
  my_lock me1 = my_lock me /\
  last_wo_end_time me1 = last_wo_end_time me /\
  reads w1 = reads w /\
  (forall o, o ∈ locks me ->
     curr (load (orecs w1) o) =
       match how with
       | ROLLBACK_ORECS => prev (load (orecs w) o)
       | BUMP_ORECS => wrap64 (prev (load (orecs w) o) + 1)
       end) /\
  (forall o, o ∈ locks me -> how = BUMP_ORECS ->
     0 <= prev (load (orecs w) o) < ULLONG_MAX ->
     curr (load (orecs w1) o) = prev (load (orecs w) o) + 1) /\
  (forall o, o ∉ locks me -> load (orecs w1) o = load (orecs w) o) /\
  (forall o, prev (load (orecs w1) o) = prev (load (orecs w) o)) /\
  wo_end me1 w1 =
    (mk_exotm END_OF_TIME [] (my_lock me) (last_wo_end_time me) false, w1).
Proof.
  unfold unwind. simpl.
  assert (Hmem : forall o, o ∈ locks me ->
    curr (load match how with
       | ROLLBACK_ORECS => release_all (fun r => prev r) (locks me) (orecs w)
       | BUMP_ORECS =>
           release_all (fun r => wrap64 (prev r + 1)) (locks me) (orecs w)
       end o) =
       match how with
       | ROLLBACK_ORECS => prev (load (orecs w) o)
       | BUMP_ORECS => wrap64 (prev (load (orecs w) o) + 1)
       end).
  { intros o Ho. destruct how.
    - by apply (release_all_member (fun p => p)).
    - by apply (release_all_member (fun p => wrap64 (p + 1))). }
  repeat split; try done.
  - intros o Ho -> Hp. rewrite Hmem by done.
    apply wrap64_small. unfold ULLONG_MAX in Hp. lia.
  - intros o Ho. destruct how; by apply release_all_other.
  - intros o. destruct how; apply release_all_prev.
Qed.

(** The three acquire functions add an orec to [locks] only after their CAS
    from the loaded value succeeded. *)
Lemma acquire_consistent_locks env me w o b me' w' :
  acquire_consistent env me w o = (b, me', w') ->
  locks me' ≠ locks me ->
  b = true /\ me' = push_lock me o /\
  curr (load (orecs w) o) ≠ my_lock me /\
  curr (load (orecs w) o) <= start_time me /\
  curr (load (env (orecs w)) o) = curr (load (orecs w) o) /\
  load (orecs w') o = mk_orec (my_lock me) (curr (load (orecs w) o)).
Proof.
  unfold acquire_consistent, compare_exchange_strong. intros Heq Hl.
  destruct (Z.eqb_spec (curr (load (orecs w) o)) (my_lock me)) as [?|Hmine];
    [by inversion Heq; subst|].
  destruct (Z.gtb_spec (curr (load (orecs w) o)) (start_time me)) as [?|Hle];
    [by inversion Heq; subst|].
  destruct (Z.eqb_spec (curr (load (env (orecs w)) o))
              (curr (load (orecs w) o))) as [Hcas|?];
    [|by inversion Heq; subst].
  inversion Heq; subst. simpl.
  rewrite load_store_prev_eq, load_store_curr_eq. simpl.
  repeat split; try done; lia.
Qed.

Lemma acquire_continuation_locks env me w o val b me' w' :
  acquire_continuation env me w o val = (b, me', w') ->
  locks me' ≠ locks me ->
  b = true /\ me' = push_lock me o /\
  curr (load (orecs w) o) <= val /\
  curr (load (env (orecs w)) o) = curr (load (orecs w) o) /\
  load (orecs w') o = mk_orec (my_lock me) (curr (load (orecs w) o)).
Proof.
  unfold acquire_continuation, compare_exchange_strong. intros Heq Hl.
  destruct (Z.gtb_spec (curr (load (orecs w) o)) val) as [?|Hle];
    [by inversion Heq; subst|].
  destruct (Z.eqb_spec (curr (load (env (orecs w)) o))
              (curr (load (orecs w) o))) as [Hcas|?];
    [|by inversion Heq; subst].
  inversion Heq; subst. simpl.
  rewrite load_store_prev_eq, load_store_curr_eq. simpl.
  repeat split; try done; lia.
Qed.

Lemma acquire_aggressive_locks env me w o b me' w' :
  acquire_aggressive env me w o = (b, me', w') ->
  locks me' ≠ locks me ->
  b = true /\ me' = push_lock me o /\
  Z.land (curr (load (orecs w) o)) LOCK_BIT = 0 /\
  curr (load (env (orecs w)) o) = curr (load (orecs w) o) /\
  load (orecs w') o = mk_orec (my_lock me) (curr (load (orecs w) o)).
Proof.
  unfold acquire_aggressive, compare_exchange_strong. intros Heq Hl.
  destruct (Z.eqb_spec (Z.land (curr (load (orecs w) o)) LOCK_BIT) 0)
    as [Hfree|?]; simpl in Heq; [|by inversion Heq; subst].
  destruct (Z.eqb_spec (curr (load (env (orecs w)) o))
              (curr (load (orecs w) o))) as [Hcas|?];
    [|by inversion Heq; subst].
  inversion Heq; subst. simpl.
  rewrite load_store_prev_eq, load_store_curr_eq. simpl.
  repeat split; done.
Qed.

(** C2, as the code has it.  [acquire_consistent(o)] returns true at once
    when [o.curr] is the caller's lock word; otherwise, with [v] the loaded
    value, it returns false when [v > start_time], and else it CASes [o.curr]
    from [v] to [my_lock]: on success it records [o.prev = v], appends [o] to
    [locks] and returns true, on failure it returns false.  Whenever one of
    [acquire_consistent], [acquire_continuation] and [acquire_aggressive]
    adds an orec to [locks], its CAS from the loaded value [v] to the
    caller's lock word succeeded; [v <= start_time] holds for
    [acquire_consistent] (and then [v] is unlocked when [start_time] is below
    [LOCK_BIT]), [v <= val] for [acquire_continuation], and
    [acquire_aggressive] only has [v] unlocked. *)
Theorem acquire_consistent_cas (env : gmap Z orec_t -> gmap Z orec_t)
    (me : exotm_t) (w : world) (o : Z) :
  let v := curr (load (orecs w) o) in
  let σ := env (orecs w) in
  (v = my_lock me -> acquire_consistent env me w o = (true, me, w)) /\
  (v ≠ my_lock me -> v > start_time me ->
     acquire_consistent env me w o = (false, me, w)) /\
  (v ≠ my_lock me -> v <= start_time me -> curr (load σ o) = v ->
     acquire_consistent env me w o =
       (true, push_lock me o,
        with_orecs w (store_prev (store_curr σ o (my_lock me)) o v))) /\
  (v ≠ my_lock me -> v <= start_time me -> curr (load σ o) ≠ v ->
     acquire_consistent env me w o = (false, me, with_orecs w σ)) /\
  (forall b me' w',
     acquire_consistent env me w o = (b, me', w') -> locks me' ≠ locks me ->
     b = true /\ locks me' = locks me ++ [o] /\
     v <= start_time me /\ curr (load σ o) = v /\
     load (orecs w') o = mk_orec (my_lock me) v /\
     (0 <= v -> start_time me < LOCK_BIT -> Z.land v LOCK_BIT = 0)) /\
  (forall val b me' w',
     acquire_continuation env me w o val = (b, me', w') ->
     locks me' ≠ locks me ->
     b = true /\ locks me' = locks me ++ [o] /\
     v <= val /\ curr (load σ o) = v /\
     load (orecs w') o = mk_orec (my_lock me) v) /\
  (forall b me' w',
     acquire_aggressive env me w o = (b, me', w') -> locks me' ≠ locks me ->
     b = true /\ locks me' = locks me ++ [o] /\
     Z.land v LOCK_BIT = 0 /\ curr (load σ o) = v /\
     load (orecs w') o = mk_orec (my_lock me) v).
Proof.
  cbv zeta. split; [|split; [|split; [|split; [|split; [|split]]]]].
  - intros Hv. unfold acquire_consistent.
    by rewrite (proj2 (Z.eqb_eq _ _) Hv).
  - intros Hv Hgt. unfold acquire_consistent.
    rewrite (proj2 (Z.eqb_neq _ _) Hv).
    by rewrite (proj2 (Z.gtb_gt _ _) Hgt).
  - intros Hv Hle Hcas. unfold acquire_consistent.
    rewrite (proj2 (Z.eqb_neq _ _) Hv).
    destruct (Z.gtb_spec (curr (load (orecs w) o)) (start_time me)); [lia|].
    by rewrite cas_success.
  - intros Hv Hle Hcas. unfold acquire_consistent.
    rewrite (proj2 (Z.eqb_neq _ _) Hv).
    destruct (Z.gtb_spec (curr (load (orecs w) o)) (start_time me)); [lia|].
    by rewrite cas_failure.
  - intros b me' w' Heq Hl.
    destruct (acquire_consistent_locks _ _ _ _ _ _ _ Heq Hl)
      as (?&->&?&?&?&?).
    repeat split; try done. intros. by eapply below_lock_bit_unlocked.
  - intros val b me' w' Heq Hl.
    by destruct (acquire_continuation_locks _ _ _ _ _ _ _ _ Heq Hl)
      as (?&->&?&?&?).
  - intros b me' w' Heq Hl.
    by destruct (acquire_aggressive_locks _ _ _ _ _ _ _ Heq Hl)
      as (?&->&?&?&?).
Qed.

(** C2 as stated fails in two ways.  [acquire_aggressive] acquires an
    unlocked orec whose value 10 is above the caller's [start_time] 5; and
    [acquire_consistent], run by a context whose [start_time] is
    [END_OF_TIME], acquires an orec that carries another thread's lock
    word. *)
Lemma acquired_not_consistent :
  let me := mk_exotm 5 [] (Z.lor LOCK_BIT 4096) 0 false in
  let w := mk_world {[ 64 := mk_orec 10 0 ]} (fun _ => 0) 0 in
  let idle := exotm_new 4096 in
  let other := Z.lor LOCK_BIT 8192 in
  let w2 := mk_world {[ 64 := mk_orec other 7 ]} (fun _ => 0) 0 in
  (curr (load (orecs w) 64) >? start_time me) = true /\
  fst (fst (acquire_aggressive id me w 64)) = true /\
  locks (snd (fst (acquire_aggressive id me w 64))) = [64] /\
  load (orecs (snd (acquire_aggressive id me w 64))) 64
    = mk_orec (my_lock me) 10 /\
  Z.land (curr (load (orecs w2) 64)) LOCK_BIT = LOCK_BIT /\
  fst (fst (acquire_consistent id idle w2 64)) = true /\
  locks (snd (fst (acquire_consistent id idle w2 64))) = [64] /\
  load (orecs (snd (acquire_consistent id idle w2 64))) 64
    = mk_orec (my_lock idle) other.
Proof. vm_compute. repeat split; reflexivity. Qed.

End Exotm.

(* ===================================================================== *)
(** * timestamp_smr.h: timestamp-based safe memory reclamation           *)
(* ===================================================================== *)

Module Smr.

(** [static const int SWEEP_THRESHOLD = 1024] *)
Definition SWEEP_THRESHOLD : Z := 1024.

(** The private fields of [timestamp_smr_t] ([next] apart: the chain of
    contexts is given to [exit] as the timestamps it holds).  Reclaimable
    objects are named by their address; [unreachable] is the deque of
    [{pointer, timestamp}] pairs, front first. *)
Record timestamp_smr_t := mk_smr {
  ts : Z;
  pending : list Z;
  unreachable : list (Z * Z);
  exits_remaining : Z
}.

(** [timestamp_smr_t(globals)]: [ts(ULLONG_MAX)], empty collections,
    [exits_remaining = SWEEP_THRESHOLD]. *)
Definition smr_new : timestamp_smr_t :=
  mk_smr ULLONG_MAX [] [] SWEEP_THRESHOLD.

(** [enter()], with [time] the value [__rdtscp] returns. *)
Definition enter (time : Z) (me : timestamp_smr_t) : timestamp_smr_t :=
  mk_smr time (pending me) (unreachable me) (exits_remaining me).

(** [reclaim(ptr)] *)
Definition reclaim (ptr : Z) (me : timestamp_smr_t) : timestamp_smr_t :=
  mk_smr (ts me) (pending me ++ [ptr]) (unreachable me) (exits_remaining me).

(** The first loop of [sweep]: the walk over [all_threads] that keeps the
    smallest timestamp seen, starting from [ULLONG_MAX]. *)
Definition oldest_of (all_ts : list Z) : Z :=
  foldl (fun oldest t => if t <? oldest then t else oldest) ULLONG_MAX all_ts.

(** The second loop of [sweep]: pop and delete from the front until a
    record is not old enough.  The result is the pointers deleted, in
    order, and what is left of the deque. *)
Fixpoint sweep_loop (oldest : Z) (u : list (Z * Z)) : list Z * list (Z * Z) :=
  match u with
  | [] => ([], [])
  | (ptr, t) :: rest =>
      if t >=? oldest then ([], u)
      else let '(deleted, kept) := sweep_loop oldest rest in
           (ptr :: deleted, kept)
  end.

(** [sweep(globals)]: [all_ts] are the timestamps loaded from the contexts
    of the chain. *)
Definition sweep (all_ts : list Z) (me : timestamp_smr_t)
  : list Z * timestamp_smr_t :=
  let '(deleted, kept) := sweep_loop (oldest_of all_ts) (unreachable me) in
  (deleted, mk_smr (ts me) (pending me) kept (exits_remaining me)).

(** [exit(globals)].  [others] are the timestamps published by the other
    contexts of the chain, [time] is the value [__rdtscp] returns.  The
    chain holds the caller's context too, so the walk of [sweep] also loads
    the caller's own [ts].  The result lists the pointers deleted. *)
Definition exit (others : list Z) (time : Z) (me : timestamp_smr_t)
  : list Z * timestamp_smr_t :=
  let me1 := mk_smr ULLONG_MAX (pending me) (unreachable me)
                    (exits_remaining me) in
  match pending me1 with
  | [] => ([], me1)
  | _ :: _ =>
      let u := unreachable me1 ++ ((fun p => (p, time)) <$> pending me1) in
      let remaining := exits_remaining me1 - 1 in
      if remaining >? 0 then ([], mk_smr (ts me1) [] u remaining)
      else sweep (ts me1 :: others) (mk_smr (ts me1) [] u SWEEP_THRESHOLD)
  end.

(** A thread that retires two objects in each of [n] operations, with no
    other thread active: the pointers deleted by all the exits together,
    and the final context. *)
Fixpoint two_per_exit (n : nat) (time : Z) (me : timestamp_smr_t)
  : list Z * timestamp_smr_t :=
  match n with
  | O => ([], me)
  | S k =>
      let me1 := enter time me in
      let me2 := reclaim (time * 2 + 1) (reclaim (time * 2) me1) in
      let '(deleted, me3) := exit [] (time + 1) me2 in
      let '(deleted', me4) := two_per_exit k (time + 2) me3 in
      (deleted ++ deleted', me4)
  end.

(** The deque is ordered by stamp, oldest first. *)
Definition by_stamp (u : list (Z * Z)) : Prop :=
  StronglySorted (fun a b => snd a <= snd b) u.

(** *** The minimum of the published timestamps *)

Lemma oldest_fold_le l : forall acc,
  foldl (fun oldest t => if t <? oldest then t else oldest) acc l <= acc.
Proof.
  induction l as [|t l IH]; intros acc; simpl; [lia|].
  specialize (IH (if t <? acc then t else acc)).
  destruct (Z.ltb_spec t acc); lia.
Qed.

Lemma oldest_fold_lower l : forall acc t,
  t ∈ l ->
  foldl (fun oldest t => if t <? oldest then t else oldest) acc l <= t.
Proof.
  induction l as [|a l IH]; intros acc t Hin; [by apply elem_of_nil in Hin|].
  simpl. apply elem_of_cons in Hin as [->|Hin]; [|by apply IH].
  pose proof (oldest_fold_le l (if a <? acc then a else acc)).
  destruct (Z.ltb_spec a acc); lia.
Qed.

Lemma oldest_fold_attained l : forall acc,
  let m := foldl (fun oldest t => if t <? oldest then t else oldest) acc l in
  m = acc \/ m ∈ l.
Proof.
  induction l as [|a l IH]; intros acc; simpl; [by left|].
  destruct (IH (if a <? acc then a else acc)) as [H|H].
  - rewrite H. destruct (Z.ltb_spec a acc); [right; left|by left].
  - right. by right.
Qed.

(** *** The sweep of an ordered deque *)

Lemma sweep_loop_keeps_all oldest (u : list (Z * Z)) :
  Forall (fun r => oldest <= snd r) u ->
  List.filter (fun r => snd r <? oldest) u = [] /\
  List.filter (fun r => snd r >=? oldest) u = u.
Proof.
  induction 1 as [|r u Hr _ [IH1 IH2]]; [done|]. simpl.
  destruct (Z.ltb_spec (snd r) oldest); [lia|].
  destruct (Z.geb_spec (snd r) oldest); [|lia].
  by rewrite IH1, IH2.
Qed.

Lemma sweep_loop_ordered oldest (u : list (Z * Z)) :
  by_stamp u ->
  sweep_loop oldest u =
    (map fst (List.filter (fun r => snd r <? oldest) u),
     List.filter (fun r => snd r >=? oldest) u).
Proof.
  induction 1 as [|[ptr t] u Hu IH Hall]; [done|].
  simpl. destruct (Z.geb_spec t oldest) as [Hge|Hlt].
  - destruct (Z.ltb_spec t oldest); [lia|].
    destruct (sweep_loop_keeps_all oldest u) as [-> ->]; [|done].
    eapply Forall_impl; [exact Hall|]. simpl. intros; lia.
  - destruct (Z.ltb_spec t oldest); [|lia]. by rewrite IH.
Qed.

(** Stamping the pending objects with a time that is not below the stamps
    already in the deque keeps the deque ordered. *)
Lemma by_stamp_push (u : list (Z * Z)) (ps : list Z) time :
  by_stamp u -> Forall (fun r => snd r <= time) u ->
  by_stamp (u ++ ((fun p => (p, time)) <$> ps)).
Proof.
  unfold by_stamp. induction 1 as [|r u Hu IH Hall]; intros Hle.
  - simpl. induction ps as [|p ps IHps]; simpl; constructor; [done|].
    apply Forall_forall. intros x Hx.
    apply list_elem_of_fmap in Hx as (q & -> & _). simpl. lia.
  - inversion Hle; subst. simpl. constructor; [by apply IH|].
    apply Forall_app. split; [done|].
    apply Forall_forall. intros x Hx.
    apply list_elem_of_fmap in Hx as (q & -> & _). done.
Qed.

(** C7, as the code has it.  An exit with nothing pending only publishes
    [ULLONG_MAX].  An exit with pending objects stamps them with [time],
    appends them to the deque and counts down [exits_remaining], which starts
    at 1024: it sweeps when the count reaches zero, and sets the count back
    to 1024; so a sweep occurs once every 1024 exits that retire something,
    however many objects each of them retires.  On a deque ordered by stamp
    a sweep deletes exactly the records whose stamp is strictly below the
    minimum of the published timestamps and keeps every other record; the
    minimum is [ULLONG_MAX] or one of the published timestamps, and is at
    most each of them; stamping with a time not below the stamps present
    keeps the deque ordered. *)
Theorem sweep_every_threshold_exits (others : list Z) (time : Z)
    (me : timestamp_smr_t) :
  let u := unreachable me ++ ((fun p => (p, time)) <$> pending me) in
  exits_remaining smr_new = 1024 /\
  (pending me = [] ->
     exit others time me =
       ([], mk_smr ULLONG_MAX [] (unreachable me) (exits_remaining me))) /\
  (pending me ≠ [] -> exits_remaining me > 1 ->
     exit others time me =
       ([], mk_smr ULLONG_MAX [] u (exits_remaining me - 1))) /\
  (pending me ≠ [] -> exits_remaining me <= 1 ->
     exit others time me =
       sweep (ULLONG_MAX :: others) (mk_smr ULLONG_MAX [] u SWEEP_THRESHOLD)) /\
  (forall all_ts, by_stamp (unreachable me) ->
     sweep all_ts me =
       (map fst (List.filter (fun r => snd r <? oldest_of all_ts)
                             (unreachable me)),
        mk_smr (ts me) (pending me)
          (List.filter (fun r => snd r >=? oldest_of all_ts) (unreachable me))
          (exits_remaining me))) /\
  (forall all_ts,
     oldest_of all_ts <= ULLONG_MAX /\
     (forall t, t ∈ all_ts -> oldest_of all_ts <= t) /\
     (oldest_of all_ts = ULLONG_MAX \/ oldest_of all_ts ∈ all_ts)) /\
  (by_stamp (unreachable me) ->
   Forall (fun r => snd r <= time) (unreachable me) -> by_stamp u).
Proof.
  cbv zeta. split; [done|]. split; [|split; [|split; [|split; [|split]]]].
  - intros Hp. unfold exit. simpl. by rewrite Hp.
  - intros Hp Her. unfold exit. simpl.
    destruct (pending me) as [|p ps]; [done|].
    destruct (Z.gtb_spec (exits_remaining me - 1) 0); [done|lia].
  - intros Hp Her. unfold exit. simpl.
    destruct (pending me) as [|p ps]; [done|].
    destruct (Z.gtb_spec (exits_remaining me - 1) 0); [lia|done].
  - intros all_ts Hs. unfold sweep. by rewrite sweep_loop_ordered.
  - intros all_ts. unfold oldest_of. split; [apply oldest_fold_le|].
    split; [intros t Ht; by apply oldest_fold_lower|].
    apply oldest_fold_attained.
  - apply by_stamp_push.
Qed.

(** The hypotheses of the cases of [sweep_every_threshold_exits] can be
    met: the last exit before a sweep is due, with one thread still active
    at time 30. *)
Lemma sweep_every_threshold_exits_witness :
  exit [30] 50 (mk_smr 20 [7] [(1, 10); (2, 40)] 1) =
    ([1], mk_smr ULLONG_MAX [] [(2, 40); (7, 50)] 1024).
Proof.
  destruct (sweep_every_threshold_exits [30] 50
              (mk_smr 20 [7] [(1, 10); (2, 40)] 1))
    as (_ & _ & _ & Hsweep & _).
  rewrite Hsweep; [reflexivity|discriminate|simpl; lia].
Defined.

(** C7 as stated fails: a thread that retires two objects per operation has
    retired 1024 objects after 512 operations, and no exit has swept: nothing
    was deleted, all 1024 records are in the deque, each with a stamp below
    the minimum [ULLONG_MAX] of the published timestamps, and 512 more exits
    are due before the first sweep. *)
Lemma no_sweep_after_1024_retirements :
  fst (two_per_exit 512 0 smr_new) = [] /\
  length (unreachable (snd (two_per_exit 512 0 smr_new))) = 1024%nat /\
  forallb (fun r => snd r <? oldest_of [ULLONG_MAX])
          (unreachable (snd (two_per_exit 512 0 smr_new))) = true /\
  exits_remaining (snd (two_per_exit 512 0 smr_new)) = 512.
Proof. vm_compute. repeat split; reflexivity. Qed.

End Smr.

(* ===================================================================== *)
(** * hash.h and redolog_nocast.h: the redo log                          *)
(* ===================================================================== *)

(** [uint64_t mix13_hash(uint64_t x)] *)
Definition mix13_hash (x : Z) : Z :=
  let x1 := wrap64 (Z.lxor x (Z.shiftr x 30) * 0xbf58476d1ce4e5b9) in
  let x2 := wrap64 (Z.lxor x1 (Z.shiftr x1 27) * 0x94d049bb133111eb) in
  Z.lxor x2 (Z.shiftr x2 31).

(** The outcome of a call that may stop the program or fail to return. *)
Inductive res (A : Type) : Type :=
| Ok (a : A)   (* the call returns *)
| Stop         (* an [assert] fails, or the index length overflows [int] *)
| Spin.        (* a probing loop has not halted when the fuel ran out *)

Arguments Ok {A} a.
Arguments Stop {A}.
Arguments Spin {A}.

#[global] Instance res_bind : MBind res := fun A B k r =>
  match r with
  | Ok a => k a
  | Stop => Stop
  | Spin => Spin
  end.

(** An array reached through a pointer, with the store [a[i] = x]. *)
Definition upd {A : Type} (a : Z -> A) (i : Z) (x : A) : Z -> A :=
  fun j => if j =? i then x else a j.

Module RedoLog.

(** [static const int SPILL_FACTOR = 3] *)
Definition SPILL_FACTOR : Z := 3.

(** [struct index_t], and its constructor [index_t()]. *)
Record index_t := mk_index { vVer : Z; cAddr : Z; vIdx : Z }.

Definition index_new : index_t := mk_index 0 0 0.

(** [struct writeback_chunk_t]; [data] maps an offset to a byte. *)
Record writeback_chunk_t := mk_chunk {
  bAddr : Z;
  vBytes : Z;
  data : Z -> Z
}.

(** The fields [ht] and [vec] of the log. *)
Record redolog := mk_log {
  ht_tbl : Z -> index_t;
  ht_len : Z;
  ht_ver : Z;
  ht_shift : Z;
  vec_chunks : Z -> writeback_chunk_t;
  vec_cap : Z;
  vec_count : Z
}.

Definition set_ht (s : redolog) (tbl : Z -> index_t) (len ver shift : Z)
  : redolog :=
  mk_log tbl len ver shift (vec_chunks s) (vec_cap s) (vec_count s).

Definition set_tbl (s : redolog) (tbl : Z -> index_t) : redolog :=
  set_ht s tbl (ht_len s) (ht_ver s) (ht_shift s).

Definition set_vec (s : redolog) (chunks : Z -> writeback_chunk_t)
    (cap count : Z) : redolog :=
  mk_log (ht_tbl s) (ht_len s) (ht_ver s) (ht_shift s) chunks cap count.

Section Redolog.

(** The template parameter. *)
Variable CHUNKSIZE : Z.

(** What a block returned by [malloc] for the vector of chunks holds at
    each index: C++ leaves it unspecified. *)
Variable uninit_chunk : Z -> writeback_chunk_t.

(** [static const uintptr_t MASK = ((uintptr_t)CHUNKSIZE) - 1] *)
Definition MASK : Z := CHUNKSIZE - 1.

(** [size_t hash(uintptr_t key)] for a given [ht.shift]. *)
Definition hash_with (shift key : Z) : Z :=
  Z.shiftr (Z.land (mix13_hash key) 0xFFFFFFFF) shift.

Definition hash (s : redolog) (key : Z) : Z := hash_with (ht_shift s) key.

(** [doubleIndexLength()] on [ht.shift]: the new shift and length.  The
    length is [1 << n] computed in [int], which is [2 ^ n] for [n < 31]
    only. *)
Definition doubleIndexLength (shift : Z) : res (Z * Z) :=
  if shift =? 0 then Stop
  else
    let shift' := shift - 1 in
    let n := 8 * 4 - shift' in
    if n <? 31 then Ok (shift', Z.shiftl 1 n) else Stop.

(** The loop [while (ht.tbl[h].vVer == ht.ver) h = (h + 1) % ht.len] of
    [rebuild]: the free position reached. *)
Fixpoint probe_free (fuel : nat) (tbl : Z -> index_t) (ver len h : Z)
  : res Z :=
  match fuel with
  | O => Spin
  | S fuel' =>
      if vVer (tbl h) =? ver then probe_free fuel' tbl ver len ((h + 1) mod len)
      else Ok h
  end.

(** The [for] loop of [rebuild], from chunk [i] on, [todo] chunks left. *)
Fixpoint rebuild_loop (todo : nat) (i : Z) (s : redolog) : res redolog :=
  match todo with
  | O => Ok s
  | S todo' =>
      let key := bAddr (vec_chunks s i) in
      h ← probe_free (Z.to_nat (ht_len s)) (ht_tbl s) (ht_ver s) (ht_len s)
             (hash s key);
      rebuild_loop todo' (i + 1)
        (set_tbl s (upd (ht_tbl s) h (mk_index (ht_ver s) key i)))
  end.

(** [rebuild()] *)
Definition rebuild (s : redolog) : res redolog :=
  if ht_ver s =? 0 then Stop
  else
    '(shift, len) ← doubleIndexLength (ht_shift s);
    rebuild_loop (Z.to_nat (vec_count s)) 0
      (set_ht s (fun _ => index_new) len (ht_ver s) shift).

(** [resize()]: the chunks in use are copied to a block twice as large. *)
Definition resize (s : redolog) : redolog :=
  set_vec s
    (fun i => if i <? vec_count s then vec_chunks s i else uninit_chunk i)
    (vec_cap s * 2) (vec_count s).

(** [reset_internal()] *)
Definition reset_internal (s : redolog) : redolog :=
  set_ht s (fun _ => index_new) (ht_len s) 1 (ht_shift s).

(** The loop [while (ht.len < SPILL_FACTOR * initial_capacity)] of the
    constructor, on [(ht.shift, ht.len)]. *)
Fixpoint grow_index (fuel : nat) (capacity shift len : Z) : res (Z * Z) :=
  match fuel with
  | O => Spin
  | S fuel' =>
      if len <? SPILL_FACTOR * capacity then
        '(shift', len') ← doubleIndexLength shift;
        grow_index fuel' capacity shift' len'
      else Ok (shift, len)
  end.

(** [redolog_nocast_t(initial_capacity)].  Each turn of the loop lowers
    [ht.shift], which starts at 32, so 33 turns are never exceeded. *)
Definition redolog_new (initial_capacity : Z) : res redolog :=
  '(shift, len) ← grow_index 33 initial_capacity (8 * 4) 0;
  Ok (mk_log (fun _ => index_new) len 1 shift uninit_chunk initial_capacity 0).

(** What the probing loop of [lookup] and [reserve] ends with. *)
Inductive probe_result :=
| Hit (idx : Z)    (* an entry of the current version holds the key *)
| Free (h : Z).    (* position [h] holds another version *)

(** The loop shared by [lookup] and [reserve]. *)
Fixpoint probe (fuel : nat) (tbl : Z -> index_t) (ver len key h : Z)
  : res probe_result :=
  match fuel with
  | O => Spin
  | S fuel' =>
      if vVer (tbl h) =? ver then
        if cAddr (tbl h) =? key then Ok (Hit (vIdx (tbl h)))
        else probe fuel' tbl ver len key ((h + 1) mod len)
      else Ok (Free h)
  end.

(** [int lookup(uintptr_t key)]; the fuel is the length of the index. *)
Definition lookup (s : redolog) (key : Z) : res Z :=
  r ← probe (Z.to_nat (ht_len s)) (ht_tbl s) (ht_ver s) (ht_len s) key
         (hash s key);
  match r with
  | Hit idx => Ok idx
  | Free _ => Ok (-1)
  end.

Definition isEmpty (s : redolog) : bool := vec_count s =? 0.

(** [size_t reserve(uintptr_t key)] *)
Definition reserve (s : redolog) (key : Z) : res (Z * redolog) :=
  r ← probe (Z.to_nat (ht_len s)) (ht_tbl s) (ht_ver s) (ht_len s) key
         (hash s key);
  match r with
  | Hit idx => Ok (idx, s)
  | Free h =>
      let result := vec_count s in
      let s1 := set_tbl s (upd (ht_tbl s) h (mk_index (ht_ver s) key result)) in
      let c := vec_chunks s1 (vec_count s1) in
      let s2 := set_vec s1
                  (upd (vec_chunks s1) (vec_count s1) (mk_chunk key 0 (data c)))
                  (vec_cap s1) (vec_count s1 + 1) in
      let s3 := if vec_count s2 =? vec_cap s2 then resize s2 else s2 in
      s4 ← (if vec_count s3 * SPILL_FACTOR >=? ht_len s3 then rebuild s3
             else Ok s3);
      Ok (result, s4)
  end.

(** [clear()] *)
Definition clear (s : redolog) : redolog :=
  let s1 := set_vec s (vec_chunks s) (vec_cap s) 0 in
  let s2 := set_ht s1 (ht_tbl s1) (ht_len s1) (wrap64 (ht_ver s1 + 1))
              (ht_shift s1) in
  if negb (ht_ver s2 =? 0) then s2 else reset_internal s2.

(** Byte [i] of the scalar [val] (x86 is little-endian). *)
Definition byte_of (val i : Z) : Z := Z.land (Z.shiftr val (8 * i)) 0xFF.

(** [*(T * )(d + off) = val], for [sizeof(T) = width]. *)
Definition write_scalar (d : Z -> Z) (off width val : Z) : Z -> Z :=
  fun j => if (off <=? j) && (j <? off + width) then byte_of val (j - off)
           else d j.

(** [*(T * )(d + off)], for [sizeof(T) = n]. *)
Fixpoint read_scalar (n : nat) (d : Z -> Z) (off : Z) : Z :=
  match n with
  | O => 0
  | S n' => d off + 256 * read_scalar n' d (off + 1)
  end.

(** [template <typename T> void insert(T *addr, T val)], for
    [sizeof(T) = width]. *)
Definition insert (width addr val : Z) (s : redolog) : res redolog :=
  let chunk_addr := Z.land addr (Z.lnot MASK) in
  '(vec_idx, s1) ← reserve s chunk_addr;
  let offset := Z.land addr MASK in
  let c := vec_chunks s1 vec_idx in
  let mask := Z.shiftl 1 width - 1 in
  let c' := mk_chunk (bAddr c)
              (Z.lor (vBytes c) (wrap64 (Z.shiftl mask offset)))
              (write_scalar (data c) offset width val) in
  Ok (set_vec s1 (upd (vec_chunks s1) vec_idx c') (vec_cap s1) (vec_count s1)).

(** [template <typename T> bool get(T *addr, T &val)], for
    [sizeof(T) = width]: [None] is the result false, [Some v] the result
    true with [v] stored to [val].  The value is read from the payload at
    the offsets [offset .. offset + width - 1]; the theorems apply a read
    that returns a value to scalars that lie within their chunk, for which
    these are offsets of the payload. *)
Definition get (width addr : Z) (s : redolog) : res (option Z) :=
  if vec_count s =? 0 then Ok None
  else
    let key := Z.land addr (Z.lnot MASK) in
    idx ← lookup s key;
    if idx =? -1 then Ok None
    else
      let offset := Z.land addr MASK in
      let nodemask := Z.shiftr (vBytes (vec_chunks s idx)) offset in
      let mask := Z.shiftl 1 width - 1 in
      let livebits := Z.land mask nodemask mod 2 ^ 32 in
      if livebits =? 0 then Ok None
      else Ok (Some (read_scalar (Z.to_nat width) (data (vec_chunks s idx))
                       offset)).

Definition size (s : redolog) : Z := vec_count s.

(** An atomic store of [writeback]: the address and the bytes written, in
    memory order. *)
Record store := mk_store { st_addr : Z; st_bytes : list Z }.

(** The [n] payload bytes of a chunk from offset [off] on. *)
Definition payload (c : writeback_chunk_t) (off : Z) (n : nat) : list Z :=
  (fun i => data c (off + Z.of_nat i)) <$> seq 0 n.

(** The conversion of a 64-bit word to [int]. *)
Definition to_int (x : Z) : Z := (x + 2 ^ 31) mod 2 ^ 32 - 2 ^ 31.

(** The loop [while (bytes < CHUNKSIZE)] of [writeback] on one chunk, from
    [bytes] on: the stores it makes, in order.  [bytes] grows in every
    turn, so [CHUNKSIZE] turns are never exceeded. *)
Fixpoint chunk_stores (fuel : nat) (c : writeback_chunk_t) (bytes : Z)
  : list store :=
  match fuel with
  | O => []
  | S fuel' =>
      if bytes <? CHUNKSIZE then
        let m := to_int (Z.shiftr (vBytes c) bytes) in
        if (Z.land m 0xFF =? 0xFF) && (bytes mod 8 =? 0) then
          mk_store (bAddr c + bytes) (payload c bytes 8)
            :: chunk_stores fuel' c (bytes + 8)
        else if Z.land m 0xFF =? 0 then chunk_stores fuel' c (bytes + 8)
        else if (Z.land m 0xF =? 0xF) && (bytes mod 4 =? 0) then
          mk_store (bAddr c + bytes) (payload c bytes 4)
            :: chunk_stores fuel' c (bytes + 4)
        else if Z.land m 0xF =? 0 then chunk_stores fuel' c (bytes + 4)
        else if (Z.land m 0x3 =? 0x3) && (bytes mod 2 =? 0) then
          mk_store (bAddr c + bytes) (payload c bytes 2)
            :: chunk_stores fuel' c (bytes + 2)
        else if Z.land m 0x3 =? 0 then chunk_stores fuel' c (bytes + 2)
        else if Z.land m 0x1 =? 0x1 then
          mk_store (bAddr c + bytes) (payload c bytes 1)
            :: chunk_stores fuel' c (bytes + 1)
        else chunk_stores fuel' c (bytes + 1)
      else []
  end.

(** The loop [for (size_t i = 0; i < vec.count; ++i)] of [writeback],
    from chunk [i] on, [todo] chunks left: the stores made, in order. *)
Fixpoint stores_from (todo : nat) (i : Z) (s : redolog) : list store :=
  match todo with
  | O => []
  | S todo' =>
      chunk_stores (Z.to_nat CHUNKSIZE) (vec_chunks s i) 0
        ++ stores_from todo' (i + 1) s
  end.

(** The stores of [writeback()]. *)
Definition writeback_stores (s : redolog) : list store :=
  stores_from (Z.to_nat (vec_count s)) 0 s.

(** Memory maps an address to a byte; a store replaces the bytes it
    covers. *)
Definition apply_store (mem : Z -> Z) (st : store) : Z -> Z :=
  fun a =>
    if (st_addr st <=? a) && (a <? st_addr st + Z.of_nat (length (st_bytes st)))
    then nth (Z.to_nat (a - st_addr st)) (st_bytes st) (mem a)
    else mem a.

(** [writeback()] *)
Definition writeback (s : redolog) (mem : Z -> Z) : Z -> Z :=
  foldl apply_store mem (writeback_stores s).

End Redolog.


(** *** Arithmetic of the probe sequence *)

Lemma next_slot len h :
  0 <= h < len -> (h + 1) mod len = if h + 1 <? len then h + 1 else 0.
Proof.
  intros Hh. destruct (Z.ltb_spec (h + 1) len).
  - apply Z.mod_small. lia.
  - assert (h + 1 = len) as -> by lia. apply Z.mod_same. lia.
Qed.

Lemma next_slot_range len h : 0 <= h < len -> 0 <= (h + 1) mod len < len.
Proof. intros. apply Z.mod_pos_bound. lia. Qed.

(** The slot reached from [h] after [d] steps. *)
Lemma path_step len h e :
  0 < len -> ((h + 1) mod len + e) mod len = (h + (e + 1)) mod len.
Proof.
  intros. rewrite Zplus_mod_idemp_l. f_equal. lia.
Qed.

(** The number of steps from [h] to [h0], going round the index. *)
Definition steps_to (len h h0 : Z) : Z :=
  if h <=? h0 then h0 - h else h0 - h + len.

Lemma steps_to_next len h h0 :
  0 <= h < len -> 0 <= h0 < len -> h ≠ h0 ->
  steps_to len ((h + 1) mod len) h0 = steps_to len h h0 - 1.
Proof.
  intros Hh Hh0 Hne. rewrite next_slot by done. unfold steps_to.
  destruct (Z.ltb_spec (h + 1) len);
    destruct (Z.leb_spec h h0); destruct (Z.leb_spec (h + 1) h0);
    destruct (Z.leb_spec 0 h0); lia.
Qed.

Lemma steps_to_range len h h0 :
  0 <= h < len -> 0 <= h0 < len -> 0 <= steps_to len h h0 < len.
Proof. intros. unfold steps_to. destruct (Z.leb_spec h h0); lia. Qed.

(** *** Counting the entries of the current version *)

(** The number of positions below [n] whose entry has version [ver]. *)
Fixpoint nvalid (n : nat) (tbl : Z -> index_t) (ver : Z) : Z :=
  match n with
  | O => 0
  | S n' =>
      (if vVer (tbl (Z.of_nat n')) =? ver then 1 else 0) + nvalid n' tbl ver
  end.

Lemma nvalid_range n tbl ver : 0 <= nvalid n tbl ver <= Z.of_nat n.
Proof.
  induction n as [|n IH]; simpl; [lia|].
  destruct (vVer (tbl (Z.of_nat n)) =? ver); lia.
Qed.

(** An index that is not full has a position of another version. *)
Lemma nvalid_free n tbl ver :
  nvalid n tbl ver < Z.of_nat n ->
  exists h, 0 <= h < Z.of_nat n /\ vVer (tbl h) ≠ ver.
Proof.
  induction n as [|n IH]; simpl; [lia|]. intros Hlt.
  destruct (Z.eqb_spec (vVer (tbl (Z.of_nat n))) ver) as [Heq|Hne].
  - destruct IH as (h & Hh & Hv); [lia|]. exists h. split; [lia|done].
  - exists (Z.of_nat n). split; [lia|done].
Qed.

Lemma nvalid_none n tbl ver :
  (forall h, 0 <= h < Z.of_nat n -> vVer (tbl h) ≠ ver) ->
  nvalid n tbl ver = 0.
Proof.
  induction n as [|n IH]; simpl; [done|]. intros Hall.
  rewrite IH by (intros; apply Hall; lia).
  destruct (Z.eqb_spec (vVer (tbl (Z.of_nat n))) ver) as [Heq|Hne]; [|done].
  exfalso. apply (Hall (Z.of_nat n)); [lia|done].
Qed.

Lemma nvalid_upd_above n tbl ver h e :
  Z.of_nat n <= h -> nvalid n (upd tbl h e) ver = nvalid n tbl ver.
Proof.
  induction n as [|n IH]; simpl; [done|]. intros Hh. unfold upd at 1.
  destruct (Z.eqb_spec (Z.of_nat n) h); [lia|]. rewrite IH by lia. done.
Qed.

(** Claiming a position of another version adds one to the count. *)
Lemma nvalid_upd n tbl ver h e :
  0 <= h < Z.of_nat n -> vVer (tbl h) ≠ ver -> vVer e = ver ->
  nvalid n (upd tbl h e) ver = nvalid n tbl ver + 1.
Proof.
  intros Hh Hfree He. induction n as [|n IH]; simpl; [lia|].
  unfold upd at 1. destruct (Z.eqb_spec (Z.of_nat n) h) as [Heq|Hne].
  - subst h. rewrite He, Z.eqb_refl.
    destruct (Z.eqb_spec (vVer (tbl (Z.of_nat n))) ver); [congruence|].
    rewrite nvalid_upd_above by lia. lia.
  - rewrite IH by lia. lia.
Qed.

(** *** The probing loops *)

(** The probe halts within the number of steps to a position of another
    version. *)
Lemma probe_halts tbl ver len key h0 :
  0 <= h0 < len -> vVer (tbl h0) ≠ ver ->
  forall fuel h, 0 <= h < len -> steps_to len h h0 < Z.of_nat fuel ->
  exists r, probe fuel tbl ver len key h = Ok r.
Proof.
  intros Hh0 Hfree. induction fuel as [|fuel IH]; intros h Hh Hd.
  - pose proof (steps_to_range len h h0 Hh Hh0). lia.
  - simpl. destruct (Z.eqb_spec (vVer (tbl h)) ver) as [Hv|Hv]; [|eauto].
    destruct (Z.eqb_spec (cAddr (tbl h)) key); [eauto|].
    apply IH; [by apply next_slot_range|].
    rewrite steps_to_next; [lia|done|done|congruence].
Qed.

Lemma probe_free_halts tbl ver len h0 :
  0 <= h0 < len -> vVer (tbl h0) ≠ ver ->
  forall fuel h, 0 <= h < len -> steps_to len h h0 < Z.of_nat fuel ->
  exists h', probe_free fuel tbl ver len h = Ok h'.
Proof.
  intros Hh0 Hfree. induction fuel as [|fuel IH]; intros h Hh Hd.
  - pose proof (steps_to_range len h h0 Hh Hh0). lia.
  - simpl. destruct (Z.eqb_spec (vVer (tbl h)) ver) as [Hv|Hv]; [|eauto].
    apply IH; [by apply next_slot_range|].
    rewrite steps_to_next; [lia|done|done|congruence].
Qed.

(** What the probe has seen when it returns: [d] positions of the current
    version that hold other keys, and then the position it reports. *)
Lemma probe_spec tbl ver len key :
  forall fuel h r, 0 <= h < len ->
  probe fuel tbl ver len key h = Ok r ->
  exists d, 0 <= d < Z.of_nat fuel /\
    (forall e, 0 <= e < d ->
       vVer (tbl ((h + e) mod len)) = ver /\
       cAddr (tbl ((h + e) mod len)) ≠ key) /\
    match r with
    | Hit idx =>
        vVer (tbl ((h + d) mod len)) = ver /\
        cAddr (tbl ((h + d) mod len)) = key /\
        vIdx (tbl ((h + d) mod len)) = idx
    | Free h' => h' = (h + d) mod len /\ vVer (tbl h') ≠ ver
    end.
Proof.
  induction fuel as [|fuel IH]; intros h r Hh Hp; [done|].
  simpl in Hp.
  assert (Hh0 : (h + 0) mod len = h) by (rewrite Z.add_0_r; apply Z.mod_small; lia).
  destruct (Z.eqb_spec (vVer (tbl h)) ver) as [Hv|Hv].
  - destruct (Z.eqb_spec (cAddr (tbl h)) key) as [Hk|Hk].
    + inversion Hp; subst r. exists 0. rewrite Hh0.
      split; [lia|]. split; [intros; lia|done].
    + apply IH in Hp as (d & Hd & Hpath & Hr); [|by apply next_slot_range].
      exists (d + 1). split; [lia|]. split.
      * intros e He. destruct (decide (e = 0)) as [->|Hne].
        { by rewrite Hh0. }
        specialize (Hpath (e - 1)). rewrite path_step in Hpath by lia.
        replace (e - 1 + 1) with e in Hpath by lia. apply Hpath. lia.
      * rewrite path_step in Hr by lia. done.
  - inversion Hp; subst r. exists 0. rewrite Hh0.
    split; [lia|]. split; [intros; lia|done].
Qed.

Lemma probe_free_spec tbl ver len :
  forall fuel h h', 0 <= h < len ->
  probe_free fuel tbl ver len h = Ok h' ->
  exists d, 0 <= d < Z.of_nat fuel /\
    (forall e, 0 <= e < d -> vVer (tbl ((h + e) mod len)) = ver) /\
    h' = (h + d) mod len /\ vVer (tbl h') ≠ ver.
Proof.
  induction fuel as [|fuel IH]; intros h h' Hh Hp; [done|].
  simpl in Hp.
  assert (Hh0 : (h + 0) mod len = h) by (rewrite Z.add_0_r; apply Z.mod_small; lia).
  destruct (Z.eqb_spec (vVer (tbl h)) ver) as [Hv|Hv].
  - apply IH in Hp as (d & Hd & Hpath & Hr); [|by apply next_slot_range].
    exists (d + 1). split; [lia|]. split.
    + intros e He. destruct (decide (e = 0)) as [->|Hne].
      { by rewrite Hh0. }
      specialize (Hpath (e - 1)). rewrite path_step in Hpath by lia.
      replace (e - 1 + 1) with e in Hpath by lia. apply Hpath. lia.
    + rewrite path_step in Hr by lia. done.
  - inversion Hp; subst h'. exists 0. rewrite Hh0.
    split; [lia|]. split; [intros; lia|done].
Qed.

(** More fuel does not change the result of a probe that returned. *)
Lemma probe_more_fuel tbl ver len key :
  forall fuel h r, probe fuel tbl ver len key h = Ok r ->
  forall fuel', (fuel <= fuel')%nat -> probe fuel' tbl ver len key h = Ok r.
Proof.
  induction fuel as [|fuel IH]; intros h r Hp fuel' Hle; [done|].
  destruct fuel' as [|fuel']; [lia|]. simpl in *.
  destruct (vVer (tbl h) =? ver); [|done].
  destruct (cAddr (tbl h) =? key); [done|].
  apply IH with (fuel' := fuel') in Hp; [done|lia].
Qed.

(** *** The invariant of the index *)

Lemma hash_with_range shift key :
  0 <= shift <= 32 -> 0 <= hash_with shift key < 2 ^ (32 - shift).
Proof.
  intros Hs. unfold hash_with.
  change 0xFFFFFFFF with (Z.ones 32). rewrite Z.land_ones by lia.
  rewrite Z.shiftr_div_pow2 by lia.
  pose proof (Z.mod_pos_bound (mix13_hash key) (2 ^ 32) ltac:(lia)) as Hm.
  assert (Hp : 0 < 2 ^ shift) by (apply Z.pow_pos_nonneg; lia).
  split; [apply Z.div_pos; lia|].
  apply Z.div_lt_upper_bound; [done|].
  rewrite <- Z.pow_add_r by lia. replace (shift + (32 - shift)) with 32 by lia.
  lia.
Qed.

(** The index [tbl] of length [len], version [ver] and shift [shift] holds
    exactly the chunks [0 .. n-1], whose base addresses are [base]: every
    entry of the current version names one of them and carries its base
    address, each of them has an entry, no two entries carry the same
    address, and every position between the hash of an entry's address and
    the entry is of the current version. *)
Record indexed (tbl : Z -> index_t) (len ver shift : Z) (base : Z -> Z)
    (n : Z) : Prop := mk_indexed {
  ix_shift : 2 <= shift <= 30;
  ix_len : len = 2 ^ (32 - shift);
  ix_ver : 0 < ver < 2 ^ 64;
  ix_vers : forall h, 0 <= vVer (tbl h) <= ver;
  ix_nvalid : nvalid (Z.to_nat len) tbl ver = n;
  ix_idx : forall h, 0 <= h < len -> vVer (tbl h) = ver ->
    0 <= vIdx (tbl h) < n /\ base (vIdx (tbl h)) = cAddr (tbl h);
  ix_chunk : forall i, 0 <= i < n ->
    exists h, 0 <= h < len /\ vVer (tbl h) = ver /\ vIdx (tbl h) = i;
  ix_key : forall h h', 0 <= h < len -> 0 <= h' < len ->
    vVer (tbl h) = ver -> vVer (tbl h') = ver ->
    cAddr (tbl h) = cAddr (tbl h') -> h = h';
  ix_path : forall h, 0 <= h < len -> vVer (tbl h) = ver ->
    exists d, 0 <= d /\ h = (hash_with shift (cAddr (tbl h)) + d) mod len /\
      forall e, 0 <= e < d ->
        vVer (tbl ((hash_with shift (cAddr (tbl h)) + e) mod len)) = ver
}.

Lemma indexed_len_pos tbl len ver shift base n :
  indexed tbl len ver shift base n -> 4 <= len.
Proof.
  intros [Hs -> _ _ _ _ _ _ _].
  change 4 with (2 ^ 2). apply Z.pow_le_mono_r; lia.
Qed.

Lemma indexed_hash_range tbl len ver shift base n key :
  indexed tbl len ver shift base n -> 0 <= hash_with shift key < len.
Proof.
  intros [Hs -> _ _ _ _ _ _ _]. apply hash_with_range. lia.
Qed.

Lemma indexed_ext tbl len ver shift base base' n :
  (forall i, 0 <= i < n -> base i = base' i) ->
  indexed tbl len ver shift base n -> indexed tbl len ver shift base' n.
Proof.
  intros Hext [H1 H2 H3 H4 H5 H6 H7 H8 H9]. constructor; try done.
  intros h Hh Hv. destruct (H6 h Hh Hv) as [Hi Hb]. split; [done|].
  by rewrite <- Hext.
Qed.

(** The chunks held by an index have distinct base addresses. *)
Lemma indexed_distinct tbl len ver shift base n i j :
  indexed tbl len ver shift base n ->
  0 <= i < n -> 0 <= j < n -> base i = base j -> i = j.
Proof.
  intros Hix Hi Hj Hb.
  destruct (ix_chunk _ _ _ _ _ _ Hix i Hi) as (h & Hh & Hv & Hvi).
  destruct (ix_chunk _ _ _ _ _ _ Hix j Hj) as (h' & Hh' & Hv' & Hvj).
  destruct (ix_idx _ _ _ _ _ _ Hix h Hh Hv) as [_ Hbi].
  destruct (ix_idx _ _ _ _ _ _ Hix h' Hh' Hv') as [_ Hbj].
  assert (h = h') as ->; [|congruence].
  apply (ix_key _ _ _ _ _ _ Hix); try done. congruence.
Qed.

(** The probe of an index that is not full returns, and its answer is
    right: a hit names the chunk whose base address is the key; a free
    position means no chunk has it, and the positions before it on the way
    from the hash are all of the current version. *)
Lemma probe_indexed tbl len ver shift base n key :
  indexed tbl len ver shift base n -> n < len ->
  exists r,
    probe (Z.to_nat len) tbl ver len key (hash_with shift key) = Ok r /\
    match r with
    | Hit idx => 0 <= idx < n /\ base idx = key
    | Free h =>
        0 <= h < len /\ vVer (tbl h) ≠ ver /\
        (forall i, 0 <= i < n -> base i ≠ key) /\
        exists d, 0 <= d /\ h = (hash_with shift key + d) mod len /\
          forall e, 0 <= e < d ->
            vVer (tbl ((hash_with shift key + e) mod len)) = ver
    end.
Proof.
  intros Hix Hn.
  pose proof (indexed_len_pos _ _ _ _ _ _ Hix) as Hlen.
  pose proof (indexed_hash_range _ _ _ _ _ _ key Hix) as Hhash.
  destruct (nvalid_free (Z.to_nat len) tbl ver) as (h0 & Hh0 & Hfree).
  { rewrite (ix_nvalid _ _ _ _ _ _ Hix). lia. }
  rewrite Z2Nat.id in Hh0 by lia.
  destruct (probe_halts tbl ver len key h0 Hh0 Hfree (Z.to_nat len)
              (hash_with shift key) Hhash) as [r Hr].
  { pose proof (steps_to_range len _ h0 Hhash Hh0). lia. }
  exists r. split; [done|].
  destruct (probe_spec _ _ _ _ _ _ _ Hhash Hr) as (d & Hd & Hpath & Hres).
  assert (Hslot : 0 <= (hash_with shift key + d) mod len < len)
    by (apply Z.mod_pos_bound; lia).
  destruct r as [idx|h].
  - destruct Hres as (Hv & Hk & Hi).
    destruct (ix_idx _ _ _ _ _ _ Hix _ Hslot Hv) as [Hrange Hb].
    rewrite Hi in *. split; [done|congruence].
  - destruct Hres as [-> Hv]. split; [done|]. split; [done|]. split.
    + intros i Hi Hb.
      destruct (ix_chunk _ _ _ _ _ _ Hix i Hi) as (h & Hh & Hvh & Hvi).
      destruct (ix_idx _ _ _ _ _ _ Hix h Hh Hvh) as [_ Hbh].
      assert (Hkey : cAddr (tbl h) = key) by congruence.
      destruct (ix_path _ _ _ _ _ _ Hix h Hh Hvh) as (d' & Hd' & Heq & Hp').
      rewrite Hkey in Heq, Hp'.
      destruct (Z.lt_trichotomy d' d) as [Hlt|[->|Hgt]].
      * destruct (Hpath d' ltac:(lia)) as [_ Hne]. rewrite <- Heq in Hne. done.
      * rewrite <- Heq in Hv. done.
      * specialize (Hp' d ltac:(lia)). done.
    + exists d. split; [lia|]. split; [done|].
      intros e He. by destruct (Hpath e He).
Qed.

(** Claiming the free position found for a key that no indexed chunk has
    yields an index that also holds chunk [n]. *)
Lemma indexed_add tbl len ver shift base base' n key h d :
  indexed tbl len ver shift base n ->
  0 <= n ->
  0 <= h < len -> vVer (tbl h) ≠ ver ->
  h = (hash_with shift key + d) mod len -> 0 <= d ->
  (forall e, 0 <= e < d ->
     vVer (tbl ((hash_with shift key + e) mod len)) = ver) ->
  (forall i, 0 <= i < n -> base i ≠ key) ->
  (forall i, 0 <= i < n -> base' i = base i) -> base' n = key ->
  indexed (upd tbl h (mk_index ver key n)) len ver shift base' (n + 1).
Proof.
  intros Hix Hn Hh Hfree Hhd Hd Hpath Hfresh Hold Hnew.
  pose proof (indexed_len_pos _ _ _ _ _ _ Hix) as Hlen.
  destruct Hix as [H1 H2 H3 H4 H5 H6 H7 H8 H9].
  assert (Hval : forall x, vVer (upd tbl h (mk_index ver key n) x) = ver ->
                 x ≠ h -> vVer (tbl x) = ver).
  { intros x Hx Hne. unfold upd in Hx.
    destruct (Z.eqb_spec x h); [done|]. done. }
  assert (Hkeep : forall x, vVer (tbl x) = ver ->
                  upd tbl h (mk_index ver key n) x = tbl x).
  { intros x Hx. unfold upd. destruct (Z.eqb_spec x h); [congruence|done]. }
  assert (Hat : upd tbl h (mk_index ver key n) h = mk_index ver key n).
  { unfold upd. by rewrite Z.eqb_refl. }
  constructor; try done.
  - intros x. unfold upd. destruct (Z.eqb_spec x h); [simpl; lia|apply H4].
  - rewrite nvalid_upd; [lia| |done|done]. rewrite Z2Nat.id; lia.
  - intros x Hx Hv. destruct (decide (x = h)) as [->|Hne].
    + rewrite Hat. simpl. split; [lia|done].
    + pose proof (Hval x Hv Hne) as Hv'. rewrite Hkeep by done.
      destruct (H6 x Hx Hv') as [Hi Hb]. split; [lia|].
      rewrite Hold by done. done.
  - intros i Hi. destruct (decide (i = n)) as [->|Hne].
    + exists h. rewrite Hat. done.
    + destruct (H7 i ltac:(lia)) as (x & Hx & Hv & Hvi).
      exists x. rewrite Hkeep by done. done.
  - intros x y Hx Hy Hvx Hvy Hk.
    destruct (decide (x = h)) as [->|Hnx]; destruct (decide (y = h)) as [->|Hny];
      try done.
    + pose proof (Hval y Hvy Hny) as Hv'. rewrite Hat in Hk.
      rewrite (Hkeep y) in Hk by done. simpl in Hk.
      destruct (H6 y Hy Hv') as [Hi Hb]. exfalso.
      apply (Hfresh _ Hi). congruence.
    + pose proof (Hval x Hvx Hnx) as Hv'. rewrite Hat in Hk.
      rewrite (Hkeep x) in Hk by done. simpl in Hk.
      destruct (H6 x Hx Hv') as [Hi Hb]. exfalso.
      apply (Hfresh _ Hi). congruence.
    + pose proof (Hval x Hvx Hnx). pose proof (Hval y Hvy Hny).
      rewrite !Hkeep in Hk by done. by apply H8.
  - intros x Hx Hv. destruct (decide (x = h)) as [->|Hne].
    + rewrite Hat. simpl. exists d. split; [done|]. split; [done|].
      intros e He. rewrite Hkeep; by apply Hpath.
    + pose proof (Hval x Hv Hne) as Hv'. rewrite Hkeep by done.
      destruct (H9 x Hx Hv') as (d' & Hd' & Heq & Hp).
      exists d'. split; [done|]. split; [done|].
      intros e He. rewrite Hkeep; by apply Hp.
Qed.

(** An index none of whose entries is of the current version holds no
    chunk. *)
Lemma indexed_empty tbl len ver shift base :
  2 <= shift <= 30 -> len = 2 ^ (32 - shift) -> 0 < ver < 2 ^ 64 ->
  (forall h, 0 <= vVer (tbl h) < ver) ->
  indexed tbl len ver shift base 0.
Proof.
  intros Hs Hl Hv Hold. constructor; try done.
  - intros h. specialize (Hold h). lia.
  - apply nvalid_none. intros h _. specialize (Hold h). lia.
  - intros h _ Hh. specialize (Hold h). lia.
  - intros i Hi. lia.
  - intros h h' _ _ Hh. specialize (Hold h). lia.
  - intros h _ Hh. specialize (Hold h). lia.
Qed.

(** The base addresses of the chunks of a log. *)
Definition bases (s : redolog) : Z -> Z := fun i => bAddr (vec_chunks s i).

(** The invariant of the log: the index holds the chunks in use, the
    vector has room for one more chunk, and fewer than a third of the
    positions of the index are taken. *)
Definition wf (s : redolog) : Prop :=
  indexed (ht_tbl s) (ht_len s) (ht_ver s) (ht_shift s) (bases s)
    (vec_count s) /\
  0 <= vec_count s < vec_cap s /\
  vec_count s * SPILL_FACTOR < ht_len s.

Lemma set_tbl_same s : set_tbl s (ht_tbl s) = s.
Proof. by destruct s. Qed.

(** The loop of [rebuild] enters the chunks [i .. i+todo-1] into an index
    that holds the chunks below [i]. *)
Lemma rebuild_loop_ok : forall todo i s,
  0 <= i ->
  indexed (ht_tbl s) (ht_len s) (ht_ver s) (ht_shift s) (bases s) i ->
  (forall a b, 0 <= a < i + Z.of_nat todo -> 0 <= b < i + Z.of_nat todo ->
     bases s a = bases s b -> a = b) ->
  i + Z.of_nat todo < ht_len s ->
  exists tbl',
    rebuild_loop todo i s = Ok (set_tbl s tbl') /\
    indexed tbl' (ht_len s) (ht_ver s) (ht_shift s) (bases s)
      (i + Z.of_nat todo).
Proof.
  induction todo as [|todo IH]; intros i s Hi Hix Hdist Hroom.
  - exists (ht_tbl s). simpl. rewrite Z.add_0_r. split; [|done].
    by rewrite set_tbl_same.
  - simpl rebuild_loop.
    pose proof (indexed_len_pos _ _ _ _ _ _ Hix) as Hlen.
    pose proof (indexed_hash_range _ _ _ _ _ _ (bAddr (vec_chunks s i)) Hix)
      as Hhash.
    destruct (nvalid_free (Z.to_nat (ht_len s)) (ht_tbl s) (ht_ver s))
      as (h0 & Hh0 & Hfree).
    { rewrite (ix_nvalid _ _ _ _ _ _ Hix). lia. }
    rewrite Z2Nat.id in Hh0 by lia.
    destruct (probe_free_halts (ht_tbl s) (ht_ver s) (ht_len s) h0 Hh0 Hfree
                (Z.to_nat (ht_len s)) _ Hhash) as [h Hprobe].
    { pose proof (steps_to_range (ht_len s) _ h0 Hhash Hh0). lia. }
    unfold hash. rewrite Hprobe. simpl.
    destruct (probe_free_spec _ _ _ _ _ _ Hhash Hprobe)
      as (d & Hd & Hpath & Hh & Hv).
    assert (Hslot : 0 <= h < ht_len s)
      by (rewrite Hh; apply Z.mod_pos_bound; lia).
    set (s1 := set_tbl s (upd (ht_tbl s) h
                 (mk_index (ht_ver s) (bAddr (vec_chunks s i)) i))).
    destruct (IH (i + 1) s1) as (tbl' & Hloop & Hix').
    + lia.
    + simpl. apply (indexed_add _ _ _ _ (bases s) (bases s) _ _ _ d);
        try done; try lia.
      intros j Hj Hb. assert (j = i); [|lia].
      apply Hdist; [lia|lia|done].
    + simpl. intros a b Ha Hb. apply Hdist; lia.
    + simpl. lia.
    + exists tbl'. split.
      * rewrite Hloop. reflexivity.
      * simpl in Hix'. replace (i + Z.of_nat (S todo)) with (i + 1 + Z.of_nat todo)
          by lia. done.
Qed.

(** [rebuild()] on a log whose index can still be doubled. *)
Lemma rebuild_ok s :
  3 <= ht_shift s <= 30 -> ht_len s = 2 ^ (32 - ht_shift s) ->
  0 < ht_ver s < 2 ^ 64 -> 0 <= vec_count s ->
  (forall a b, 0 <= a < vec_count s -> 0 <= b < vec_count s ->
     bases s a = bases s b -> a = b) ->
  vec_count s < 2 * ht_len s ->
  exists tbl',
    rebuild s = Ok (set_ht s tbl' (2 * ht_len s) (ht_ver s) (ht_shift s - 1)) /\
    indexed tbl' (2 * ht_len s) (ht_ver s) (ht_shift s - 1) (bases s)
      (vec_count s).
Proof.
  intros Hs Hl Hv Hc Hdist Hroom. unfold rebuild, doubleIndexLength.
  destruct (Z.eqb_spec (ht_ver s) 0); [lia|].
  destruct (Z.eqb_spec (ht_shift s) 0); [lia|].
  destruct (Z.ltb_spec (8 * 4 - (ht_shift s - 1)) 31); [|lia].
  simpl.
  assert (Hlen2 : Z.shiftl 1 (8 * 4 - (ht_shift s - 1)) = 2 * ht_len s).
  { rewrite Z.shiftl_1_l, Hl.
    replace (8 * 4 - (ht_shift s - 1)) with (Z.succ (32 - ht_shift s)) by lia.
    rewrite Z.pow_succ_r by lia. done. }
  rewrite Hlen2.
  set (s0 := set_ht s (fun _ => index_new) (2 * ht_len s) (ht_ver s)
               (ht_shift s - 1)).
  destruct (rebuild_loop_ok (Z.to_nat (vec_count s)) 0 s0) as (tbl' & Hloop & Hix).
  - lia.
  - simpl. apply indexed_empty; try lia.
    + rewrite Hl. replace (32 - (ht_shift s - 1)) with (Z.succ (32 - ht_shift s))
        by lia. rewrite Z.pow_succ_r by lia. done.
    + intros h. simpl. lia.
  - simpl. rewrite Z2Nat.id by lia. intros a b Ha Hb. apply Hdist; lia.
  - simpl. rewrite Z2Nat.id by lia. lia.
  - exists tbl'. split; [by rewrite Hloop|].
    simpl in Hix. rewrite Z2Nat.id in Hix by lia. done.
Qed.

(** At the smallest shift [rebuild()] stops the program. *)
Lemma rebuild_stop s :
  ht_shift s = 2 -> rebuild s = Stop.
Proof.
  intros Hs. unfold rebuild, doubleIndexLength. rewrite Hs.
  by destruct (ht_ver s =? 0).
Qed.

(** *** [reserve], [lookup] and [clear] on a well-formed log *)

Section Operations.

Variable CHUNKSIZE : Z.
Variable uninit_chunk : Z -> writeback_chunk_t.

(** [lookup] returns: the chunk whose base address is the key, or -1 when
    there is none. *)
Lemma lookup_ok s key :
  wf s ->
  exists idx, lookup s key = Ok idx /\
    ((0 <= idx < vec_count s /\ bases s idx = key) \/
     (idx = -1 /\ forall i, 0 <= i < vec_count s -> bases s i ≠ key)).
Proof.
  intros (Hix & Hc & Hspill). unfold lookup, hash.
  pose proof (indexed_len_pos _ _ _ _ _ _ Hix) as Hlen.
  destruct (probe_indexed _ _ _ _ _ _ key Hix) as (r & -> & Hr).
  { unfold SPILL_FACTOR in *. lia. }
  simpl. destruct r as [idx|h].
  - exists idx. split; [done|]. by left.
  - exists (-1). split; [done|]. right. split; [done|]. by destruct Hr as (_&_&?&_).
Qed.

(** [reserve] on a well-formed log never spins.  It stops the program
    only when the index is due to be doubled and has reached its largest
    length; otherwise it returns the index of the chunk for [key] in a
    well-formed log, which is the log as it was when the chunk existed
    already, and else has one more chunk, with no valid byte, after the
    chunks that were there. *)
Lemma reserve_ok s key :
  wf s ->
  match reserve uninit_chunk s key with
  | Ok (idx, s') =>
      wf s' /\ 0 <= idx < vec_count s' /\ bases s' idx = key /\
      ht_ver s' = ht_ver s /\
      ((idx < vec_count s /\ s' = s) \/
       (idx = vec_count s /\
        (forall i, 0 <= i < vec_count s -> bases s i ≠ key) /\
        vec_count s' = vec_count s + 1 /\
        (forall i, 0 <= i < vec_count s -> vec_chunks s' i = vec_chunks s i) /\
        vBytes (vec_chunks s' idx) = 0))
  | Stop => ht_shift s = 2 /\ (vec_count s + 1) * SPILL_FACTOR >= ht_len s
  | Spin => False
  end.
Proof.
  intros (Hix & Hc & Hspill). unfold reserve, hash.
  pose proof (indexed_len_pos _ _ _ _ _ _ Hix) as Hlen.
  unfold SPILL_FACTOR in *.
  destruct (probe_indexed _ _ _ _ _ _ key Hix) as (r & -> & Hr); [lia|].
  simpl. destruct r as [idx|h].
  { destruct Hr as [Hi Hb]. split; [done|]. split; [done|]. split; [done|].
    split; [done|]. left. split; [lia|done]. }
  destruct Hr as (Hh & Hfree & Hfresh & d & Hd & Hhd & Hpath).
  set (tbl1 := upd (ht_tbl s) h (mk_index (ht_ver s) key (vec_count s))).
  set (ch2 := upd (vec_chunks s) (vec_count s)
                (mk_chunk key 0 (data (vec_chunks s (vec_count s))))).
  set (s2 := set_vec (set_tbl s tbl1) ch2 (vec_cap s) (vec_count s + 1)).
  set (s3 := if vec_count s2 =? vec_cap s2 then resize uninit_chunk s2 else s2).
  assert (Hch2 : forall i, 0 <= i < vec_count s -> ch2 i = vec_chunks s i).
  { intros i Hi. unfold ch2, upd. destruct (Z.eqb_spec i (vec_count s)); [lia|done]. }
  assert (Hch2n : ch2 (vec_count s)
                  = mk_chunk key 0 (data (vec_chunks s (vec_count s)))).
  { unfold ch2, upd. by rewrite Z.eqb_refl. }
  assert (Hs3 : ht_tbl s3 = tbl1 /\ ht_len s3 = ht_len s /\
                ht_ver s3 = ht_ver s /\ ht_shift s3 = ht_shift s /\
                vec_count s3 = vec_count s + 1 /\
                vec_count s3 < vec_cap s3 /\
                (forall i, 0 <= i <= vec_count s -> vec_chunks s3 i = ch2 i)).
  { unfold s3. destruct (Z.eqb_spec (vec_count s2) (vec_cap s2)) as [He|He];
      simpl in *.
    - repeat split; try done; try lia.
      intros i Hi. destruct (Z.ltb_spec i (vec_count s + 1)); [done|lia].
    - repeat split; try done; lia. }
  destruct Hs3 as (Ht3 & Hl3 & Hv3 & Hsh3 & Hc3 & Hcap3 & Hch3).
  assert (Hix3 : indexed (ht_tbl s3) (ht_len s3) (ht_ver s3) (ht_shift s3)
                   (bases s3) (vec_count s3)).
  { rewrite Ht3, Hl3, Hv3, Hsh3, Hc3.
    apply (indexed_add _ _ _ _ (bases s) _ _ _ _ d); try done; try lia.
    - intros i Hi. unfold bases. rewrite Hch3 by lia. by rewrite Hch2.
    - unfold bases. rewrite Hch3 by lia. by rewrite Hch2n. }
  assert (Hpost : forall s4, wf s4 -> ht_ver s4 = ht_ver s ->
            vec_count s4 = vec_count s + 1 ->
            (forall i, vec_chunks s4 i = vec_chunks s3 i) ->
            wf s4 /\ 0 <= vec_count s < vec_count s4 /\
            bases s4 (vec_count s) = key /\ ht_ver s4 = ht_ver s /\
            (vec_count s < vec_count s /\ s4 = s \/
             vec_count s = vec_count s /\
             (forall i, 0 <= i < vec_count s -> bases s i ≠ key) /\
             vec_count s4 = vec_count s + 1 /\
             (forall i, 0 <= i < vec_count s ->
                vec_chunks s4 i = vec_chunks s i) /\
             vBytes (vec_chunks s4 (vec_count s)) = 0)).
  { intros s4 Hwf4 Hv4 Hc4 Hch4. split; [done|]. split; [lia|].
    split; [unfold bases; rewrite Hch4, Hch3 by lia; by rewrite Hch2n|].
    split; [done|]. right. split; [done|]. split; [done|]. split; [done|].
    split.
    - intros i Hi. rewrite Hch4, Hch3 by lia. by apply Hch2.
    - rewrite Hch4, Hch3 by lia. by rewrite Hch2n. }
  fold tbl1. fold ch2. fold s2.
  change (if vec_count s + 1 =? vec_cap s then resize uninit_chunk s2 else s2)
    with s3.
  destruct (Z.geb_spec (vec_count s3 * 3) (ht_len s3)) as [Hfull|Hroom].
  - destruct (decide (ht_shift s = 2)) as [Hs2|Hs2].
    + rewrite rebuild_stop by lia. simpl. split; [done|]. lia.
    + pose proof (ix_shift _ _ _ _ _ _ Hix) as Hshift.
      pose proof (ix_len _ _ _ _ _ _ Hix3) as Hlen3.
      pose proof (ix_ver _ _ _ _ _ _ Hix3) as Hver3.
      destruct (rebuild_ok s3) as (tbl' & -> & Hix4); try lia.
      { intros a b Ha Hb. by apply (indexed_distinct _ _ _ _ _ _ _ _ Hix3). }
      apply (Hpost (set_ht s3 tbl' (2 * ht_len s3) (ht_ver s3)
                      (ht_shift s3 - 1))).
      * split; [exact Hix4|]. simpl. unfold SPILL_FACTOR. lia.
      * simpl. lia.
      * simpl. lia.
      * intros i. reflexivity.
  - apply (Hpost s3).
    + split; [exact Hix3|]. unfold SPILL_FACTOR. lia.
    + lia.
    + lia.
    + intros i. reflexivity.
Qed.

(** [clear()] keeps the log well formed, and empties it. *)
Lemma clear_ok s : wf s -> wf (clear s) /\ vec_count (clear s) = 0.
Proof.
  intros (Hix & Hc & Hspill).
  pose proof (indexed_len_pos _ _ _ _ _ _ Hix) as Hlen.
  destruct Hix as [H1 H2 H3 H4 _ _ _ _ _].
  unfold clear, wrap64. simpl.
  destruct (Z.eqb_spec ((ht_ver s + 1) mod 2 ^ 64) 0) as [Hz|Hnz]; simpl.
  - split; [|done]. split; [|simpl; unfold SPILL_FACTOR in *; lia].
    apply indexed_empty; done.
  - split; [|done]. split; [|simpl; unfold SPILL_FACTOR in *; lia].
    assert (Hsmall : ht_ver s + 1 < 2 ^ 64).
    { destruct (decide (ht_ver s + 1 = 2 ^ 64)) as [He|He]; [|lia].
      rewrite He, Z.mod_same in Hnz by lia. done. }
    rewrite Z.mod_small by lia.
    apply indexed_empty.
    + done.
    + done.
    + simpl. lia.
    + intros h. simpl. specialize (H4 h). lia.
Qed.

(** The constructor yields a well-formed, empty log. *)
Lemma grow_index_ok capacity :
  1 <= capacity -> SPILL_FACTOR * capacity <= 2 ^ 30 ->
  forall fuel shift len,
  (shift = 32 /\ len = 0) \/ (2 <= shift <= 31 /\ len = 2 ^ (32 - shift)) ->
  shift < Z.of_nat fuel ->
  exists shift' len',
    grow_index fuel capacity shift len = Ok (shift', len') /\
    2 <= shift' <= 30 /\ len' = 2 ^ (32 - shift') /\
    SPILL_FACTOR * capacity <= len'.
Proof.
  intros Hcap Hmax. unfold SPILL_FACTOR in *.
  induction fuel as [|fuel IH]; intros shift len Hinv Hfuel; [lia|].
  simpl. unfold SPILL_FACTOR.
  destruct (Z.ltb_spec len (3 * capacity)) as [Hlt|Hge].
  - assert (Hshift : 3 <= shift <= 32).
    { destruct Hinv as [[-> ->]|[Hs ->]]; [lia|].
      destruct (decide (shift = 2)) as [->|]; [|lia]. simpl in Hlt. lia. }
    unfold doubleIndexLength.
    destruct (Z.eqb_spec shift 0); [lia|].
    destruct (Z.ltb_spec (8 * 4 - (shift - 1)) 31); [|lia].
    simpl. apply IH; [|lia]. right. split; [lia|].
    rewrite Z.shiftl_1_l. f_equal; lia.
  - exists shift, len. split; [done|].
    destruct Hinv as [[-> ->]|[Hs ->]]; [lia|].
    split; [|split; [done|lia]].
    destruct (decide (shift = 31)) as [->|]; [|lia]. simpl in Hge. lia.
Qed.

Lemma redolog_new_ok initial_capacity :
  1 <= initial_capacity -> SPILL_FACTOR * initial_capacity <= 2 ^ 30 ->
  exists s, redolog_new uninit_chunk initial_capacity = Ok s /\
    wf s /\ vec_count s = 0 /\ vec_cap s = initial_capacity.
Proof.
  intros Hcap Hmax. unfold redolog_new.
  destruct (grow_index_ok initial_capacity Hcap Hmax 33 (8 * 4) 0)
    as (shift & len & -> & Hs & Hl & Hroom); [by left|lia|].
  simpl. eexists. split; [done|]. split; [|done].
  split; [|simpl; unfold SPILL_FACTOR in *; lia].
  simpl. apply indexed_empty; done.
Qed.

(** *** Addresses, chunks and valid bytes *)

Hypothesis chunk_size : exists k, 0 <= k <= 6 /\ CHUNKSIZE = 2 ^ k.

Lemma chunk_size_range : 1 <= CHUNKSIZE <= 64.
Proof.
  destruct chunk_size as (k & Hk & ->). split.
  - change 1 with (2 ^ 0). apply Z.pow_le_mono_r; lia.
  - change 64 with (2 ^ 6). apply Z.pow_le_mono_r; lia.
Qed.

(** [addr & MASK] is the offset of [addr] in its chunk. *)
Lemma offset_mod addr : Z.land addr (MASK CHUNKSIZE) = addr mod CHUNKSIZE.
Proof.
  destruct chunk_size as (k & Hk & ->). unfold MASK.
  replace (2 ^ k - 1) with (Z.ones k) by (rewrite Z.ones_equiv; lia).
  apply Z.land_ones. lia.
Qed.

(** [addr & ~MASK] is the address at which the chunk of [addr] starts. *)
Lemma base_mod addr :
  Z.land addr (Z.lnot (MASK CHUNKSIZE)) = addr - addr mod CHUNKSIZE.
Proof.
  destruct chunk_size as (k & Hk & ->). unfold MASK.
  replace (2 ^ k - 1) with (Z.ones k) by (rewrite Z.ones_equiv; lia).
  rewrite <- Z.ldiff_land, Z.ldiff_ones_r by lia.
  rewrite Z.shiftl_mul_pow2, Z.shiftr_div_pow2 by lia.
  pose proof (Z.div_mod addr (2 ^ k)) as Hdm.
  assert (0 < 2 ^ k) by (apply Z.pow_pos_nonneg; lia). lia.
Qed.

(** An address within the scalar at [addr], which does not cross a chunk
    boundary, is in the chunk of [addr], at the offset one expects. *)
Lemma same_chunk addr width j :
  addr mod CHUNKSIZE + width <= CHUNKSIZE -> 0 <= j < width ->
  (addr + j) mod CHUNKSIZE = addr mod CHUNKSIZE + j /\
  (addr + j) - (addr + j) mod CHUNKSIZE = addr - addr mod CHUNKSIZE.
Proof.
  intros Hfit Hj. pose proof chunk_size_range as HC.
  pose proof (Z.mod_pos_bound addr CHUNKSIZE ltac:(lia)) as Hm.
  assert (Heq : (addr + j) mod CHUNKSIZE = addr mod CHUNKSIZE + j).
  { rewrite <- Zplus_mod_idemp_l. apply Z.mod_small. lia. }
  split; [done|]. rewrite Heq. lia.
Qed.

(** Two addresses of one chunk differ by the difference of their
    offsets. *)
Lemma chunk_diff a addr :
  a - a mod CHUNKSIZE = addr - addr mod CHUNKSIZE ->
  a mod CHUNKSIZE - addr mod CHUNKSIZE = a - addr.
Proof. lia. Qed.

(** The bit of [mask << offset] for position [p]. *)
Lemma mask_bit width offset p :
  0 <= width -> 0 <= offset -> 0 <= p < 64 ->
  Z.testbit (wrap64 (Z.shiftl (Z.shiftl 1 width - 1) offset)) p =
    (offset <=? p) && (p <? offset + width).
Proof.
  intros Hw Ho Hp. unfold wrap64.
  rewrite Z.mod_pow2_bits_low by lia.
  rewrite Z.shiftl_spec by lia.
  change (Z.shiftl 1 width - 1) with (Z.ones width).
  destruct (Z.leb_spec offset p) as [Hle|Hgt]; simpl.
  - destruct (Z.ltb_spec p (offset + width)).
    + apply Z.ones_spec_low. lia.
    + apply Z.ones_spec_high. lia.
  - apply Z.testbit_neg_r. lia.
Qed.

(** *** What the log holds *)

(** The log holds byte [b] for address [a]: a chunk in use starts at the
    chunk boundary below [a], marks the offset of [a] valid and has [b]
    there. *)
Definition holds (s : redolog) (a b : Z) : Prop :=
  exists i, 0 <= i < vec_count s /\
    bases s i = a - a mod CHUNKSIZE /\
    Z.testbit (vBytes (vec_chunks s i)) (a mod CHUNKSIZE) = true /\
    data (vec_chunks s i) (a mod CHUNKSIZE) = b.

(** The bytes written by the inserts made so far, by address: an insert
    of [val] at [addr] overrides the [width] bytes from [addr] on. *)
Definition recent_insert (width addr val : Z) (m : Z -> option Z)
  : Z -> option Z :=
  fun a => if (addr <=? a) && (a <? addr + width)
           then Some (byte_of val (a - addr)) else m a.

(** The log holds exactly the bytes of [m]. *)
Definition models (s : redolog) (m : Z -> option Z) : Prop :=
  forall a b, m a = Some b <-> holds s a b.

Lemma byte_of_range val i : 0 <= byte_of val i < 256.
Proof.
  unfold byte_of. change 0xFF with (Z.ones 8). rewrite Z.land_ones by lia.
  apply Z.mod_pos_bound. lia.
Qed.

Lemma range_test_true lo n p :
  lo <= p < lo + n -> (lo <=? p) && (p <? lo + n) = true.
Proof.
  intros. destruct (Z.leb_spec lo p); destruct (Z.ltb_spec p (lo + n)); done || lia.
Qed.

Lemma range_test_false lo n p :
  ¬ (lo <= p < lo + n) -> (lo <=? p) && (p <? lo + n) = false.
Proof.
  intros. destruct (Z.leb_spec lo p); destruct (Z.ltb_spec p (lo + n)); done || lia.
Qed.

Lemma models_empty s : vec_count s = 0 -> models s (fun _ => None).
Proof.
  intros Hc a b. split; [done|]. intros (i & Hi & _). lia.
Qed.

(** [insert] on a well-formed log never spins, stops the program only
    when [reserve] does, and otherwise returns a well-formed log that holds
    the bytes held before, overridden by the bytes of [val]. *)
Lemma insert_ok s m width addr val :
  wf s -> models s m -> 1 <= width <= 8 ->
  addr mod CHUNKSIZE + width <= CHUNKSIZE ->
  match insert CHUNKSIZE uninit_chunk width addr val s with
  | Ok s' =>
      wf s' /\ models s' (recent_insert width addr val m) /\
      ht_ver s' = ht_ver s /\ 0 < vec_count s'
  | Stop => ht_shift s = 2 /\ (vec_count s + 1) * SPILL_FACTOR >= ht_len s
  | Spin => False
  end.
Proof.
  intros Hwf Hm Hw Hfit. pose proof chunk_size_range as HC.
  pose proof (Z.mod_pos_bound addr CHUNKSIZE ltac:(lia)) as Hoff.
  unfold insert. rewrite base_mod, offset_mod.
  pose proof (reserve_ok s (addr - addr mod CHUNKSIZE) Hwf) as Hres.
  destruct (reserve uninit_chunk s (addr - addr mod CHUNKSIZE))
    as [[idx s1]| |]; simpl; [|done|done].
  destruct Hres as (Hwf1 & Hidx & Hbase & Hver & Hcase).
  set (off := addr mod CHUNKSIZE) in *.
  set (c := vec_chunks s1 idx).
  set (c' := mk_chunk (bAddr c)
               (Z.lor (vBytes c) (wrap64 (Z.shiftl (Z.shiftl 1 width - 1) off)))
               (write_scalar (data c) off width val)).
  set (s' := set_vec s1 (upd (vec_chunks s1) idx c') (vec_cap s1)
               (vec_count s1)).
  assert (Hat : vec_chunks s' idx = c').
  { simpl. unfold upd. by rewrite Z.eqb_refl. }
  assert (Hother : forall i, i ≠ idx -> vec_chunks s' i = vec_chunks s1 i).
  { intros i Hi. simpl. unfold upd. by destruct (Z.eqb_spec i idx). }
  assert (Hbases : forall i, bases s1 i = bases s' i).
  { intros i. unfold bases. destruct (decide (i = idx)) as [->|Hne].
    - by rewrite Hat.
    - by rewrite Hother. }
  assert (Hwf' : wf s').
  { destruct Hwf1 as (Hix1 & Hc1 & Hsp1). split; [|done].
    apply (indexed_ext _ _ _ _ (bases s1)); [|done]. intros; apply Hbases. }
  assert (Hbit : forall p, 0 <= p < CHUNKSIZE ->
            Z.testbit (vBytes c') p =
              Z.testbit (vBytes c) p || ((off <=? p) && (p <? off + width))).
  { intros p Hp. simpl. rewrite Z.lor_spec, mask_bit by lia. done. }
  assert (Hin : forall a, addr <= a < addr + width ->
            a mod CHUNKSIZE = off + (a - addr) /\
            a - a mod CHUNKSIZE = addr - off).
  { intros a Ha.
    destruct (same_chunk addr width (a - addr) Hfit ltac:(lia)) as [H1 H2].
    replace (addr + (a - addr)) with a in * by lia. done. }
  assert (Hold : forall i, 0 <= i < vec_count s1 -> i ≠ idx ->
            0 <= i < vec_count s /\ vec_chunks s1 i = vec_chunks s i).
  { intros i Hi Hne. destruct Hcase as [[_ ->]|(-> & _ & Hc & Hch & _)]; [done|].
    split; [lia|]. apply Hch. lia. }
  split; [done|]. split; [|split; [done|simpl; lia]].
  intros a b. unfold recent_insert.
  pose proof (Z.mod_pos_bound a CHUNKSIZE ltac:(lia)) as Hoffa.
  destruct (decide (addr <= a < addr + width)) as [Ha|Ha].
  - (* [a] is one of the bytes written *)
    rewrite range_test_true by done.
    destruct (Hin a Ha) as [Hmod Hkey]. split.
    + intros [= <-]. exists idx. simpl vec_count.
      split; [done|]. split; [by rewrite <- Hbases, Hkey|].
      rewrite Hat, Hbit by lia. simpl. unfold write_scalar.
      rewrite range_test_true by lia. split; [apply orb_true_r|].
      f_equal. lia.
    + intros (i & Hi & Hb & Hv & Hd). simpl vec_count in Hi.
      assert (i = idx) as ->.
      { destruct Hwf' as (Hix' & _).
        apply (indexed_distinct _ _ _ _ _ _ _ _ Hix'); try done.
        rewrite Hb, <- Hbases, Hbase. done. }
      rewrite Hat in Hd. simpl in Hd. unfold write_scalar in Hd.
      rewrite range_test_true in Hd by lia.
      rewrite <- Hd. do 2 f_equal. lia.
  - (* [a] is another byte *)
    rewrite range_test_false by done.
    assert (Hout : a - a mod CHUNKSIZE = addr - off ->
              ¬ (off <= a mod CHUNKSIZE < off + width)).
    { intros Hk. unfold off in *. lia. }
    rewrite (Hm a b). split; intros (i & Hi & Hb & Hv & Hd).
    + destruct Hcase as [[Hlt ->]|(-> & Hfresh & Hc & Hch & Hz)].
      * exists i. simpl vec_count. split; [done|].
        split; [by rewrite <- Hbases|].
        destruct (decide (i = idx)) as [->|Hne]; [|by rewrite Hother].
        assert (Hk : a - a mod CHUNKSIZE = addr - off) by congruence.
        rewrite Hat, Hbit by lia. fold c in Hv, Hd. rewrite Hv. split; [done|].
        simpl. unfold write_scalar. rewrite range_test_false by auto. done.
      * exists i. simpl vec_count. split; [lia|].
        unfold bases in *. rewrite Hother by lia. rewrite Hch by done. done.
    + simpl vec_count in Hi. destruct (decide (i = idx)) as [->|Hne].
      * assert (Hk : a - a mod CHUNKSIZE = addr - off).
        { rewrite <- Hb, <- Hbases, Hbase. done. }
        rewrite Hat, Hbit in Hv by lia. rewrite Hat in Hd. simpl in Hd.
        unfold write_scalar in Hd.
        rewrite range_test_false in Hv, Hd by auto.
        rewrite orb_false_r in Hv.
        destruct Hcase as [[Hlt ->]|(-> & Hfresh & Hc & Hch & Hz)].
        { exists idx. rewrite Hbases. done. }
        fold c in Hz. rewrite Hz, Z.bits_0 in Hv. done.
      * destruct (Hold i Hi Hne) as [Hi' Hsame].
        exists i. split; [done|]. unfold bases in *.
        rewrite Hother in Hb, Hv, Hd by done. rewrite Hsame in Hb, Hv, Hd. done.
Qed.

(** *** [get] *)

(** [livebits] is zero exactly when none of the [width] bytes from [off]
    on is marked valid. *)
Lemma livebits_zero v off width :
  0 <= off -> 0 <= width <= 8 ->
  Z.land (Z.shiftl 1 width - 1) (Z.shiftr v off) mod 2 ^ 32 = 0 <->
  forall j, 0 <= j < width -> Z.testbit v (off + j) = false.
Proof.
  intros Ho Hw. change (Z.shiftl 1 width - 1) with (Z.ones width).
  rewrite Z.land_comm, Z.land_ones by lia.
  assert (Hp : 0 < 2 ^ width) by (apply Z.pow_pos_nonneg; lia).
  assert (Hle : 2 ^ width <= 2 ^ 8) by (apply Z.pow_le_mono_r; lia).
  pose proof (Z.mod_pos_bound (Z.shiftr v off) (2 ^ width) Hp) as Hm.
  rewrite (Z.mod_small _ (2 ^ 32)) by lia.
  split.
  - intros Hz j Hj. rewrite Z.add_comm.
    rewrite <- (Z.shiftr_spec v off j), <- (Z.mod_pow2_bits_low _ width), Hz by lia.
    apply Z.bits_0.
  - intros Hall. apply Z.bits_inj'. intros n Hn. rewrite Z.bits_0.
    destruct (Z.lt_ge_cases n width).
    + rewrite Z.mod_pow2_bits_low, Z.shiftr_spec by lia.
      rewrite Z.add_comm. apply Hall. lia.
    + apply Z.mod_pow2_bits_high. lia.
Qed.

(** [get] on a well-formed log returns: false when no chunk in use starts
    at the chunk boundary below [addr] (in particular when the log is
    empty), false when the chunk marks none of the requested bytes valid,
    and true with the scalar read from the payload when it marks at least
    one of them valid. *)
Lemma get_ok s width addr :
  wf s -> 1 <= width <= 8 ->
  ((forall i, 0 <= i < vec_count s ->
      bases s i ≠ addr - addr mod CHUNKSIZE) ->
   get CHUNKSIZE width addr s = Ok None) /\
  (forall i, 0 <= i < vec_count s ->
     bases s i = addr - addr mod CHUNKSIZE ->
     ((forall j, 0 <= j < width ->
         Z.testbit (vBytes (vec_chunks s i)) (addr mod CHUNKSIZE + j) = false) ->
      get CHUNKSIZE width addr s = Ok None) /\
     ((exists j, 0 <= j < width /\
         Z.testbit (vBytes (vec_chunks s i)) (addr mod CHUNKSIZE + j) = true) ->
      get CHUNKSIZE width addr s =
        Ok (Some (read_scalar (Z.to_nat width) (data (vec_chunks s i))
                    (addr mod CHUNKSIZE))))).
Proof.
  intros Hwf Hw. pose proof chunk_size_range as HC.
  pose proof (Z.mod_pos_bound addr CHUNKSIZE ltac:(lia)) as Hoff.
  unfold get. rewrite base_mod, offset_mod.
  destruct (lookup_ok s (addr - addr mod CHUNKSIZE) Hwf)
    as (idx & -> & [[Hidx Hb]|[-> Hnone]]).
  - assert (Hne : (idx =? -1) = false) by (apply Z.eqb_neq; lia).
    assert (Hcount : (vec_count s =? 0) = false) by (apply Z.eqb_neq; lia).
    split.
    + intros Hno. by destruct (Hno idx Hidx).
    + intros i Hi Hbi.
      assert (i = idx) as ->.
      { destruct Hwf as (Hix & _).
        apply (indexed_distinct _ _ _ _ _ _ _ _ Hix); try done. congruence. }
      rewrite Hcount. simpl. rewrite Hne. split.
      * intros Hall. apply livebits_zero in Hall; [|lia|lia].
        by rewrite Hall.
      * intros (j & Hj & Hbit).
        destruct (Z.eqb_spec
          (Z.land (Z.shiftl 1 width - 1)
             (Z.shiftr (vBytes (vec_chunks s idx)) (addr mod CHUNKSIZE))
           mod 2 ^ 32) 0) as [Hz|Hnz]; [|done].
        pose proof (proj1 (livebits_zero (vBytes (vec_chunks s idx))
                      (addr mod CHUNKSIZE) width ltac:(lia) ltac:(lia)) Hz j Hj).
        congruence.
  - split.
    + intros _. by destruct (vec_count s =? 0).
    + intros i Hi Hbi. by destruct (Hnone i Hi).
Qed.

(** *** Scalars and their bytes *)

Lemma byte_of_0 v : byte_of v 0 = v mod 256.
Proof.
  unfold byte_of. rewrite Z.shiftr_0_r.
  change 0xFF with (Z.ones 8). by rewrite Z.land_ones.
Qed.

Lemma byte_of_succ v j : 0 <= j -> byte_of v (j + 1) = byte_of (v / 256) j.
Proof.
  intros Hj. unfold byte_of. f_equal.
  replace (8 * (j + 1)) with (8 + 8 * j) by lia.
  rewrite <- Z.shiftr_shiftr by lia. f_equal.
  by rewrite Z.shiftr_div_pow2.
Qed.

(** Reading a scalar whose bytes are those of [v] gives [v], truncated to
    the width read. *)
Lemma read_scalar_of_bytes d : forall n off v,
  (forall j, 0 <= j < Z.of_nat n -> d (off + j) = byte_of v j) ->
  read_scalar n d off = v mod 2 ^ (8 * Z.of_nat n).
Proof.
  induction n as [|n IH]; intros off v Hd.
  - simpl. by rewrite Z.mod_1_r.
  - simpl read_scalar. rewrite (IH (off + 1) (v / 256)).
    + specialize (Hd 0 ltac:(lia)). rewrite Z.add_0_r, byte_of_0 in Hd.
      rewrite Hd.
      replace (8 * Z.of_nat (S n)) with (8 + 8 * Z.of_nat n) by lia.
      rewrite Z.pow_add_r by lia. change (2 ^ 8) with 256.
      rewrite Z.rem_mul_r; [done|lia|]. apply Z.pow_pos_nonneg; lia.
    + intros j Hj. rewrite <- byte_of_succ by lia.
      rewrite <- Hd by lia. f_equal. lia.
Qed.

(** The bytes of the scalar read are the bytes of the payload. *)
Lemma read_scalar_bytes d : forall n off,
  (forall j, 0 <= j < Z.of_nat n -> 0 <= d (off + j) < 256) ->
  forall j, 0 <= j < Z.of_nat n -> byte_of (read_scalar n d off) j = d (off + j).
Proof.
  induction n as [|n IH]; intros off Hd j Hj; [lia|].
  simpl read_scalar.
  pose proof (Hd 0 ltac:(lia)) as H0. rewrite Z.add_0_r in H0.
  destruct (decide (j = 0)) as [->|Hne].
  - rewrite byte_of_0, Z.add_0_r. rewrite (Z.mul_comm 256), Z.mod_add by lia.
    apply Z.mod_small. done.
  - replace j with (j - 1 + 1) at 1 by lia. rewrite byte_of_succ by lia.
    rewrite (Z.mul_comm 256), Z.div_add by lia.
    rewrite (Z.div_small (d off)), Z.add_0_l by done.
    rewrite IH; [f_equal; lia| |lia].
    intros i Hi. replace (off + 1 + i) with (off + (i + 1)) by lia.
    apply Hd. lia.
Qed.

(** *** Logs built by the public operations *)

(** The constructor's loop, when it returns, has found a legal index
    length that is at least three times the capacity. *)
Lemma grow_index_wf capacity :
  1 <= capacity ->
  forall fuel shift len shift' len',
  (shift = 32 /\ len = 0) \/ (2 <= shift <= 31 /\ len = 2 ^ (32 - shift)) ->
  grow_index fuel capacity shift len = Ok (shift', len') ->
  2 <= shift' <= 30 /\ len' = 2 ^ (32 - shift') /\
  SPILL_FACTOR * capacity <= len'.
Proof.
  intros Hcap. unfold SPILL_FACTOR in *.
  induction fuel as [|fuel IH]; intros shift len shift' len' Hinv Hg; [done|].
  simpl in Hg. unfold SPILL_FACTOR in Hg.
  destruct (Z.ltb_spec len (3 * capacity)) as [Hlt|Hge].
  - unfold doubleIndexLength in Hg.
    destruct (Z.eqb_spec shift 0); [done|].
    destruct (Z.ltb_spec (8 * 4 - (shift - 1)) 31); [|done].
    simpl in Hg. apply IH in Hg; [done|]. right.
    split; [destruct Hinv as [[-> ->]|[Hs ->]]; lia|].
    rewrite Z.shiftl_1_l. f_equal; lia.
  - inversion Hg; subst shift' len'.
    destruct Hinv as [[-> ->]|[Hs ->]]; [lia|].
    split; [|split; [done|lia]].
    destruct (decide (shift = 31)) as [->|]; [|lia]. simpl in Hge. lia.
Qed.

Lemma redolog_new_wf initial_capacity s :
  1 <= initial_capacity ->
  redolog_new uninit_chunk initial_capacity = Ok s ->
  wf s /\ vec_count s = 0.
Proof.
  intros Hcap. unfold redolog_new.
  destruct (grow_index 33 initial_capacity (8 * 4) 0) as [[shift len]| |] eqn:Hg;
    simpl; [|done|done].
  intros [= <-].
  destruct (grow_index_wf _ Hcap _ _ _ _ _ ltac:(by left) Hg) as (Hs & Hl & Hr).
  split; [|done]. split; [|simpl; unfold SPILL_FACTOR in *; lia].
  simpl. apply indexed_empty; done.
Qed.

(** The widths of the scalar types the log supports. *)
Definition scalar_width (width : Z) : Prop :=
  width = 1 \/ width = 2 \/ width = 4 \/ width = 8.

(** The logs a program can have: built by the constructor with a positive
    capacity, then changed by [insert], for scalars that do not cross a
    chunk boundary, and by [clear]. *)
Inductive reachable : redolog -> Prop :=
| reach_new initial_capacity s :
    1 <= initial_capacity ->
    redolog_new uninit_chunk initial_capacity = Ok s ->
    reachable s
| reach_insert s width addr val s' :
    reachable s ->
    scalar_width width -> 0 <= addr < 2 ^ 64 ->
    addr mod CHUNKSIZE + width <= CHUNKSIZE ->
    insert CHUNKSIZE uninit_chunk width addr val s = Ok s' ->
    reachable s'
| reach_clear s :
    reachable s -> reachable (clear s).

Lemma scalar_width_range width : scalar_width width -> 1 <= width <= 8.
Proof. unfold scalar_width. lia. Qed.

(** A reachable log is well formed and holds a definite set of bytes. *)
Lemma reachable_wf s : reachable s -> wf s /\ exists m, models s m.
Proof.
  induction 1 as [cap s Hcap Hnew|s width addr val s' Hr [Hwf [m Hm]] Hw Ha Hfit Hi
                  |s Hr [Hwf _]].
  - destruct (redolog_new_wf _ _ Hcap Hnew) as [Hwf Hc].
    split; [done|]. exists (fun _ => None). by apply models_empty.
  - pose proof (insert_ok s m width addr val Hwf Hm
                  (scalar_width_range _ Hw) Hfit) as Hok.
    rewrite Hi in Hok. destruct Hok as (Hwf' & Hm' & _).
    split; [done|]. eauto.
  - destruct (clear_ok s Hwf) as [Hwf' Hc]. split; [done|].
    exists (fun _ => None). by apply models_empty.
Qed.

(** A sequence of inserts, each given as (width, address, value). *)
Fixpoint insert_all (ops : list (Z * Z * Z)) (s : redolog) : res redolog :=
  match ops with
  | [] => Ok s
  | (width, addr, val) :: ops' =>
      s' ← insert CHUNKSIZE uninit_chunk width addr val s;
      insert_all ops' s'
  end.

(** The most recently inserted byte for each address, after the inserts
    [ops] made on top of [m]. *)
Fixpoint recent (ops : list (Z * Z * Z)) (m : Z -> option Z)
  : Z -> option Z :=
  match ops with
  | [] => m
  | (width, addr, val) :: ops' => recent ops' (recent_insert width addr val m)
  end.

(** An insert of a scalar that lies within one chunk. *)
Definition fits (op : Z * Z * Z) : Prop :=
  let '(width, addr, _) := op in
  scalar_width width /\ 0 <= addr < 2 ^ 64 /\
  addr mod CHUNKSIZE + width <= CHUNKSIZE.

Lemma insert_all_ok : forall ops s m s',
  wf s -> models s m -> Forall fits ops ->
  insert_all ops s = Ok s' ->
  wf s' /\ models s' (recent ops m).
Proof.
  induction ops as [|[[width addr] val] ops IH]; intros s m s' Hwf Hm Hfits Hall.
  - simpl in *. by inversion Hall; subst.
  - inversion Hfits as [|? ? Hop Hrest]; subst. simpl in Hall.
    destruct Hop as (Hw & Ha & Hfit).
    pose proof (insert_ok s m width addr val Hwf Hm
                  (scalar_width_range _ Hw) Hfit) as Hok.
    destruct (insert CHUNKSIZE uninit_chunk width addr val s) as [s1| |];
      simpl in Hall; [|done|done].
    destruct Hok as (Hwf1 & Hm1 & _). simpl. by apply (IH s1).
Qed.

(** The bytes inserted are bytes. *)
Lemma recent_byte : forall ops m a b,
  (forall a b, m a = Some b -> 0 <= b < 256) ->
  recent ops m a = Some b -> 0 <= b < 256.
Proof.
  induction ops as [|[[width addr] val] ops IH]; intros m a b Hm Hr.
  - by apply (Hm a).
  - simpl in Hr. apply IH in Hr; [done|].
    intros a' b'. unfold recent_insert.
    destruct ((addr <=? a') && (a' <? addr + width)); [|apply Hm].
    intros [= <-]. apply byte_of_range.
Qed.

(** When the log holds all the bytes of the scalar at [addr], [get]
    returns true with the scalar read from the payload of their chunk,
    whose bytes are the bytes held. *)
Lemma get_models s m width addr :
  wf s -> models s m -> 1 <= width <= 8 ->
  addr mod CHUNKSIZE + width <= CHUNKSIZE ->
  (forall j, 0 <= j < width -> exists b, m (addr + j) = Some b) ->
  exists i, 0 <= i < vec_count s /\
    get CHUNKSIZE width addr s =
      Ok (Some (read_scalar (Z.to_nat width) (data (vec_chunks s i))
                  (addr mod CHUNKSIZE))) /\
    forall j, 0 <= j < width ->
      m (addr + j) = Some (data (vec_chunks s i) (addr mod CHUNKSIZE + j)).
Proof.
  intros Hwf Hm Hw Hfit Hall.
  destruct (Hall 0 ltac:(lia)) as [b0 Hb0].
  apply (proj1 (Hm _ _)) in Hb0 as (i & Hi & Hb & Hv & Hd).
  rewrite Z.add_0_r in Hb, Hv.
  assert (Hbytes : forall j, 0 <= j < width ->
            Z.testbit (vBytes (vec_chunks s i)) (addr mod CHUNKSIZE + j) = true /\
            m (addr + j) = Some (data (vec_chunks s i) (addr mod CHUNKSIZE + j))).
  { intros j Hj. destruct (Hall j Hj) as [b Hbj]. rewrite Hbj.
    apply (proj1 (Hm _ _)) in Hbj as (i' & Hi' & Hb' & Hv' & Hd').
    destruct (same_chunk addr width j Hfit Hj) as [Hmod Hkey].
    rewrite Hmod in Hv', Hd'. rewrite Hkey in Hb'.
    assert (i' = i) as ->.
    { destruct Hwf as (Hix & _).
      apply (indexed_distinct _ _ _ _ _ _ _ _ Hix); try done. congruence. }
    split; [done|]. by rewrite Hd'. }
  exists i. split; [done|]. split; [|intros j Hj; by apply Hbytes].
  destruct (get_ok s width addr Hwf Hw) as [_ Hget].
  destruct (Hget i Hi Hb) as [_ Hsome]. apply Hsome.
  exists 0. split; [lia|]. by rewrite Z.add_0_r.
Qed.

(** C1, as the code has it.  On a reachable log, for a scalar of width 1,
    2, 4 or 8 at [addr] that does not cross the end of its chunk (the
    bytes [get] reads are then bytes of the chunk's payload): [get] returns
    false when no chunk in use starts at the aligned base [addr & ~MASK] of
    [addr]; when chunk [i] does, it returns false if none of the requested
    bytes is marked valid in the chunk's mask, and it returns true, with the
    scalar read from the chunk's payload at offset [addr & MASK], as soon as
    at least one of the requested bytes is marked valid. *)
Theorem get_needs_one_valid_byte (s : redolog) (width addr : Z) :
  reachable s -> scalar_width width -> 0 <= addr < 2 ^ 64 ->
  addr mod CHUNKSIZE + width <= CHUNKSIZE ->
  let key := Z.land addr (Z.lnot (MASK CHUNKSIZE)) in
  let offset := Z.land addr (MASK CHUNKSIZE) in
  key = addr - addr mod CHUNKSIZE /\ offset = addr mod CHUNKSIZE /\
  ((forall i, 0 <= i < vec_count s -> bAddr (vec_chunks s i) ≠ key) ->
   get CHUNKSIZE width addr s = Ok None) /\
  (forall i, 0 <= i < vec_count s -> bAddr (vec_chunks s i) = key ->
     ((forall j, 0 <= j < width ->
         Z.testbit (vBytes (vec_chunks s i)) (offset + j) = false) ->
      get CHUNKSIZE width addr s = Ok None) /\
     ((exists j, 0 <= j < width /\
         Z.testbit (vBytes (vec_chunks s i)) (offset + j) = true) ->
      get CHUNKSIZE width addr s =
        Ok (Some (read_scalar (Z.to_nat width) (data (vec_chunks s i))
                    offset)))).
Proof.
  intros Hr Hw Ha Hfit. cbv zeta. rewrite base_mod, offset_mod.
  destruct (reachable_wf s Hr) as [Hwf _].
  split; [done|]. split; [done|].
  apply (get_ok s width addr Hwf (scalar_width_range _ Hw)).
Qed.

(** C4.  From an empty reachable log, after any sequence of inserts of
    scalars that lie within a chunk, a [get] of a scalar all of whose bytes
    were inserted returns true with a value whose every byte is the most
    recently inserted one for its address; and on any reachable log
    [insert(addr, val)] followed by [get(addr)] returns true with [val] (as
    a value of the scalar's width). *)
Theorem get_most_recent_insert (s0 : redolog) (ops : list (Z * Z * Z))
    (width addr : Z) :
  reachable s0 -> Forall fits ops ->
  scalar_width width -> 0 <= addr < 2 ^ 64 ->
  addr mod CHUNKSIZE + width <= CHUNKSIZE ->
  (forall s, vec_count s0 = 0 -> insert_all ops s0 = Ok s ->
     (forall j, 0 <= j < width ->
        recent ops (fun _ => None) (addr + j) ≠ None) ->
     exists v, get CHUNKSIZE width addr s = Ok (Some v) /\
       forall j, 0 <= j < width ->
         recent ops (fun _ => None) (addr + j) = Some (byte_of v j)) /\
  (forall val s1,
     insert CHUNKSIZE uninit_chunk width addr val s0 = Ok s1 ->
     get CHUNKSIZE width addr s1 = Ok (Some (val mod 2 ^ (8 * width))) /\
     (0 <= val < 2 ^ (8 * width) ->
      get CHUNKSIZE width addr s1 = Ok (Some val))).
Proof.
  intros Hr Hops Hw Ha Hfit.
  pose proof (scalar_width_range _ Hw) as Hwr.
  destruct (reachable_wf s0 Hr) as [Hwf [m0 Hm0]]. split.
  - intros s Hc Hall Hpresent.
    destruct (insert_all_ok ops s0 (fun _ => None) s Hwf
                (models_empty s0 Hc) Hops Hall) as [Hwfs Hms].
    destruct (get_models s _ width addr Hwfs Hms Hwr Hfit)
      as (i & Hi & Hget & Hbytes).
    { intros j Hj. specialize (Hpresent j Hj).
      destruct (recent ops (fun _ => None) (addr + j)); [eauto|done]. }
    eexists. split; [exact Hget|]. intros j Hj.
    rewrite Hbytes by done. f_equal.
    rewrite read_scalar_bytes; [done| |lia].
    intros k Hk. rewrite Z2Nat.id in Hk by lia.
    apply (recent_byte ops (fun _ => None) (addr + k)); [done|].
    by apply Hbytes.
  - intros val s1 Hins.
    pose proof (insert_ok s0 m0 width addr val Hwf Hm0 Hwr Hfit) as Hok.
    rewrite Hins in Hok. destruct Hok as (Hwf1 & Hm1 & _).
    destruct (get_models s1 _ width addr Hwf1 Hm1 Hwr Hfit)
      as (i & Hi & Hget & Hbytes).
    { intros j Hj. unfold recent_insert.
      rewrite range_test_true by lia. eauto. }
    assert (Hval : read_scalar (Z.to_nat width) (data (vec_chunks s1 i))
                     (addr mod CHUNKSIZE) = val mod 2 ^ (8 * width)).
    { rewrite (read_scalar_of_bytes _ _ _ val); [by rewrite Z2Nat.id by lia|].
      intros j Hj. rewrite Z2Nat.id in Hj by lia.
      specialize (Hbytes j Hj). unfold recent_insert in Hbytes.
      rewrite range_test_true in Hbytes by lia.
      injection Hbytes as Hb. rewrite <- Hb. f_equal. lia. }
    rewrite Hget, Hval. split; [done|].
    intros Hrange. by rewrite Z.mod_small.
Qed.

(** C10.  On every reachable log (built with a positive initial
    capacity) the entries of the index that carry the current version are at
    most [vec.count], and [vec.count * SPILL_FACTOR] is below [ht.len]; so the probing loop of [lookup] and [reserve] halts
    within [ht.len] turns, with the same result for any larger bound:
    [lookup] returns, and [reserve] never keeps probing: it returns, except
    that it stops the program when the index must be doubled and is at the
    largest length [doubleIndexLength] allows; the log it returns satisfies
    the two bounds again. *)
Theorem probing_halts (s : redolog) (key : Z) :
  reachable s ->
  nvalid (Z.to_nat (ht_len s)) (ht_tbl s) (ht_ver s) <= vec_count s /\
  vec_count s * SPILL_FACTOR < ht_len s /\
  (exists r, forall fuel, (Z.to_nat (ht_len s) <= fuel)%nat ->
     probe fuel (ht_tbl s) (ht_ver s) (ht_len s) key (hash s key) = Ok r) /\
  (exists idx, lookup s key = Ok idx) /\
  reserve uninit_chunk s key ≠ Spin /\
  ((vec_count s + 1) * SPILL_FACTOR < ht_len s \/ 2 < ht_shift s ->
   exists idx s', reserve uninit_chunk s key = Ok (idx, s')) /\
  (forall idx s', reserve uninit_chunk s key = Ok (idx, s') ->
     nvalid (Z.to_nat (ht_len s')) (ht_tbl s') (ht_ver s') <= vec_count s' /\
     vec_count s' * SPILL_FACTOR < ht_len s').
Proof.
  intros Hr. destruct (reachable_wf s Hr) as [Hwf _].
  pose proof Hwf as (Hix & Hc & Hspill).
  split; [rewrite (ix_nvalid _ _ _ _ _ _ Hix); lia|]. split; [done|].
  split.
  { destruct (probe_indexed _ _ _ _ _ _ key Hix) as (r & Hp & _).
    { unfold SPILL_FACTOR in *. lia. }
    exists r. intros fuel Hfuel. by apply (probe_more_fuel _ _ _ _ _ _ _ Hp). }
  split.
  { destruct (lookup_ok s key Hwf) as (idx & Hl & _). eauto. }
  pose proof (reserve_ok s key Hwf) as Hres.
  destruct (reserve uninit_chunk s key) as [[idx s']| |].
  - split; [done|]. split; [eauto|].
    intros idx' s'' [= <- <-]. destruct Hres as ((Hix' & Hc' & Hsp') & _).
    split; [rewrite (ix_nvalid _ _ _ _ _ _ Hix'); lia|done].
  - split; [done|]. split; [|done]. intros Hroom. lia.
  - done.
Qed.

End Operations.

(** *** [writeback]: the tests on the mask *)

Section Writeback.

Variable CHUNKSIZE : Z.
Variable uninit_chunk : Z -> writeback_chunk_t.
Hypothesis chunk_size : exists k, 0 <= k <= 6 /\ CHUNKSIZE = 2 ^ k.

(** The [n] bytes from offset [b] on are all marked valid in [v]. *)
Definition all_valid (v b n : Z) : Prop :=
  forall j, 0 <= j < n -> Z.testbit v (b + j) = true.

(** None of the [n] bytes from offset [b] on is marked valid in [v]. *)
Definition none_valid (v b n : Z) : Prop :=
  forall j, 0 <= j < n -> Z.testbit v (b + j) = false.

(** The low bits of [int m = v >> b] are those of [v >> b]. *)
Lemma land_to_int x n :
  0 <= n <= 8 -> Z.land (to_int x) (Z.ones n) = x mod 2 ^ n.
Proof.
  intros Hn. rewrite Z.land_ones by lia. unfold to_int.
  rewrite (Z.mod_eq (x + 2 ^ 31) (2 ^ 32)) by lia.
  replace (x + 2 ^ 31 - 2 ^ 32 * ((x + 2 ^ 31) / 2 ^ 32) - 2 ^ 31)
    with (x + (- (2 ^ (32 - n) * ((x + 2 ^ 31) / 2 ^ 32))) * 2 ^ n).
  - apply Z.mod_add. apply Z.pow_nonzero; lia.
  - replace (2 ^ 32) with (2 ^ (32 - n) * 2 ^ n); [ring|].
    rewrite <- Z.pow_add_r by lia. f_equal. lia.
Qed.

Lemma mod_pow2_all x n :
  0 <= n -> x mod 2 ^ n = Z.ones n <->
  forall j, 0 <= j < n -> Z.testbit x j = true.
Proof.
  intros Hn. split.
  - intros Heq j Hj.
    rewrite <- (Z.mod_pow2_bits_low x n j), Heq by lia.
    apply Z.ones_spec_low. lia.
  - intros Hall. apply Z.bits_inj'. intros k Hk.
    destruct (Z.lt_ge_cases k n).
    + rewrite Z.mod_pow2_bits_low, Z.ones_spec_low by lia. apply Hall. lia.
    + rewrite Z.mod_pow2_bits_high, Z.ones_spec_high by lia. done.
Qed.

Lemma mod_pow2_none x n :
  0 <= n -> x mod 2 ^ n = 0 <->
  forall j, 0 <= j < n -> Z.testbit x j = false.
Proof.
  intros Hn. split.
  - intros Heq j Hj.
    rewrite <- (Z.mod_pow2_bits_low x n j), Heq by lia. apply Z.bits_0.
  - intros Hall. apply Z.bits_inj'. intros k Hk. rewrite Z.bits_0.
    destruct (Z.lt_ge_cases k n).
    + rewrite Z.mod_pow2_bits_low by lia. apply Hall. lia.
    + apply Z.mod_pow2_bits_high. lia.
Qed.

(** The test [(m & ones) == ones] of the loop. *)
Lemma test_all v b n :
  0 <= b -> 0 <= n <= 8 ->
  (Z.land (to_int (Z.shiftr v b)) (Z.ones n) =? Z.ones n) = true <->
  all_valid v b n.
Proof.
  intros Hb Hn. rewrite Z.eqb_eq, land_to_int, mod_pow2_all by lia.
  unfold all_valid. split; intros H j Hj.
  - rewrite Z.add_comm, <- Z.shiftr_spec by lia. by apply H.
  - rewrite Z.shiftr_spec, Z.add_comm by lia. by apply H.
Qed.

(** The test [(m & ones) == 0] of the loop. *)
Lemma test_none v b n :
  0 <= b -> 0 <= n <= 8 ->
  (Z.land (to_int (Z.shiftr v b)) (Z.ones n) =? 0) = true <->
  none_valid v b n.
Proof.
  intros Hb Hn. rewrite Z.eqb_eq, land_to_int, mod_pow2_none by lia.
  unfold none_valid. split; intros H j Hj.
  - rewrite Z.add_comm, <- Z.shiftr_spec by lia. by apply H.
  - rewrite Z.shiftr_spec, Z.add_comm by lia. by apply H.
Qed.

(** A store of width [w] at offset [b] is the largest the mask allows:
    no wider aligned run of valid bytes starts at [b]. *)
Definition largest (v b w : Z) : Prop :=
  forall w', scalar_width w' -> w < w' ->
    ¬ (b mod w' = 0 /\ all_valid v b w').

(** One turn of the loop of [writeback] at offset [b]: either a store of
    the [w] valid bytes at the aligned offset [b], the largest possible
    there, or a skip of [w] bytes none of which is valid. *)
Lemma chunk_stores_turn fuel c b :
  0 <= b < CHUNKSIZE ->
  exists w, scalar_width w /\
    ((chunk_stores CHUNKSIZE (S fuel) c b =
        mk_store (bAddr c + b) (payload c b (Z.to_nat w))
          :: chunk_stores CHUNKSIZE fuel c (b + w) /\
      b mod w = 0 /\ all_valid (vBytes c) b w /\ largest (vBytes c) b w) \/
     (chunk_stores CHUNKSIZE (S fuel) c b = chunk_stores CHUNKSIZE fuel c (b + w) /\
      none_valid (vBytes c) b w)).
Proof.
  intros Hb. simpl chunk_stores.
  destruct (Z.ltb_spec b CHUNKSIZE) as [_|]; [|lia].
  change 0xFF with (Z.ones 8). change 0xF with (Z.ones 4).
  change 0x3 with (Z.ones 2). change 0x1 with (Z.ones 1).
  pose proof (test_all (vBytes c) b 8 ltac:(lia) ltac:(lia)) as A8.
  pose proof (test_all (vBytes c) b 4 ltac:(lia) ltac:(lia)) as A4.
  pose proof (test_all (vBytes c) b 2 ltac:(lia) ltac:(lia)) as A2.
  pose proof (test_all (vBytes c) b 1 ltac:(lia) ltac:(lia)) as A1.
  pose proof (test_none (vBytes c) b 8 ltac:(lia) ltac:(lia)) as N8.
  pose proof (test_none (vBytes c) b 4 ltac:(lia) ltac:(lia)) as N4.
  pose proof (test_none (vBytes c) b 2 ltac:(lia) ltac:(lia)) as N2.
  destruct (Z.land (to_int (Z.shiftr (vBytes c) b)) (Z.ones 8) =? Z.ones 8) eqn:T8;
    destruct (Z.eqb_spec (b mod 8) 0) as [M8|M8]; simpl.
  1: { exists 8. split; [unfold scalar_width; lia|]. left.
       split; [done|]. split; [done|]. split; [by apply A8|].
       intros w' Hw'. unfold scalar_width in Hw'. lia. }
  all: destruct (Z.land (to_int (Z.shiftr (vBytes c) b)) (Z.ones 8) =? 0) eqn:Z8;
    [exists 8; split; [unfold scalar_width; lia|]; right;
     split; [done|by apply N8]|].
  all: assert (L8 : ¬ (b mod 8 = 0 /\ all_valid (vBytes c) b 8))
    by (intros [? H8]; apply A8 in H8; congruence).
  all: destruct (Z.land (to_int (Z.shiftr (vBytes c) b)) (Z.ones 4) =? Z.ones 4)
         eqn:T4; destruct (Z.eqb_spec (b mod 4) 0) as [M4|M4]; simpl.
  1,5,9: (exists 4; split; [unfold scalar_width; lia|]; left;
       split; [done|]; split; [done|]; split; [by apply A4|];
       intros w' Hw' Hlt; unfold scalar_width in Hw';
       assert (w' = 8) as -> by lia; done).
  all: destruct (Z.land (to_int (Z.shiftr (vBytes c) b)) (Z.ones 4) =? 0) eqn:Z4;
    [exists 4; split; [unfold scalar_width; lia|]; right;
     split; [done|by apply N4]|].
  all: assert (L4 : ¬ (b mod 4 = 0 /\ all_valid (vBytes c) b 4))
    by (intros [? H4]; apply A4 in H4; congruence).
  all: destruct (Z.land (to_int (Z.shiftr (vBytes c) b)) (Z.ones 2) =? Z.ones 2)
         eqn:T2; destruct (Z.eqb_spec (b mod 2) 0) as [M2|M2]; simpl.
  all: try (exists 2; split; [unfold scalar_width; lia|]; left;
       split; [done|]; split; [done|]; split; [by apply A2|];
       intros w' Hw' Hlt; unfold scalar_width in Hw';
       assert (w' = 4 \/ w' = 8) as [->| ->] by lia; done).
  all: destruct (Z.land (to_int (Z.shiftr (vBytes c) b)) (Z.ones 2) =? 0) eqn:Z2;
    [exists 2; split; [unfold scalar_width; lia|]; right;
     split; [done|by apply N2]|].
  all: assert (L2 : ¬ (b mod 2 = 0 /\ all_valid (vBytes c) b 2))
    by (intros [? H2]; apply A2 in H2; congruence).
  all: destruct (Z.land (to_int (Z.shiftr (vBytes c) b)) (Z.ones 1) =? Z.ones 1)
         eqn:T1.
  all: exists 1; (split; [unfold scalar_width; lia|]).
  all: try (left; split; [done|]; split; [apply Z.mod_1_r|];
       split; [by apply A1|];
       intros w' Hw' Hlt; unfold scalar_width in Hw';
       assert (w' = 2 \/ w' = 4 \/ w' = 8) as [->|[->| ->]] by lia; done).
  all: right; split; [done|].
  all: intros j Hj; assert (j = 0) as -> by lia;
    destruct (Z.testbit (vBytes c) (b + 0)) eqn:Hbit; [|done];
    exfalso; assert (all_valid (vBytes c) b 1) as H1
      by (intros k Hk; by assert (k = 0) as -> by lia);
    apply A1 in H1; congruence.
Qed.

(** *** [writeback]: the stores of one chunk *)

Lemma payload_length c q n : length (payload c q n) = n.
Proof. unfold payload. by rewrite length_fmap, length_seq. Qed.

Lemma payload_nth c q n j d :
  (j < n)%nat -> nth j (payload c q n) d = data c (q + Z.of_nat j).
Proof.
  intros Hj. unfold payload. apply nth_lookup_Some.
  rewrite list_lookup_fmap, lookup_seq_lt by done. done.
Qed.

(** A run of valid bytes lies within the chunk when the mask has no bit
    beyond it. *)
Lemma all_valid_in_chunk v b w :
  (forall p, CHUNKSIZE <= p -> Z.testbit v p = false) ->
  1 <= w -> all_valid v b w -> b + w <= CHUNKSIZE.
Proof.
  intros Hin Hw Hall.
  destruct (Z.le_gt_cases (b + w) CHUNKSIZE) as [|Hgt]; [done|].
  specialize (Hall (w - 1) ltac:(lia)). rewrite Hin in Hall by lia. done.
Qed.

(** Every store of the loop is a store of [w] valid payload bytes at an
    offset aligned to [w], for the largest [w] possible at that offset. *)
Lemma chunk_stores_spec c :
  (forall p, CHUNKSIZE <= p -> Z.testbit (vBytes c) p = false) ->
  forall fuel b st, 0 <= b ->
  st ∈ chunk_stores CHUNKSIZE fuel c b ->
  exists q w, scalar_width w /\ b <= q /\ q + w <= CHUNKSIZE /\
    st = mk_store (bAddr c + q) (payload c q (Z.to_nat w)) /\
    q mod w = 0 /\ all_valid (vBytes c) q w /\ largest (vBytes c) q w.
Proof.
  intros Hin. induction fuel as [|fuel IH]; intros b st Hb Hst.
  - by apply elem_of_nil in Hst.
  - destruct (Z.lt_ge_cases b CHUNKSIZE) as [Hlt|Hge].
    + destruct (chunk_stores_turn fuel c b ltac:(lia))
        as (w & Hw & [(Heq & Hal & Hall & Hlg)|(Heq & Hnone)]);
        rewrite Heq in Hst; pose proof (scalar_width_range _ Hw).
      * apply elem_of_cons in Hst as [->|Hst].
        { exists b, w. repeat split; try done; try lia.
          by apply (all_valid_in_chunk (vBytes c)); [|lia|]. }
        apply IH in Hst as (q & w' & ? & ? & ? & ? & ? & ? & ?); [|lia].
        exists q, w'. repeat split; try done; lia.
      * apply IH in Hst as (q & w' & ? & ? & ? & ? & ? & ? & ?); [|lia].
        exists q, w'. repeat split; try done; lia.
    + simpl in Hst. destruct (Z.ltb_spec b CHUNKSIZE); [lia|].
      by apply elem_of_nil in Hst.
Qed.

(** An aligned run of [w] valid bytes at offset [p] is written by one
    store of the loop. *)
Lemma chunk_stores_scalar c :
  forall fuel b p w, 0 <= b -> CHUNKSIZE - b <= Z.of_nat fuel ->
  scalar_width w -> b <= p < CHUNKSIZE -> p mod w = 0 ->
  all_valid (vBytes c) p w ->
  exists q wq, scalar_width wq /\
    mk_store (bAddr c + q) (payload c q (Z.to_nat wq))
      ∈ chunk_stores CHUNKSIZE fuel c b /\
    q <= p /\ p + w <= q + wq.
Proof.
  induction fuel as [|fuel IH]; intros b p w Hb Hfuel Hw Hp Hal Hall; [lia|].
  pose proof (scalar_width_range _ Hw) as Hwr.
  assert (Hbit : Z.testbit (vBytes c) p = true).
  { specialize (Hall 0 ltac:(lia)). by rewrite Z.add_0_r in Hall. }
  destruct (chunk_stores_turn fuel c b ltac:(lia))
    as (ws & Hws & [(Heq & Hals & Halls & Hlg)|(Heq & Hnone)]);
    rewrite Heq; pose proof (scalar_width_range _ Hws) as Hwsr.
  - destruct (Z.lt_ge_cases p (b + ws)) as [Hlt|Hge].
    + destruct (Z.le_gt_cases w ws) as [Hle|Hgt].
      * exists b, ws. split; [done|]. split; [by left|]. split; [lia|].
        unfold scalar_width in Hw, Hws.
        destruct Hw as [->|[->|[->| ->]]]; destruct Hws as [->|[->|[->| ->]]];
          Z.to_euclidean_division_equations; lia.
      * exfalso. apply (Hlg w Hw Hgt).
        assert (p = b) as <-; [|done].
        unfold scalar_width in Hw, Hws.
        destruct Hw as [->|[->|[->| ->]]]; destruct Hws as [->|[->|[->| ->]]];
          Z.to_euclidean_division_equations; lia.
    + destruct (IH (b + ws) p w) as (q & wq & ? & Hmem & ? & ?); try done;
        try lia.
      exists q, wq. split; [done|]. split; [by right|]. done.
  - assert (b + ws <= p).
    { destruct (Z.lt_ge_cases p (b + ws)) as [Hlt|]; [|done].
      specialize (Hnone (p - b) ltac:(lia)).
      replace (b + (p - b)) with p in Hnone by lia. congruence. }
    destruct (IH (b + ws) p w) as (q & wq & ? & Hmem & ? & ?); try done;
      try lia.
    exists q, wq. done.
Qed.

(** *** [writeback]: memory after a list of stores *)

(** The store [st] writes the byte at address [a]. *)
Definition covers (st : store) (a : Z) : Prop :=
  st_addr st <= a < st_addr st + Z.of_nat (length (st_bytes st)).

Lemma apply_store_covered mem st a :
  covers st a ->
  apply_store mem st a = nth (Z.to_nat (a - st_addr st)) (st_bytes st) (mem a).
Proof.
  intros [H1 H2]. unfold apply_store.
  destruct (Z.leb_spec (st_addr st) a); [|lia].
  destruct (Z.ltb_spec a (st_addr st + Z.of_nat (length (st_bytes st))));
    [done|lia].
Qed.

Lemma apply_store_other mem st a : ¬ covers st a -> apply_store mem st a = mem a.
Proof.
  intros Hn. unfold apply_store, covers in *.
  destruct (Z.leb_spec (st_addr st) a); [|done].
  destruct (Z.ltb_spec a (st_addr st + Z.of_nat (length (st_bytes st))));
    [lia|done].
Qed.

(** When every store that covers [a] writes the byte [t] there, memory at
    [a] ends as [t] if a store covers [a], and unchanged if none does. *)
Lemma foldl_apply_store a t : forall stores mem,
  (forall st d, st ∈ stores -> covers st a ->
     nth (Z.to_nat (a - st_addr st)) (st_bytes st) d = t) ->
  (foldl apply_store mem stores a = t /\ exists st, st ∈ stores /\ covers st a) \/
  (foldl apply_store mem stores a = mem a /\
   forall st, st ∈ stores -> ¬ covers st a).
Proof.
  induction stores as [|st stores IH]; intros mem Hw.
  - right. split; [done|]. intros st Hst. by apply elem_of_nil in Hst.
  - simpl. destruct (IH (apply_store mem st)) as [[Ht (st' & Hst' & Hc)]|[Hm Hno]].
    + intros st' d Hst'. apply Hw. by right.
    + left. split; [done|]. exists st'. split; [by right|done].
    + destruct (decide (st_addr st <= a
                        < st_addr st + Z.of_nat (length (st_bytes st)))) as [Hc|Hc].
      * left. split; [|exists st; split; [by left|done]].
        rewrite Hm, apply_store_covered by done. apply Hw; [by left|done].
      * right. split; [by rewrite Hm, apply_store_other|].
        intros st' [->|Hst']%elem_of_cons; [done|by apply Hno].
Qed.

(** *** [writeback]: the chunks of a reachable log *)

(** Every chunk in use starts at a chunk boundary and marks no byte
    beyond its payload. *)
Definition chunks_ok (s : redolog) : Prop :=
  forall i, 0 <= i < vec_count s ->
    bases s i mod CHUNKSIZE = 0 /\
    forall p, CHUNKSIZE <= p -> Z.testbit (vBytes (vec_chunks s i)) p = false.

Lemma insert_chunks_ok s width addr val s' :
  wf s -> chunks_ok s -> 1 <= width <= 8 ->
  addr mod CHUNKSIZE + width <= CHUNKSIZE ->
  insert CHUNKSIZE uninit_chunk width addr val s = Ok s' ->
  chunks_ok s'.
Proof.
  intros Hwf Hok Hw Hfit. pose proof (chunk_size_range _ chunk_size) as HC.
  pose proof (Z.mod_pos_bound addr CHUNKSIZE ltac:(lia)) as Hoff.
  unfold insert. rewrite (base_mod _ chunk_size), (offset_mod _ chunk_size).
  pose proof (reserve_ok uninit_chunk s (addr - addr mod CHUNKSIZE) Hwf) as Hres.
  destruct (reserve uninit_chunk s (addr - addr mod CHUNKSIZE))
    as [[idx s1]| |]; simpl; [|done|done].
  destruct Hres as (Hwf1 & Hidx & Hbase & Hver & Hcase).
  intros [= <-]. intros i Hi. simpl in Hi. unfold bases. simpl.
  unfold upd. destruct (Z.eqb_spec i idx) as [->|Hne]; simpl.
  - split.
    + fold (bases s1 idx). rewrite Hbase.
      rewrite Zminus_mod_idemp_r, Z.sub_diag. apply Z.mod_0_l. lia.
    + intros p Hp. rewrite Z.lor_spec. apply orb_false_intro.
      * destruct Hcase as [[Hlt ->]|(-> & _ & _ & _ & Hz)].
        { by apply (Hok idx). }
        rewrite Hz. apply Z.bits_0.
      * destruct (Z.lt_ge_cases p 64).
        { rewrite mask_bit by lia. apply range_test_false. lia. }
        unfold wrap64. apply Z.mod_pow2_bits_high. lia.
  - destruct Hcase as [[Hlt ->]|(-> & _ & Hc & Hch & _)].
    + by apply (Hok i).
    + rewrite Hch by lia. apply (Hok i). lia.
Qed.

(** The chunks of a reachable log are well formed. *)
Lemma reachable_chunks_ok s :
  reachable CHUNKSIZE uninit_chunk s -> chunks_ok s.
Proof.
  induction 1 as [cap s Hcap Hnew|s width addr val s' Hr IH Hw Ha Hfit Hi
                  |s Hr IH].
  - destruct (redolog_new_wf _ _ _ Hcap Hnew) as [_ Hc].
    intros i Hi. lia.
  - destruct (reachable_wf _ _ chunk_size s Hr) as [Hwf _].
    by apply (insert_chunks_ok s width addr val s' Hwf IH
                (scalar_width_range _ Hw) Hfit).
  - destruct (reachable_wf _ _ chunk_size s Hr) as [Hwf _].
    destruct (clear_ok s Hwf) as [_ Hc]. intros i Hi. lia.
Qed.

(** *** [writeback]: all the chunks *)

Lemma stores_from_elem st : forall todo i s,
  st ∈ stores_from CHUNKSIZE todo i s <->
  exists k, i <= k < i + Z.of_nat todo /\
    st ∈ chunk_stores CHUNKSIZE (Z.to_nat CHUNKSIZE) (vec_chunks s k) 0.
Proof.
  induction todo as [|todo IH]; intros i s; simpl stores_from.
  - split; [by intros ?%elem_of_nil|]. intros (k & Hk & _). lia.
  - rewrite elem_of_app, IH. split.
    + intros [Hst|(k & Hk & Hst)]; [exists i|exists k]; split; try done; lia.
    + intros (k & Hk & Hst). destruct (decide (k = i)) as [->|Hne]; [by left|].
      right. exists k. split; [lia|done].
Qed.

(** An offset in a chunk that starts at a boundary. *)
Lemma offset_unique base p :
  base mod CHUNKSIZE = 0 -> 0 <= p < CHUNKSIZE ->
  (base + p) mod CHUNKSIZE = p.
Proof.
  intros Hb Hp. rewrite <- Zplus_mod_idemp_l, Hb. simpl.
  by apply Z.mod_small.
Qed.

(** An address at a width-aligned offset of a chunk is width-aligned. *)
Lemma aligned_in_chunk base q w :
  base mod CHUNKSIZE = 0 -> scalar_width w -> w <= CHUNKSIZE ->
  q mod w = 0 -> (base + q) mod w = 0.
Proof.
  intros Hb Hw Hle Hq. destruct chunk_size as (k & Hk & HC).
  assert (k = 0 \/ k = 1 \/ k = 2 \/ k = 3 \/ k = 4 \/ k = 5 \/ k = 6)
    as Hcases by lia.
  unfold scalar_width in Hw.
  destruct Hcases as [->|[->|[->|[->|[->|[->| ->]]]]]]; simpl in HC; subst;
    destruct Hw as [->|[->|[->| ->]]]; try lia;
    Z.to_euclidean_division_equations; lia.
Qed.

(** Every store of [writeback] on a reachable log comes from a chunk in
    use, and is a store of [w] valid payload bytes of that chunk at an
    offset aligned to [w], for the largest [w] possible at that offset. *)
Lemma writeback_store_spec s st :
  chunks_ok s -> st ∈ writeback_stores CHUNKSIZE s ->
  exists i q w, 0 <= i < vec_count s /\ scalar_width w /\
    0 <= q /\ q + w <= CHUNKSIZE /\
    st = mk_store (bAddr (vec_chunks s i) + q)
           (payload (vec_chunks s i) q (Z.to_nat w)) /\
    q mod w = 0 /\ all_valid (vBytes (vec_chunks s i)) q w /\
    largest (vBytes (vec_chunks s i)) q w.
Proof.
  intros Hok Hst. unfold writeback_stores in Hst.
  apply stores_from_elem in Hst as (i & Hi & Hst).
  assert (Hi' : 0 <= i < vec_count s) by lia.
  destruct (Hok i Hi') as [_ Hin].
  apply (chunk_stores_spec _ Hin) in Hst
    as (q & w & ? & ? & ? & ? & ? & ? & ?); [|lia].
  exists i, q, w. done.
Qed.

(** A store of [writeback] that covers the address [base_i + p] of chunk
    [i] writes the payload byte [p] of chunk [i] there. *)
Lemma writeback_store_byte s st i p d :
  wf s -> chunks_ok s -> st ∈ writeback_stores CHUNKSIZE s ->
  0 <= i < vec_count s -> 0 <= p < CHUNKSIZE ->
  covers st (bAddr (vec_chunks s i) + p) ->
  nth (Z.to_nat (bAddr (vec_chunks s i) + p - st_addr st)) (st_bytes st) d
    = data (vec_chunks s i) p /\
  Z.testbit (vBytes (vec_chunks s i)) p = true.
Proof.
  intros Hwf Hok Hst Hi Hp Hc.
  destruct (writeback_store_spec s st Hok Hst)
    as (i' & q & w & Hi' & Hw & Hq & Hqw & -> & Hal & Hall & _).
  pose proof (scalar_width_range _ Hw) as Hwr.
  unfold covers in Hc. simpl in Hc. rewrite payload_length in Hc.
  rewrite Z2Nat.id in Hc by lia.
  destruct (Hok i Hi) as [Hbi _]. destruct (Hok i' Hi') as [Hbi' _].
  unfold bases in Hbi, Hbi'.
  set (a := bAddr (vec_chunks s i) + p) in *.
  assert (Hp' : 0 <= a - bAddr (vec_chunks s i') < CHUNKSIZE) by lia.
  pose proof (offset_unique _ _ Hbi Hp) as H1. fold a in H1.
  pose proof (offset_unique _ _ Hbi' Hp') as H2.
  replace (bAddr (vec_chunks s i') + (a - bAddr (vec_chunks s i'))) with a
    in H2 by lia.
  assert (Hsame : bAddr (vec_chunks s i) = bAddr (vec_chunks s i')) by lia.
  assert (i = i') as <-.
  { destruct Hwf as (Hix & _).
    by apply (indexed_distinct _ _ _ _ _ _ _ _ Hix). }
  simpl. split.
  - rewrite payload_nth by lia. f_equal. lia.
  - specialize (Hall (p - q) ltac:(lia)).
    by replace (q + (p - q)) with p in Hall by lia.
Qed.

(** *** [writeback]: no store is a part of a wider one *)

(** A store of width [w] at offset [b] is maximal: no aligned run of
    valid bytes of a larger width contains it. *)
Definition maximal (v b w : Z) : Prop :=
  forall w', scalar_width w' -> w < w' -> ¬ all_valid v (b - b mod w') w'.

(** The loop is at an offset [b] that is not inside an aligned run of
    valid bytes: no aligned run that begins before [b] and reaches [b] is
    all valid. *)
Definition not_inside (v b : Z) : Prop :=
  forall w', scalar_width w' -> b mod w' ≠ 0 ->
    ¬ all_valid v (b - b mod w') w'.

Lemma not_inside_0 v : not_inside v 0.
Proof.
  intros w' Hw' H. pose proof (scalar_width_range _ Hw').
  by rewrite Z.mod_0_l in H by lia.
Qed.

(** The largest store at an offset that is not inside a run is maximal. *)
Lemma store_maximal v b w :
  not_inside v b -> largest v b w -> maximal v b w.
Proof.
  intros Hin Hlg w' Hw' Hlt Hall.
  destruct (decide (b mod w' = 0)) as [H0|Hne].
  - apply (Hlg w' Hw' Hlt). split; [done|].
    by rewrite H0, Z.sub_0_r in Hall.
  - by apply (Hin w' Hw' Hne).
Qed.

(** After a maximal store, and after a skip, the loop is again at an
    offset that is not inside a run. *)
Lemma not_inside_store v b w :
  scalar_width w -> b mod w = 0 -> maximal v b w -> not_inside v (b + w).
Proof.
  intros Hw Hal Hmax w' Hw' Hne Hall.
  assert (w < w' /\ b + w - (b + w) mod w' = b - b mod w') as [Hlt Heq].
  { unfold scalar_width in Hw, Hw'.
    destruct Hw as [->|[->|[->| ->]]]; destruct Hw' as [->|[->|[->| ->]]];
      Z.to_euclidean_division_equations; lia. }
  rewrite Heq in Hall. by apply (Hmax w' Hw' Hlt).
Qed.

Lemma not_inside_skip v b w :
  1 <= w -> none_valid v b w -> not_inside v (b + w).
Proof.
  intros Hw Hnone w' Hw' Hne Hall.
  pose proof (scalar_width_range _ Hw') as Hwr'.
  pose proof (Z.mod_pos_bound (b + w) w' ltac:(lia)) as Hm.
  specialize (Hall ((b + w) mod w' - 1) ltac:(lia)).
  specialize (Hnone (w - 1) ltac:(lia)).
  replace (b + w - (b + w) mod w' + ((b + w) mod w' - 1)) with (b + (w - 1))
    in Hall by lia.
  congruence.
Qed.

(** Every store of the loop, begun at an offset that is not inside a run,
    is a maximal store of valid payload bytes. *)
Lemma chunk_stores_maximal c :
  (forall p, CHUNKSIZE <= p -> Z.testbit (vBytes c) p = false) ->
  forall fuel b st, 0 <= b -> not_inside (vBytes c) b ->
  st ∈ chunk_stores CHUNKSIZE fuel c b ->
  exists q w, scalar_width w /\ b <= q /\ q + w <= CHUNKSIZE /\
    st = mk_store (bAddr c + q) (payload c q (Z.to_nat w)) /\
    q mod w = 0 /\ all_valid (vBytes c) q w /\ largest (vBytes c) q w /\
    maximal (vBytes c) q w.
Proof.
  intros Hin. induction fuel as [|fuel IH]; intros b st Hb Hni Hst.
  - by apply elem_of_nil in Hst.
  - destruct (Z.lt_ge_cases b CHUNKSIZE) as [Hlt|Hge].
    + destruct (chunk_stores_turn fuel c b ltac:(lia))
        as (w & Hw & [(Heq & Hal & Hall & Hlg)|(Heq & Hnone)]);
        rewrite Heq in Hst; pose proof (scalar_width_range _ Hw).
      * pose proof (store_maximal _ _ _ Hni Hlg) as Hmax.
        apply elem_of_cons in Hst as [->|Hst].
        { exists b, w. do 2 (split; [done|]). split.
          - by apply (all_valid_in_chunk (vBytes c)); [|lia|].
          - done. }
        apply IH in Hst as (q & w' & ? & ? & ? & ? & ? & ? & ? & ?);
          [|lia|by apply not_inside_store].
        exists q, w'. split; [done|]. split; [lia|]. done.
      * apply IH in Hst as (q & w' & ? & ? & ? & ? & ? & ? & ? & ?);
          [|lia|apply not_inside_skip; [lia|done]].
        exists q, w'. split; [done|]. split; [lia|]. done.
    + simpl in Hst. destruct (Z.ltb_spec b CHUNKSIZE); [lia|].
      by apply elem_of_nil in Hst.
Qed.

Lemma writeback_store_maximal s st :
  chunks_ok s -> st ∈ writeback_stores CHUNKSIZE s ->
  exists i q w, 0 <= i < vec_count s /\ scalar_width w /\
    0 <= q /\ q + w <= CHUNKSIZE /\
    st = mk_store (bAddr (vec_chunks s i) + q)
           (payload (vec_chunks s i) q (Z.to_nat w)) /\
    q mod w = 0 /\ all_valid (vBytes (vec_chunks s i)) q w /\
    largest (vBytes (vec_chunks s i)) q w /\
    maximal (vBytes (vec_chunks s i)) q w.
Proof.
  intros Hok Hst. unfold writeback_stores in Hst.
  apply stores_from_elem in Hst as (i & Hi & Hst).
  assert (Hi' : 0 <= i < vec_count s) by lia.
  destruct (Hok i Hi') as [_ Hin].
  apply (chunk_stores_maximal _ Hin) in Hst
    as (q & w & ? & ? & ? & ? & ? & ? & ? & ?); [|lia|apply not_inside_0].
  exists i, q, w. done.
Qed.

(** *** [writeback]: no byte is written twice *)

(** No two stores of the list write the same byte. *)
Definition apart (l : list store) : Prop :=
  forall (k1 k2 : nat) st1 st2 a,
    l !! k1 = Some st1 -> l !! k2 = Some st2 ->
    covers st1 a -> covers st2 a -> k1 = k2.

Lemma apart_nil : apart [].
Proof. intros k1 k2 st1 st2 a H1. by rewrite lookup_nil in H1. Qed.

Lemma apart_app l1 l2 :
  apart l1 -> apart l2 ->
  (forall st1 st2 a, st1 ∈ l1 -> st2 ∈ l2 ->
     covers st1 a -> covers st2 a -> False) ->
  apart (l1 ++ l2).
Proof.
  intros A1 A2 Hx k1 k2 st1 st2 a H1 H2 Hc1 Hc2.
  apply lookup_app_Some in H1 as [H1|[Hl1 H1]];
    apply lookup_app_Some in H2 as [H2|[Hl2 H2]].
  - by apply (A1 k1 k2 st1 st2 a).
  - exfalso. apply (Hx st1 st2 a); try done.
    + by apply (list_elem_of_lookup_2 _ k1).
    + by apply (list_elem_of_lookup_2 _ (k2 - length l1)).
  - exfalso. apply (Hx st2 st1 a); try done.
    + by apply (list_elem_of_lookup_2 _ k2).
    + by apply (list_elem_of_lookup_2 _ (k1 - length l1)).
  - pose proof (A2 _ _ st1 st2 a H1 H2 Hc1 Hc2). lia.
Qed.

(** The stores of one chunk go up in the chunk. *)
Lemma chunk_stores_apart c :
  (forall p, CHUNKSIZE <= p -> Z.testbit (vBytes c) p = false) ->
  forall fuel b, 0 <= b -> apart (chunk_stores CHUNKSIZE fuel c b).
Proof.
  intros Hin. induction fuel as [|fuel IH]; intros b Hb; [apply apart_nil|].
  destruct (Z.lt_ge_cases b CHUNKSIZE) as [Hlt|Hge].
  - destruct (chunk_stores_turn fuel c b ltac:(lia))
      as (w & Hw & [(Heq & Hal & Hall & Hlg)|(Heq & Hnone)]);
      rewrite Heq; pose proof (scalar_width_range _ Hw); [|apply IH; lia].
    apply (apart_app [_]); [|apply IH; lia|].
    + intros k1 k2 st1 st2 a H1 H2 _ _.
      apply lookup_lt_Some in H1, H2. simpl in H1, H2. lia.
    + intros st1 st2 a ->%list_elem_of_singleton Hst2 Hc1 Hc2.
      apply (chunk_stores_spec c Hin) in Hst2
        as (q & w' & Hw' & Hq & _ & -> & _); [|lia].
      pose proof (scalar_width_range _ Hw').
      unfold covers in Hc1, Hc2. simpl in Hc1, Hc2.
      rewrite payload_length in Hc1, Hc2. lia.
  - simpl. destruct (Z.ltb_spec b CHUNKSIZE); [lia|]. apply apart_nil.
Qed.

(** The stores of different chunks write to different chunks of
    memory. *)
Lemma stores_from_apart s :
  wf s -> chunks_ok s ->
  forall todo i, 0 <= i -> i + Z.of_nat todo <= vec_count s ->
  apart (stores_from CHUNKSIZE todo i s).
Proof.
  intros Hwf Hok. pose proof (chunk_size_range _ chunk_size) as HC.
  induction todo as [|todo IH]; intros i Hi Hle; simpl stores_from;
    [apply apart_nil|].
  destruct (Hok i ltac:(lia)) as [Hbi Hini].
  apply apart_app.
  - by apply chunk_stores_apart.
  - apply IH; lia.
  - intros st1 st2 a H1 H2 Hc1 Hc2.
    apply stores_from_elem in H2 as (k & Hk & H2).
    destruct (Hok k ltac:(lia)) as [Hbk Hink].
    apply (chunk_stores_spec _ Hini) in H1
      as (q1 & w1 & Hw1 & Hq1 & Hf1 & -> & _); [|lia].
    apply (chunk_stores_spec _ Hink) in H2
      as (q2 & w2 & Hw2 & Hq2 & Hf2 & -> & _); [|lia].
    pose proof (scalar_width_range _ Hw1).
    pose proof (scalar_width_range _ Hw2).
    unfold covers in Hc1, Hc2. simpl in Hc1, Hc2.
    rewrite payload_length in Hc1, Hc2.
    unfold bases in Hbi, Hbk.
    pose proof (offset_unique _ (a - bAddr (vec_chunks s i)) Hbi ltac:(lia))
      as E1.
    pose proof (offset_unique _ (a - bAddr (vec_chunks s k)) Hbk ltac:(lia))
      as E2.
    replace (bAddr (vec_chunks s i) + (a - bAddr (vec_chunks s i))) with a
      in E1 by lia.
    replace (bAddr (vec_chunks s k) + (a - bAddr (vec_chunks s k))) with a
      in E2 by lia.
    assert (Hsame : bAddr (vec_chunks s i) = bAddr (vec_chunks s k)) by lia.
    assert (i = k); [|lia].
    destruct Hwf as (Hix & _).
    apply (indexed_distinct _ _ _ _ _ _ _ _ Hix); try done; lia.
Qed.

(** C5.  On a reachable log and any memory: after [writeback()] every
    byte marked valid in a chunk holds that chunk's payload byte, and every
    byte that no chunk marks valid is unchanged; every store made is a store
    of 1, 2, 4 or 8 payload bytes to an address aligned to its width, all of
    them marked valid, and it is the largest such store: no wider aligned
    run of valid bytes starts at its address, and none contains it; every
    aligned scalar whose bytes are all valid is written by a single store;
    no two stores of [writeback()] write the same byte; and so a store that
    writes any byte of such a scalar writes all of it: no scalar is written
    in parts. *)
Theorem writeback_stores_valid_bytes (s : redolog) (mem : Z -> Z) :
  reachable CHUNKSIZE uninit_chunk s ->
  (forall i p, 0 <= i < vec_count s -> 0 <= p < CHUNKSIZE ->
     Z.testbit (vBytes (vec_chunks s i)) p = true ->
     writeback CHUNKSIZE s mem (bAddr (vec_chunks s i) + p)
       = data (vec_chunks s i) p) /\
  (forall a,
     (forall i p, 0 <= i < vec_count s -> 0 <= p < CHUNKSIZE ->
        a = bAddr (vec_chunks s i) + p ->
        Z.testbit (vBytes (vec_chunks s i)) p = false) ->
     writeback CHUNKSIZE s mem a = mem a) /\
  (forall st, st ∈ writeback_stores CHUNKSIZE s ->
     exists i q w, 0 <= i < vec_count s /\ scalar_width w /\
       0 <= q /\ q + w <= CHUNKSIZE /\
       st_addr st = bAddr (vec_chunks s i) + q /\
       st_bytes st = payload (vec_chunks s i) q (Z.to_nat w) /\
       Z.of_nat (length (st_bytes st)) = w /\
       st_addr st mod w = 0 /\
       all_valid (vBytes (vec_chunks s i)) q w /\
       largest (vBytes (vec_chunks s i)) q w /\
       maximal (vBytes (vec_chunks s i)) q w) /\
  (forall i p w, 0 <= i < vec_count s -> scalar_width w ->
     0 <= p -> p mod w = 0 ->
     all_valid (vBytes (vec_chunks s i)) p w ->
     exists st, st ∈ writeback_stores CHUNKSIZE s /\
       st_addr st <= bAddr (vec_chunks s i) + p /\
       bAddr (vec_chunks s i) + p + w
         <= st_addr st + Z.of_nat (length (st_bytes st))) /\
  apart (writeback_stores CHUNKSIZE s) /\
  (forall i p w st j, 0 <= i < vec_count s -> scalar_width w ->
     0 <= p -> p mod w = 0 ->
     all_valid (vBytes (vec_chunks s i)) p w ->
     st ∈ writeback_stores CHUNKSIZE s -> 0 <= j < w ->
     covers st (bAddr (vec_chunks s i) + p + j) ->
     st_addr st <= bAddr (vec_chunks s i) + p /\
     bAddr (vec_chunks s i) + p + w
       <= st_addr st + Z.of_nat (length (st_bytes st))).
Proof.
  intros Hr. pose proof (chunk_size_range _ chunk_size) as HC.
  destruct (reachable_wf _ _ chunk_size s Hr) as [Hwf _].
  pose proof (reachable_chunks_ok s Hr) as Hok.
  assert (Hscalar : forall i p w, 0 <= i < vec_count s -> scalar_width w ->
     0 <= p -> p mod w = 0 ->
     all_valid (vBytes (vec_chunks s i)) p w ->
     exists st, st ∈ writeback_stores CHUNKSIZE s /\
       st_addr st <= bAddr (vec_chunks s i) + p /\
       bAddr (vec_chunks s i) + p + w
         <= st_addr st + Z.of_nat (length (st_bytes st))).
  { intros i p w Hi Hw Hp Hal Hall.
    pose proof (scalar_width_range _ Hw) as Hwr.
    destruct (Hok i Hi) as [_ Hin].
    pose proof (all_valid_in_chunk (vBytes (vec_chunks s i)) p w Hin
                  ltac:(lia) Hall) as Hfit.
    destruct (chunk_stores_scalar (vec_chunks s i) (Z.to_nat CHUNKSIZE) 0 p w)
      as (q & wq & Hwq & Hmem & Hq & Hqw); try done; try lia.
    pose proof (scalar_width_range _ Hwq) as Hwqr.
    eexists. split.
    - unfold writeback_stores. apply stores_from_elem.
      exists i. split; [lia|exact Hmem].
    - simpl. rewrite payload_length. lia. }
  assert (Hapart : apart (writeback_stores CHUNKSIZE s)).
  { pose proof Hwf as (_ & Hcount & _).
    apply (stores_from_apart s Hwf Hok); lia. }
  split; [|split; [|split; [|split; [done|split; [done|]]]]].
  - intros i p Hi Hp Hbit. unfold writeback.
    destruct (foldl_apply_store (bAddr (vec_chunks s i) + p)
                (data (vec_chunks s i) p) (writeback_stores CHUNKSIZE s) mem)
      as [[Ht _]|[_ Hno]]; [|done|].
    + intros st d Hst Hc.
      by destruct (writeback_store_byte s st i p d Hwf Hok Hst Hi Hp Hc).
    + exfalso.
      assert (Hone : all_valid (vBytes (vec_chunks s i)) p 1).
      { intros j Hj. assert (j = 0) as -> by lia. by rewrite Z.add_0_r. }
      assert (Hw1 : scalar_width 1) by (unfold scalar_width; lia).
      destruct (Hscalar i p 1 Hi Hw1 ltac:(lia) (Z.mod_1_r p) Hone)
        as (st & Hst & H1 & H2).
      apply (Hno st Hst). unfold covers. lia.
  - intros a Hinvalid. unfold writeback.
    destruct (foldl_apply_store a (mem a) (writeback_stores CHUNKSIZE s) mem)
      as [[Ht _]|[Hm _]]; [|done|done].
    intros st d Hst Hc. exfalso.
    destruct (writeback_store_spec s st Hok Hst)
      as (i & q & w & Hi & Hw & Hq & Hqw & Heq & _ & Hall & _).
    pose proof (scalar_width_range _ Hw) as Hwr.
    subst st. unfold covers in Hc. simpl in Hc. rewrite payload_length in Hc.
    rewrite Z2Nat.id in Hc by lia.
    specialize (Hinvalid i (a - bAddr (vec_chunks s i)) Hi ltac:(lia) ltac:(lia)).
    specialize (Hall (a - bAddr (vec_chunks s i) - q) ltac:(lia)).
    replace (q + (a - bAddr (vec_chunks s i) - q))
      with (a - bAddr (vec_chunks s i)) in Hall by lia.
    congruence.
  - intros st Hst.
    destruct (writeback_store_maximal s st Hok Hst)
      as (i & q & w & Hi & Hw & Hq & Hqw & -> & Hal & Hall & Hlg & Hmax).
    pose proof (scalar_width_range _ Hw) as Hwr.
    exists i, q, w. simpl. rewrite payload_length, Z2Nat.id by lia.
    do 7 (split; [done|]). split; [|done].
    destruct (Hok i Hi) as [Hb _].
    apply aligned_in_chunk; try done. lia.
  - intros i p w st j Hi Hw Hp Hal Hall Hst Hj Hc.
    destruct (Hscalar i p w Hi Hw Hp Hal Hall) as (st0 & Hst0 & H1 & H2).
    apply list_elem_of_lookup_1 in Hst as [k Hk].
    apply list_elem_of_lookup_1 in Hst0 as [k0 Hk0].
    assert (Hc0 : covers st0 (bAddr (vec_chunks s i) + p + j))
      by (unfold covers; lia).
    pose proof (Hapart k k0 st st0 _ Hk Hk0 Hc Hc0) as ->.
    rewrite Hk in Hk0. by injection Hk0 as ->.
Qed.

End Writeback.




(** *** The log of the hybrid policies: [redolog_nocast_t<32>] *)

(** A vector whose memory happens to be zeroed. *)
Definition zeroed : Z -> writeback_chunk_t :=
  fun _ => mk_chunk 0 0 (fun _ => 0).

Lemma chunk_size_32 : exists k, 0 <= k <= 6 /\ 32 = 2 ^ k.
Proof. exists 5. split; [lia|reflexivity]. Qed.

(** The log built by [redolog_nocast_t<32>()], with the default initial
    capacity 64. *)
Definition fresh : redolog :=
  mk_log (fun _ => index_new) 256 1 24 zeroed 64 0.

Lemma fresh_new : redolog_new zeroed 64 = Ok fresh.
Proof. reflexivity. Qed.

Lemma fresh_reachable : reachable 32 zeroed fresh.
Proof. apply (reach_new 32 zeroed 64); [lia|exact fresh_new]. Qed.

(** The logs of a transaction that wrote the [uint8_t] 7 at address 4200,
    and of one that wrote a [uint64_t] at 4096 and then a [uint32_t] at
    4100. *)
Definition one_byte : redolog :=
  match insert 32 zeroed 1 4200 7 fresh with
  | Ok s => s
  | _ => fresh
  end.

Definition one_scalar : redolog :=
  match insert 32 zeroed 8 4096 0x1122334455667788 fresh with
  | Ok s => s
  | _ => fresh
  end.

Definition two_scalars : redolog :=
  match insert 32 zeroed 4 4100 0xAABBCCDD one_scalar with
  | Ok s => s
  | _ => fresh
  end.

Lemma one_byte_insert : insert 32 zeroed 1 4200 7 fresh = Ok one_byte.
Proof. vm_compute. reflexivity. Qed.

Lemma one_byte_reachable : reachable 32 zeroed one_byte.
Proof.
  apply (reach_insert 32 zeroed fresh 1 4200 7).
  - exact fresh_reachable.
  - by left.
  - lia.
  - vm_compute. discriminate.
  - exact one_byte_insert.
Qed.

Lemma one_scalar_insert :
  insert 32 zeroed 8 4096 0x1122334455667788 fresh = Ok one_scalar.
Proof. vm_compute. reflexivity. Qed.

Lemma two_scalars_insert_second :
  insert 32 zeroed 4 4100 0xAABBCCDD one_scalar = Ok two_scalars.
Proof. vm_compute. reflexivity. Qed.

Lemma two_scalars_insert :
  insert_all 32 zeroed [(8, 4096, 0x1122334455667788); (4, 4100, 0xAABBCCDD)]
    fresh = Ok two_scalars.
Proof.
  unfold insert_all. rewrite one_scalar_insert.
  change (insert 32 zeroed 4 4100 0xAABBCCDD one_scalar ≫= Ok = Ok two_scalars).
  by rewrite two_scalars_insert_second.
Qed.

Lemma two_scalars_reachable : reachable 32 zeroed two_scalars.
Proof.
  apply (reach_insert 32 zeroed one_scalar 4 4100 0xAABBCCDD);
    [|unfold scalar_width; lia|lia|vm_compute; discriminate
     |exact two_scalars_insert_second].
  apply (reach_insert 32 zeroed fresh 8 4096 0x1122334455667788);
    [exact fresh_reachable|unfold scalar_width; lia|lia
    |vm_compute; discriminate|exact one_scalar_insert].
Qed.

(** [get_needs_one_valid_byte] at the 8-byte read of address 4200 from the
    log that holds one byte there. *)
Lemma get_needs_one_valid_byte_witness :
  get 32 8 4200 one_byte =
    Ok (Some (read_scalar 8 (data (vec_chunks one_byte 0))
                (Z.land 4200 (MASK 32)))).
Proof.
  destruct (get_needs_one_valid_byte 32 zeroed chunk_size_32 one_byte 8 4200
              one_byte_reachable ltac:(unfold scalar_width; lia) ltac:(lia)
              ltac:(vm_compute; discriminate))
    as (_ & _ & _ & Hchunk).
  destruct (Hchunk 0) as [_ Hsome].
  - vm_compute. split; [discriminate|reflexivity].
  - vm_compute. reflexivity.
  - apply Hsome. exists 0. split; [lia|]. vm_compute. reflexivity.
Defined.

(** C1 as stated fails: after the [uint8_t] 7 was inserted at address
    4200, a [uint64_t] [get] at 4200 returns true, with the value 7, while
    the second byte of the requested width (offset 9 of the chunk at 4192)
    is not marked valid. *)
Lemma get_true_with_invalid_byte :
  insert 32 zeroed 1 4200 7 fresh = Ok one_byte /\
  bAddr (vec_chunks one_byte 0) = Z.land 4200 (Z.lnot (MASK 32)) /\
  Z.testbit (vBytes (vec_chunks one_byte 0)) (Z.land 4200 (MASK 32) + 1)
    = false /\
  get 32 8 4200 one_byte = Ok (Some 7).
Proof.
  split; [exact one_byte_insert|]. vm_compute. repeat split; reflexivity.
Qed.

(** [get_most_recent_insert] after a [uint64_t] insert at 4096 and a
    [uint32_t] insert at 4100 that overrides four of its bytes. *)
Lemma get_most_recent_insert_witness :
  exists v, get 32 8 4096 two_scalars = Ok (Some v) /\
    forall j, 0 <= j < 8 ->
      recent [(8, 4096, 0x1122334455667788); (4, 4100, 0xAABBCCDD)]
        (fun _ => None) (4096 + j) = Some (byte_of v j).
Proof.
  destruct (get_most_recent_insert 32 zeroed chunk_size_32 fresh
              [(8, 4096, 0x1122334455667788); (4, 4100, 0xAABBCCDD)] 8 4096)
    as [Hget _].
  - exact fresh_reachable.
  - repeat constructor; unfold scalar_width; try lia; vm_compute; discriminate.
  - unfold scalar_width. lia.
  - lia.
  - vm_compute. discriminate.
  - apply (Hget two_scalars).
    + reflexivity.
    + exact two_scalars_insert.
    + intros j Hj.
      assert (j = 0 \/ j = 1 \/ j = 2 \/ j = 3 \/ j = 4 \/ j = 5 \/ j = 6 \/ j = 7)
        as [->|[->|[->|[->|[->|[->|[->| ->]]]]]]] by lia;
        vm_compute; discriminate.
Defined.

(** [probing_halts] on the log of a fresh descriptor. *)
Lemma probing_halts_witness :
  (exists idx, lookup fresh 4096 = Ok idx) /\
  reserve zeroed fresh 4096 ≠ Spin /\
  vec_count fresh * SPILL_FACTOR < ht_len fresh.
Proof.
  destruct (probing_halts 32 zeroed chunk_size_32 fresh 4096 fresh_reachable)
    as (_ & Hspill & _ & Hlookup & Hreserve & _).
  split; [exact Hlookup|]. split; [exact Hreserve|exact Hspill].
Defined.

(** The log of a transaction that wrote a [uint64_t] at 4096 and then a
    [uint32_t] at 4104. *)
Definition twelve_bytes : redolog :=
  match insert 32 zeroed 4 4104 0xAABBCCDD one_scalar with
  | Ok s => s
  | _ => fresh
  end.

Lemma twelve_bytes_reachable : reachable 32 zeroed twelve_bytes.
Proof.
  apply (reach_insert 32 zeroed one_scalar 4 4104 0xAABBCCDD);
    [|unfold scalar_width; lia|lia|vm_compute; discriminate
     |vm_compute; reflexivity].
  apply (reach_insert 32 zeroed fresh 8 4096 0x1122334455667788);
    [exact fresh_reachable|unfold scalar_width; lia|lia
    |vm_compute; discriminate|exact one_scalar_insert].
Qed.

(** [writeback_stores_valid_bytes] on the log that holds twelve valid
    bytes at 4096: the byte at 4104 ends as the payload byte at offset 8,
    and the two stores made, of eight bytes at 4096 and of four at 4104,
    write no byte twice. *)
Lemma writeback_stores_valid_bytes_witness :
  writeback 32 twelve_bytes (fun _ => 0)
    (bAddr (vec_chunks twelve_bytes 0) + 8)
  = data (vec_chunks twelve_bytes 0) 8 /\
  (st_addr <$> writeback_stores 32 twelve_bytes) = [4096; 4104] /\
  apart (writeback_stores 32 twelve_bytes).
Proof.
  destruct (writeback_stores_valid_bytes 32 zeroed chunk_size_32 twelve_bytes
              (fun _ => 0) twelve_bytes_reachable)
    as (Hvalid & _ & _ & _ & Hapart & _).
  split; [|split; [vm_compute; reflexivity|exact Hapart]].
  apply Hvalid; [|lia|]; vm_compute; [split; [discriminate|reflexivity]|reflexivity].
Defined.

End RedoLog.

(* ===================================================================== *)
(** * hybrid/include/base.h and raii.h: inheriting an orec               *)
(* ===================================================================== *)

Module Hybrid.

Import Exotm.

(** How a call leaves: by returning, or by the [longjmp] of [abort()]. *)
Inductive exit_t := Returns | Longjmps.

(** The fields of [base_t] that a transaction works on ([smr], [rng],
    [checkpoint] and [snapshots] are not touched by the functions below).
    The redo log is a [redolog_nocast_t<32>]. *)
Record base_t := mk_base {
  exo : exotm_t;
  readset : list Z;
  lockset : list Z;
  redolog : RedoLog.redolog;
  mallocs : list Z;
  frees : list Z
}.

Section Policy.

(** [obj->orec()]: the orec of the ownable at address [obj], embedded in
    it ([orec_po_t]) or an entry of the table of orecs ([orec_ps_t]). *)
Variable orec : Z -> Z.

(** [abort()]: the state in which it calls [longjmp].  The pointers of
    [mallocs] are freed. *)
Definition abort (d : base_t) (w : world) : base_t * world :=
  let '(exo', w') := unwind ROLLBACK_ORECS (exo d) w in
  (mk_base exo' [] [] (RedoLog.clear (redolog d)) [] [], w').

(** The loop of [validate()]: false when some [check_orec] gives
    [END_OF_TIME]. *)
Fixpoint validate_loop (me : exotm_t) (w : world) (rs : list Z) : bool :=
  match rs with
  | [] => true
  | o :: rs' =>
      if check_orec me w o =? END_OF_TIME then false
      else validate_loop me w rs'
  end.

(** [validate()] *)
Definition validate (d : base_t) (w : world) : exit_t * base_t * world :=
  if validate_loop (exo d) w (readset d) then (Returns, d, w)
  else let '(d', w') := abort d w in (Longjmps, d', w').

(** [base_t::inheritOrec(obj, val)], which [Stm::inheritOrec] forwards
    to. *)
Definition inheritOrec (d : base_t) (w : world) (obj val : Z)
  : bool * base_t :=
  let d' := mk_base (exo d) (readset d ++ [orec obj]) (lockset d)
              (redolog d) (mallocs d) (frees d) in
  (check_continuation w (orec obj) val, d').

Lemma validate_loop_checks me w rs o :
  validate_loop me w rs = true -> o ∈ rs -> check_orec me w o ≠ END_OF_TIME.
Proof.
  induction rs as [|a rs IH]; intros Hv Hin; [by apply elem_of_nil in Hin|].
  simpl in Hv. destruct (Z.eqb_spec (check_orec me w a) END_OF_TIME); [done|].
  apply elem_of_cons in Hin as [->|Hin]; [done|by apply IH].
Qed.

(** C8, as the code has it.  [inheritOrec(obj, val)] returns true exactly
    when the current value of [obj]'s orec is at most [val]; whatever it
    returns, it appends the orec to the read-set and changes nothing else,
    so that a later [validate()] returns only if [check_orec] accepts that
    orec and aborts otherwise; a false result aborts nothing: the engine
    context is as it was. *)
Theorem inheritOrec_checks_and_logs (d : base_t) (w : world) (obj val : Z) :
  let '(ok, d') := inheritOrec d w obj val in
  (ok = true <-> curr (load (orecs w) (orec obj)) <= val) /\
  readset d' = readset d ++ [orec obj] /\
  exo d' = exo d /\ lockset d' = lockset d /\ redolog d' = redolog d /\
  mallocs d' = mallocs d /\ frees d' = frees d /\
  (forall w', fst (fst (validate d' w')) = Returns ->
     check_orec (exo d') w' (orec obj) ≠ END_OF_TIME) /\
  (forall w', check_orec (exo d') w' (orec obj) = END_OF_TIME ->
     validate d' w' = (Longjmps, fst (abort d' w'), snd (abort d' w'))).
Proof.
  unfold inheritOrec.
  split; [unfold check_continuation; apply Z.leb_le|].
  repeat split; try done.
  - intros w' Hv. unfold validate in Hv. simpl in Hv.
    destruct (validate_loop (exo d) w' (readset d ++ [orec obj])) eqn:Hl.
    + apply (validate_loop_checks _ _ _ _ Hl). apply elem_of_app. right. by left.
    + done.
  - intros w' He. unfold validate. simpl.
    destruct (validate_loop (exo d) w' (readset d ++ [orec obj])) eqn:Hl.
    + exfalso. apply (validate_loop_checks _ _ _ (orec obj) Hl); [|done].
      apply elem_of_app. right. by left.
    + done.
Qed.

End Policy.

(** C8 as stated fails: in a write scope that started at time 100, with
    the orec of the object at 64 now at version 200 and the recorded
    version 50, [inheritOrec] returns false and the transaction is not
    aborted: the context is not unwound, its [start_time] is still 100 and
    the read-set holds the orec, where [abort()] would have left the context
    unwound, [start_time] at [END_OF_TIME] and the read-set empty. *)
Lemma inheritOrec_false_without_abort :
  let log := RedoLog.mk_log (fun _ => RedoLog.index_new) 256 1 24
               (fun _ => RedoLog.mk_chunk 0 0 (fun _ => 0)) 64 0 in
  let d := mk_base (mk_exotm 100 [] (Z.lor LOCK_BIT 4096) 0 false) [] []
             log [] [] in
  let w := mk_world {[ 64 := mk_orec 200 0 ]} (fun _ => 0) 0 in
  fst (inheritOrec id d w 64 50) = false /\
  unwound (exo (snd (inheritOrec id d w 64 50))) = false /\
  start_time (exo (snd (inheritOrec id d w 64 50))) = 100 /\
  readset (snd (inheritOrec id d w 64 50)) = [64] /\
  unwound (exo (fst (abort d w))) = true /\
  start_time (exo (fst (abort d w))) = END_OF_TIME /\
  readset (fst (abort d w)) = [].
Proof. vm_compute. repeat split; reflexivity. Qed.

End Hybrid.

(* ===================================================================== *)
(** * ds/STMCAS/dlist_omap.h: the doubly-linked ordered map              *)
(* ===================================================================== *)

Module Dlist.

Import Exotm.

(** [node_t] and [data_t]: a sentinel has no key and value.  Keys and
    values are integers here ([K] and [V] in the source). *)
Record node_t := mk_node {
  node_prev : Z;
  node_next : Z;
  node_data : option (Z * Z)
}.

(** The fields of the STMCAS descriptor that the map uses: the exoTM
    context and the vector [snapshots] of (object, version) pairs. *)
Record stmcas_t := mk_stmcas {
  exo : exotm_t;
  snapshots : list (Z * Z)
}.

Definition set_exo (me : stmcas_t) (e : exotm_t) : stmcas_t :=
  mk_stmcas e (snapshots me).

(** [snapshots.push_back(s)], [snapshots.drop()], [snapshots.clear()] *)
Definition push_snapshot (me : stmcas_t) (s : Z * Z) : stmcas_t :=
  mk_stmcas (exo me) (snapshots me ++ [s]).

Definition drop_snapshot (me : stmcas_t) : stmcas_t :=
  mk_stmcas (exo me) (removelast (snapshots me)).

Definition clear_snapshots (me : stmcas_t) : stmcas_t :=
  mk_stmcas (exo me) [].

(** The end of a step: [~RStep()] is [ro_end()]. *)
Definition rstep_end (me : stmcas_t) : stmcas_t := set_exo me (ro_end (exo me)).

Section Map.

(** [obj->orec()], for the orec policy in use. *)
Variable orec : Z -> Z.

(** The sentinels of the list, and the template and configuration
    parameters. *)
Variable head tail : Z.
Variable SNAPSHOT_FREQUENCY : Z.
Variable AVOID_OREC_CHECKS : bool.

(** The address [new data_t(...)] returns, given the nodes that exist. *)
Variable alloc : gmap Z node_t -> Z.

(** What the inner loop of [get_leq] ends with. *)
Inductive traversal :=
| Found (obj ver : Z)   (* [return] of a node and its version *)
| Retry.                (* [break]: back to the top of [get_leq] *)

(** The inner [while (true)] of [get_leq]: [curr] is the node reached and
    its version, [next] its successor.  [None] stands for a loop that has
    not ended when the fuel ran out, and for the reading of a node that does
    not exist or of the key of a sentinel. *)
Fixpoint traverse (fuel : nat) (me : stmcas_t) (w : world)
    (h : gmap Z node_t) (key : Z) (curr : Z * Z) (next : Z)
    (nodes_until_snapshot : Z) : option (traversal * stmcas_t) :=
  match fuel with
  | O => None
  | S fuel' =>
      if next =? tail then
        if AVOID_OREC_CHECKS then
          let v := check_orec (exo me) w (orec (fst curr)) in
          if v =? END_OF_TIME then Some (Retry, me)
          else Some (Found (fst curr) v, me)
        else Some (Found (fst curr) (snd curr), me)
      else
        match h !! next with
        | Some (mk_node _ next_next (Some (nkey, _))) =>
            let next_ver :=
              if AVOID_OREC_CHECKS then 0
              else check_orec (exo me) w (orec next) in
            if negb AVOID_OREC_CHECKS && (next_ver =? END_OF_TIME)
            then Some (Retry, me)
            else if nkey >? key then
              if AVOID_OREC_CHECKS then
                let v := check_orec (exo me) w (orec (fst curr)) in
                if v =? END_OF_TIME then Some (Retry, me)
                else Some (Found (fst curr) v, me)
              else Some (Found (fst curr) (snd curr), me)
            else if nkey =? key then
              if AVOID_OREC_CHECKS then
                let v := check_orec (exo me) w (orec next) in
                if v =? END_OF_TIME then Some (Retry, me)
                else Some (Found next v, me)
              else Some (Found next next_ver, me)
            else
              let n := RedoLog.to_int (nodes_until_snapshot - 1) in
              let '(me1, curr1, n1) :=
                if n =? 0 then
                  if AVOID_OREC_CHECKS then
                    let v := check_orec (exo me) w (orec (fst curr)) in
                    (if negb (v =? END_OF_TIME)
                     then push_snapshot me (fst curr, v) else me,
                     (fst curr, v), SNAPSHOT_FREQUENCY)
                  else (push_snapshot me curr, curr, SNAPSHOT_FREQUENCY)
                else (me, curr, n) in
              let curr2 :=
                (next, if AVOID_OREC_CHECKS then snd curr1 else next_ver) in
              traverse fuel' me1 w h key curr2 next_next n1
        | _ => None
        end
  end.

(** [get_leq(me, key)]: the node found with its version, the descriptor
    and the world after the call. *)
Fixpoint get_leq (fuel : nat) (me : stmcas_t) (w : world)
    (h : gmap Z node_t) (key : Z) : option (Z * Z * stmcas_t * world) :=
  match fuel with
  | O => None
  | S fuel' =>
      let '(e1, w1) := ro_begin (exo me) w in
      let me1 := set_exo me e1 in
      let curr := default (head, 0) (last (snapshots me1)) in
      match h !! fst curr with
      | None => None
      | Some cn =>
          let next := node_next cn in
          let inner (curr : Z * Z) :=
            match traverse fuel' me1 w1 h key curr next SNAPSHOT_FREQUENCY with
            | None => None
            | Some (Found obj ver, me2) => Some (obj, ver, rstep_end me2, w1)
            | Some (Retry, me2) => get_leq fuel' (rstep_end me2) w1 h key
            end in
          if fst curr =? head then
            let v := check_orec e1 w1 (orec (fst curr)) in
            if v =? END_OF_TIME then get_leq fuel' (rstep_end me1) w1 h key
            else inner (fst curr, v)
          else if negb (check_continuation w1 (orec (fst curr)) (snd curr))
          then get_leq fuel' (rstep_end (drop_snapshot me1)) w1 h key
          else inner curr
      end
  end.

(** The end of a writing step that gave up: [tx.unwind()], then
    [~WStep()], which is [wo_end()]. *)
Definition wstep_unwind (e : exotm_t) (w : world) : exotm_t * world :=
  let '(e1, w1) := unwind ROLLBACK_ORECS e w in wo_end e1 w1.

(** The [while (true)] of [insert(me, key, val)], for a thread that runs
    alone (nothing happens between the load and the CAS of an acquire). *)
Fixpoint insert_loop (fuel : nat) (me : stmcas_t) (w : world)
    (h : gmap Z node_t) (key val : Z)
  : option (bool * stmcas_t * world * gmap Z node_t) :=
  match fuel with
  | O => None
  | S fuel' =>
      match get_leq fuel' me w h key with
      | None => None
      | Some (n_obj, n_ver, me1, w1) =>
          let present :=
            if n_obj =? head then Some false
            else match h !! n_obj with
                 | Some (mk_node _ _ (Some (k, _))) => Some (k =? key)
                 | _ => None
                 end in
          match present with
          | None => None
          | Some true => Some (false, me1, w1, h)
          | Some false =>
              let '(e2, w2) := wo_begin (exo me1) w1 in
              match acquire_continuation id e2 w2 (orec n_obj) n_ver with
              | (false, e3, w3) =>
                  let '(e4, w4) := wstep_unwind e3 w3 in
                  insert_loop fuel' (set_exo me1 e4) w4 h key val
              | (true, e3, w3) =>
                  match h !! n_obj with
                  | None => None
                  | Some nn =>
                      let next := node_next nn in
                      match acquire_aggressive id e3 w3 (orec next) with
                      | (false, e4, w4) =>
                          let '(e5, w5) := wstep_unwind e4 w4 in
                          insert_loop fuel' (set_exo me1 e5) w5 h key val
                      | (true, e4, w4) =>
                          let new_dn := alloc h in
                          let h1 := <[new_dn := mk_node n_obj next
                                                  (Some (key, val))]> h in
                          let h2 := alter (fun n => mk_node (node_prev n) new_dn
                                                      (node_data n)) n_obj h1 in
                          let h3 := alter (fun n => mk_node new_dn (node_next n)
                                                      (node_data n)) next h2 in
                          let '(e5, w5) := wo_end e4 w4 in
                          Some (true, set_exo me1 e5, w5, h3)
                      end
                  end
              end
          end
      end
  end.

(** [insert(me, key, val)] *)
Definition insert (fuel : nat) (me : stmcas_t) (w : world)
    (h : gmap Z node_t) (key val : Z)
  : option (bool * stmcas_t * world * gmap Z node_t) :=
  insert_loop fuel (clear_snapshots me) w h key val.

(** *** A map that holds the key *)

(** The data nodes from [x] to the tail sentinel are [l], a list of
    (address, key, value). *)
Fixpoint chain (h : gmap Z node_t) (x : Z) (l : list (Z * Z * Z)) : Prop :=
  match l with
  | [] => x = tail
  | (a, k, v) :: l' =>
      x = a /\ a ≠ head /\ a ≠ tail /\
      exists p nx, h !! a = Some (mk_node p nx (Some (k, v))) /\ chain h nx l'
  end.

Definition keys (l : list (Z * Z * Z)) : list Z := (fun e => snd (fst e)) <$> l.

(** The heap holds the map with the mappings [l], in increasing order of
    their keys. *)
Definition is_map (h : gmap Z node_t) (l : list (Z * Z * Z)) : Prop :=
  head ≠ tail /\
  (exists p first, h !! head = Some (mk_node p first None) /\ chain h first l) /\
  StronglySorted Z.lt (keys l).

(** No orec is locked, and none holds a time after the next value of the
    clock. *)
Definition settled (w : world) : Prop :=
  forall o, curr (load (orecs w) o) <= rdtsc w (reads w) /\
            rdtsc w (reads w) < END_OF_TIME.

Lemma settled_check_orec e w o :
  settled w ->
  check_orec (fst (ro_begin e w)) (snd (ro_begin e w)) o ≠ END_OF_TIME.
Proof.
  intros Hs. destruct (Hs o) as [Hle Hlt]. unfold ro_begin, check_orec. simpl.
  destruct (Z.leb_spec (curr (load (orecs w) o)) (rdtsc w (reads w))); [|lia].
  simpl. lia.
Qed.

(** The traversal of a chain that holds [key] returns the node of [key]. *)
Lemma traverse_finds : forall l fuel me w h key curr next n,
  chain h next l -> StronglySorted Z.lt (keys l) -> key ∈ keys l ->
  (forall o, check_orec (exo me) w o ≠ END_OF_TIME) ->
  (length l < fuel)%nat ->
  exists a ver me' p nx v,
    traverse fuel me w h key curr next n = Some (Found a ver, me') /\
    exo me' = exo me /\ a ≠ head /\
    h !! a = Some (mk_node p nx (Some (key, v))).
Proof.
  induction l as [|[[a ka] va] l IH];
    intros fuel me w h key curr next n Hch Hs Hin Hok Hfuel.
  - by apply elem_of_nil in Hin.
  - destruct fuel as [|fuel]; [simpl in Hfuel; lia|].
    destruct Hch as (-> & Hah & Hat & p & nx & Ha & Hch).
    simpl in Hs, Hin. inversion Hs as [|? ? Hs' Hall]; subst.
    simpl traverse. rewrite (proj2 (Z.eqb_neq a tail) Hat), Ha.
    assert (Hnv : (negb AVOID_OREC_CHECKS &&
               ((if AVOID_OREC_CHECKS then 0
                 else check_orec (exo me) w (orec a)) =? END_OF_TIME)) = false).
    { destruct AVOID_OREC_CHECKS; [done|]. simpl.
      apply Z.eqb_neq, Hok. }
    rewrite Hnv.
    assert (Hle : ka <= key).
    { apply elem_of_cons in Hin as [->|Hin]; [lia|].
      rewrite Forall_forall in Hall. specialize (Hall key Hin). lia. }
    destruct (Z.gtb_spec ka key); [lia|].
    destruct (Z.eqb_spec ka key) as [->|Hne].
    + destruct AVOID_OREC_CHECKS.
      * rewrite (proj2 (Z.eqb_neq _ _) (Hok (orec a))). by eexists _, _, _, _, _, _.
      * by eexists _, _, _, _, _, _.
    + apply elem_of_cons in Hin as [->|Hin]; [done|].
      set (step := if RedoLog.to_int (n - 1) =? 0 then _ else _).
      assert (Hexo : exo (fst (fst step)) = exo me).
      { unfold step. destruct (RedoLog.to_int (n - 1) =? 0); [|done].
        destruct AVOID_OREC_CHECKS; [|done].
        by destruct (check_orec (exo me) w (orec (fst curr)) =? END_OF_TIME). }
      destruct step as [[me1 curr1] n1]. simpl in Hexo.
      destruct (IH fuel me1 w h key
                  (a, if AVOID_OREC_CHECKS then snd curr1
                      else if AVOID_OREC_CHECKS then 0
                           else check_orec (exo me) w (orec a)) nx n1)
        as (a' & ver & me' & p' & nx' & v & Ht & He & Hh & Hn); try done.
      * by rewrite Hexo.
      * simpl in Hfuel. lia.
      * exists a', ver, me', p', nx', v. rewrite Ht. split; [done|].
        split; [congruence|done].
Qed.

(** C6.  On a heap that holds the map, with no orec locked or newer than
    the clock, when a mapping for [key] is present: given enough fuel,
    [insert(key, val)] returns false; the heap is the one it was given (no
    node, key, value or pointer was written), every orec is as it was, and
    the context holds the locks it held before (none, for an operation that
    starts with none), with [start_time] back at [END_OF_TIME]. *)
Theorem insert_present_returns_false (h : gmap Z node_t)
    (l : list (Z * Z * Z)) (me : stmcas_t) (w : world) (key val : Z)
    (fuel : nat) :
  is_map h l -> key ∈ keys l -> settled w ->
  (length l + 3 <= fuel)%nat ->
  exists me' w',
    insert fuel me w h key val = Some (false, me', w', h) /\
    orecs w' = orecs w /\
    locks (exo me') = locks (exo me) /\
    start_time (exo me') = END_OF_TIME /\
    (locks (exo me) = [] -> has_orecs (exo me') = false).
Proof.
  intros (Hht & (p & first & Hhead & Hch) & Hs) Hin Hset Hfuel.
  destruct fuel as [|[|fuel]]; [lia|lia|].
  unfold insert. simpl insert_loop.
  remember (set_start_time (exo me) (rdtsc w (reads w))) as e1 eqn:He1.
  remember (mk_world (orecs w) (rdtsc w) (S (reads w))) as w1 eqn:Hw1.
  assert (Hok : forall o, check_orec e1 w1 o ≠ END_OF_TIME).
  { intros o. subst e1 w1. apply (settled_check_orec (exo me) w o Hset). }
  rewrite Hhead. simpl. rewrite Z.eqb_refl.
  rewrite (proj2 (Z.eqb_neq _ _) (Hok (orec head))).
  destruct (traverse_finds l fuel (set_exo (clear_snapshots me) e1) w1 h key
              (head, check_orec e1 w1 (orec head)) first SNAPSHOT_FREQUENCY)
    as (a & ver & me2 & pa & nxa & v & Ht & He & Hah & Ha); try done; [lia|].
  rewrite Ht. rewrite (proj2 (Z.eqb_neq a head) Hah), Ha, Z.eqb_refl.
  eexists _, _. split; [done|].
  subst e1 w1. simpl. rewrite He. simpl. repeat split; try done.
  intros Hl. unfold has_orecs. simpl. by rewrite Hl.
Qed.

End Map.


(** The map after [insert(2, 65); insert(4, 66); insert(6, 67)], with
    sentinels at 1000 and 2000, for a thread whose context is at 4096 and
    a clock that has reached 100. *)
Definition three_nodes : gmap Z node_t :=
  <[1000 := mk_node 0 3000 None]>
  (<[3000 := mk_node 1000 4000 (Some (2, 65))]>
  (<[4000 := mk_node 3000 5000 (Some (4, 66))]>
  (<[5000 := mk_node 4000 2000 (Some (6, 67))]>
  (<[2000 := mk_node 5000 0 None]> ∅)))).

Definition three_mappings : list (Z * Z * Z) :=
  [(3000, 2, 65); (4000, 4, 66); (5000, 6, 67)].

Lemma three_nodes_is_map : is_map 1000 2000 three_nodes three_mappings.
Proof.
  split; [done|]. split.
  - exists 0, 3000. split; [reflexivity|]. simpl.
    split; [done|]. split; [done|]. split; [done|].
    exists 1000, 4000. split; [reflexivity|].
    split; [done|]. split; [done|]. split; [done|].
    exists 3000, 5000. split; [reflexivity|].
    split; [done|]. split; [done|]. split; [done|].
    exists 4000, 2000. split; [reflexivity|]. done.
  - repeat constructor; lia.
Qed.

Lemma clock_100_settled :
  settled (mk_world ∅ (fun n => 100 + Z.of_nat n) 0).
Proof.
  intros o. unfold load. simpl. rewrite lookup_empty. simpl.
  unfold END_OF_TIME, ULLONG_MAX. lia.
Qed.

(** [insert_present_returns_false] at [insert(4, 777)] on that map. *)
Lemma insert_present_returns_false_witness :
  exists me' w',
    insert id 1000 2000 2 false (fun _ => 9999) 10
      (mk_stmcas (exotm_new 4096) [])
      (mk_world ∅ (fun n => 100 + Z.of_nat n) 0) three_nodes 4 777
    = Some (false, me', w', three_nodes).
Proof.
  destruct (insert_present_returns_false id 1000 2000 2 false (fun _ => 9999)
              three_nodes three_mappings (mk_stmcas (exotm_new 4096) [])
              (mk_world ∅ (fun n => 100 + Z.of_nat n) 0) 4 777 10)
    as (me' & w' & Hins & _).
  - exact three_nodes_is_map.
  - simpl. right. left.
  - exact clock_100_settled.
  - simpl. lia.
  - exists me', w'. exact Hins.
Defined.

End Dlist.

(* ===================================================================== *)
(** * redolog_nocast.h: the log in use by a transaction                   *)
(* ===================================================================== *)

Module RedoLogUse.

Import RedoLog.

Section Use.

Variable CHUNKSIZE : Z.
Variable uninit_chunk : Z -> writeback_chunk_t.
Hypothesis chunk_size : exists k, 0 <= k <= 6 /\ CHUNKSIZE = 2 ^ k.

(** The largest number of chunks for which [reserve] never has to double
    an index that is already at its largest length, [2 ^ 30]. *)
Definition MAX_CHUNKS : Z := 2 ^ 30 / SPILL_FACTOR.

(** *** What one [insert] does to the vector of chunks *)

(** [insert] changes one chunk: the chunk of [addr], which it finds or
    appends with an empty mask; there it marks the bytes of the scalar valid
    and writes them to the payload. *)
Lemma insert_shape s width addr val s' :
  wf s -> 1 <= width <= 8 -> addr mod CHUNKSIZE + width <= CHUNKSIZE ->
  insert CHUNKSIZE uninit_chunk width addr val s = Ok s' ->
  exists idx old,
    wf s' /\ 0 <= idx < vec_count s' /\
    ((idx < vec_count s /\ vec_count s' = vec_count s /\
      old = vec_chunks s idx) \/
     (idx = vec_count s /\ vec_count s' = vec_count s + 1 /\
      (forall i, 0 <= i < vec_count s ->
         bases s i ≠ addr - addr mod CHUNKSIZE) /\
      vBytes old = 0)) /\
    bAddr old = addr - addr mod CHUNKSIZE /\
    vec_chunks s' idx =
      mk_chunk (bAddr old)
        (Z.lor (vBytes old)
           (wrap64 (Z.shiftl (Z.shiftl 1 width - 1) (addr mod CHUNKSIZE))))
        (write_scalar (data old) (addr mod CHUNKSIZE) width val) /\
    (forall i, 0 <= i < vec_count s -> i ≠ idx ->
       vec_chunks s' i = vec_chunks s i).
Proof.
  intros Hwf Hw Hfit. unfold insert.
  rewrite (base_mod _ chunk_size), (offset_mod _ chunk_size).
  pose proof (reserve_ok uninit_chunk s (addr - addr mod CHUNKSIZE) Hwf) as Hres.
  destruct (reserve uninit_chunk s (addr - addr mod CHUNKSIZE))
    as [[idx s1]| |]; simpl; [|done|done].
  destruct Hres as (Hwf1 & Hidx & Hbase & Hver & Hcase).
  intros [= <-]. exists idx, (vec_chunks s1 idx).
  assert (Hat : forall c, upd (vec_chunks s1) idx c idx = c).
  { intros c. unfold upd. by rewrite Z.eqb_refl. }
  assert (Hother : forall c i, i ≠ idx -> upd (vec_chunks s1) idx c i
                                           = vec_chunks s1 i).
  { intros c i Hi. unfold upd. by destruct (Z.eqb_spec i idx). }
  split.
  { destruct Hwf1 as (Hix1 & Hc1 & Hsp1). split; [|done]. simpl.
    apply (indexed_ext _ _ _ _ (bases s1)); [|done].
    intros i Hi. unfold bases. simpl.
    destruct (decide (i = idx)) as [->|Hne]; [by rewrite Hat|by rewrite Hother]. }
  split; [done|]. split.
  { destruct Hcase as [[Hlt ->]|(-> & Hfresh & Hc & Hch & Hz)].
    - left. done.
    - right. done. }
  split; [done|]. simpl. split; [by rewrite Hat|].
  intros i Hi Hne. rewrite Hother by done.
  destruct Hcase as [[Hlt ->]|(-> & Hfresh & Hc & Hch & Hz)]; [done|].
  by apply Hch.
Qed.

(** An insert adds at most one chunk. *)
Lemma insert_size s width addr val s' :
  wf s -> 1 <= width <= 8 -> addr mod CHUNKSIZE + width <= CHUNKSIZE ->
  insert CHUNKSIZE uninit_chunk width addr val s = Ok s' ->
  vec_count s <= vec_count s' <= vec_count s + 1.
Proof.
  intros Hwf Hw Hfit Hins.
  destruct (insert_shape s width addr val s' Hwf Hw Hfit Hins)
    as (idx & old & _ & _ & [(_ & -> & _)|(_ & -> & _)] & _); lia.
Qed.

(** A sequence of inserts of scalars that fit keeps the log reachable. *)
Lemma insert_all_reachable : forall ops s s',
  reachable CHUNKSIZE uninit_chunk s -> Forall (fits CHUNKSIZE) ops ->
  insert_all CHUNKSIZE uninit_chunk ops s = Ok s' ->
  reachable CHUNKSIZE uninit_chunk s'.
Proof.
  induction ops as [|[[width addr] val] ops IH]; intros s s' Hr Hfits Hall.
  - simpl in Hall. by inversion Hall; subst.
  - inversion Hfits as [|? ? Hop Hrest]; subst. simpl in Hall.
    destruct Hop as (Hw & Ha & Hfit).
    destruct (insert CHUNKSIZE uninit_chunk width addr val s) as [s1| |] eqn:Hi;
      simpl in Hall; [|done|done].
    apply (IH s1); [|done|done].
    by apply (reach_insert _ _ s width addr val).
Qed.

(** On a well-formed log with fewer than [MAX_CHUNKS] chunks [reserve]
    cannot be out of index space. *)
Lemma below_max_chunks s :
  wf s -> vec_count s + 1 < MAX_CHUNKS ->
  ¬ (ht_shift s = 2 /\ (vec_count s + 1) * SPILL_FACTOR >= ht_len s).
Proof.
  intros (Hix & _ & _) Hmax [Hs Hge].
  pose proof (ix_len _ _ _ _ _ _ Hix) as Hlen. rewrite Hs in Hlen.
  unfold MAX_CHUNKS, SPILL_FACTOR in *. simpl in Hlen.
  change (2 ^ 30 / 3) with 357913941 in Hmax. lia.
Qed.

(** *** Memory after [writeback] *)

(** After [writeback], memory holds the bytes the log holds, and is
    unchanged elsewhere. *)
Lemma writeback_models s m mem a :
  wf s -> chunks_ok CHUNKSIZE s -> models CHUNKSIZE s m ->
  writeback CHUNKSIZE s mem a = default (mem a) (m a).
Proof.
  intros Hwf Hok Hm. pose proof (chunk_size_range _ chunk_size) as HC.
  pose proof (Z.mod_pos_bound a CHUNKSIZE ltac:(lia)) as Hoff.
  assert (Hw1 : scalar_width 1) by (unfold scalar_width; lia).
  destruct (m a) as [b|] eqn:Hma; simpl.
  - apply (proj1 (Hm _ _)) in Hma as (i & Hi & Hb & Hv & Hd).
    unfold bases in Hb.
    replace a with (bAddr (vec_chunks s i) + a mod CHUNKSIZE) at 1 by lia.
    rewrite <- Hd. unfold writeback.
    destruct (foldl_apply_store (bAddr (vec_chunks s i) + a mod CHUNKSIZE)
                (data (vec_chunks s i) (a mod CHUNKSIZE))
                (writeback_stores CHUNKSIZE s) mem)
      as [[Ht _]|[_ Hno]]; [|done|].
    + intros st d Hst Hc.
      by destruct (writeback_store_byte _ s st i (a mod CHUNKSIZE) d
                     Hwf Hok Hst Hi Hoff Hc).
    + exfalso.
      assert (Hone : all_valid (vBytes (vec_chunks s i)) (a mod CHUNKSIZE) 1).
      { intros j Hj. assert (j = 0) as -> by lia. by rewrite Z.add_0_r. }
      destruct (chunk_stores_scalar CHUNKSIZE uninit_chunk
                  (vec_chunks s i) (Z.to_nat CHUNKSIZE) 0 (a mod CHUNKSIZE) 1)
        as (q & wq & Hwq & Hmem & Hq & Hqw); try done; try lia.
      { apply Z.mod_1_r. }
      pose proof (scalar_width_range _ Hwq) as Hwqr.
      apply (Hno (mk_store (bAddr (vec_chunks s i) + q)
                    (payload (vec_chunks s i) q (Z.to_nat wq)))).
      * unfold writeback_stores. apply stores_from_elem.
        exists i. split; [lia|exact Hmem].
      * unfold covers. simpl. rewrite payload_length. lia.
  - unfold writeback.
    destruct (foldl_apply_store a (mem a) (writeback_stores CHUNKSIZE s) mem)
      as [[Ht _]|[Hmem _]]; [|done|done].
    intros st d Hst Hc. exfalso.
    destruct (writeback_store_spec _ s st Hok Hst)
      as (i & q & w & Hi & Hw & Hq & Hqw & Heq & _ & Hall & _).
    pose proof (scalar_width_range _ Hw) as Hwr.
    subst st. unfold covers in Hc. simpl in Hc. rewrite payload_length in Hc.
    rewrite Z2Nat.id in Hc by lia.
    destruct (Hok i Hi) as [Hbi _]. unfold bases in Hbi.
    set (p := a - bAddr (vec_chunks s i)).
    assert (Hp : 0 <= p < CHUNKSIZE) by (unfold p; lia).
    pose proof (offset_unique _ _ p Hbi Hp) as Hmod.
    replace (bAddr (vec_chunks s i) + p) with a in Hmod by (unfold p; lia).
    specialize (Hall (p - q) ltac:(unfold p; lia)).
    replace (q + (p - q)) with p in Hall by lia.
    assert (Hh : holds CHUNKSIZE s a (data (vec_chunks s i) p)).
    { exists i. rewrite Hmod. unfold bases. repeat split; try done; lia. }
    apply (proj2 (Hm _ _)) in Hh. congruence.
Qed.

(** X1.  The commit of a redo log.  After any sequence of inserts of
    scalars that fit, made into an empty log, [writeback()] leaves at every
    address the byte most recently inserted for it, and leaves an address
    for which nothing was inserted as memory had it. *)
Theorem writeback_most_recent_insert (s0 s : redolog)
    (ops : list (Z * Z * Z)) (mem : Z -> Z) (a : Z) :
  reachable CHUNKSIZE uninit_chunk s0 -> size s0 = 0 ->
  Forall (fits CHUNKSIZE) ops ->
  insert_all CHUNKSIZE uninit_chunk ops s0 = Ok s ->
  writeback CHUNKSIZE s mem a =
    match recent ops (fun _ => None) a with
    | Some b => b
    | None => mem a
    end.
Proof.
  intros Hr Hc Hops Hall.
  destruct (reachable_wf _ _ chunk_size s0 Hr) as [Hwf0 _].
  destruct (insert_all_ok _ _ chunk_size ops s0 (fun _ => None) s Hwf0
              (models_empty _ s0 Hc) Hops Hall) as [Hwf Hm].
  pose proof (reachable_chunks_ok _ _ chunk_size s
                (insert_all_reachable ops s0 s Hr Hops Hall)) as Hok.
  rewrite (writeback_models s _ mem a Hwf Hok Hm).
  by destruct (recent ops (fun _ => None) a).
Qed.

(** A [get] of a scalar none of whose bytes the log holds returns
    false. *)
Lemma get_absent s m width addr :
  wf s -> models CHUNKSIZE s m -> 1 <= width <= 8 ->
  addr mod CHUNKSIZE + width <= CHUNKSIZE ->
  (forall j, 0 <= j < width -> m (addr + j) = None) ->
  get CHUNKSIZE width addr s = Ok None.
Proof.
  intros Hwf Hm Hwr Hfit Hnone.
  destruct (get_ok _ chunk_size s width addr Hwf Hwr) as [Hno Hchunk].
  destruct (lookup_ok s (addr - addr mod CHUNKSIZE) Hwf)
    as (idx & _ & [[Hidx Hb]|[_ Hmiss]]); [|by apply Hno].
  destruct (Hchunk idx Hidx Hb) as [Hfalse _]. apply Hfalse.
  intros j Hj.
  destruct (Z.testbit (vBytes (vec_chunks s idx)) (addr mod CHUNKSIZE + j))
    eqn:Hbit; [|done].
  destruct (same_chunk _ chunk_size addr width j Hfit Hj) as [Hmod Hkey].
  assert (Hh : holds CHUNKSIZE s (addr + j)
                 (data (vec_chunks s idx) (addr mod CHUNKSIZE + j))).
  { exists idx. rewrite Hkey, Hmod. done. }
  apply (proj2 (Hm _ _)) in Hh. rewrite Hnone in Hh by done. done.
Qed.

(** X2.  [clear()] forgets.  On a reachable log, cleared: the log is empty,
    every [get] returns false and [writeback()] makes no store; and after
    any inserts made since, a [get] of a scalar none of whose bytes was
    inserted since the [clear()] returns false, whatever the log held
    before. *)
Theorem clear_forgets (s : redolog) :
  reachable CHUNKSIZE uninit_chunk s ->
  size (clear s) = 0 /\ isEmpty (clear s) = true /\
  (forall width addr, get CHUNKSIZE width addr (clear s) = Ok None) /\
  writeback_stores CHUNKSIZE (clear s) = [] /\
  (forall ops s' width addr,
     Forall (fits CHUNKSIZE) ops ->
     insert_all CHUNKSIZE uninit_chunk ops (clear s) = Ok s' ->
     scalar_width width -> addr mod CHUNKSIZE + width <= CHUNKSIZE ->
     (forall j, 0 <= j < width -> recent ops (fun _ => None) (addr + j) = None) ->
     get CHUNKSIZE width addr s' = Ok None).
Proof.
  intros Hr. destruct (reachable_wf _ _ chunk_size s Hr) as [Hwf _].
  destruct (clear_ok s Hwf) as [Hwfc Hc].
  split; [done|]. split; [unfold isEmpty; by rewrite Hc|].
  split; [intros width addr; unfold get; by rewrite Hc|].
  split; [unfold writeback_stores; by rewrite Hc|].
  intros ops s' width addr Hops Hall Hw Hfit Hnone.
  pose proof (scalar_width_range _ Hw) as Hwr.
  destruct (insert_all_ok _ _ chunk_size ops (clear s) (fun _ => None) s' Hwfc
              (models_empty _ _ Hc) Hops Hall) as [Hwf' Hm'].
  by apply (get_absent s' (recent ops (fun _ => None))).
Qed.

(** X3.  One insert, one chunk.  The chunks of a reachable log start at
    distinct chunk boundaries.  On a log with fewer than [MAX_CHUNKS]
    chunks, the insert of a scalar that fits returns; the log keeps its
    size when a chunk starts at the boundary below [addr] and grows by one
    chunk, which starts there, when none does; and every chunk that starts
    elsewhere is as it was. *)
Theorem insert_touches_one_chunk (s : redolog) (width addr val : Z) :
  reachable CHUNKSIZE uninit_chunk s ->
  scalar_width width -> addr mod CHUNKSIZE + width <= CHUNKSIZE ->
  size s + 1 < MAX_CHUNKS ->
  let key := addr - addr mod CHUNKSIZE in
  (forall i j, 0 <= i < size s -> 0 <= j < size s ->
     bAddr (vec_chunks s i) = bAddr (vec_chunks s j) -> i = j) /\
  (forall i, 0 <= i < size s -> bAddr (vec_chunks s i) mod CHUNKSIZE = 0) /\
  exists s', insert CHUNKSIZE uninit_chunk width addr val s = Ok s' /\
    ((exists i, 0 <= i < size s /\ bAddr (vec_chunks s i) = key) ->
     size s' = size s) /\
    ((forall i, 0 <= i < size s -> bAddr (vec_chunks s i) ≠ key) ->
     size s' = size s + 1 /\ bAddr (vec_chunks s' (size s)) = key) /\
    (forall i, 0 <= i < size s -> bAddr (vec_chunks s i) ≠ key ->
       vec_chunks s' i = vec_chunks s i).
Proof.
  intros Hr Hw Hfit Hmax key. unfold size in *.
  pose proof (scalar_width_range _ Hw) as Hwr.
  destruct (reachable_wf _ _ chunk_size s Hr) as [Hwf [m Hm]].
  pose proof (reachable_chunks_ok _ _ chunk_size s Hr) as Hok.
  pose proof Hwf as (Hix & _ & _).
  split; [intros i j Hi Hj Hb; by apply (indexed_distinct _ _ _ _ _ _ _ _ Hix)|].
  split; [intros i Hi; by destruct (Hok i Hi)|].
  pose proof (insert_ok _ uninit_chunk chunk_size s m width addr val
                Hwf Hm Hwr Hfit) as Hins.
  destruct (insert CHUNKSIZE uninit_chunk width addr val s) as [s'| |] eqn:Hi;
    [|by destruct (below_max_chunks s Hwf Hmax)|done].
  exists s'. split; [done|].
  destruct (insert_shape s width addr val s' Hwf Hwr Hfit Hi)
    as (idx & old & Hwf' & Hidx & Hcase & Hbase & Hat & Hother).
  fold key in Hbase, Hcase.
  split; [|split].
  - intros (i & Hil & Hb).
    destruct Hcase as [(_ & Hc & _)|(_ & _ & Hfresh & _)]; [done|].
    by destruct (Hfresh i Hil).
  - intros Hfresh.
    destruct Hcase as [(Hlt & Hc & ->)|(-> & Hc & _ & _)].
    + by destruct (Hfresh idx ltac:(lia)).
    + split; [done|]. by rewrite Hat.
  - intros i Hil Hb. apply Hother; [done|]. intros ->.
    destruct Hcase as [(Hlt & Hc & ->)|(-> & _)]; [done|lia].
Qed.

(** *** [get] and the chunk it reads *)

(** [get] of a scalar whose chunk is chunk [i] of the log. *)
Lemma get_at s width addr i :
  wf s -> 0 <= i < vec_count s -> bases s i = addr - addr mod CHUNKSIZE ->
  get CHUNKSIZE width addr s =
    if Z.land (Z.shiftl 1 width - 1)
         (Z.shiftr (vBytes (vec_chunks s i)) (addr mod CHUNKSIZE)) mod 2 ^ 32
       =? 0
    then Ok None
    else Ok (Some (read_scalar (Z.to_nat width) (data (vec_chunks s i))
                     (addr mod CHUNKSIZE))).
Proof.
  intros Hwf Hi Hb. unfold get.
  rewrite (base_mod _ chunk_size), (offset_mod _ chunk_size).
  destruct (lookup_ok s (addr - addr mod CHUNKSIZE) Hwf)
    as (idx & -> & [[Hidx Hbi]|[-> Hnone]]); [|by destruct (Hnone i Hi)].
  assert (idx = i) as ->.
  { destruct Hwf as (Hix & _).
    apply (indexed_distinct _ _ _ _ _ _ _ _ Hix); try done. congruence. }
  rewrite (proj2 (Z.eqb_neq (vec_count s) 0)) by lia. simpl.
  by rewrite (proj2 (Z.eqb_neq i (-1))) by lia.
Qed.

(** [get] when no chunk of the log starts at the boundary below [addr]. *)
Lemma get_miss s width addr :
  wf s ->
  (forall i, 0 <= i < vec_count s -> bases s i ≠ addr - addr mod CHUNKSIZE) ->
  get CHUNKSIZE width addr s = Ok None.
Proof.
  intros Hwf Hnone. unfold get.
  rewrite (base_mod _ chunk_size).
  destruct (lookup_ok s (addr - addr mod CHUNKSIZE) Hwf)
    as (idx & -> & [[Hidx Hbi]|[-> _]]); [by destruct (Hnone idx Hidx)|].
  by destruct (vec_count s =? 0).
Qed.

Lemma read_scalar_shift : forall n d d' off off',
  (forall j, 0 <= j < Z.of_nat n -> d (off + j) = d' (off' + j)) ->
  read_scalar n d off = read_scalar n d' off'.
Proof.
  induction n as [|n IH]; intros d d' off off' Hext; [done|].
  simpl. rewrite <- (Z.add_0_r off) at 1. rewrite (Hext 0) by lia.
  rewrite (IH d d' (off + 1) (off' + 1)); [by rewrite Z.add_0_r|].
  intros j Hj. rewrite <- !Z.add_assoc. apply Hext. lia.
Qed.

Lemma read_scalar_ext n d d' off :
  (forall j, 0 <= j < Z.of_nat n -> d (off + j) = d' (off + j)) ->
  read_scalar n d off = read_scalar n d' off.
Proof. apply read_scalar_shift. Qed.

Lemma livebits_ext v v' off width :
  0 <= off -> 0 <= width ->
  (forall j, 0 <= j < width -> Z.testbit v (off + j) = Z.testbit v' (off + j)) ->
  Z.land (Z.shiftl 1 width - 1) (Z.shiftr v off) =
  Z.land (Z.shiftl 1 width - 1) (Z.shiftr v' off).
Proof.
  intros Ho Hw Hext. change (Z.shiftl 1 width - 1) with (Z.ones width).
  apply Z.bits_inj'. intros n Hn. rewrite !Z.land_spec, !Z.shiftr_spec by lia.
  destruct (Z.lt_ge_cases n width).
  - rewrite (Z.add_comm n off), Hext by lia. done.
  - rewrite Z.ones_spec_high by lia. done.
Qed.

(** X4.  An insert does not disturb other scalars.  After the insert of a
    scalar at [a1], a [get] of a scalar at [a2] whose bytes are disjoint
    from those written has the result it had before the insert, payload
    bytes that are not marked valid included. *)
Theorem insert_keeps_other_scalars (s s' : redolog) (w1 a1 v1 w2 a2 : Z) :
  reachable CHUNKSIZE uninit_chunk s ->
  scalar_width w1 -> a1 mod CHUNKSIZE + w1 <= CHUNKSIZE ->
  scalar_width w2 -> a2 mod CHUNKSIZE + w2 <= CHUNKSIZE ->
  a2 + w2 <= a1 \/ a1 + w1 <= a2 ->
  insert CHUNKSIZE uninit_chunk w1 a1 v1 s = Ok s' ->
  get CHUNKSIZE w2 a2 s' = get CHUNKSIZE w2 a2 s.
Proof.
  intros Hr Hw1 Hfit1 Hw2 Hfit2 Hdisj Hins.
  pose proof (scalar_width_range _ Hw1) as Hw1r.
  pose proof (scalar_width_range _ Hw2) as Hw2r.
  pose proof (chunk_size_range _ chunk_size) as HC.
  pose proof (Z.mod_pos_bound a1 CHUNKSIZE ltac:(lia)) as Hoff1.
  pose proof (Z.mod_pos_bound a2 CHUNKSIZE ltac:(lia)) as Hoff2.
  destruct (reachable_wf _ _ chunk_size s Hr) as [Hwf _].
  destruct (insert_shape s w1 a1 v1 s' Hwf Hw1r Hfit1 Hins)
    as (idx & old & Hwf' & Hidx & Hcase & Hbase & Hat & Hother).
  assert (Hbits : forall j, 0 <= j < w2 ->
            a2 - a2 mod CHUNKSIZE = a1 - a1 mod CHUNKSIZE ->
            Z.testbit (vBytes (vec_chunks s' idx)) (a2 mod CHUNKSIZE + j) =
            Z.testbit (vBytes old) (a2 mod CHUNKSIZE + j)).
  { intros j Hj Hk. rewrite Hat. simpl.
    rewrite Z.lor_spec, mask_bit by lia.
    rewrite range_test_false by lia. apply orb_false_r. }
  assert (Hdata : forall j, 0 <= j < w2 ->
            a2 - a2 mod CHUNKSIZE = a1 - a1 mod CHUNKSIZE ->
            data (vec_chunks s' idx) (a2 mod CHUNKSIZE + j) =
            data old (a2 mod CHUNKSIZE + j)).
  { intros j Hj Hk. rewrite Hat. simpl. unfold write_scalar.
    by rewrite range_test_false by lia. }
  destruct (lookup_ok s (a2 - a2 mod CHUNKSIZE) Hwf)
    as (i2 & _ & [[Hi2 Hb2]|[_ Hnone]]).
  - (* the chunk of [a2] was in the log *)
    rewrite (get_at s w2 a2 i2 Hwf Hi2 Hb2).
    destruct (decide (i2 = idx)) as [->|Hne].
    + destruct Hcase as [(Hlt & Hc & ->)|(-> & _)]; [|lia].
      assert (Hk : a2 - a2 mod CHUNKSIZE = a1 - a1 mod CHUNKSIZE).
      { unfold bases in Hb2. congruence. }
      rewrite (get_at s' w2 a2 idx Hwf' Hidx).
      2:{ unfold bases. rewrite Hat. simpl. congruence. }
      rewrite (livebits_ext (vBytes (vec_chunks s' idx))
                 (vBytes (vec_chunks s idx)) (a2 mod CHUNKSIZE) w2)
        by (try lia; intros j Hj; by apply Hbits).
      rewrite (read_scalar_ext _ (data (vec_chunks s' idx))
                 (data (vec_chunks s idx))); [done|].
      intros j Hj. rewrite Z2Nat.id in Hj by lia. by apply Hdata.
    + assert (Hlt : 0 <= i2 < vec_count s') by
        (destruct Hcase as [(_ & Hc & _)|(_ & Hc & _)]; lia).
      rewrite (get_at s' w2 a2 i2 Hwf' Hlt).
      2:{ unfold bases in *. by rewrite Hother. }
      by rewrite Hother.
  - (* no chunk of the log held [a2] *)
    rewrite (get_miss s w2 a2 Hwf Hnone).
    destruct (lookup_ok s' (a2 - a2 mod CHUNKSIZE) Hwf')
      as (i' & _ & [[Hi' Hb']|[_ Hnone']]); [|by apply get_miss].
    assert (i' = idx) as ->.
    { destruct (decide (i' = idx)) as [|Hne]; [done|]. exfalso.
      assert (Hlt : 0 <= i' < vec_count s) by
        (destruct Hcase as [(_ & Hc & _)|(? & Hc & _)]; lia).
      apply (Hnone i' Hlt). unfold bases in *. by rewrite <- Hother. }
    assert (Hk : a2 - a2 mod CHUNKSIZE = a1 - a1 mod CHUNKSIZE).
    { unfold bases in Hb'. rewrite Hat in Hb'. simpl in Hb'. congruence. }
    destruct Hcase as [(Hlt & Hc & ->)|(-> & Hc & _ & Hz)].
    { exfalso. apply (Hnone idx ltac:(lia)). unfold bases. congruence. }
    destruct (get_ok _ chunk_size s' w2 a2 Hwf' Hw2r) as [_ Hchunk].
    destruct (Hchunk _ Hidx Hb') as [Hfalse _]. apply Hfalse.
    intros j Hj. rewrite Hbits by done. rewrite Hz. apply Z.bits_0.
Qed.

(** *** The order of the stores of [writeback] *)

#[local] Instance covers_dec st a : Decision (covers st a).
Proof. unfold covers. apply _. Defined.

(** The stores of [writeback] that cover an address all write the same
    byte there. *)
Lemma writeback_stores_agree s st st' a d d' :
  wf s -> chunks_ok CHUNKSIZE s ->
  st ∈ writeback_stores CHUNKSIZE s -> st' ∈ writeback_stores CHUNKSIZE s ->
  covers st a -> covers st' a ->
  nth (Z.to_nat (a - st_addr st)) (st_bytes st) d =
  nth (Z.to_nat (a - st_addr st')) (st_bytes st') d'.
Proof.
  intros Hwf Hok Hst Hst' Hc Hc'.
  destruct (writeback_store_spec _ s st Hok Hst)
    as (i & q & w & Hi & Hw & Hq & Hqw & Heq & _).
  pose proof (scalar_width_range _ Hw) as Hwr.
  assert (Hp : 0 <= a - bAddr (vec_chunks s i) < CHUNKSIZE).
  { subst st. unfold covers in Hc. simpl in Hc. rewrite payload_length in Hc.
    lia. }
  replace a with (bAddr (vec_chunks s i) + (a - bAddr (vec_chunks s i)))
    in Hc, Hc' |- * by lia.
  destruct (writeback_store_byte _ s st i _ d Hwf Hok Hst Hi Hp Hc) as [-> _].
  by destruct (writeback_store_byte _ s st' i _ d' Hwf Hok Hst' Hi Hp Hc')
    as [-> _].
Qed.

(** Stores that agree wherever they overlap can be made in any order. *)
Lemma foldl_apply_store_perm a stores stores' mem :
  stores ≡ₚ stores' ->
  (forall st st' d d', st ∈ stores -> st' ∈ stores ->
     covers st a -> covers st' a ->
     nth (Z.to_nat (a - st_addr st)) (st_bytes st) d =
     nth (Z.to_nat (a - st_addr st')) (st_bytes st') d') ->
  foldl apply_store mem stores' a = foldl apply_store mem stores a.
Proof.
  intros Hperm Hagree.
  assert (Hin : forall st, st ∈ stores' <-> st ∈ stores).
  { intros st. by rewrite Hperm. }
  destruct (decide (Exists (fun st => covers st a) stores)) as [Hex|Hex].
  - apply Exists_exists in Hex as (st0 & Hst0 & Hc0).
    set (t := nth (Z.to_nat (a - st_addr st0)) (st_bytes st0) 0).
    destruct (foldl_apply_store a t stores mem) as [[-> _]|[_ Hno]];
      [intros st d Hst Hc; by apply Hagree| |by destruct (Hno st0 Hst0)].
    destruct (foldl_apply_store a t stores' mem) as [[-> _]|[_ Hno]];
      [intros st d Hst Hc; apply Hagree; try done; by apply Hin|done|].
    destruct (Hno st0); [by apply Hin|done].
  - assert (Hnone : forall st, st ∈ stores -> ¬ covers st a).
    { intros st Hst Hc. apply Hex, Exists_exists. eauto. }
    destruct (foldl_apply_store a (mem a) stores mem)
      as [[_ (st & Hst & Hc)]|[-> _]];
      [intros st d Hst Hc; by destruct (Hnone st Hst)
      |by destruct (Hnone st Hst)|].
    destruct (foldl_apply_store a (mem a) stores' mem)
      as [[_ (st & Hst & Hc)]|[-> _]];
      [intros st d Hst Hc; destruct (Hnone st); [by apply Hin|done]| |done].
    destruct (Hnone st); [by apply Hin|done].
Qed.

(** X5.  The order of the stores of [writeback()] does not matter: made in
    any other order they leave the same memory; and a second [writeback()]
    of the same log changes nothing. *)
Theorem writeback_order_irrelevant (s : redolog) (mem : Z -> Z)
    (stores : list store) (a : Z) :
  reachable CHUNKSIZE uninit_chunk s ->
  stores ≡ₚ writeback_stores CHUNKSIZE s ->
  foldl apply_store mem stores a = writeback CHUNKSIZE s mem a /\
  writeback CHUNKSIZE s (writeback CHUNKSIZE s mem) a
    = writeback CHUNKSIZE s mem a.
Proof.
  intros Hr Hperm.
  destruct (reachable_wf _ _ chunk_size s Hr) as [Hwf [m Hm]].
  pose proof (reachable_chunks_ok _ _ chunk_size s Hr) as Hok.
  split.
  - unfold writeback. apply foldl_apply_store_perm; [done|].
    intros st st' d d'. by apply writeback_stores_agree.
  - rewrite !(writeback_models s m _ a Hwf Hok Hm).
    by destruct (m a).
Qed.

(** *** The constructor *)

(** The loop of the constructor stops at the first power of two that is
    at least three times the capacity. *)
Lemma grow_index_least capacity :
  1 <= capacity -> SPILL_FACTOR * capacity <= 2 ^ 30 ->
  forall fuel shift len,
  (shift = 32 /\ len = 0) \/
  (2 <= shift <= 31 /\ len = 2 ^ (32 - shift) /\
   2 ^ (31 - shift) < SPILL_FACTOR * capacity) ->
  shift < Z.of_nat fuel ->
  exists k, 2 <= k <= 30 /\
    grow_index fuel capacity shift len = Ok (32 - k, 2 ^ k) /\
    2 ^ (k - 1) < SPILL_FACTOR * capacity <= 2 ^ k.
Proof.
  intros Hcap Hmax. unfold SPILL_FACTOR in *.
  induction fuel as [|fuel IH]; intros shift len Hinv Hfuel; [lia|].
  simpl. unfold SPILL_FACTOR.
  destruct (Z.ltb_spec len (3 * capacity)) as [Hlt|Hge].
  - assert (Hshift : 3 <= shift <= 32).
    { destruct Hinv as [[-> ->]|(Hs & -> & _)]; [lia|].
      destruct (decide (shift = 2)) as [->|]; [|lia]. simpl in Hlt. lia. }
    unfold doubleIndexLength.
    destruct (Z.eqb_spec shift 0); [lia|].
    destruct (Z.ltb_spec (8 * 4 - (shift - 1)) 31); [|lia].
    simpl. apply IH; [|lia]. right. split; [lia|].
    rewrite Z.shiftl_1_l. split; [f_equal; lia|].
    destruct Hinv as [[-> ->]|(Hs & -> & _)]; [simpl; lia|].
    replace (31 - (shift - 1)) with (32 - shift) by lia. done.
  - destruct Hinv as [[-> ->]|(Hs & -> & Hleast)]; [lia|].
    exists (32 - shift).
    assert (shift ≠ 31) by (intros ->; simpl in Hge; lia).
    replace (32 - (32 - shift)) with shift by lia.
    replace (32 - shift - 1) with (31 - shift) by lia.
    repeat split; try done; lia.
Qed.

(** X6.  The constructor.  For a capacity [c >= 1] with [3 * c <= 2 ^ 30],
    [redolog_nocast_t(c)] returns an empty log of version 1 whose vector
    has capacity [c] and whose index length is the least power of two that
    is at least [3 * c]; in that log every [lookup] returns -1 and every
    [get] returns false. *)
Theorem constructor_sizes_index (c : Z) :
  1 <= c -> SPILL_FACTOR * c <= 2 ^ 30 ->
  exists s k,
    redolog_new uninit_chunk c = Ok s /\
    size s = 0 /\ vec_cap s = c /\ ht_ver s = 1 /\
    2 <= k <= 30 /\ ht_len s = 2 ^ k /\ ht_shift s = 32 - k /\
    2 ^ (k - 1) < SPILL_FACTOR * c <= ht_len s /\
    (forall key, lookup s key = Ok (-1)) /\
    (forall width addr, get CHUNKSIZE width addr s = Ok None).
Proof.
  intros Hcap Hmax. unfold redolog_new.
  destruct (grow_index_least c Hcap Hmax 33 (8 * 4) 0)
    as (k & Hk & Hg & Hleast); [by left|lia|].
  rewrite Hg. simpl. eexists _, k. split; [done|]. simpl.
  repeat split; try done; try lia.
  intros key.
  set (s := mk_log (fun _ => index_new) (2 ^ k) 1 (32 - k) uninit_chunk c 0).
  assert (Hwf : wf s).
  { destruct (redolog_new_wf uninit_chunk c s Hcap) as [Hwf _]; [|done].
    unfold redolog_new. by rewrite Hg. }
  destruct (lookup_ok s key Hwf) as (idx & Hl & [[Hidx _]|[-> _]]);
    [simpl in Hidx; lia|done].
Qed.

End Use.

(** *** The theorems at concrete inputs *)

(** [writeback_most_recent_insert] at address 4100, after a [uint64_t]
    insert at 4096 and a [uint32_t] insert at 4100. *)
Lemma writeback_most_recent_insert_witness :
  writeback 32 two_scalars (fun _ => 0) 4100 =
    match recent [(8, 4096, 0x1122334455667788); (4, 4100, 0xAABBCCDD)]
            (fun _ => None) 4100 with
    | Some b => b
    | None => 0
    end.
Proof.
  apply (writeback_most_recent_insert 32 zeroed chunk_size_32 fresh
           two_scalars _ (fun _ => 0) 4100).
  - exact fresh_reachable.
  - reflexivity.
  - repeat constructor; unfold scalar_width; try lia; vm_compute; discriminate.
  - exact two_scalars_insert.
Defined.

(** [clear_forgets] on the log that holds twelve bytes at 4096. *)
Lemma clear_forgets_witness :
  size (clear two_scalars) = 0 /\
  get 32 8 4096 (clear two_scalars) = Ok None /\
  writeback_stores 32 (clear two_scalars) = [].
Proof.
  destruct (clear_forgets 32 zeroed chunk_size_32 two_scalars
              two_scalars_reachable) as (Hsize & _ & Hget & Hstores & _).
  split; [exact Hsize|]. split; [apply Hget|exact Hstores].
Defined.

(** [insert_touches_one_chunk] at the insert of a [uint32_t] at 4100 into
    the log that holds a [uint64_t] at 4096: the chunk at 4096 is there. *)
Lemma insert_touches_one_chunk_witness :
  exists s', insert 32 zeroed 4 4100 0xAABBCCDD one_scalar = Ok s' /\
    size s' = size one_scalar.
Proof.
  destruct (insert_touches_one_chunk 32 zeroed chunk_size_32 one_scalar
              4 4100 0xAABBCCDD)
    as (_ & _ & s' & Hins & Hsame & _).
  - apply (reach_insert 32 zeroed fresh 8 4096 0x1122334455667788);
      [exact fresh_reachable|unfold scalar_width; lia|lia
      |vm_compute; discriminate|exact one_scalar_insert].
  - unfold scalar_width. lia.
  - vm_compute. discriminate.
  - vm_compute. reflexivity.
  - exists s'. split; [exact Hins|]. apply Hsame.
    exists 0. split; vm_compute; [split; [discriminate|reflexivity]|reflexivity].
Defined.

(** [insert_keeps_other_scalars] at the insert of a [uint64_t] at 4096 and
    the [get] of a [uint32_t] at 4104. *)
Lemma insert_keeps_other_scalars_witness :
  get 32 4 4104 one_scalar = get 32 4 4104 fresh.
Proof.
  apply (insert_keeps_other_scalars 32 zeroed chunk_size_32 fresh one_scalar
           8 4096 0x1122334455667788 4 4104).
  - exact fresh_reachable.
  - unfold scalar_width. lia.
  - vm_compute. discriminate.
  - unfold scalar_width. lia.
  - vm_compute. discriminate.
  - right. lia.
  - exact one_scalar_insert.
Defined.

(** [writeback_order_irrelevant] with the stores of the log of two
    scalars made last to first. *)
Lemma writeback_order_irrelevant_witness :
  foldl apply_store (fun _ => 0) (reverse (writeback_stores 32 two_scalars))
    4100
  = writeback 32 two_scalars (fun _ => 0) 4100 /\
  writeback 32 two_scalars (writeback 32 two_scalars (fun _ => 0)) 4100
  = writeback 32 two_scalars (fun _ => 0) 4100.
Proof.
  apply (writeback_order_irrelevant 32 zeroed chunk_size_32 two_scalars).
  - exact two_scalars_reachable.
  - apply reverse_Permutation.
Defined.

(** [constructor_sizes_index] at the default capacity, 64: an index of
    256 entries. *)
Lemma constructor_sizes_index_witness :
  exists s k,
    redolog_new zeroed 64 = Ok s /\ size s = 0 /\ vec_cap s = 64 /\
    ht_len s = 2 ^ k /\ 2 ^ (k - 1) < SPILL_FACTOR * 64 <= ht_len s.
Proof.
  destruct (constructor_sizes_index 32 zeroed 64)
    as (s & k & Hnew & Hsize & Hcap & _ & _ & Hlen & _ & Hleast & _).
  - lia.
  - vm_compute. discriminate.
  - exists s, k. repeat split; try done; apply Hleast.
Defined.

End RedoLogUse.

(* ===================================================================== *)
(** * hash.h: the mixer is a permutation of the 64-bit words             *)
(* ===================================================================== *)

Module Hash.

(** One step [x ^ (x >> k)] of [mix13_hash]. *)
Definition xorshift (k x : Z) : Z := Z.lxor x (Z.shiftr x k).

(** What undoes it on 64-bit words, for [3 * k >= 64]. *)
Definition unxorshift (k y : Z) : Z :=
  Z.lxor y (Z.lxor (Z.shiftr y k) (Z.shiftr y (2 * k))).

(** The inverses of the two odd multipliers of [mix13_hash], modulo
    [2 ^ 64]. *)
Definition INV1 : Z := 0x96de1b173f119089.
Definition INV2 : Z := 0x319642b2d24d8ec3.

(** The inverse of [mix13_hash]. *)
Definition unmix13_hash (h : Z) : Z :=
  let x2 := unxorshift 31 h in
  let x1 := unxorshift 27 (wrap64 (x2 * INV2)) in
  unxorshift 30 (wrap64 (x1 * INV1)).

Lemma word_high_bits x n : 0 <= x < 2 ^ 64 -> 64 <= n -> Z.testbit x n = false.
Proof.
  intros Hx Hn. rewrite <- (Z.mod_small x (2 ^ 64)) by done.
  apply Z.mod_pow2_bits_high. lia.
Qed.

Lemma word_of_bits z :
  0 <= z -> (forall n, 64 <= n -> Z.testbit z n = false) -> 0 <= z < 2 ^ 64.
Proof.
  intros Hz Hbits. assert (Heq : z mod 2 ^ 64 = z).
  { apply Z.bits_inj'. intros n Hn. destruct (Z.lt_ge_cases n 64).
    - by rewrite Z.mod_pow2_bits_low.
    - rewrite Z.mod_pow2_bits_high by lia. by rewrite Hbits. }
  rewrite <- Heq. apply Z.mod_pos_bound. lia.
Qed.

Lemma wrap64_word x : 0 <= wrap64 x < 2 ^ 64.
Proof. unfold wrap64. apply Z.mod_pos_bound. lia. Qed.

Lemma xorshift_word k x : 0 <= k -> 0 <= x < 2 ^ 64 -> 0 <= xorshift k x < 2 ^ 64.
Proof.
  intros Hk Hx. unfold xorshift. apply word_of_bits.
  - apply Z.lxor_nonneg. rewrite Z.shiftr_nonneg. lia.
  - intros n Hn. rewrite Z.lxor_spec, Z.shiftr_spec by lia.
    by rewrite !(word_high_bits x) by (done || lia).
Qed.

Lemma unxorshift_word k y :
  0 <= k -> 0 <= y < 2 ^ 64 -> 0 <= unxorshift k y < 2 ^ 64.
Proof.
  intros Hk Hy. unfold unxorshift. apply word_of_bits.
  - apply Z.lxor_nonneg. split; [intros _|lia].
    apply Z.lxor_nonneg. rewrite !Z.shiftr_nonneg. lia.
  - intros n Hn. rewrite !Z.lxor_spec, !Z.shiftr_spec by lia.
    by rewrite !(word_high_bits y) by (done || lia).
Qed.

Lemma unxorshift_xorshift k x :
  22 <= k -> 0 <= x < 2 ^ 64 -> unxorshift k (xorshift k x) = x.
Proof.
  intros Hk Hx. unfold unxorshift, xorshift.
  apply Z.bits_inj'. intros n Hn.
  rewrite !Z.lxor_spec, !Z.shiftr_spec, !Z.lxor_spec, !Z.shiftr_spec by lia.
  rewrite (word_high_bits x (n + 2 * k + k)) by (done || lia).
  replace (n + k + k) with (n + 2 * k) by lia.
  destruct (Z.testbit x n), (Z.testbit x (n + k)), (Z.testbit x (n + 2 * k));
    done.
Qed.

Lemma xorshift_unxorshift k y :
  22 <= k -> 0 <= y < 2 ^ 64 -> xorshift k (unxorshift k y) = y.
Proof.
  intros Hk Hy. unfold unxorshift, xorshift.
  apply Z.bits_inj'. intros n Hn.
  rewrite !Z.lxor_spec, !Z.shiftr_spec, !Z.lxor_spec, !Z.shiftr_spec by lia.
  rewrite (word_high_bits y (n + k + 2 * k)) by (done || lia).
  replace (n + k + k) with (n + 2 * k) by lia.
  destruct (Z.testbit y n), (Z.testbit y (n + k)), (Z.testbit y (n + 2 * k));
    done.
Qed.

(** Multiplying by an odd constant is undone by multiplying by its
    inverse. *)
Lemma mul_inverse c c' a :
  wrap64 (c * c') = 1 -> 0 <= a < 2 ^ 64 -> wrap64 (wrap64 (a * c) * c') = a.
Proof.
  unfold wrap64. intros Hinv Ha.
  rewrite Z.mul_mod_idemp_l by lia. rewrite <- Z.mul_assoc.
  rewrite <- Z.mul_mod_idemp_r by lia. rewrite Hinv, Z.mul_1_r.
  by apply Z.mod_small.
Qed.

Lemma mix13_hash_steps x :
  mix13_hash x =
    xorshift 31 (wrap64 (xorshift 27 (wrap64 (xorshift 30 x * 0xbf58476d1ce4e5b9))
                         * 0x94d049bb133111eb)).
Proof. reflexivity. Qed.

Lemma unmix13_mix13 x : 0 <= x < 2 ^ 64 -> unmix13_hash (mix13_hash x) = x.
Proof.
  intros Hx. rewrite mix13_hash_steps. unfold unmix13_hash. cbv zeta.
  rewrite unxorshift_xorshift by (lia || apply wrap64_word).
  rewrite (mul_inverse 0x94d049bb133111eb INV2);
    [|reflexivity|apply xorshift_word; [lia|apply wrap64_word]].
  rewrite unxorshift_xorshift by (lia || apply wrap64_word).
  rewrite (mul_inverse 0xbf58476d1ce4e5b9 INV1);
    [|reflexivity|by apply xorshift_word].
  by apply unxorshift_xorshift.
Qed.

Lemma mix13_unmix13 h : 0 <= h < 2 ^ 64 -> mix13_hash (unmix13_hash h) = h.
Proof.
  intros Hh. rewrite mix13_hash_steps. unfold unmix13_hash. cbv zeta.
  rewrite xorshift_unxorshift by (lia || apply wrap64_word).
  rewrite (mul_inverse INV1 0xbf58476d1ce4e5b9);
    [|reflexivity|apply unxorshift_word; [lia|apply wrap64_word]].
  rewrite xorshift_unxorshift by (lia || apply wrap64_word).
  rewrite (mul_inverse INV2 0x94d049bb133111eb);
    [|reflexivity|by apply unxorshift_word].
  by apply xorshift_unxorshift.
Qed.

(** X7.  [mix13_hash] permutes the 64-bit words: its result is a 64-bit
    word, two different words never have the same hash, and every word is
    the hash of some word. *)
Theorem mix13_hash_permutes (x y : Z) :
  0 <= x < 2 ^ 64 -> 0 <= y < 2 ^ 64 ->
  0 <= mix13_hash x < 2 ^ 64 /\
  (mix13_hash x = mix13_hash y -> x = y) /\
  exists z, 0 <= z < 2 ^ 64 /\ mix13_hash z = y.
Proof.
  intros Hx Hy. split; [|split].
  - rewrite mix13_hash_steps. apply xorshift_word; [lia|apply wrap64_word].
  - intros Heq. rewrite <- (unmix13_mix13 x), <- (unmix13_mix13 y) by done.
    by rewrite Heq.
  - exists (unmix13_hash y). split; [|by apply mix13_unmix13].
    unfold unmix13_hash. cbv zeta.
    apply unxorshift_word; [lia|apply wrap64_word].
Qed.

(** [mix13_hash_permutes] at the words 4096 and 8192: some word hashes to
    8192, and the two words have different hashes. *)
Lemma mix13_hash_permutes_witness :
  (exists z, 0 <= z < 2 ^ 64 /\ mix13_hash z = 8192) /\
  mix13_hash 4096 ≠ mix13_hash 8192.
Proof.
  destruct (mix13_hash_permutes 4096 8192 ltac:(lia) ltac:(lia))
    as (_ & Hinj & Hsurj).
  split; [exact Hsurj|]. intros Heq. apply Hinj in Heq. lia.
Defined.

End Hash.

(* ===================================================================== *)
(** * minivector.h: the self-growing array                               *)
(* ===================================================================== *)

Module Minivector.

(** [uint32_t] arithmetic. *)
Definition wrap32 (x : Z) : Z := x mod 2 ^ 32.

Section Vector.

(** The element type, and the value [T()] with which [new T[cap]()] fills
    a new array. *)
Variable T : Type.
Variable zero : T.

(** The fields of [minivector<T>]; [items] maps an index to the element
    there. *)
Record minivector := mk_vec { items : Z -> T; cap : Z; count : Z }.

(** [minivector(_cap)]: [None] is [std::terminate()]. *)
Definition minivector_new (_cap : Z) : option minivector :=
  if _cap =? 0 then None else Some (mk_vec (fun _ => zero) _cap 0).

(** [expand()].  The [memcpy] of [count] elements stays within the new
    array of [cap * 2] elements (a [uint32_t] product) only when [count] is
    at most that; [None] stands for the copy that does not. *)
Definition expand (v : minivector) : option minivector :=
  let cap' := wrap32 (cap v * 2) in
  if count v <=? cap' then
    Some (mk_vec (fun i => if i <? count v then items v i else zero)
            cap' (count v))
  else None.

(** [push_back(data)]; [None] when [items[count]] is outside the array or
    [expand()] fails. *)
Definition push_back (v : minivector) (data : T) : option minivector :=
  if count v <? cap v then
    let v1 := mk_vec (upd (items v) (count v) data) (cap v)
                (wrap32 (count v + 1)) in
    if count v1 =? cap v1 then expand v1 else Some v1
  else None.

(** [clear()], [reset(newcount)], [drop()] *)
Definition clear (v : minivector) : minivector :=
  mk_vec (items v) (cap v) 0.

Definition reset (v : minivector) (newcount : Z) : minivector :=
  mk_vec (items v) (cap v) newcount.

Definition drop (v : minivector) : minivector :=
  mk_vec (items v) (cap v) (wrap32 (count v - 1)).

(** [size()], [empty()] *)
Definition size (v : minivector) : Z := count v.

Definition empty (v : minivector) : bool := count v =? 0.

(** [top()]: [items[count - 1]], which is an element of the array when
    the vector is not empty. *)
Definition top (v : minivector) : option T :=
  if 0 <? count v then Some (items v (count v - 1)) else None.

(** The elements from [begin()] to [end()], in order. *)
Definition to_list (v : minivector) : list T :=
  (fun i => items v (Z.of_nat i)) <$> seq 0 (Z.to_nat (count v)).

(** The invariant of the class: there is room for one more element. *)
Definition has_room (v : minivector) : Prop :=
  0 <= count v < cap v /\ cap v < 2 ^ 32.

Lemma to_list_ext v v' :
  count v' = count v ->
  (forall i, 0 <= i < count v -> items v' i = items v i) ->
  to_list v' = to_list v.
Proof.
  intros Hc Hi. unfold to_list. rewrite Hc.
  apply list_fmap_ext. intros k i Hk.
  apply lookup_seq in Hk as [-> Hlt]. apply Hi. lia.
Qed.

Lemma to_list_length v : 0 <= count v -> Z.of_nat (length (to_list v)) = count v.
Proof. intros H. unfold to_list. rewrite length_fmap, length_seq. lia. Qed.

Lemma to_list_snoc v x :
  0 <= count v ->
  to_list (mk_vec (upd (items v) (count v) x) (cap v) (count v + 1))
    = to_list v ++ [x].
Proof.
  intros Hc. unfold to_list. simpl.
  replace (Z.to_nat (count v + 1)) with (S (Z.to_nat (count v))) by lia.
  rewrite seq_S, fmap_app. simpl. f_equal.
  - apply list_fmap_ext. intros k i Hk.
    apply lookup_seq in Hk as [-> Hlt]. unfold upd.
    destruct (Z.eqb_spec (Z.of_nat (0 + k)) (count v)); [lia|done].
  - unfold upd. rewrite Z2Nat.id by lia. by rewrite Z.eqb_refl.
Qed.

Lemma to_list_reset v n :
  0 <= n <= count v -> to_list (reset v n) = take (Z.to_nat n) (to_list v).
Proof.
  intros Hn. unfold to_list, reset. simpl.
  rewrite <- fmap_take. f_equal.
  replace (Z.to_nat (count v)) with (Z.to_nat n + (Z.to_nat (count v) - Z.to_nat n))%nat
    by lia.
  rewrite seq_app, take_app_length'; [done|]. by rewrite length_seq.
Qed.

(** X8.  The vector is a list with room for one more element.  The
    constructor, for a capacity from 1 on, returns an empty vector with
    room.  On a vector with room, whose capacity can still be doubled in
    [uint32_t] when it is about to be full: [push_back(x)] returns a vector
    with room again, which holds the elements held before followed by [x];
    its capacity has doubled exactly when [x] took the last free slot;
    [top()] is then [x], and [drop()] gives back the elements held before.
    [reset(n)] keeps the first [n] elements and [clear()] none. *)
Theorem push_back_appends (v : minivector) (x : T) :
  has_room v -> count v + 1 < cap v \/ cap v * 2 < 2 ^ 32 ->
  (forall c, 0 < c < 2 ^ 32 ->
     exists v0, minivector_new c = Some v0 /\ has_room v0 /\ to_list v0 = []) /\
  (exists v',
     push_back v x = Some v' /\ has_room v' /\
     to_list v' = to_list v ++ [x] /\ size v' = size v + 1 /\
     cap v' = (if count v + 1 =? cap v then cap v * 2 else cap v) /\
     top v' = Some x /\ to_list (drop v') = to_list v) /\
  (forall n, 0 <= n <= count v ->
     to_list (reset v n) = take (Z.to_nat n) (to_list v)) /\
  to_list (clear v) = [].
Proof.
  intros [Hc Hcap] Hgrow. split; [|split; [|split]].
  - intros c Hcr. unfold minivector_new.
    rewrite (proj2 (Z.eqb_neq c 0)) by lia.
    eexists. split; [done|]. split; [|done]. unfold has_room. simpl. lia.
  - unfold push_back. destruct (Z.ltb_spec (count v) (cap v)); [|lia].
    simpl. unfold wrap32. rewrite (Z.mod_small (count v + 1)) by lia.
    assert (Hdrop : forall it c,
              to_list (drop (mk_vec it c (count v + 1)))
              = to_list (mk_vec it c (count v))).
    { intros it c. unfold drop, to_list. simpl. unfold wrap32.
      replace (count v + 1 - 1) with (count v) by lia.
      by rewrite Z.mod_small by lia. }
    assert (Htop : forall it c, it (count v) = x ->
              top (mk_vec it c (count v + 1)) = Some x).
    { intros it c Hit. unfold top. simpl.
      destruct (Z.ltb_spec 0 (count v + 1)); [|lia].
      replace (count v + 1 - 1) with (count v) by lia. by rewrite Hit. }
    assert (Hx : upd (items v) (count v) x (count v) = x).
    { unfold upd. by rewrite Z.eqb_refl. }
    destruct (Z.eqb_spec (count v + 1) (cap v)) as [Hfull|Hroom].
    + unfold expand. simpl. unfold wrap32.
      rewrite (Z.mod_small (cap v * 2)) by lia.
      destruct (Z.leb_spec (count v + 1) (cap v * 2)); [|lia].
      eexists. split; [done|]. unfold has_room, size. simpl.
      split; [lia|]. split.
      { rewrite <- to_list_snoc by lia. apply to_list_ext; [done|].
        simpl. intros i Hi. by destruct (Z.ltb_spec i (count v + 1)); [|lia]. }
      split; [done|]. split; [done|]. split.
      { apply Htop. destruct (Z.ltb_spec (count v) (count v + 1)); [done|lia]. }
      rewrite Hdrop. apply to_list_ext; [done|]. simpl. intros i Hi.
      destruct (Z.ltb_spec i (count v + 1)); [|lia]. unfold upd.
      destruct (Z.eqb_spec i (count v)); [lia|done].
    + eexists. split; [done|]. unfold has_room, size. simpl.
      split; [lia|]. split; [apply to_list_snoc; lia|].
      split; [done|]. split; [done|]. split; [by apply Htop|].
      rewrite Hdrop. apply to_list_ext; [done|]. simpl. intros i Hi.
      unfold upd. destruct (Z.eqb_spec i (count v)); [lia|done].
  - intros n Hn. by apply to_list_reset.
  - done.
Qed.

End Vector.

(** [push_back_appends] at the push of 9 onto a vector of capacity 2 that
    holds the element 7: the capacity doubles. *)
Lemma push_back_appends_witness :
  exists v', push_back Z 0 (mk_vec Z (fun _ => 7) 2 1) 9 = Some v' /\
    to_list Z v' = [7; 9] /\ cap Z v' = 4.
Proof.
  destruct (push_back_appends Z 0 (mk_vec Z (fun _ => 7) 2 1) 9)
    as (_ & (v' & Hp & _ & Hl & _ & Hcap & _) & _).
  - unfold has_room. simpl. lia.
  - right. simpl. lia.
  - exists v'. split; [exact Hp|]. split; [exact Hl|exact Hcap].
Defined.

End Minivector.

(* ===================================================================== *)
(** * exotm.h: the orecs a writing step holds                            *)
(* ===================================================================== *)

Module ExotmSteps.

Import Exotm.

(** The acquire calls a writing step can make. *)
Inductive acquire_t :=
| Consistent (o : Z)
| Continuation (o val : Z)
| Aggressive (o : Z).

Definition target (a : acquire_t) : Z :=
  match a with
  | Consistent o | Continuation o _ | Aggressive o => o
  end.

(** One acquire call of a thread that runs alone: nothing happens between
    the load and the CAS. *)
Definition acquire (a : acquire_t) (me : exotm_t) (w : world)
  : bool * exotm_t * world :=
  match a with
  | Consistent o => acquire_consistent id me w o
  | Continuation o val => acquire_continuation id me w o val
  | Aggressive o => acquire_aggressive id me w o
  end.

(** A sequence of acquire calls, with the result of each. *)
Fixpoint acquire_seq (l : list acquire_t) (me : exotm_t) (w : world)
  : list bool * exotm_t * world :=
  match l with
  | [] => ([], me, w)
  | a :: l' =>
      let '(b, me1, w1) := acquire a me w in
      let '(bs, me2, w2) := acquire_seq l' me1 w1 in
      (b :: bs, me2, w2)
  end.

(** The continuation values that are versions: below the caller's lock
    word. *)
Definition versioned (me : exotm_t) (a : acquire_t) : Prop :=
  match a with
  | Continuation _ val => val < my_lock me
  | _ => True
  end.

(** The orecs of [w] are those of [w0], except that the context holds the
    orecs of its [locks] list, each once, with the value it had in [w0] in
    its [prev] slot. *)
Definition owns (me : exotm_t) (w0 w : world) : Prop :=
  NoDup (locks me) /\
  (forall o, o ∈ locks me ->
     load (orecs w) o = mk_orec (my_lock me) (curr (load (orecs w0) o))) /\
  (forall o, o ∉ locks me ->
     curr (load (orecs w) o) = curr (load (orecs w0) o) /\
     curr (load (orecs w) o) ≠ my_lock me).

(** A word with bit 63 set is locked, and at least [LOCK_BIT]. *)
Lemma lock_bit_set v :
  Z.testbit v 63 = true -> Z.land v LOCK_BIT ≠ 0.
Proof.
  intros Hb Hz. assert (H : Z.testbit (Z.land v LOCK_BIT) 63 = false)
    by (rewrite Hz; apply Z.bits_0).
  rewrite Z.land_spec, Hb in H. unfold LOCK_BIT in H.
  rewrite Z.shiftl_1_l, Z.pow2_bits_true in H by lia. done.
Qed.

Lemma lock_bit_clear v :
  Z.land v LOCK_BIT = 0 -> Z.testbit v 63 = false.
Proof.
  intros Hz. destruct (Z.testbit v 63) eqn:Hb; [|done].
  by destruct (lock_bit_set v Hb).
Qed.

Lemma locked_word_large v :
  0 <= v -> Z.land v LOCK_BIT ≠ 0 -> LOCK_BIT <= v.
Proof.
  intros Hv Hl. destruct (Z.lt_ge_cases v LOCK_BIT) as [Hlt|]; [|done].
  destruct Hl. by apply (below_lock_bit_unlocked v v).
Qed.

(** The lock word of a context at a non-negative address. *)
Lemma exotm_new_lock_word this :
  0 <= this -> Z.testbit (my_lock (exotm_new this)) 63 = true.
Proof.
  intros _. change (my_lock (exotm_new this)) with (Z.lor LOCK_BIT this).
  rewrite Z.lor_spec. unfold LOCK_BIT.
  by rewrite Z.shiftl_1_l, Z.pow2_bits_true by lia.
Qed.

(** One acquire call keeps [owns]; it returns true exactly when the caller
    holds the orec on return. *)
Lemma acquire_owns a me w0 w :
  owns me w0 w -> Z.testbit (my_lock me) 63 = true -> versioned me a ->
  let '(b, me', w') := acquire a me w in
  owns me' w0 w' /\
  my_lock me' = my_lock me /\ start_time me' = start_time me /\
  unwound me' = unwound me /\ last_wo_end_time me' = last_wo_end_time me /\
  rdtsc w' = rdtsc w /\ reads w' = reads w /\
  ((b = true) <-> (target a ∈ locks me')) /\
  (locks me' = locks me \/
   ((target a ∉ locks me) /\ locks me' = locks me ++ [target a])).
Proof.
  intros (Hnd & Hin & Hout) Hbit Hver.
  assert (Hkeep : forall b, ((b = true) <-> (target a ∈ locks me)) ->
            owns me w0 w /\ my_lock me = my_lock me /\
            start_time me = start_time me /\ unwound me = unwound me /\
            last_wo_end_time me = last_wo_end_time me /\
            rdtsc w = rdtsc w /\ reads w = reads w /\
            ((b = true) <-> (target a ∈ locks me)) /\
            (locks me = locks me \/
             ((target a ∉ locks me) /\ locks me = locks me ++ [target a]))).
  { intros b Hb. split; [done|]. repeat split; try done; try apply Hb. by left. }
  assert (Hmine : forall o, curr (load (orecs w) o) = my_lock me <-> o ∈ locks me).
  { intros o. split.
    - intros Hc. destruct (decide (o ∈ locks me)) as [|Hn]; [done|].
      by destruct (Hout o Hn) as [_ ?].
    - intros Ho. by rewrite (Hin o Ho). }
  assert (Htake : forall o, target a = o ->
            curr (load (orecs w) o) ≠ my_lock me ->
            owns (push_lock me o) w0
              (with_orecs w
                 (store_prev (store_curr (orecs w) o (my_lock me)) o
                    (curr (load (orecs w) o)))) /\
            my_lock me = my_lock me /\ start_time me = start_time me /\
            unwound me = unwound me /\
            last_wo_end_time me = last_wo_end_time me /\
            rdtsc w = rdtsc w /\ reads w = reads w /\
            ((true = true) <-> (target a ∈ locks me ++ [o])) /\
            (locks me ++ [o] = locks me \/
             ((target a ∉ locks me) /\ locks me ++ [o] = locks me ++ [target a]))).
  { intros o Ht Hne.
    assert (Hno : o ∉ locks me) by (intros Ho; by apply Hne, Hmine).
    repeat split; try done.
    - simpl. apply NoDup_app. split; [done|]. split; [|apply NoDup_singleton].
      intros x Hx ->%list_elem_of_singleton. done.
    - simpl. intros x [Hx| ->%list_elem_of_singleton]%elem_of_app.
      + assert (x ≠ o) by (intros ->; done).
        rewrite load_store_prev_ne, load_store_curr_ne by done. by apply Hin.
      + rewrite load_store_prev_eq, load_store_curr_eq. simpl.
        by destruct (Hout o Hno) as [-> _].
    - simpl in *. assert (o0 ≠ o).
      { intros ->. apply H. apply elem_of_app. right. by left. }
      rewrite load_store_prev_ne, load_store_curr_ne by done.
      apply Hout. intros Ho. apply H. apply elem_of_app. by left.
    - simpl in *. assert (o0 ≠ o).
      { intros ->. apply H. apply elem_of_app. right. by left. }
      rewrite load_store_prev_ne, load_store_curr_ne by done.
      apply Hout. intros Ho. apply H. apply elem_of_app. by left.
    - intros _. rewrite Ht. apply elem_of_app. right. by left.
    - right. rewrite Ht. done. }
  destruct a as [o|o val|o]; simpl in Hver |- *.
  - unfold acquire_consistent. unfold id.
    destruct (Z.eqb_spec (curr (load (orecs w) o)) (my_lock me)) as [He|Hne].
    { apply Hkeep. simpl. split; [intros _; by apply Hmine|done]. }
    destruct (Z.gtb_spec (curr (load (orecs w) o)) (start_time me)).
    { apply Hkeep. simpl. split; [done|]. intros Ho. by apply Hmine in Ho. }
    rewrite cas_success by done. by apply Htake.
  - unfold acquire_continuation. unfold id.
    destruct (Z.gtb_spec (curr (load (orecs w) o)) val) as [Hgt|Hle].
    { apply Hkeep. simpl. rewrite Z.eqb_eq. apply Hmine. }
    rewrite cas_success by done. apply Htake; [done|lia].
  - unfold acquire_aggressive. unfold id.
    destruct (Z.eqb_spec (Z.land (curr (load (orecs w) o)) LOCK_BIT) 0)
      as [Hfree|Hlocked]; simpl.
    + rewrite cas_success by done. apply Htake; [done|].
      intros He. rewrite He in Hfree. by apply (lock_bit_set _ Hbit).
    + apply Hkeep. simpl. rewrite Z.eqb_eq. apply Hmine.
Qed.

(** A sequence of acquire calls keeps [owns]. *)
Lemma acquire_seq_owns : forall l me w0 w,
  owns me w0 w -> Z.testbit (my_lock me) 63 = true -> Forall (versioned me) l ->
  let '(bs, me', w') := acquire_seq l me w in
  owns me' w0 w' /\
  my_lock me' = my_lock me /\ start_time me' = start_time me /\
  unwound me' = unwound me /\ last_wo_end_time me' = last_wo_end_time me /\
  rdtsc w' = rdtsc w /\ reads w' = reads w /\
  Forall2 (fun a b => b = true -> target a ∈ locks me') l bs /\
  (forall o, o ∈ locks me' -> o ∈ locks me \/ o ∈ target <$> l) /\
  (forall o, o ∈ locks me -> o ∈ locks me').
Proof.
  induction l as [|a l IH]; intros me w0 w Hown Hbit Hver; simpl.
  - split; [done|]. repeat split; try done. by left.
  - inversion Hver as [|? ? Ha Hl]; subst.
    pose proof (acquire_owns a me w0 w Hown Hbit Ha) as Hstep.
    destruct (acquire a me w) as [[b me1] w1].
    destruct Hstep as (Hown1 & Hml & Hst & Hun & Hlw & Hr & Hrd & Hb & Hlocks).
    specialize (IH me1 w0 w1 Hown1).
    rewrite Hml in IH. specialize (IH Hbit).
    assert (Hver1 : Forall (versioned me1) l).
    { eapply Forall_impl; [exact Hl|]. intros [] ?; simpl in *; [done|lia|done]. }
    specialize (IH Hver1).
    destruct (acquire_seq l me1 w1) as [[bs me2] w2].
    destruct IH as (Hown2 & Hml2 & Hst2 & Hun2 & Hlw2 & Hr2 & Hrd2 & Hbs & Hfrom & Hmono).
    split; [done|]. repeat split; try congruence.
    + constructor; [|done]. intros Htrue. apply Hmono. by apply Hb.
    + intros o Ho. destruct (Hfrom o Ho) as [H1|H1]; [|right; by right].
      destruct Hlocks as [Heq|[_ Heq]]; rewrite Heq in H1; [by left|].
      apply elem_of_app in H1 as [?| ->%list_elem_of_singleton]; [by left|].
      right. by left.
    + intros o Ho. apply Hmono.
      destruct Hlocks as [Heq|[_ Heq]]; rewrite Heq; [done|].
      apply elem_of_app. by left.
Qed.

(** A context that holds no orec, in a world where no orec carries its
    lock word. *)
Lemma owns_nothing me w :
  locks me = [] -> (forall o, curr (load (orecs w) o) ≠ my_lock me) ->
  owns me w w.
Proof.
  intros Hl Hfree. unfold owns. rewrite Hl. split; [constructor|].
  split; [by intros o ?%elem_of_nil|]. done.
Qed.

(** What releasing does to the orecs of a context that [owns]. *)
Lemma owns_release (g : Z -> Z) me w0 w o :
  owns me w0 w ->
  curr (load (release_all (fun r => g (prev r)) (locks me) (orecs w)) o) =
    if decide (o ∈ locks me) then g (curr (load (orecs w0) o))
    else curr (load (orecs w0) o).
Proof.
  intros (Hnd & Hin & Hout). destruct (decide (o ∈ locks me)) as [Ho|Ho].
  - rewrite release_all_member by done. by rewrite (Hin o Ho).
  - rewrite release_all_other by done. by destruct (Hout o Ho).
Qed.

(** X9.  A writing step that runs alone.  A context that holds no orec
    makes any sequence of acquire calls, with continuation values below its
    lock word.  Then each orec it holds is in [locks] once, carries its lock
    word, and has the value it had before the step in [prev]; every other
    orec is as it was; a call that returned true left its orec held.
    [unwind(ROLLBACK_ORECS)] gives every orec the value it had before the
    step; [unwind(BUMP_ORECS)] gives the held orecs that value plus one; and
    [wo_end()] gives the held orecs the time it reads from the clock, and
    leaves the others as they were. *)
Theorem acquire_then_release (l : list acquire_t) (me : exotm_t) (w : world) :
  locks me = [] -> Z.testbit (my_lock me) 63 = true ->
  (forall o, curr (load (orecs w) o) ≠ my_lock me) ->
  Forall (versioned me) l ->
  let '(bs, me1, w1) := acquire_seq l me w in
  NoDup (locks me1) /\
  (forall o, o ∈ locks me1 ->
     o ∈ target <$> l /\
     load (orecs w1) o = mk_orec (my_lock me) (curr (load (orecs w) o))) /\
  (forall o, o ∉ locks me1 ->
     curr (load (orecs w1) o) = curr (load (orecs w) o)) /\
  Forall2 (fun a b => b = true -> target a ∈ locks me1) l bs /\
  (forall o, curr (load (orecs (snd (unwind ROLLBACK_ORECS me1 w1))) o)
             = curr (load (orecs w) o)) /\
  (forall o, curr (load (orecs (snd (unwind BUMP_ORECS me1 w1))) o)
             = if decide (o ∈ locks me1)
               then wrap64 (curr (load (orecs w) o) + 1)
               else curr (load (orecs w) o)) /\
  (unwound me = false ->
   forall o, curr (load (orecs (snd (wo_end me1 w1))) o)
             = if decide (o ∈ locks me1) then rdtsc w (reads w)
               else curr (load (orecs w) o)).
Proof.
  intros Hl Hbit Hfree Hver.
  pose proof (acquire_seq_owns l me w w (owns_nothing me w Hl Hfree) Hbit Hver)
    as Hseq.
  destruct (acquire_seq l me w) as [[bs me1] w1].
  destruct Hseq as (Hown & Hml & Hst & Hun & Hlw & Hr & Hrd & Hbs & Hfrom & _).
  pose proof Hown as (Hnd & Hin & Hout).
  split; [done|]. split.
  { intros o Ho. split; [|rewrite <- Hml; by apply Hin].
    destruct (Hfrom o Ho) as [H|H]; [|done]. rewrite Hl in H.
    by apply elem_of_nil in H. }
  split; [intros o Ho; by destruct (Hout o Ho)|]. split; [done|].
  split; [|split].
  - intros o. unfold unwind. simpl.
    rewrite (owns_release (fun p => p) me1 w w1 o Hown).
    by destruct (decide (o ∈ locks me1)).
  - intros o. unfold unwind. simpl.
    apply (owns_release (fun p => wrap64 (p + 1)) me1 w w1 o Hown).
  - intros Hu o. unfold wo_end. rewrite Hun, Hu. simpl.
    rewrite Hr, Hrd.
    apply (owns_release (fun _ => rdtsc w (reads w)) me1 w w1 o Hown).
Qed.

(** X10.  Mutual exclusion.  On an orec that carries a lock word other
    than the caller's, whatever other threads do meanwhile:
    [acquire_aggressive] fails; [acquire_consistent] fails and [check_orec]
    returns [END_OF_TIME] in a step that began at a time below [LOCK_BIT];
    [acquire_continuation] and [check_continuation] fail for a value below
    [LOCK_BIT].  A failed call changes neither the orecs nor the context. *)
Theorem locked_orec_excludes_others (env : gmap Z orec_t -> gmap Z orec_t)
    (me : exotm_t) (w : world) (o : Z) :
  0 <= curr (load (orecs w) o) ->
  Z.land (curr (load (orecs w) o)) LOCK_BIT ≠ 0 ->
  curr (load (orecs w) o) ≠ my_lock me ->
  acquire_aggressive env me w o = (false, me, w) /\
  (start_time me < LOCK_BIT ->
   acquire_consistent env me w o = (false, me, w) /\
   check_orec me w o = END_OF_TIME) /\
  (forall val, val < LOCK_BIT ->
     acquire_continuation env me w o val = (false, me, w) /\
     check_continuation w o val = false).
Proof.
  intros Hv Hlocked Hne.
  pose proof (locked_word_large _ Hv Hlocked) as Hlarge.
  split; [|split].
  - unfold acquire_aggressive.
    rewrite (proj2 (Z.eqb_neq _ _) Hlocked). simpl.
    by rewrite (proj2 (Z.eqb_neq _ _) Hne).
  - intros Hst. split.
    + unfold acquire_consistent. rewrite (proj2 (Z.eqb_neq _ _) Hne).
      by destruct (Z.gtb_spec (curr (load (orecs w) o)) (start_time me)); [|lia].
    + unfold check_orec. rewrite (proj2 (Z.eqb_neq _ _) Hne).
      by destruct (Z.leb_spec (curr (load (orecs w) o)) (start_time me)); [lia|].
  - intros val Hval. split.
    + unfold acquire_continuation.
      destruct (Z.gtb_spec (curr (load (orecs w) o)) val); [|lia].
      by rewrite (proj2 (Z.eqb_neq _ _) Hne).
    + unfold check_continuation.
      by destruct (Z.leb_spec (curr (load (orecs w) o)) val); [lia|].
Qed.

(** *** The theorems at concrete inputs *)

(** *** A context and two worlds *)

(** The context at address 8, a world with no orec stored yet, and a
    world in which another context holds orec 1. *)
Definition ctx8 : exotm_t := exotm_new 8.

Definition quiet : world := mk_world ∅ (fun _ => 100) 0.

Definition contended : world :=
  mk_world (<[1 := mk_orec (Z.lor LOCK_BIT 16) 40]> ∅) (fun _ => 100) 0.

Lemma quiet_free o : curr (load (orecs quiet) o) ≠ my_lock ctx8.
Proof. unfold load. simpl. rewrite lookup_empty. vm_compute. discriminate. Qed.

(** [acquire_then_release] at three acquires of two orecs, then a
    rollback. *)
Lemma acquire_then_release_witness :
  let '(bs, me1, w1) :=
    acquire_seq [Aggressive 1; Continuation 2 0; Consistent 1] ctx8 quiet in
  NoDup (locks me1) /\
  curr (load (orecs (snd (unwind ROLLBACK_ORECS me1 w1))) 1)
  = curr (load (orecs quiet) 1).
Proof.
  pose proof (acquire_then_release
                [Aggressive 1; Continuation 2 0; Consistent 1] ctx8 quiet
                eq_refl eq_refl quiet_free) as H.
  destruct (acquire_seq [Aggressive 1; Continuation 2 0; Consistent 1]
              ctx8 quiet) as [[bs me1] w1].
  destruct H as (Hnd & _ & _ & _ & Hback & _).
  - repeat constructor.
  - split; [exact Hnd|apply Hback].
Defined.

(** [locked_orec_excludes_others] on the orec that another context
    holds. *)
Lemma locked_orec_excludes_others_witness :
  acquire_aggressive id ctx8 contended 1 = (false, ctx8, contended) /\
  acquire_continuation id ctx8 contended 1 40 = (false, ctx8, contended) /\
  check_continuation contended 1 40 = false.
Proof.
  destruct (locked_orec_excludes_others id ctx8 contended 1)
    as (Hagg & _ & Hcont).
  - vm_compute. discriminate.
  - vm_compute. discriminate.
  - vm_compute. discriminate.
  - split; [exact Hagg|]. apply Hcont. vm_compute. reflexivity.
Defined.

End ExotmSteps.

(* ===================================================================== *)
(** * timestamp_smr.h: the life of a retired object                      *)
(* ===================================================================== *)

Module SmrRuns.

Import Smr.

(** The calls a thread makes on its context. *)
Inductive call_t :=
| Enter (time : Z)
| Reclaim (ptr : Z)
| Exit (others : list Z) (time : Z).

(** A sequence of calls: the pointers deleted, in order, and the final
    context. *)
Fixpoint run (calls : list call_t) (me : timestamp_smr_t)
  : list Z * timestamp_smr_t :=
  match calls with
  | [] => ([], me)
  | Enter time :: rest => run rest (enter time me)
  | Reclaim ptr :: rest => run rest (reclaim ptr me)
  | Exit others time :: rest =>
      let '(deleted, me1) := exit others time me in
      let '(deleted', me2) := run rest me1 in
      (deleted ++ deleted', me2)
  end.

(** The pointers passed to [reclaim], in order. *)
Fixpoint reclaimed (calls : list call_t) : list Z :=
  match calls with
  | [] => []
  | Reclaim ptr :: rest => ptr :: reclaimed rest
  | _ :: rest => reclaimed rest
  end.

(** The times of the exits, in order. *)
Fixpoint exit_times (calls : list call_t) : list Z :=
  match calls with
  | [] => []
  | Exit _ time :: rest => time :: exit_times rest
  | _ :: rest => exit_times rest
  end.

(** The objects a context is in charge of: those in the deque, then those
    pending. *)
Definition retired (me : timestamp_smr_t) : list Z :=
  (fst <$> unreachable me) ++ pending me.

(** The sweep deletes a prefix of the deque, all of it older than
    [oldest]. *)
Lemma sweep_loop_prefix oldest : forall (u : list (Z * Z)),
  let '(deleted, kept) := sweep_loop oldest u in
  exists pre, u = pre ++ kept /\ deleted = fst <$> pre /\
    Forall (fun r => snd r < oldest) pre.
Proof.
  induction u as [|[ptr t] u IH]; simpl.
  - by exists [].
  - destruct (Z.geb_spec t oldest) as [Hge|Hlt]; [by exists []|].
    destruct (sweep_loop oldest u) as [deleted kept].
    destruct IH as (pre & -> & -> & Hpre).
    exists ((ptr, t) :: pre). split; [done|]. split; [done|].
    by constructor.
Qed.

Lemma fst_stamped (ps : list Z) (time : Z) :
  fst <$> ((fun p => (p, time)) <$> ps) = ps.
Proof. induction ps as [|p ps IH]; simpl; [done|]. f_equal. exact IH. Qed.

(** One [exit] deletes a prefix of what the context is in charge of, and
    keeps the rest in the deque, in order. *)
Lemma exit_retired others time me :
  let '(deleted, me') := exit others time me in
  deleted ++ retired me' = retired me /\ pending me' = [].
Proof.
  unfold exit, retired. simpl.
  destruct (pending me) as [|p ps] eqn:Hp; simpl; [by rewrite app_nil_r|].
  destruct (exits_remaining me - 1 >? 0); simpl.
  - rewrite app_nil_r, fmap_app. simpl. by rewrite fst_stamped.
  - unfold sweep. simpl.
    pose proof (sweep_loop_prefix (oldest_of (ULLONG_MAX :: others))
                  (unreachable me ++ (p, time) :: ((fun p => (p, time)) <$> ps)))
      as Hsw.
    destruct (sweep_loop _ _) as [deleted kept]. simpl.
    destruct Hsw as (pre & Hu & -> & _). rewrite app_nil_r.
    rewrite <- fmap_app, <- Hu, fmap_app. simpl. by rewrite fst_stamped.
Qed.

Lemma run_retired : forall calls me,
  let '(deleted, me') := run calls me in
  deleted ++ retired me' = retired me ++ reclaimed calls.
Proof.
  induction calls as [|[time|ptr|others time] calls IH]; intros me; simpl.
  - by rewrite app_nil_r.
  - apply (IH (enter time me)).
  - specialize (IH (reclaim ptr me)).
    destruct (run calls (reclaim ptr me)) as [deleted me'].
    rewrite IH. unfold retired. simpl. by rewrite <- !app_assoc.
  - pose proof (exit_retired others time me) as Hex.
    destruct (exit others time me) as [deleted me1].
    specialize (IH me1). destruct (run calls me1) as [deleted' me2].
    destruct Hex as [Hex _]. rewrite <- app_assoc, IH, app_assoc. by rewrite Hex.
Qed.

(** X11.  No retired object is lost or deleted twice.  Along any sequence
    of calls, the objects deleted so far, followed by those in the deque and
    those pending, are the objects the context was in charge of at first
    followed by the pointers passed to [reclaim], in that order: objects are
    deleted in the order in which they were retired; and when no pointer is
    retired twice, none is deleted twice, and no deleted pointer is still in
    the deque or pending. *)
Theorem retired_objects_accounted (calls : list call_t) (me : timestamp_smr_t) :
  let '(deleted, me') := run calls me in
  deleted ++ (fst <$> unreachable me') ++ pending me'
    = (fst <$> unreachable me) ++ pending me ++ reclaimed calls /\
  (NoDup ((fst <$> unreachable me) ++ pending me ++ reclaimed calls) ->
   NoDup deleted /\
   forall p, p ∈ deleted ->
     (p ∉ (fst <$> unreachable me')) /\ (p ∉ pending me')).
Proof.
  pose proof (run_retired calls me) as Hrun.
  destruct (run calls me) as [deleted me']. unfold retired in Hrun.
  rewrite <- app_assoc in Hrun. split; [done|].
  rewrite <- Hrun. intros Hnd.
  apply NoDup_app in Hnd as (Hd & Hdisj & _). split; [done|].
  intros p Hp. specialize (Hdisj p Hp). rewrite elem_of_app in Hdisj.
  split; intros ?; apply Hdisj; [by left|by right].
Qed.

(** X12.  An exit deletes only what no thread can still reach.  Every
    pointer that [exit] deletes was in the deque, or pending and stamped by
    this exit with [time]; its stamp is strictly below the timestamp
    published by each other thread (and below [ULLONG_MAX]); and an exit
    with nothing pending, or with more than one exit to go before the
    sweep, deletes nothing. *)
Theorem exit_deletes_only_unreachable (others : list Z) (time : Z)
    (me : timestamp_smr_t) :
  let '(deleted, me') := exit others time me in
  (forall p, p ∈ deleted ->
     exists t, ((p, t) ∈ unreachable me \/ (p ∈ pending me /\ t = time)) /\
       t < ULLONG_MAX /\ forall o, o ∈ others -> t < o) /\
  (pending me = [] \/ exits_remaining me > 1 -> deleted = []) /\
  ts me' = ULLONG_MAX.
Proof.
  unfold exit. simpl.
  destruct (pending me) as [|p0 ps] eqn:Hp; simpl.
  { split; [by intros p ?%elem_of_nil|done]. }
  destruct (Z.gtb_spec (exits_remaining me - 1) 0) as [Hgt|Hle]; simpl.
  { split; [by intros p ?%elem_of_nil|done]. }
  unfold sweep. simpl.
  pose proof (sweep_loop_prefix (oldest_of (ULLONG_MAX :: others))
                (unreachable me ++ (p0, time) :: ((fun p => (p, time)) <$> ps)))
    as Hsw.
  destruct (sweep_loop _ _) as [deleted kept]. simpl.
  destruct Hsw as (pre & Hu & -> & Hold).
  split; [|split; [|done]].
  - intros p Hpin. apply list_elem_of_fmap in Hpin as ([p' t] & -> & Hin).
    simpl. exists t. rewrite Forall_forall in Hold.
    pose proof (Hold _ Hin) as Hlt. simpl in Hlt.
    assert (Hm : (p', t) ∈ unreachable me
                 ++ (p0, time) :: ((fun p => (p, time)) <$> ps)).
    { rewrite Hu. apply elem_of_app. by left. }
    split.
    + apply elem_of_app in Hm as [Hm|Hm]; [by left|right].
      apply elem_of_cons in Hm as [[= -> ->]|Hm]; [split; [by left|done]|].
      apply list_elem_of_fmap in Hm as (q & [= -> ->] & Hq).
      split; [by right|done].
    + unfold oldest_of in Hlt. split.
      * pose proof (oldest_fold_le (ULLONG_MAX :: others) ULLONG_MAX). lia.
      * intros o Ho.
        pose proof (oldest_fold_lower (ULLONG_MAX :: others) ULLONG_MAX o
                      ltac:(by right)). lia.
  - intros [?|?]; [done|lia].
Qed.

(** *** The order of the deque *)

Lemma by_stamp_suffix (pre kept : list (Z * Z)) :
  by_stamp (pre ++ kept) -> by_stamp kept.
Proof.
  unfold by_stamp. induction pre as [|r pre IH]; simpl; [done|].
  intros Hs. apply StronglySorted_inv in Hs as [Hs _]. by apply IH.
Qed.

(** A bound on the stamps of the deque. *)
Definition stamped_by (time : Z) (me : timestamp_smr_t) : Prop :=
  Forall (fun r => snd r <= time) (unreachable me).

Lemma exit_ordered others time me :
  by_stamp (unreachable me) -> stamped_by time me ->
  by_stamp (unreachable (snd (exit others time me))) /\
  stamped_by time (snd (exit others time me)).
Proof.
  intros Hs Hb. unfold exit, stamped_by in *. simpl.
  destruct (pending me) as [|p0 ps] eqn:Hp; simpl; [done|].
  set (u := unreachable me ++ (p0, time) :: ((fun p => (p, time)) <$> ps)).
  assert (Hu : by_stamp u /\ Forall (fun r => snd r <= time) u).
  { unfold u.
    change ((p0, time) :: ((fun p => (p, time)) <$> ps))
      with ((fun p => (p, time)) <$> (p0 :: ps)).
    split; [by apply by_stamp_push|]. apply Forall_app. split; [done|].
    apply Forall_forall. intros x Hx.
    apply list_elem_of_fmap in Hx as (q & -> & _). simpl. lia. }
  destruct Hu as [Hu1 Hu2].
  destruct (exits_remaining me - 1 >? 0); simpl; [done|].
  unfold sweep. simpl.
  change (unreachable me ++ (p0, time) :: list_fmap Z (Z * Z)%type
                                             (fun p => (p, time)) ps) with u.
  pose proof (sweep_loop_prefix (oldest_of (ULLONG_MAX :: others)) u) as Hsw.
  destruct (sweep_loop _ u) as [deleted kept]. simpl.
  destruct Hsw as (pre & Heq & _ & _). rewrite Heq in Hu1, Hu2.
  split; [by apply (by_stamp_suffix pre)|].
  by apply Forall_app in Hu2 as [_ ?].
Qed.

(** X13.  With a clock that does not go back, the deque stays ordered.
    When the deque is ordered by stamp, with no stamp above the first exit
    time, and the exits of a sequence of calls read times that do not
    decrease, the deque is ordered by stamp after the sequence: every sweep
    meets an ordered deque, and so deletes every record old enough. *)
Theorem deque_stays_ordered (calls : list call_t) (me : timestamp_smr_t) :
  by_stamp (unreachable me) ->
  StronglySorted Z.le (exit_times calls) ->
  Forall (fun time => stamped_by time me) (exit_times calls) ->
  by_stamp (unreachable (snd (run calls me))).
Proof.
  revert me.
  induction calls as [|[time|ptr|others time] calls IH]; intros me Hs Ht Hb;
    simpl in *.
  - done.
  - by apply (IH (enter time me)).
  - by apply (IH (reclaim ptr me)).
  - apply StronglySorted_inv in Ht as [Ht Hle].
    inversion Hb as [|? ? Hb0 Hb']; subst.
    destruct (exit_ordered others time me Hs Hb0) as [Hs1 Hb1].
    destruct (exit others time me) as [deleted me1]. simpl in *.
    specialize (IH me1 Hs1 Ht).
    destruct (run calls me1) as [deleted' me2]. simpl in *.
    apply IH. rewrite Forall_forall in Hle |- *. intros t' Ht'.
    specialize (Hle t' Ht'). unfold stamped_by in *.
    eapply Forall_impl; [exact Hb1|]. simpl. intros; lia.
Qed.

(** [deque_stays_ordered] for a context that starts empty and makes two
    operations that retire an object each. *)
Lemma deque_stays_ordered_witness :
  by_stamp (unreachable (snd (run [Enter 10; Reclaim 7; Exit [] 20;
                                   Enter 30; Reclaim 8; Exit [] 40] smr_new))).
Proof.
  apply deque_stays_ordered.
  - constructor.
  - simpl. repeat constructor. lia.
  - simpl. repeat constructor.
Defined.

End SmrRuns.

(* ===================================================================== *)
(** * hybrid/lazy.h, field.h, base.h, raii.h: lazy transactions          *)
(* ===================================================================== *)

Module Lazy.

Import Exotm Hybrid ExotmSteps.

(** How a call that can [longjmp] or not return ends. *)
Inductive outcome (A : Type) : Type :=
| Return (a : A) (d : base_t) (w : world)   (* the call returns [a] *)
| Abort (d : base_t) (w : world)            (* [abort()] has called [longjmp] *)
| Halt                                      (* the redo log stops the program *)
| Diverge.                                  (* a loop does not end *)

Arguments Return {A} a d w.
Arguments Abort {A} d w.
Arguments Halt {A}.
Arguments Diverge {A}.

Definition set_exo (d : base_t) (e : exotm_t) : base_t :=
  mk_base e (readset d) (lockset d) (redolog d) (mallocs d) (frees d).

Definition set_readset (d : base_t) (rs : list Z) : base_t :=
  mk_base (exo d) rs (lockset d) (redolog d) (mallocs d) (frees d).

Section Policy.

(** [obj->orec()], and what [malloc] leaves in the vector of the redo
    log. *)
Variable orec : Z -> Z.
Variable uninit_chunk : Z -> RedoLog.writeback_chunk_t.

(** [redolog.safe_read(addr)], for a scalar of [width] bytes: memory maps
    an address to a byte. *)
Definition safe_read (mem : Z -> Z) (width addr : Z) : Z :=
  RedoLog.read_scalar (Z.to_nat width) mem addr.

(** The loop of [acquire_all()], for a thread that runs alone: false when
    some [acquire_consistent] fails. *)
Fixpoint acquire_all_loop (me : exotm_t) (w : world) (ls : list Z)
  : bool * exotm_t * world :=
  match ls with
  | [] => (true, me, w)
  | o :: ls' =>
      match acquire_consistent id me w o with
      | (false, me1, w1) => (false, me1, w1)
      | (true, me1, w1) => acquire_all_loop me1 w1 ls'
      end
  end.

(** [acquire_all()] *)
Definition acquire_all (d : base_t) (w : world) : exit_t * base_t * world :=
  match acquire_all_loop (exo d) w (lockset d) with
  | (true, e, w1) => (Returns, set_exo d e, w1)
  | (false, e, w1) =>
      let '(d', w') := abort (set_exo d e) w1 in (Longjmps, d', w')
  end.

(** The loop of [validate(old_start)]: false when some orec is above
    [old_start] and not the caller's. *)
Fixpoint validate_since_loop (me : exotm_t) (w : world) (old_start : Z)
    (rs : list Z) : bool :=
  match rs with
  | [] => true
  | o :: rs' =>
      let '(ok, mine) := check_continuation_mine me w o old_start in
      if negb ok && negb mine then false
      else validate_since_loop me w old_start rs'
  end.

(** [validate(uint64_t old_start)] *)
Definition validate_since (d : base_t) (w : world) (old_start : Z)
  : exit_t * base_t * world :=
  if validate_since_loop (exo d) w old_start (readset d) then (Returns, d, w)
  else let '(d', w') := abort d w in (Longjmps, d', w').

(** [commit()], on the memory [mem] and the reclamation context [smr] of
    the thread. *)
Definition commit (d : base_t) (w : world) (mem : Z -> Z)
    (smr : Smr.timestamp_smr_t)
  : exit_t * base_t * world * (Z -> Z) * Smr.timestamp_smr_t :=
  if (match lockset d with [] => true | _ => false end)
     && negb (has_orecs (exo d))
  then (Returns, set_readset (set_exo d (ro_end (exo d))) [], w, mem, smr)
  else
    match acquire_all d w with
    | (Longjmps, d1, w1) => (Longjmps, d1, w1, mem, smr)
    | (Returns, d1, w1) =>
        match validate d1 w1 with
        | (Longjmps, d2, w2) => (Longjmps, d2, w2, mem, smr)
        | (Returns, d2, w2) =>
            let mem' := RedoLog.writeback 32 (redolog d2) mem in
            let '(e3, w3) := wo_end (exo d2) w2 in
            let smr' := foldl (fun s a => Smr.reclaim a s) smr (frees d2) in
            (Returns,
             mk_base e3 [] [] (RedoLog.clear (redolog d2)) [] [],
             w3, mem', smr')
        end
    end.

(** [lazy_field<T>::xSet(tx, o, val)], for the field at address [addr]
    with [sizeof(T) = width]. *)
Definition xSet (d : base_t) (width addr obj val : Z) : res base_t :=
  log ← RedoLog.insert 32 uninit_chunk width addr val (redolog d);
  Ok (mk_base (exo d) (readset d) (lockset d ++ [orec obj]) log
        (mallocs d) (frees d)).

(** The loop [while (true)] of [lazy_field<T>::xGet].  A thread that runs
    alone and finds the orec locked by another thread waits for ever in
    [while (locked)]. *)
Fixpoint xGet_loop (fuel : nat) (d : base_t) (w : world) (mem : Z -> Z)
    (width addr obj : Z) : outcome Z :=
  match fuel with
  | O => Diverge
  | S fuel' =>
      let ret := safe_read mem width addr in
      let locked := negb (Z.land (curr (load (orecs w) (orec obj))) LOCK_BIT
                          =? 0) in
      if negb (check_orec (exo d) w (orec obj) =? END_OF_TIME) then
        Return ret (set_readset d (readset d ++ [orec obj])) w
      else if locked then Diverge
      else
        let old_start := get_start_time (exo d) in
        let '(e1, w1) := wo_begin (exo d) w in
        match validate_since (set_exo d e1) w1 old_start with
        | (Longjmps, d2, w2) => Abort d2 w2
        | (Returns, d2, w2) => xGet_loop fuel' d2 w2 mem width addr obj
        end
  end.

(** [lazy_field<T>::xGet(tx, o)] *)
Definition xGet (fuel : nat) (d : base_t) (w : world) (mem : Z -> Z)
    (width addr obj : Z) : outcome Z :=
  match RedoLog.get 32 width addr (redolog d) with
  | Ok (Some ret) => Return ret d w
  | Ok None => xGet_loop fuel d w mem width addr obj
  | Stop => Halt
  | Spin => Diverge
  end.

(** [WoStm(me, jb)] and [RoStm(me, jb)] begin a transaction; [~RoStm()]
    ends a read-only one. *)
Definition wo_stm (d : base_t) (w : world) : base_t * world :=
  let '(e, w1) := wo_begin (exo d) w in (set_exo d e, w1).

Definition ro_stm (d : base_t) (w : world) : base_t * world :=
  let '(e, w1) := ro_begin (exo d) w in (set_exo d e, w1).

Definition ro_stm_end (d : base_t) : base_t :=
  set_readset (set_exo d (ro_end (exo d))) [].

(** *** [acquire_all] and [validate] *)

(** The loop of [acquire_all] succeeds exactly when every orec of the
    lock set is held already or not above [start_time]; it keeps [owns]. *)
Lemma acquire_all_loop_owns : forall ls me w0 w,
  owns me w0 w -> Z.testbit (my_lock me) 63 = true ->
  let '(b, me', w') := acquire_all_loop me w ls in
  owns me' w0 w' /\
  my_lock me' = my_lock me /\ start_time me' = start_time me /\
  unwound me' = unwound me /\ last_wo_end_time me' = last_wo_end_time me /\
  rdtsc w' = rdtsc w /\ reads w' = reads w /\
  ((b = true) <->
   (forall o, o ∈ ls ->
      o ∈ locks me \/ curr (load (orecs w0) o) <= start_time me)) /\
  (b = true -> forall o, o ∈ ls -> o ∈ locks me') /\
  (forall o, o ∈ locks me' -> o ∈ locks me \/ o ∈ ls) /\
  (forall o, o ∈ locks me -> o ∈ locks me').
Proof.
  induction ls as [|o ls IH]; intros me w0 w Hown Hbit; simpl.
  - split; [done|]. repeat split; try done;
      try (intros; match goal with H : _ ∈ [] |- _ =>
                     by apply elem_of_nil in H end).
    by left.
  - pose proof (acquire_owns (Consistent o) me w0 w Hown Hbit I) as Hstep.
    simpl in Hstep.
    assert (Hres : fst (fst (acquire_consistent id me w o)) = true <->
              (o ∈ locks me \/ curr (load (orecs w0) o) <= start_time me)).
    { destruct Hown as (_ & Hin & Hout). unfold acquire_consistent, id.
      destruct (decide (o ∈ locks me)) as [Ho|Ho].
      - rewrite (Hin o Ho). simpl. rewrite Z.eqb_refl. simpl.
        split; [by left|done].
      - destruct (Hout o Ho) as [Hc Hne].
        rewrite (proj2 (Z.eqb_neq _ _) Hne).
        destruct (Z.gtb_spec (curr (load (orecs w) o)) (start_time me)).
        + simpl. split; [done|]. intros [?|?]; [done|lia].
        + rewrite cas_success by done. simpl. split; [|done].
          intros _. right. lia. }
    destruct (acquire_consistent id me w o) as [[b me1] w1].
    destruct Hstep as (Hown1 & Hml & Hst & Hun & Hlw & Hr & Hrd & Hb & Hlocks).
    simpl in Hres. destruct b.
    + specialize (IH me1 w0 w1 Hown1). rewrite Hml in IH. specialize (IH Hbit).
      destruct (acquire_all_loop me1 w1 ls) as [[b' me2] w2].
      destruct IH as (Hown2 & Hml2 & Hst2 & Hun2 & Hlw2 & Hr2 & Hrd2 & Hb2
                      & Hall & Hfrom & Hmono).
      assert (Ho1 : o ∈ locks me1) by by apply Hb.
      split; [done|]. repeat split; try congruence.
      * intros Hb' x [->|Hx]%elem_of_cons; [by apply Hres|].
        destruct (proj1 Hb2 Hb' x Hx) as [H1|H1]; [|right; congruence].
        destruct Hlocks as [Heq|[_ Heq]]; rewrite Heq in H1; [by left|].
        apply elem_of_app in H1 as [?| ->%list_elem_of_singleton]; [by left|].
        by apply Hres.
      * intros Hall'. apply Hb2. intros x Hx.
        destruct (Hall' x ltac:(by right)) as [H1|H1]; [|right; congruence].
        left. destruct Hlocks as [Heq|[_ Heq]]; rewrite Heq; [done|].
        apply elem_of_app. by left.
      * intros Hb' x [->|Hx]%elem_of_cons; [by apply Hmono|by apply Hall].
      * intros x Hx. destruct (Hfrom x Hx) as [H1|H1]; [|right; by right].
        destruct Hlocks as [Heq|[_ Heq]]; rewrite Heq in H1; [by left|].
        apply elem_of_app in H1 as [?| ->%list_elem_of_singleton]; [by left|].
        right. by left.
      * intros x Hx. apply Hmono.
        destruct Hlocks as [Heq|[_ Heq]]; rewrite Heq; [done|].
        apply elem_of_app. by left.
    + split; [done|]. repeat split; try done.
      * intros Hall'. apply Hres, Hall'. by left.
      * intros x Hx. destruct Hlocks as [Heq|[_ Heq]]; rewrite Heq in Hx; [by left|].
        apply elem_of_app in Hx as [?| ->%list_elem_of_singleton]; [by left|].
        right. by left.
      * intros x Hx. destruct Hlocks as [Heq|[_ Heq]]; rewrite Heq; [done|].
        apply elem_of_app. by left.
Qed.

(** The loop of [validate()] passes exactly when [check_orec] accepts
    every orec of the read set. *)
Lemma validate_loop_spec me w rs :
  validate_loop me w rs = true <->
  forall o, o ∈ rs -> check_orec me w o ≠ END_OF_TIME.
Proof.
  split; [intros Hv o; by apply validate_loop_checks|].
  induction rs as [|a rs IH]; intros Hall; [done|]. simpl.
  rewrite (proj2 (Z.eqb_neq _ _) (Hall a ltac:(by left))).
  apply IH. intros o Ho. apply Hall. by right.
Qed.

(** *** [commit] *)

(** What [abort()] and a writing [commit()] leave in the descriptor: empty
    sets, an empty log, no orec held, no step begun. *)
Definition cleared (d : base_t) : Prop :=
  readset d = [] /\ lockset d = [] /\ mallocs d = [] /\ frees d = [] /\
  RedoLog.size (redolog d) = 0 /\
  locks (exo d) = [] /\ start_time (exo d) = END_OF_TIME.

Lemma clear_size s : RedoLog.size (RedoLog.clear s) = 0.
Proof.
  unfold RedoLog.clear, RedoLog.size.
  by destruct (negb (RedoLog.ht_ver _ =? 0)).
Qed.

Lemma reclaim_all_pending fs : forall smr,
  Smr.pending (foldl (fun s a => Smr.reclaim a s) smr fs)
    = Smr.pending smr ++ fs.
Proof.
  induction fs as [|a fs IH]; intros smr; simpl; [by rewrite app_nil_r|].
  rewrite IH. simpl. by rewrite <- app_assoc.
Qed.

(** [abort()] by a context that [owns]: every orec is as it was before
    the context acquired any. *)
Lemma abort_restores d w0 w :
  owns (exo d) w0 w ->
  let '(d', w') := abort d w in
  cleared d' /\ my_lock (exo d') = my_lock (exo d) /\
  unwound (exo d') = true /\ reads w' = reads w /\
  forall o, curr (load (orecs w') o) = curr (load (orecs w0) o).
Proof.
  intros Hown. unfold abort, unwind. simpl.
  split; [unfold cleared; simpl; by rewrite clear_size|].
  repeat split; try done.
  intros o. rewrite (owns_release (fun p => p) (exo d) w0 w o Hown).
  by destruct (decide (o ∈ locks (exo d))).
Qed.

(** [check_orec] on an orec the context does not hold. *)
Lemma check_orec_not_held me w0 w o :
  owns me w0 w -> o ∉ locks me -> check_orec me w o = check_orec me w0 o.
Proof.
  intros (_ & _ & Hout) Ho. unfold check_orec.
  by destruct (Hout o Ho) as [-> _].
Qed.

(** The two ways [commit()] ends. *)
Lemma commit_cases (d : base_t) (w : world) (mem : Z -> Z)
    (smr : Smr.timestamp_smr_t) :
  locks (exo d) = [] -> unwound (exo d) = false ->
  Z.testbit (my_lock (exo d)) 63 = true -> my_lock (exo d) ≠ END_OF_TIME ->
  (forall o, curr (load (orecs w) o) ≠ my_lock (exo d)) ->
  (lockset d = [] ->
   commit d w mem smr
   = (Returns, set_readset (set_exo d (ro_end (exo d))) [], w, mem, smr)) /\
  (lockset d ≠ [] ->
   let '(ex, d', w', mem', smr') := commit d w mem smr in
   cleared d' /\ my_lock (exo d') = my_lock (exo d) /\
   ((ex = Returns) <->
    ((forall o, o ∈ lockset d ->
        curr (load (orecs w) o) <= start_time (exo d)) /\
     (forall o, o ∈ readset d -> o ∉ lockset d ->
        check_orec (exo d) w o ≠ END_OF_TIME))) /\
   (ex = Longjmps ->
    mem' = mem /\ smr' = smr /\ reads w' = reads w /\
    unwound (exo d') = true /\
    forall o, curr (load (orecs w') o) = curr (load (orecs w) o)) /\
   (ex = Returns ->
    mem' = RedoLog.writeback 32 (redolog d) mem /\
    Smr.pending smr' = Smr.pending smr ++ frees d /\
    last_wo_end_time (exo d') = rdtsc w (reads w) /\
    forall o, curr (load (orecs w') o) =
      if decide (o ∈ lockset d) then rdtsc w (reads w)
      else curr (load (orecs w) o))).
Proof.
  intros Hl Hu Hbit Heot Hfree. split.
  { intros Hls. unfold commit, has_orecs. by rewrite Hls, Hl. }
  intros Hls. unfold commit.
  destruct (lockset d) as [|o0 ls0] eqn:Hlsd; [done|]. simpl andb. cbv iota.
  rewrite <- Hlsd. clear Hls.
  unfold acquire_all.
  pose proof (acquire_all_loop_owns (lockset d) (exo d) w w
                (owns_nothing _ w Hl Hfree) Hbit) as Hacq.
  destruct (acquire_all_loop (exo d) w (lockset d)) as [[b e] w1].
  destruct Hacq as (Hown & Hml & Hst & Hun & Hlw & Hr & Hrd & Hb & Hall
                    & Hfrom & _).
  assert (Hlocks : forall o, b = true -> (o ∈ locks e <-> o ∈ lockset d)).
  { intros o Hbt. split; [|by apply Hall].
    intros Ho. destruct (Hfrom o Ho) as [H|H]; [|done].
    rewrite Hl in H. by apply elem_of_nil in H. }
  assert (Hvalid1 : (b = true) <->
            (forall o, o ∈ lockset d ->
               curr (load (orecs w) o) <= start_time (exo d))).
  { rewrite Hb. split; intros H o Ho.
    - destruct (H o Ho) as [H1|H1]; [|done].
      rewrite Hl in H1. by apply elem_of_nil in H1.
    - right. by apply H. }
  destruct b.
  - (* every orec of the lock set is acquired *)
    unfold validate. simpl readset. simpl exo.
    assert (Hvalid2 : validate_loop e w1 (readset d) = true <->
              (forall o, o ∈ readset d -> o ∉ lockset d ->
                 check_orec (exo d) w o ≠ END_OF_TIME)).
    { rewrite validate_loop_spec. split; intros H o Ho.
      - intros Hno.
        assert (Hne : o ∉ locks e) by (intros ?; by apply Hno, Hlocks).
        specialize (H o Ho).
        rewrite (check_orec_not_held e w w1 o Hown Hne) in H.
        unfold check_orec in *. by rewrite Hml, Hst in H.
      - destruct (decide (o ∈ lockset d)) as [Hin|Hno].
        + destruct Hown as (_ & Hheld & _).
          unfold check_orec. rewrite (Hheld o) by by apply Hlocks.
          simpl. rewrite Z.eqb_refl, orb_true_r. congruence.
        + assert (Hne : o ∉ locks e) by (intros ?; by apply Hno, Hlocks).
          rewrite (check_orec_not_held e w w1 o Hown Hne).
          unfold check_orec. rewrite Hml, Hst. by apply H. }
    destruct (validate_loop e w1 (readset d)) eqn:Hv.
    + (* validation passes: write back and release *)
      simpl. unfold wo_end. rewrite Hun, Hu. simpl.
      split; [unfold cleared; simpl; by rewrite clear_size|].
      split; [done|]. split.
      { split; [intros _|done]. split; [by apply Hvalid1|by apply Hvalid2]. }
      split; [done|]. intros _. split; [done|].
      split; [apply reclaim_all_pending|]. rewrite Hr, Hrd.
      split; [done|]. intros o.
      rewrite (owns_release (fun _ => rdtsc w (reads w)) e w w1 o Hown).
      destruct (decide (o ∈ locks e)) as [H1|H1];
        destruct (decide (o ∈ lockset d)) as [H2|H2]; try done.
      * destruct H2. by apply Hlocks.
      * destruct H1. by apply Hlocks.
    + (* validation fails: abort *)
      pose proof (abort_restores (set_exo d e) w w1 Hown) as Hab.
      destruct (abort (set_exo d e) w1) as [d' w'].
      destruct Hab as (Hcl & Hml' & Hun' & Hrd' & Hres).
      split; [done|]. split; [simpl in Hml'; congruence|]. split.
      { split; [done|]. intros [_ H2]. apply Hvalid2 in H2. congruence. }
      split; [|done]. intros _. repeat split; try done. congruence.
  - (* an orec of the lock set cannot be acquired: abort *)
    pose proof (abort_restores (set_exo d e) w w1 Hown) as Hab.
    destruct (abort (set_exo d e) w1) as [d' w'].
    destruct Hab as (Hcl & Hml' & Hun' & Hrd' & Hres).
    split; [done|]. split; [simpl in Hml'; congruence|]. split.
    { split; [done|]. intros [H1 _]. apply Hvalid1 in H1. done. }
    split; [|done]. intros _. repeat split; try done. congruence.
Qed.

(** X14.  [commit()] is all or nothing.  For a descriptor that holds no
    orec (a lazy transaction acquires at commit time), committing with no
    thread interfering: with an empty lock set [commit()] ends the
    transaction and changes neither memory nor an orec.  With writes to
    commit, it returns exactly when every orec of the lock set is at most
    [start_time] and [check_orec] accepts every orec of the read set that is
    not in the lock set; then memory is what [writeback()] of the log makes
    of it, the orecs of the lock set carry the commit time read from the
    clock, every other orec is as it was, and the frees are pending in the
    reclamation context.  Otherwise it aborts: memory, the reclamation
    context and every orec are as they were.  Either way the descriptor is
    left with empty sets and an empty log. *)
Theorem commit_all_or_nothing (d : base_t) (w : world) (mem : Z -> Z)
    (smr : Smr.timestamp_smr_t) :
  locks (exo d) = [] -> unwound (exo d) = false ->
  Z.testbit (my_lock (exo d)) 63 = true -> my_lock (exo d) ≠ END_OF_TIME ->
  (forall o, curr (load (orecs w) o) ≠ my_lock (exo d)) ->
  (lockset d = [] ->
   commit d w mem smr
   = (Returns, set_readset (set_exo d (ro_end (exo d))) [], w, mem, smr)) /\
  (lockset d ≠ [] ->
   let '(ex, d', w', mem', smr') := commit d w mem smr in
   cleared d' /\ my_lock (exo d') = my_lock (exo d) /\
   ((ex = Returns) <->
    ((forall o, o ∈ lockset d ->
        curr (load (orecs w) o) <= start_time (exo d)) /\
     (forall o, o ∈ readset d -> o ∉ lockset d ->
        check_orec (exo d) w o ≠ END_OF_TIME))) /\
   (ex = Longjmps ->
    mem' = mem /\ smr' = smr /\ reads w' = reads w /\
    unwound (exo d') = true /\
    forall o, curr (load (orecs w') o) = curr (load (orecs w) o)) /\
   (ex = Returns ->
    mem' = RedoLog.writeback 32 (redolog d) mem /\
    Smr.pending smr' = Smr.pending smr ++ frees d /\
    last_wo_end_time (exo d') = rdtsc w (reads w) /\
    forall o, curr (load (orecs w') o) =
      if decide (o ∈ lockset d) then rdtsc w (reads w)
      else curr (load (orecs w) o))).
Proof. apply commit_cases. Qed.

(** *** Reads and writes of a transaction *)

(** The logs of a descriptor: those of [redolog_nocast_t<32>]. *)
Definition log_ok (d : base_t) : Prop :=
  RedoLog.reachable 32 uninit_chunk (redolog d).

(** A scalar of one of the supported widths that does not cross a chunk
    boundary. *)
Definition scalar_at (width addr : Z) : Prop :=
  RedoLog.scalar_width width /\ 0 <= addr < 2 ^ 64 /\
  addr mod 32 + width <= 32.

(** [get] after [insert] of the same scalar. *)
Lemma get_after_insert s s1 width addr val :
  RedoLog.reachable 32 uninit_chunk s -> scalar_at width addr ->
  RedoLog.insert 32 uninit_chunk width addr val s = Ok s1 ->
  RedoLog.get 32 width addr s1 = Ok (Some (val mod 2 ^ (8 * width))).
Proof.
  intros Hr (Hw & Ha & Hfit) Hins.
  pose proof (RedoLog.scalar_width_range _ Hw) as Hwr.
  destruct (RedoLog.reachable_wf _ _ RedoLog.chunk_size_32 s Hr)
    as [Hwf [m0 Hm0]].
  pose proof (RedoLog.insert_ok _ uninit_chunk RedoLog.chunk_size_32 s m0
                width addr val Hwf Hm0 Hwr Hfit) as Hok.
  rewrite Hins in Hok. destruct Hok as (Hwf1 & Hm1 & _).
  destruct (RedoLog.get_models _ RedoLog.chunk_size_32 s1 _ width addr
              Hwf1 Hm1 Hwr Hfit) as (i & Hi & Hget & Hbytes).
  { intros j Hj. unfold RedoLog.recent_insert.
    rewrite RedoLog.range_test_true by lia. eauto. }
  rewrite Hget. do 2 f_equal.
  rewrite (RedoLog.read_scalar_of_bytes _ _ _ val);
    [by rewrite Z2Nat.id by lia|].
  intros j Hj. rewrite Z2Nat.id in Hj by lia.
  specialize (Hbytes j Hj). unfold RedoLog.recent_insert in Hbytes.
  rewrite RedoLog.range_test_true in Hbytes by lia.
  injection Hbytes as Hb. rewrite <- Hb. f_equal. lia.
Qed.

(** X15.  A transaction reads its own writes.  [xSet] appends the orec of
    the object to the lock set, logs the value and touches nothing else: no
    orec, no memory; an [xGet] of the same field that follows returns the
    value written (as a value of the field's width) from the log, without
    reading memory or an orec and without logging a read. *)
Theorem xGet_after_xSet (d d1 : base_t) (w : world) (mem : Z -> Z)
    (width addr obj obj' val : Z) (fuel : nat) :
  log_ok d -> scalar_at width addr ->
  xSet d width addr obj val = Ok d1 ->
  log_ok d1 /\
  exo d1 = exo d /\ readset d1 = readset d /\
  lockset d1 = lockset d ++ [orec obj] /\
  mallocs d1 = mallocs d /\ frees d1 = frees d /\
  xGet fuel d1 w mem width addr obj' = Return (val mod 2 ^ (8 * width)) d1 w.
Proof.
  intros Hlog Hsc. unfold xSet.
  destruct (RedoLog.insert 32 uninit_chunk width addr val (redolog d))
    as [log| |] eqn:Hins; simpl; [|done|done].
  intros [= <-]. simpl. unfold log_ok. simpl.
  split.
  { destruct Hsc as (Hw & Ha & Hfit).
    by apply (RedoLog.reach_insert _ _ (redolog d) width addr val). }
  repeat split; try done.
  unfold xGet. simpl.
  by rewrite (get_after_insert (redolog d) log width addr val Hlog Hsc Hins).
Qed.

(** The loop of [validate(old_start)] passes exactly when every orec of
    the read set is at most [old_start] or the caller's. *)
Lemma validate_since_loop_spec me w old_start rs :
  validate_since_loop me w old_start rs = true <->
  forall o, o ∈ rs ->
    curr (load (orecs w) o) <= old_start \/ curr (load (orecs w) o) = my_lock me.
Proof.
  induction rs as [|a rs IH]; simpl.
  - split; [by intros _ o ?%elem_of_nil|done].
  - destruct (Z.leb_spec (curr (load (orecs w) a)) old_start) as [Hle|Hgt];
      simpl.
    + rewrite IH. split; intros H o.
      * intros [->|Ho]%elem_of_cons; [by left|by apply H].
      * intros Ho. apply H. by right.
    + destruct (Z.eqb_spec (curr (load (orecs w) a)) (my_lock me)) as [He|Hne];
        simpl.
      * rewrite IH. split; intros H o.
        { intros [->|Ho]%elem_of_cons; [by right|by apply H]. }
        { intros Ho. apply H. by right. }
      * split; [done|]. intros H.
        destruct (H a ltac:(by left)) as [?|?]; [lia|done].
Qed.

(** X16.  A transactional read of a field the log has no entry for.  When
    [check_orec] accepts the orec of the object, [xGet] returns the value in
    memory and appends the orec to the read set.  When the orec is unlocked
    but newer than [start_time], [xGet] begins anew at the time it reads
    from the clock and validates the read set against the old start time:
    if some orec of the read set is above the old start time and not the
    caller's, the transaction aborts; otherwise, when the orec is at most
    the new start time, [xGet] returns the value in memory, with the orec
    appended to the read set and [start_time] extended. *)
Theorem xGet_from_memory (d : base_t) (w : world) (mem : Z -> Z)
    (width addr obj : Z) (fuel : nat) :
  RedoLog.get 32 width addr (redolog d) = Ok None ->
  let o := orec obj in
  let t := rdtsc w (reads w) in
  let w1 := mk_world (orecs w) (rdtsc w) (S (reads w)) in
  let e1 := set_unwound (set_start_time (exo d) t) false in
  (check_orec (exo d) w o ≠ END_OF_TIME ->
   xGet (S fuel) d w mem width addr obj =
     Return (safe_read mem width addr) (set_readset d (readset d ++ [o])) w) /\
  (check_orec (exo d) w o = END_OF_TIME ->
   Z.land (curr (load (orecs w) o)) LOCK_BIT = 0 ->
   (exists r, r ∈ readset d /\ start_time (exo d) < curr (load (orecs w) r) /\
      curr (load (orecs w) r) ≠ my_lock (exo d)) ->
   xGet (S fuel) d w mem width addr obj =
     Abort (fst (abort (set_exo d e1) w1)) (snd (abort (set_exo d e1) w1))) /\
  (check_orec (exo d) w o = END_OF_TIME ->
   Z.land (curr (load (orecs w) o)) LOCK_BIT = 0 ->
   (forall r, r ∈ readset d ->
      curr (load (orecs w) r) <= start_time (exo d) \/
      curr (load (orecs w) r) = my_lock (exo d)) ->
   curr (load (orecs w) o) <= t -> curr (load (orecs w) o) ≠ END_OF_TIME ->
   xGet (S (S fuel)) d w mem width addr obj =
     Return (safe_read mem width addr)
       (set_readset (set_exo d e1) (readset d ++ [o])) w1).
Proof.
  intros Hget o t w1 e1. unfold xGet. rewrite Hget.
  split; [|split].
  - intros Hok. simpl. fold o. by rewrite (proj2 (Z.eqb_neq _ _) Hok).
  - intros Hbad Hfree (r & Hr & Hgt & Hne). simpl. fold o.
    rewrite Hbad, Z.eqb_refl, Hfree. simpl.
    unfold validate_since. simpl. fold t w1 e1.
    assert (Hv : validate_since_loop e1 w1 (start_time (exo d)) (readset d)
                 = false).
    { destruct (validate_since_loop e1 w1 (start_time (exo d)) (readset d))
        eqn:Hv; [|done].
      pose proof (proj1 (validate_since_loop_spec _ _ _ _) Hv) as Hall.
      destruct (Hall r Hr) as [?|?]; [simpl in *; lia|done]. }
    unfold get_start_time. rewrite Hv.
    by destruct (abort (set_exo d e1) w1).
  - intros Hbad Hfree Hrs Hle Hneot.
    change (xGet_loop (S (S fuel)) d w mem width addr obj)
      with (let ret := safe_read mem width addr in
            if negb (check_orec (exo d) w o =? END_OF_TIME) then
              Return ret (set_readset d (readset d ++ [o])) w
            else if negb (Z.land (curr (load (orecs w) o)) LOCK_BIT =? 0)
            then Diverge
            else
              let old_start := get_start_time (exo d) in
              let '(e1, w1) := wo_begin (exo d) w in
              match validate_since (set_exo d e1) w1 old_start with
              | (Longjmps, d2, w2) => Abort d2 w2
              | (Returns, d2, w2) => xGet_loop (S fuel) d2 w2 mem width addr obj
              end).
    cbv zeta. rewrite Hbad, Z.eqb_refl, Hfree. simpl negb. cbv iota.
    unfold wo_begin, get_time_relaxed. fold t w1 e1.
    unfold validate_since, get_start_time. simpl readset. simpl exo.
    rewrite (proj2 (validate_since_loop_spec e1 w1 (start_time (exo d))
                      (readset d))) by done.
    simpl. fold o.
    assert (Hok : check_orec e1 w1 o ≠ END_OF_TIME).
    { unfold check_orec. simpl.
      destruct (Z.leb_spec (curr (load (orecs w) o)) t); [done|lia]. }
    by rewrite (proj2 (Z.eqb_neq _ _) Hok).
Qed.

(** *** A transaction that runs alone *)

(** The accesses a transaction makes to fields. *)
Inductive access_t :=
| Write (width addr obj val : Z)
| Read (width addr obj : Z).

(** A sequence of [xSet] and [xGet] calls: the values read, in order. *)
Fixpoint run_tx (fuel : nat) (ops : list access_t) (d : base_t) (w : world)
    (mem : Z -> Z) : outcome (list Z) :=
  match ops with
  | [] => Return [] d w
  | Write width addr obj val :: rest =>
      match xSet d width addr obj val with
      | Ok d1 => run_tx fuel rest d1 w mem
      | Stop => Halt
      | Spin => Diverge
      end
  | Read width addr obj :: rest =>
      match xGet fuel d w mem width addr obj with
      | Return v d1 w1 =>
          match run_tx fuel rest d1 w1 mem with
          | Return vs d2 w2 => Return (v :: vs) d2 w2
          | other => other
          end
      | Abort d1 w1 => Abort d1 w1
      | Halt => Halt
      | Diverge => Diverge
      end
  end.

(** Memory as the transaction sees it: the bytes [m] it has written, over
    the bytes of memory. *)
Definition view (m : Z -> option Z) (mem : Z -> Z) : Z -> Z :=
  fun a => default (mem a) (m a).

(** The bytes written by the accesses [ops], on top of [m]. *)
Fixpoint written (ops : list access_t) (m : Z -> option Z) : Z -> option Z :=
  match ops with
  | [] => m
  | Write width addr _ val :: rest =>
      written rest (RedoLog.recent_insert width addr val m)
  | Read _ _ _ :: rest => written rest m
  end.

(** The values a transaction that sees its own writes reads. *)
Fixpoint expected (ops : list access_t) (m : Z -> option Z) (mem : Z -> Z)
  : list Z :=
  match ops with
  | [] => []
  | Write width addr _ val :: rest =>
      expected rest (RedoLog.recent_insert width addr val m) mem
  | Read width addr _ :: rest =>
      RedoLog.read_scalar (Z.to_nat width) (view m mem) addr
        :: expected rest m mem
  end.

(** The orecs of the objects written. *)
Fixpoint write_orecs (ops : list access_t) : list Z :=
  match ops with
  | [] => []
  | Write _ _ obj _ :: rest => orec obj :: write_orecs rest
  | Read _ _ _ :: rest => write_orecs rest
  end.

(** The accesses are to scalars that fit, and no location is read at a
    size at which only a part of it was written (the assumption of the
    log). *)
Fixpoint disciplined (ops : list access_t) (m : Z -> option Z) : Prop :=
  match ops with
  | [] => True
  | Write width addr _ val :: rest =>
      scalar_at width addr /\
      disciplined rest (RedoLog.recent_insert width addr val m)
  | Read width addr _ :: rest =>
      scalar_at width addr /\
      ((forall j, 0 <= j < width -> m (addr + j) ≠ None) \/
       (forall j, 0 <= j < width -> m (addr + j) = None)) /\
      disciplined rest m
  end.

Lemma write_orecs_none : forall ops m,
  write_orecs ops = [] -> written ops m = m.
Proof.
  induction ops as [|[width addr obj val|width addr obj] ops IH]; intros m H;
    simpl in *; [done|done|by apply IH].
Qed.

(** The accesses of a transaction that runs alone, in a world where
    [check_orec] accepts every orec: every read returns what the
    transaction sees, and the log holds the bytes written. *)
Lemma run_tx_alone w mem : forall ops d m,
  log_ok d -> RedoLog.models 32 (redolog d) m -> disciplined ops m ->
  RedoLog.size (redolog d) + Z.of_nat (length ops) + 1 < RedoLogUse.MAX_CHUNKS ->
  (forall o, check_orec (exo d) w o ≠ END_OF_TIME) ->
  exists d2,
    run_tx 1 ops d w mem = Return (expected ops m mem) d2 w /\
    log_ok d2 /\ RedoLog.models 32 (redolog d2) (written ops m) /\
    exo d2 = exo d /\ lockset d2 = lockset d ++ write_orecs ops /\
    (write_orecs ops = [] -> redolog d2 = redolog d).
Proof.
  induction ops as [|[width addr obj val|width addr obj] ops IH];
    intros d m Hlog Hm Hdisc Hsize Hok.
  - exists d. simpl. by rewrite app_nil_r.
  - (* a write *)
    destruct Hdisc as ((Hw & Ha & Hfit) & Hdisc).
    pose proof (RedoLog.scalar_width_range _ Hw) as Hwr.
    destruct (RedoLog.reachable_wf _ _ RedoLog.chunk_size_32 _ Hlog)
      as [Hwf _].
    pose proof (RedoLog.insert_ok _ uninit_chunk RedoLog.chunk_size_32
                  (redolog d) m width addr val Hwf Hm Hwr Hfit) as Hins.
    simpl run_tx. unfold xSet.
    destruct (RedoLog.insert 32 uninit_chunk width addr val (redolog d))
      as [log| |] eqn:Hi; simpl.
    + destruct Hins as (Hwf1 & Hm1 & _).
      pose proof (RedoLogUse.insert_size _ uninit_chunk RedoLog.chunk_size_32
                    (redolog d) width addr val log Hwf Hwr Hfit Hi) as Hsz.
      destruct (IH (mk_base (exo d) (readset d) (lockset d ++ [orec obj]) log
                      (mallocs d) (frees d))
                   (RedoLog.recent_insert width addr val m))
        as (d2 & Hrun & Hlog2 & Hm2 & Hexo & Hls & _); try done.
      * by apply (RedoLog.reach_insert _ _ (redolog d) width addr val).
      * unfold RedoLog.size in *. simpl in *. lia.
      * exists d2. rewrite Hrun. simpl in *.
        do 4 (split; [done|]). split; [|done]. by rewrite Hls, <- app_assoc.
    + exfalso. apply (RedoLogUse.below_max_chunks (redolog d) Hwf); [|done].
      unfold RedoLog.size in *. simpl in Hsize. lia.
    + done.
  - (* a read *)
    destruct Hdisc as ((Hw & Ha & Hfit) & Hcase & Hdisc).
    pose proof (RedoLog.scalar_width_range _ Hw) as Hwr.
    destruct (RedoLog.reachable_wf _ _ RedoLog.chunk_size_32 _ Hlog)
      as [Hwf _].
    simpl run_tx. unfold xGet.
    destruct Hcase as [Hall|Hnone].
    + (* from the log *)
      destruct (RedoLog.get_models _ RedoLog.chunk_size_32 (redolog d) m
                  width addr Hwf Hm Hwr Hfit) as (i & Hi & Hget & Hbytes).
      { intros j Hj. specialize (Hall j Hj).
        destruct (m (addr + j)); [eauto|done]. }
      rewrite Hget.
      destruct (IH d m) as (d2 & Hrun & Hrest); try done.
      { simpl in Hsize. lia. }
      exists d2. rewrite Hrun. simpl. split; [|done]. do 2 f_equal.
      apply RedoLogUse.read_scalar_shift. intros j Hj.
      rewrite Z2Nat.id in Hj by lia. unfold view.
      by rewrite (Hbytes j Hj).
    + (* from memory *)
      rewrite (RedoLogUse.get_absent _ RedoLog.chunk_size_32 (redolog d) m
                 width addr Hwf Hm Hwr Hfit Hnone).
      simpl. rewrite (proj2 (Z.eqb_neq _ _) (Hok (orec obj))). simpl.
      destruct (IH (set_readset d (readset d ++ [orec obj])) m)
        as (d2 & Hrun & Hrest); try done.
      { simpl in *. lia. }
      exists d2. rewrite Hrun. split; [|done]. do 2 f_equal.
      unfold safe_read. apply RedoLogUse.read_scalar_ext. intros j Hj.
      rewrite Z2Nat.id in Hj by lia. unfold view.
      by rewrite (Hnone j Hj).
Qed.

(** X17.  A writing transaction that runs alone.  In a world where every
    orec is at most the time of the clock, which is below [LOCK_BIT], a
    descriptor with empty sets and an empty log begins a transaction
    ([WoStm]), makes any sequence of disciplined [xSet] and [xGet] calls
    and commits.  Every [xGet] returns the value the transaction sees: its
    own most recent writes over memory.  The accesses change neither memory
    nor an orec.  [commit()] returns; memory then holds the bytes written,
    most recent last, over what it held; the orecs of the objects written
    carry the commit time, the second value read from the clock; every other
    orec is as it was; and the descriptor is left with empty sets and an
    empty log. *)
Theorem tx_alone_commits (ops : list access_t) (d : base_t) (w : world)
    (mem : Z -> Z) (smr : Smr.timestamp_smr_t) :
  log_ok d -> RedoLog.size (redolog d) = 0 ->
  readset d = [] -> lockset d = [] -> locks (exo d) = [] ->
  Z.testbit (my_lock (exo d)) 63 = true ->
  0 <= my_lock (exo d) -> my_lock (exo d) ≠ END_OF_TIME ->
  (forall o, curr (load (orecs w) o) <= rdtsc w (reads w)) ->
  rdtsc w (reads w) < LOCK_BIT ->
  disciplined ops (fun _ => None) ->
  Z.of_nat (length ops) + 1 < RedoLogUse.MAX_CHUNKS ->
  let '(d1, w1) := wo_stm d w in
  exists d2,
    run_tx 1 ops d1 w1 mem = Return (expected ops (fun _ => None) mem) d2 w1 /\
    orecs w1 = orecs w /\
    let '(ex, d3, w3, mem', smr') := commit d2 w1 mem smr in
    ex = Returns /\
    (forall a, mem' a = view (written ops (fun _ => None)) mem a) /\
    (forall o, curr (load (orecs w3) o) =
       if decide (o ∈ write_orecs ops) then rdtsc w (S (reads w))
       else curr (load (orecs w) o)) /\
    readset d3 = [] /\ lockset d3 = [] /\ RedoLog.size (redolog d3) = 0 /\
    locks (exo d3) = [] /\ start_time (exo d3) = END_OF_TIME.
Proof.
  intros Hlog Hsize Hrs Hls Hl Hbit Hpos Heot Hsettled Hclock Hdisc Hlen.
  unfold wo_stm, wo_begin, get_time_relaxed.
  set (t0 := rdtsc w (reads w)).
  set (w1 := mk_world (orecs w) (rdtsc w) (S (reads w))).
  set (e1 := set_unwound (set_start_time (exo d) t0) false).
  pose proof (locked_word_large _ Hpos (lock_bit_set _ Hbit)) as Hlarge.
  assert (Hlt : LOCK_BIT < END_OF_TIME) by done.
  assert (Hok : forall o, check_orec (exo (set_exo d e1)) w1 o ≠ END_OF_TIME).
  { intros o. unfold check_orec. simpl. fold t0.
    specialize (Hsettled o). fold t0 in Hsettled.
    destruct (Z.leb_spec (curr (load (orecs w) o)) t0); [simpl; lia|lia]. }
  destruct (run_tx_alone w1 mem ops (set_exo d e1) (fun _ => None))
    as (d2 & Hrun & Hlog2 & Hm2 & Hexo & Hls2 & Hsame); try done.
  { by apply RedoLog.models_empty. }
  { simpl. rewrite Hsize. lia. }
  exists d2. split; [done|]. split; [done|].
  simpl in Hexo, Hls2. rewrite Hls in Hls2. simpl in Hls2.
  destruct (RedoLog.reachable_wf _ _ RedoLog.chunk_size_32 _ Hlog2)
    as [Hwf2 _].
  pose proof (RedoLog.reachable_chunks_ok _ _ RedoLog.chunk_size_32 _ Hlog2)
    as Hck2.
  assert (Hfree : forall o, curr (load (orecs w1) o) ≠ my_lock (exo d2)).
  { intros o. rewrite Hexo. simpl. specialize (Hsettled o). fold t0 in Hsettled.
    lia. }
  destruct (commit_cases d2 w1 mem smr) as [Hro Hwo]; try done.
  { by rewrite Hexo. }
  { by rewrite Hexo. }
  { by rewrite Hexo. }
  { by rewrite Hexo. }
  destruct (write_orecs ops) as [|o0 os] eqn:Hwo_list.
  - (* nothing was written *)
    rewrite (Hro Hls2). simpl. rewrite Hls2, (Hsame eq_refl), Hexo. simpl.
    split; [done|]. split.
    { intros a. rewrite write_orecs_none by done. done. }
    split; [|by repeat split].
    intros o. by destruct (decide (o ∈ [])) as [?%elem_of_nil|].
  - (* the writes are committed *)
    assert (Hne : lockset d2 ≠ []) by (by rewrite Hls2).
    specialize (Hwo Hne).
    destruct (commit d2 w1 mem smr) as [[[[ex d3] w3] mem'] smr'].
    destruct Hwo as (Hcl & _ & Hiff & _ & Hret).
    assert (Hex : ex = Returns).
    { apply Hiff. split.
      - intros o _. rewrite Hexo. simpl. apply Hsettled.
      - intros o _ _. rewrite Hexo. apply Hok. }
    destruct (Hret Hex) as (-> & _ & _ & Horecs).
    split; [done|]. split.
    { intros a. apply (RedoLogUse.writeback_models _ uninit_chunk
                         RedoLog.chunk_size_32); done. }
    split; [by rewrite <- Hls2|].
    destruct Hcl as (? & ? & _ & _ & ? & ? & ?). done.
Qed.

End Policy.

(** *** The theorems at concrete inputs *)

(** *** A descriptor and a world *)

(** The descriptor of a thread whose exoTM context is at address 8, with
    the log of [redolog_nocast_t<32>()]; its orecs are those of the
    ownables themselves; and a world with no orec stored yet. *)
Definition desc8 : base_t := mk_base (exotm_new 8) [] [] RedoLog.fresh [] [].

Definition wrote8 : base_t :=
  mk_base (exotm_new 8) [] [1] RedoLog.one_scalar [] [].

Definition calm : world := mk_world ∅ (fun _ => 100) 0.

Lemma calm_orecs o : curr (load (orecs calm) o) = 0.
Proof. unfold load. simpl. by rewrite lookup_empty. Qed.

Lemma calm_free o : curr (load (orecs calm) o) ≠ my_lock (exo desc8).
Proof. rewrite calm_orecs. vm_compute. discriminate. Qed.

Lemma scalar_at_4096 : scalar_at 8 4096.
Proof.
  split; [unfold RedoLog.scalar_width; lia|]. split; [lia|].
  vm_compute. discriminate.
Qed.

Lemma desc8_xSet :
  xSet (fun a => a) RedoLog.zeroed desc8 8 4096 1 0x1122334455667788
  = Ok wrote8.
Proof. unfold xSet. simpl redolog. by rewrite RedoLog.one_scalar_insert. Qed.

(** [commit_all_or_nothing] at the commit of a transaction that wrote
    nothing. *)
Lemma commit_all_or_nothing_witness :
  commit desc8 calm (fun _ => 0) Smr.smr_new
  = (Returns, set_readset (set_exo desc8 (ro_end (exo desc8))) [], calm,
     fun _ => 0, Smr.smr_new).
Proof.
  destruct (commit_all_or_nothing desc8 calm (fun _ => 0) Smr.smr_new)
    as [Hro _].
  - reflexivity.
  - reflexivity.
  - reflexivity.
  - vm_compute. discriminate.
  - exact calm_free.
  - apply Hro. reflexivity.
Defined.

(** [xGet_after_xSet] at the write of a [uint64_t] at 4096. *)
Lemma xGet_after_xSet_witness :
  lockset wrote8 = lockset desc8 ++ [1] /\
  xGet (fun a => a) 0 wrote8 calm (fun _ => 0) 8 4096 1
  = Return (0x1122334455667788 mod 2 ^ (8 * 8)) wrote8 calm.
Proof.
  destruct (xGet_after_xSet (fun a => a) RedoLog.zeroed desc8 wrote8 calm
              (fun _ => 0) 8 4096 1 1 0x1122334455667788 0)
    as (_ & _ & _ & Hls & _ & _ & Hget).
  - exact RedoLog.fresh_reachable.
  - exact scalar_at_4096.
  - exact desc8_xSet.
  - split; [exact Hls|exact Hget].
Defined.

(** [xGet_from_memory] at the read of a field of an object whose orec
    was never written. *)
Lemma xGet_from_memory_witness :
  xGet (fun a => a) 1 desc8 calm (fun _ => 0) 8 4096 1
  = Return (safe_read (fun _ => 0) 8 4096)
      (set_readset desc8 (readset desc8 ++ [1])) calm.
Proof.
  destruct (xGet_from_memory (fun a => a) desc8 calm (fun _ => 0) 8 4096 1 0)
    as (Hread & _).
  - vm_compute. reflexivity.
  - apply Hread. unfold check_orec. rewrite calm_orecs.
    vm_compute. discriminate.
Defined.

(** [tx_alone_commits] at the transaction that writes a [uint64_t] at
    4096 and reads it back. *)
Lemma tx_alone_commits_witness :
  exists d2,
    (run_tx (fun a => a) RedoLog.zeroed 1
       [Write 8 4096 1 0x1122334455667788; Read 8 4096 1]
       (fst (wo_stm desc8 calm)) (snd (wo_stm desc8 calm)) (fun _ => 0)
     = Return
         (expected [Write 8 4096 1 0x1122334455667788; Read 8 4096 1]
            (fun _ => None) (fun _ => 0))
         d2 (snd (wo_stm desc8 calm))) /\
    (fst (fst (fst (fst (commit d2 (snd (wo_stm desc8 calm)) (fun _ => 0)
                           Smr.smr_new)))) = Returns).
Proof.
  pose proof (tx_alone_commits (fun a => a) RedoLog.zeroed
                [Write 8 4096 1 0x1122334455667788; Read 8 4096 1]
                desc8 calm (fun _ => 0) Smr.smr_new
                RedoLog.fresh_reachable eq_refl eq_refl eq_refl eq_refl
                eq_refl) as H.
  destruct (wo_stm desc8 calm) as [d1 w1].
  destruct H as (d2 & Hrun & _ & Hcommit).
  - vm_compute. discriminate.
  - vm_compute. discriminate.
  - intros o. rewrite calm_orecs. simpl. lia.
  - vm_compute. reflexivity.
  - split; [exact scalar_at_4096|]. split; [exact scalar_at_4096|].
    split; [|exact I]. left. intros j Hj.
    assert (j = 0 \/ j = 1 \/ j = 2 \/ j = 3 \/ j = 4 \/ j = 5 \/ j = 6 \/ j = 7)
      as [->|[->|[->|[->|[->|[->|[->| ->]]]]]]] by lia;
      vm_compute; discriminate.
  - vm_compute. reflexivity.
  - exists d2. split; [exact Hrun|]. simpl.
    destruct (commit d2 w1 (fun _ => 0) Smr.smr_new)
      as [[[[ex d3] w3] mem'] smr'].
    apply Hcommit.
Defined.

End Lazy.

(* ===================================================================== *)
(** * ds/STMCAS/dlist_omap.h: the operations of the map                  *)
(* ===================================================================== *)

Module DlistOps.

Import Exotm Dlist ExotmSteps.

Section Map.

(** The parameters of the map, as in [Dlist]; [scalar_V] is
    [std::is_scalar<V>::value]. *)
Variable orec : Z -> Z.
Variable head tail : Z.
Variable SNAPSHOT_FREQUENCY : Z.
Variable AVOID_OREC_CHECKS : bool.
Variable alloc : gmap Z node_t -> Z.
Variable scalar_V : bool.

(** [dlist_omap(me, cfg)], with the sentinels at the addresses [head] and
    [tail]: the heap it builds.  The writing step of the constructor
    acquires nothing. *)
Definition dlist_new (me : stmcas_t) (w : world)
  : stmcas_t * world * gmap Z node_t :=
  let h0 : gmap Z node_t :=
    <[tail := mk_node 0 0 None]> (<[head := mk_node 0 0 None]> ∅) in
  let '(e1, w1) := wo_begin (exo me) w in
  let h1 := alter (fun n => mk_node (node_prev n) tail (node_data n)) head h0 in
  let h2 := alter (fun n => mk_node head (node_next n) (node_data n)) tail h1 in
  let '(e2, w2) := wo_end e1 w1 in
  (set_exo me e2, w2, h2).

(** The [while (true)] of [get(me, key, val)], for a thread that runs
    alone: [Some v] is the result true with [v] stored to [val]. *)
Fixpoint get_loop (fuel : nat) (me : stmcas_t) (w : world)
    (h : gmap Z node_t) (key : Z) : option (option Z * stmcas_t * world) :=
  match fuel with
  | O => None
  | S fuel' =>
      match get_leq orec head tail SNAPSHOT_FREQUENCY AVOID_OREC_CHECKS
              fuel' me w h key with
      | None => None
      | Some (n_obj, n_ver, me1, w1) =>
          let found :=
            if n_obj =? head then Some None
            else match h !! n_obj with
                 | Some (mk_node _ _ (Some (k, v))) =>
                     Some (if k =? key then Some v else None)
                 | _ => None
                 end in
          match found with
          | None => None
          | Some None => Some (None, me1, w1)
          | Some (Some v) =>
              if scalar_V then
                let '(e2, w2) := ro_begin (exo me1) w1 in
                if negb (check_continuation w2 (orec n_obj) n_ver) then
                  get_loop fuel' (set_exo me1 (ro_end e2)) w2 h key
                else Some (Some v, set_exo me1 (ro_end e2), w2)
              else
                let '(e2, w2) := wo_begin (exo me1) w1 in
                match acquire_continuation id e2 w2 (orec n_obj) n_ver with
                | (false, e3, w3) =>
                    let '(e4, w4) := wstep_unwind e3 w3 in
                    get_loop fuel' (set_exo me1 e4) w4 h key
                | (true, e3, w3) =>
                    let '(e4, w4) := wstep_unwind e3 w3 in
                    Some (Some v, set_exo me1 e4, w4)
                end
          end
      end
  end.

(** [get(me, key, val)] *)
Definition get (fuel : nat) (me : stmcas_t) (w : world)
    (h : gmap Z node_t) (key : Z) : option (option Z * stmcas_t * world) :=
  get_loop fuel (clear_snapshots me) w h key.

(** The [while (true)] of [remove(me, key)], for a thread that runs alone.
    The result carries the node passed to [tx.reclaim], if any. *)
Fixpoint remove_loop (fuel : nat) (me : stmcas_t) (w : world)
    (h : gmap Z node_t) (key : Z)
  : option (bool * stmcas_t * world * gmap Z node_t * option Z) :=
  match fuel with
  | O => None
  | S fuel' =>
      match get_leq orec head tail SNAPSHOT_FREQUENCY AVOID_OREC_CHECKS
              fuel' me w h key with
      | None => None
      | Some (n_obj, n_ver, me1, w1) =>
          let present :=
            if n_obj =? head then Some false
            else match h !! n_obj with
                 | Some (mk_node _ _ (Some (k, _))) => Some (k =? key)
                 | _ => None
                 end in
          match present, h !! n_obj with
          | Some false, _ => Some (false, me1, w1, h, None)
          | Some true, Some nn =>
              let '(e2, w2) := wo_begin (exo me1) w1 in
              let retry (e : exotm_t) (w : world) :=
                let '(e', w') := wstep_unwind e w in
                remove_loop fuel' (set_exo me1 e') w' h key in
              match acquire_continuation id e2 w2 (orec n_obj) n_ver with
              | (false, e3, w3) => retry e3 w3
              | (true, e3, w3) =>
                  match acquire_aggressive id e3 w3 (orec (node_prev nn)) with
                  | (false, e4, w4) => retry e4 w4
                  | (true, e4, w4) =>
                      match acquire_aggressive id e4 w4 (orec (node_next nn))
                      with
                      | (false, e5, w5) => retry e5 w5
                      | (true, e5, w5) =>
                          let pred := node_prev nn in
                          let succ := node_next nn in
                          let h1 := alter (fun n => mk_node (node_prev n) succ
                                                      (node_data n)) pred h in
                          let h2 := alter (fun n => mk_node pred (node_next n)
                                                      (node_data n)) succ h1 in
                          let '(e6, w6) := wo_end e5 w5 in
                          Some (true, set_exo me1 e6, w6, h2, Some n_obj)
                      end
                  end
              end
          | _, _ => None
          end
      end
  end.

(** [remove(me, key)] *)
Definition remove (fuel : nat) (me : stmcas_t) (w : world)
    (h : gmap Z node_t) (key : Z)
  : option (bool * stmcas_t * world * gmap Z node_t * option Z) :=
  remove_loop fuel (clear_snapshots me) w h key.

(** *** The list in the heap *)

(** The data nodes from [x] to the tail sentinel are [l], each with its
    predecessor in [prev], starting with [p]. *)
Fixpoint dchain (h : gmap Z node_t) (p x : Z) (l : list (Z * Z * Z)) : Prop :=
  match l with
  | [] => x = tail /\ exists nx, h !! tail = Some (mk_node p nx None)
  | (a, k, v) :: l' =>
      x = a /\ a ≠ head /\ a ≠ tail /\
      exists nx, h !! a = Some (mk_node p nx (Some (k, v))) /\ dchain h a nx l'
  end.

(** The heap holds the doubly-linked list of the mappings [l], in
    increasing order of their keys. *)
Definition is_dlist (h : gmap Z node_t) (l : list (Z * Z * Z)) : Prop :=
  head ≠ tail /\
  (exists p first,
     h !! head = Some (mk_node p first None) /\ dchain h head first l) /\
  StronglySorted Z.lt (keys l).

(** The addresses of the nodes of [l]. *)
Definition addrs (l : list (Z * Z * Z)) : list Z := (fun e => fst (fst e)) <$> l.

(** The node before position [length l1], after [p]; and the node at
    the front of [l2], before the tail. *)
Definition last_addr (p : Z) (l1 : list (Z * Z * Z)) : Z :=
  match last l1 with
  | Some (a, _, _) => a
  | None => p
  end.

Definition first_addr (l2 : list (Z * Z * Z)) : Z :=
  match l2 with
  | (a, _, _) :: _ => a
  | [] => tail
  end.

(** The world of a thread that runs alone between operations: the clock
    does not go back and stays below [LOCK_BIT]; every orec carries a time
    the clock has reached. *)
Definition steady (w : world) : Prop :=
  (forall n, 0 <= rdtsc w n < LOCK_BIT) /\
  (forall n, rdtsc w n <= rdtsc w (S n)) /\
  (forall o, 0 <= curr (load (orecs w) o) <= rdtsc w (reads w)).

(** A descriptor between operations: no orec held, and a lock word. *)
Definition idle (me : stmcas_t) : Prop :=
  locks (exo me) = [] /\ Z.testbit (my_lock (exo me)) 63 = true /\
  0 <= my_lock (exo me).

(** Where [get_leq(key)] stops in [l]: at the node of [key], or at the
    last node whose key is below [key] ([head] when there is none). *)
Definition stops_at (l : list (Z * Z * Z)) (c key a : Z) : Prop :=
  (exists l1 v l2, l = l1 ++ (a, key, v) :: l2) \/
  ((key ∉ keys l) /\
   exists l1 l2, l = l1 ++ l2 /\ a = last_addr c l1 /\
     Forall (fun k => k < key) (keys l1) /\
     Forall (fun k => key < k) (keys l2)).

Lemma dchain_chain h : forall l p x,
  dchain h p x l -> chain head tail h x l.
Proof.
  induction l as [|[[a k] v] l IH]; intros p x; simpl.
  - by intros [-> _].
  - intros (-> & Hh & Ht & nx & Ha & Hch). repeat split; try done.
    exists p, nx. split; [done|]. by apply (IH a).
Qed.

Lemma last_addr_cons p a k v l1 :
  last_addr p ((a, k, v) :: l1) = last_addr a l1.
Proof.
  unfold last_addr. destruct l1 as [|e l1]; [done|].
  change (last ((a, k, v) :: e :: l1)) with (last (e :: l1)).
  destruct (last (e :: l1)) as [[[? ?] ?]|] eqn:H; [done|].
  by apply last_None in H.
Qed.

(** The inner loop of [get_leq] on a list all of whose orecs
    [check_orec] accepts. *)
Lemma traverse_stops : forall l fuel me w h key c cv next n,
  chain head tail h next l -> StronglySorted Z.lt (keys l) ->
  (forall o, check_orec (exo me) w o = curr (load (orecs w) o) /\
             check_orec (exo me) w o ≠ END_OF_TIME) ->
  (AVOID_OREC_CHECKS = false -> cv = curr (load (orecs w) (orec c))) ->
  (length l < fuel)%nat ->
  exists a me',
    traverse orec tail SNAPSHOT_FREQUENCY AVOID_OREC_CHECKS fuel me w h key
      (c, cv) next n
    = Some (Found a (curr (load (orecs w) (orec a))), me') /\
    exo me' = exo me /\ stops_at l c key a.
Proof.
  induction l as [|[[a ka] va] l IH];
    intros fuel me w h key c cv next n Hch Hs Hok Hcv Hfuel.
  - destruct fuel as [|fuel]; [simpl in Hfuel; lia|].
    simpl in Hch. subst next. simpl. rewrite Z.eqb_refl.
    assert (Hst : stops_at [] c key c).
    { right. split; [by intros ?%elem_of_nil|]. by exists [], []. }
    destruct (Hok (orec c)) as [Hv Hne].
    destruct AVOID_OREC_CHECKS.
    + rewrite (proj2 (Z.eqb_neq _ _) Hne), Hv. by exists c, me.
    + rewrite (Hcv eq_refl). by exists c, me.
  - destruct fuel as [|fuel]; [simpl in Hfuel; lia|].
    destruct Hch as (-> & Hah & Hat & p & nx & Ha & Hch).
    simpl in Hs. apply StronglySorted_inv in Hs as [Hs' Hall].
    simpl traverse. rewrite (proj2 (Z.eqb_neq a tail) Hat), Ha.
    destruct (Hok (orec a)) as [Hva Hnea].
    destruct (Hok (orec c)) as [Hvc Hnec].
    assert (Hnv : (negb AVOID_OREC_CHECKS &&
               ((if AVOID_OREC_CHECKS then 0
                 else check_orec (exo me) w (orec a)) =? END_OF_TIME)) = false).
    { destruct AVOID_OREC_CHECKS; [done|]. simpl. by apply Z.eqb_neq. }
    rewrite Hnv.
    destruct (Z.gtb_spec ka key) as [Hgt|Hle].
    { (* the first key is above [key] *)
      assert (Hst : stops_at ((a, ka, va) :: l) c key c).
      { right. split.
        - simpl. intros [->|Hin]%elem_of_cons; [lia|].
          rewrite Forall_forall in Hall. specialize (Hall key Hin). lia.
        - exists [], ((a, ka, va) :: l). repeat split; try done.
          simpl. constructor; [lia|].
          eapply Forall_impl; [exact Hall|]. simpl. intros; lia. }
      destruct AVOID_OREC_CHECKS.
      + rewrite (proj2 (Z.eqb_neq _ _) Hnec), Hvc. by exists c, me.
      + rewrite (Hcv eq_refl). by exists c, me. }
    destruct (Z.eqb_spec ka key) as [->|Hne].
    { (* the first key is [key] *)
      assert (Hst : stops_at ((a, key, va) :: l) c key a).
      { left. by exists [], va, l. }
      destruct AVOID_OREC_CHECKS.
      + rewrite (proj2 (Z.eqb_neq _ _) Hnea), Hva. by exists a, me.
      + rewrite Hva. by exists a, me. }
    (* the first key is below [key] *)
    set (step := if RedoLog.to_int (n - 1) =? 0 then _ else _).
    assert (Hexo : exo (fst (fst step)) = exo me).
    { unfold step. destruct (RedoLog.to_int (n - 1) =? 0); [|done].
      destruct AVOID_OREC_CHECKS; [|done].
      by destruct (check_orec (exo me) w (orec c) =? END_OF_TIME). }
    destruct step as [[me1 curr1] n1]. simpl in Hexo.
    destruct (IH fuel me1 w h key a
                (if AVOID_OREC_CHECKS then snd curr1
                 else if AVOID_OREC_CHECKS then 0
                      else check_orec (exo me) w (orec a)) nx n1)
      as (a' & me' & Ht & He & Hst); try done.
    + by rewrite Hexo.
    + intros Hav. rewrite Hav. done.
    + simpl in Hfuel. lia.
    + exists a', me'. simpl fst. rewrite Ht. split; [done|].
      split; [congruence|].
      destruct Hst as [(l1 & v & l2 & ->)|(Hnin & l1 & l2 & -> & -> & H1 & H2)].
      * left. by exists ((a, ka, va) :: l1), v, l2.
      * right. split.
        { simpl. intros [->|Hin]%elem_of_cons; [lia|done]. }
        exists ((a, ka, va) :: l1), l2. rewrite last_addr_cons.
        repeat split; try done. simpl. constructor; [lia|done].
Qed.

(** *** Sorted lists of keys *)

Lemma sorted_insert (key : Z) : forall k1 k2,
  StronglySorted Z.lt (k1 ++ k2) ->
  Forall (fun k => k < key) k1 -> Forall (fun k => key < k) k2 ->
  StronglySorted Z.lt (k1 ++ key :: k2).
Proof.
  induction k1 as [|k k1 IH]; intros k2 Hs H1 H2; simpl in *.
  - by constructor.
  - apply StronglySorted_inv in Hs as [Hs Hall].
    inversion H1 as [|? ? Hk H1']; subst.
    constructor; [by apply IH|].
    apply Forall_app in Hall as [Ha Hb].
    apply Forall_app. split; [done|]. by constructor.
Qed.

Lemma sorted_remove (key : Z) : forall k1 k2,
  StronglySorted Z.lt (k1 ++ key :: k2) -> StronglySorted Z.lt (k1 ++ k2).
Proof.
  induction k1 as [|k k1 IH]; intros k2 Hs; simpl in *.
  - by apply StronglySorted_inv in Hs as [Hs _].
  - apply StronglySorted_inv in Hs as [Hs Hall].
    constructor; [by apply IH|].
    apply Forall_app in Hall as [Ha Hb]. apply Forall_app. split; [done|].
    by inversion Hb.
Qed.

Lemma sorted_not_in (key : Z) : forall k1 k2,
  StronglySorted Z.lt (k1 ++ key :: k2) -> key ∉ k1 ++ k2.
Proof.
  induction k1 as [|k k1 IH]; intros k2 Hs; simpl in *.
  - apply StronglySorted_inv in Hs as [_ Hall].
    intros Hin. rewrite Forall_forall in Hall. specialize (Hall key Hin). lia.
  - apply StronglySorted_inv in Hs as [Hs Hall].
    rewrite Forall_forall in Hall.
    assert (Hk : k < key) by (apply Hall, elem_of_app; right; by left).
    intros [Heq|Hin]%elem_of_cons; [lia|by apply (IH k2)].
Qed.

(** *** Nodes of the list *)

Lemma dchain_lookup h : forall l p x a k v,
  dchain h p x l -> (a, k, v) ∈ l ->
  a ≠ head /\ a ≠ tail /\
  exists p' nx, h !! a = Some (mk_node p' nx (Some (k, v))).
Proof.
  induction l as [|[[b kb] vb] l IH]; intros p x a k v Hch Hin.
  - by apply elem_of_nil in Hin.
  - destruct Hch as (-> & Hh & Ht & nx & Hb & Hch).
    apply elem_of_cons in Hin as [[= -> -> ->]|Hin]; [eauto|].
    by apply (IH b nx).
Qed.

Lemma dchain_tail h : forall l p x,
  dchain h p x l -> exists pt nx, h !! tail = Some (mk_node pt nx None).
Proof.
  induction l as [|[[b kb] vb] l IH]; intros p x Hch.
  - destruct Hch as (_ & nx & Ht). eauto.
  - destruct Hch as (_ & _ & _ & nx & _ & Hch). by apply (IH b nx).
Qed.

Lemma dchain_first h l p x : dchain h p x l -> x = first_addr l.
Proof. destruct l as [|[[b kb] vb] l]; simpl; [by intros [-> _]|by intros [-> _]]. Qed.

Lemma addrs_elem (l : list (Z * Z * Z)) a :
  a ∈ addrs l -> exists k v, (a, k, v) ∈ l.
Proof.
  intros ([[b k] v] & -> & Hin)%list_elem_of_fmap. simpl. eauto.
Qed.

Lemma elem_addrs (l : list (Z * Z * Z)) a k v : (a, k, v) ∈ l -> a ∈ addrs l.
Proof.
  intros Hin. apply list_elem_of_fmap. exists (a, k, v). done.
Qed.

Lemma elem_keys (l : list (Z * Z * Z)) a k v : (a, k, v) ∈ l -> k ∈ keys l.
Proof.
  intros Hin. apply list_elem_of_fmap. exists (a, k, v). done.
Qed.

(** The nodes of a sorted list are at different addresses. *)
Lemma dchain_NoDup h : forall l p x,
  dchain h p x l -> StronglySorted Z.lt (keys l) -> NoDup (addrs l).
Proof.
  induction l as [|[[b kb] vb] l IH]; intros p x Hch Hs; simpl.
  - constructor.
  - destruct Hch as (-> & Hh & Ht & nx & Hb & Hch).
    simpl in Hs. apply StronglySorted_inv in Hs as [Hs Hall].
    constructor; [|by apply (IH b nx)].
    intros (k & v & Hin)%addrs_elem.
    destruct (dchain_lookup h l b nx b k v Hch Hin) as (_ & _ & p' & nx' & Hb').
    rewrite Hb in Hb'. injection Hb' as _ _ <- <-.
    rewrite Forall_forall in Hall.
    specialize (Hall kb (elem_keys l b kb vb Hin)). lia.
Qed.

Lemma first_addr_cases (l2 : list (Z * Z * Z)) :
  first_addr l2 = tail \/ first_addr l2 ∈ addrs l2.
Proof. destruct l2 as [|[[b kb] vb] l2]; [by left|right; by left]. Qed.

Lemma last_addr_cases p (l1 : list (Z * Z * Z)) :
  (l1 = [] /\ last_addr p l1 = p) \/ (l1 ≠ [] /\ last_addr p l1 ∈ addrs l1).
Proof.
  unfold last_addr. destruct (last l1) as [[[a k] v]|] eqn:Hl.
  - right. split; [by intros ->|].
    apply last_Some_elem_of in Hl. by apply (elem_addrs l1 a k v).
  - left. apply last_None in Hl. done.
Qed.

(** A list whose nodes and tail sentinel are as in [h]. *)
Lemma dchain_frame h h' : forall l p x,
  dchain h p x l ->
  (forall a, a ∈ addrs l -> h' !! a = h !! a) -> h' !! tail = h !! tail ->
  dchain h' p x l.
Proof.
  induction l as [|[[b kb] vb] l IH]; intros p x Hch Hsame Htail; simpl in *.
  - by rewrite Htail.
  - destruct Hch as (-> & Hh & Ht & nx & Hb & Hch).
    repeat split; try done. exists nx. split.
    + rewrite Hsame; [done|by left].
    + apply IH; [done| |done]. intros a Ha. apply Hsame. by right.
Qed.

(** A list whose first node has a new predecessor [q], the rest being as
    in [h]. *)
Lemma dchain_relink h h' q : forall l p x,
  dchain h p x l -> NoDup (addrs l) ->
  (forall n, h !! x = Some n ->
     h' !! x = Some (mk_node q (node_next n) (node_data n))) ->
  (forall a, a ∈ addrs l -> a ≠ x -> h' !! a = h !! a) ->
  (x ≠ tail -> h' !! tail = h !! tail) ->
  dchain h' q x l.
Proof.
  intros l p x Hch Hnd Hx Hsame Htail.
  destruct l as [|[[b kb] vb] l]; simpl in *.
  - destruct Hch as (-> & nx & Ht). split; [done|].
    exists nx. by rewrite (Hx _ Ht).
  - destruct Hch as (-> & Hh & Ht & nx & Hb & Hch).
    apply NoDup_cons in Hnd as [Hnb Hnd].
    repeat split; try done. exists nx. split; [by rewrite (Hx _ Hb)|].
    apply (dchain_frame h); [done| |by apply Htail].
    intros a Ha. apply Hsame; [by right|]. by intros ->.
Qed.

(** *** Stitching a node in and out *)

(** The heap after [insert] has stitched the new node [n] in between
    [pred] and [succ]. *)
Definition stitch (h : gmap Z node_t) (n pred succ key val : Z)
  : gmap Z node_t :=
  alter (fun x => mk_node n (node_next x) (node_data x)) succ
    (alter (fun x => mk_node (node_prev x) n (node_data x)) pred
       (<[n := mk_node pred succ (Some (key, val))]> h)).

(** The heap after [remove] has unstitched the node between [pred] and
    [succ]. *)
Definition unstitch (h : gmap Z node_t) (pred succ : Z) : gmap Z node_t :=
  alter (fun x => mk_node pred (node_next x) (node_data x)) succ
    (alter (fun x => mk_node (node_prev x) succ (node_data x)) pred h).

Lemma stitch_new h n pred succ key val :
  n ≠ pred -> n ≠ succ ->
  stitch h n pred succ key val !! n = Some (mk_node pred succ (Some (key, val))).
Proof.
  intros H1 H2. unfold stitch.
  by rewrite !lookup_alter_ne, lookup_insert_eq by done.
Qed.

Lemma stitch_pred h n pred succ key val nd :
  n ≠ pred -> pred ≠ succ -> h !! pred = Some nd ->
  stitch h n pred succ key val !! pred
    = Some (mk_node (node_prev nd) n (node_data nd)).
Proof.
  intros H1 H2 Hp. unfold stitch.
  rewrite lookup_alter_ne, lookup_alter_eq, lookup_insert_ne, Hp by done.
  done.
Qed.

Lemma stitch_succ h n pred succ key val nd :
  n ≠ succ -> pred ≠ succ -> h !! succ = Some nd ->
  stitch h n pred succ key val !! succ
    = Some (mk_node n (node_next nd) (node_data nd)).
Proof.
  intros H1 H2 Hp. unfold stitch.
  rewrite lookup_alter_eq, lookup_alter_ne, lookup_insert_ne, Hp by done.
  done.
Qed.

Lemma stitch_other h n pred succ key val a :
  a ≠ n -> a ≠ pred -> a ≠ succ -> stitch h n pred succ key val !! a = h !! a.
Proof.
  intros H1 H2 H3. unfold stitch.
  by rewrite !lookup_alter_ne, lookup_insert_ne by done.
Qed.

Lemma unstitch_pred h pred succ nd :
  pred ≠ succ -> h !! pred = Some nd ->
  unstitch h pred succ !! pred
    = Some (mk_node (node_prev nd) succ (node_data nd)).
Proof.
  intros H2 Hp. unfold unstitch.
  by rewrite lookup_alter_ne, lookup_alter_eq, Hp by done.
Qed.

Lemma unstitch_succ h pred succ nd :
  pred ≠ succ -> h !! succ = Some nd ->
  unstitch h pred succ !! succ
    = Some (mk_node pred (node_next nd) (node_data nd)).
Proof.
  intros H2 Hp. unfold unstitch.
  by rewrite lookup_alter_eq, lookup_alter_ne, Hp by done.
Qed.

Lemma unstitch_other h pred succ a :
  a ≠ pred -> a ≠ succ -> unstitch h pred succ !! a = h !! a.
Proof.
  intros H2 H3. unfold unstitch. by rewrite !lookup_alter_ne by done.
Qed.

(** The successor of a node is not the node before it. *)
Lemma succ_not_pred (l l2 : list (Z * Z * Z)) p :
  p ≠ tail -> p ∉ addrs l -> (forall a, a ∈ addrs l2 -> a ∈ addrs l) ->
  first_addr l2 ≠ p.
Proof.
  intros Hpt Hp Hsub Heq. destruct (first_addr_cases l2) as [H|H].
  - congruence.
  - apply Hp, Hsub. congruence.
Qed.

Lemma addrs_app (l1 l2 : list (Z * Z * Z)) :
  addrs (l1 ++ l2) = addrs l1 ++ addrs l2.
Proof. unfold addrs. apply fmap_app. Qed.

Lemma addrs_cons a k v (l : list (Z * Z * Z)) :
  addrs ((a, k, v) :: l) = a :: addrs l.
Proof. done. Qed.

Lemma keys_app (l1 l2 : list (Z * Z * Z)) :
  keys (l1 ++ l2) = keys l1 ++ keys l2.
Proof. unfold keys. apply fmap_app. Qed.

(** Stitching [n] in after the nodes [l1] of a list. *)
Lemma dchain_stitch h n key val l2 : forall l1 p x,
  dchain h p x (l1 ++ l2) -> NoDup (addrs (l1 ++ l2)) ->
  p ∉ addrs (l1 ++ l2) -> p ≠ tail -> p ≠ n -> h !! n = None -> n ≠ head ->
  dchain (stitch h n (last_addr p l1) (first_addr l2) key val) p
    (match l1 with [] => n | _ => x end) (l1 ++ (n, key, val) :: l2).
Proof.
  induction l1 as [|[[a k] v] l1 IH]; intros p x Hch Hnd Hp Hpt Hpn Hn Hnh.
  - simpl in *. change (last_addr p []) with p.
    pose proof (dchain_first h l2 p x Hch) as Hx. rewrite <- Hx.
    destruct (dchain_tail h l2 p x Hch) as (pt & nxt & Htail).
    assert (Hnt : n ≠ tail) by congruence.
    assert (Hxp : x ≠ p).
    { rewrite Hx. by apply (succ_not_pred l2 l2). }
    assert (Hxn : x ≠ n).
    { intros ->. destruct (first_addr_cases l2) as [H|H]; [congruence|].
      rewrite <- Hx in H. apply addrs_elem in H as (k & v & Hin).
      destruct (dchain_lookup h l2 p n n k v Hch Hin) as (_ & _ & ? & ? & ?).
      congruence. }
    repeat split; try done. exists x.
    split; [apply stitch_new; done|].
    apply (dchain_relink h _ n l2 p x Hch Hnd).
    + intros nd Hnd'. by apply stitch_succ.
    + intros a Ha Hax. apply stitch_other; [|by intros ->|done].
      intros ->. apply addrs_elem in Ha as (k & v & Hin).
      destruct (dchain_lookup h l2 p x n k v Hch Hin) as (_ & _ & ? & ? & ?).
      congruence.
    + intros Hxt. apply stitch_other; done.
  - simpl in Hch. destruct Hch as (-> & Hah & Hat & nx & Ha & Hch).
    simpl in Hnd, Hp. apply NoDup_cons in Hnd as [Hna Hnd].
    apply not_elem_of_cons in Hp as [Hpa Hp].
    assert (Han : a ≠ n) by congruence.
    rewrite last_addr_cons.
    specialize (IH a nx Hch Hnd Hna Hat Han Hn Hnh).
    simpl. repeat split; try done.
    assert (Has : a ≠ first_addr l2).
    { intros Heq. destruct (first_addr_cases l2) as [H|H]; [congruence|].
      apply Hna. rewrite addrs_app. apply elem_of_app. right. congruence. }
    exists (match l1 with [] => n | _ => nx end). split; [|done].
    destruct (last_addr_cases a l1) as [[-> Hl]|[Hne Hl]].
    + rewrite Hl. by rewrite (stitch_pred h n a _ key val _ ltac:(done) Has Ha).
    + rewrite stitch_other; try done.
      * destruct l1; [done|]. done.
      * intros Heq. apply Hna. rewrite addrs_app. apply elem_of_app. left.
        congruence.
Qed.

(** Unstitching the node after the nodes [l1] of a list. *)
Lemma dchain_unstitch h a k v l2 : forall l1 p x,
  dchain h p x (l1 ++ (a, k, v) :: l2) ->
  NoDup (addrs (l1 ++ (a, k, v) :: l2)) ->
  p ∉ addrs (l1 ++ (a, k, v) :: l2) -> p ≠ tail ->
  dchain (unstitch h (last_addr p l1) (first_addr l2)) p
    (match l1 with [] => first_addr l2 | _ => x end) (l1 ++ l2).
Proof.
  induction l1 as [|[[b kb] vb] l1 IH]; intros p x Hch Hnd Hp Hpt.
  - simpl in *. change (last_addr p []) with p.
    destruct Hch as (-> & Hah & Hat & nx & Ha & Hch).
    apply NoDup_cons in Hnd as [Hna Hnd].
    apply not_elem_of_cons in Hp as [Hpa Hp].
    pose proof (dchain_first h l2 a nx Hch) as Hx. rewrite <- Hx.
    assert (Hxp : nx ≠ p).
    { rewrite Hx. by apply (succ_not_pred l2 l2). }
    apply (dchain_relink h _ p l2 a nx Hch Hnd).
    + intros nd Hnd'. by apply unstitch_succ.
    + intros c Hc Hcx. apply unstitch_other; [by intros ->|done].
    + intros Hxt. apply unstitch_other; done.
  - simpl in Hch. destruct Hch as (-> & Hbh & Hbt & nx & Hb & Hch).
    simpl in Hnd, Hp. apply NoDup_cons in Hnd as [Hnb Hnd].
    apply not_elem_of_cons in Hp as [Hpb Hp].
    rewrite last_addr_cons.
    specialize (IH b nx Hch Hnd Hnb Hbt).
    simpl. repeat split; try done.
    assert (Hbs : b ≠ first_addr l2).
    { intros Heq. destruct (first_addr_cases l2) as [H|H]; [congruence|].
      apply Hnb. rewrite addrs_app, addrs_cons. apply elem_of_app. right.
      apply elem_of_cons. right. by rewrite Heq. }
    exists (match l1 with [] => first_addr l2 | _ => nx end). split; [|done].
    destruct (last_addr_cases b l1) as [[-> Hl]|[Hne Hl]].
    + rewrite Hl. by rewrite (unstitch_pred h b _ _ Hbs Hb).
    + rewrite unstitch_other; try done.
      * destruct l1; [done|]. done.
      * intros Heq. apply Hnb. rewrite addrs_app. apply elem_of_app. left.
        congruence.
Qed.

(** The node of a mapping of the list, with its neighbours. *)
Lemma dchain_at h a k v l2 : forall l1 p x,
  dchain h p x (l1 ++ (a, k, v) :: l2) ->
  h !! a = Some (mk_node (last_addr p l1) (first_addr l2) (Some (k, v))).
Proof.
  induction l1 as [|[[b kb] vb] l1 IH]; intros p x Hch.
  - simpl in Hch. destruct Hch as (-> & _ & _ & nx & Ha & Hch).
    by rewrite <- (dchain_first h l2 a nx Hch).
  - simpl in Hch. destruct Hch as (-> & _ & _ & nx & _ & Hch).
    rewrite last_addr_cons. by apply (IH b nx).
Qed.

(** The node at which [get_leq] stops, with its successor. *)
Lemma dchain_pred h l2 : forall l1 p x nd,
  dchain h p x (l1 ++ l2) -> h !! p = Some nd -> node_next nd = x ->
  exists nd', h !! last_addr p l1 = Some nd' /\ node_next nd' = first_addr l2.
Proof.
  induction l1 as [|[[b kb] vb] l1 IH]; intros p x nd Hch Hp Hnx.
  - simpl in Hch. exists nd. split; [done|].
    by rewrite <- (dchain_first h l2 p x Hch).
  - simpl in Hch. destruct Hch as (-> & _ & _ & nx & Hb & Hch).
    rewrite last_addr_cons. by apply (IH b nx _ Hch Hb).
Qed.

Lemma is_dlist_NoDup h l :
  is_dlist h l -> NoDup (addrs l) /\ (head ∉ addrs l) /\ (tail ∉ addrs l).
Proof.
  intros (Hht & (p & first & Hhead & Hch) & Hs).
  split; [by apply (dchain_NoDup h l head first)|].
  split; intros (k & v & Hin)%addrs_elem;
    by destruct (dchain_lookup h l head first _ k v Hch Hin) as (? & ? & _).
Qed.

(** The list after [insert] has stitched a new node in. *)
Lemma is_dlist_stitch h l1 l2 n key val :
  is_dlist h (l1 ++ l2) -> h !! n = None ->
  Forall (fun k => k < key) (keys l1) -> Forall (fun k => key < k) (keys l2) ->
  is_dlist (stitch h n (last_addr head l1) (first_addr l2) key val)
    (l1 ++ (n, key, val) :: l2).
Proof.
  intros Hd Hn H1 H2. destruct (is_dlist_NoDup h _ Hd) as (Hnd & Hha & Hta).
  destruct Hd as (Hht & (p & first & Hhead & Hch) & Hs).
  assert (Hnh : n ≠ head) by congruence.
  split; [done|]. split.
  - exists p, (match l1 with [] => n | _ => first end). split.
    + assert (Hhs : head ≠ first_addr l2).
      { intros Heq. destruct (first_addr_cases l2) as [H|H]; [congruence|].
        apply Hha. rewrite addrs_app. apply elem_of_app. right. congruence. }
      destruct (last_addr_cases head l1) as [[-> Hl]|[Hne Hl]].
      * rewrite Hl.
        by rewrite (stitch_pred h n head _ key val _ ltac:(done) Hhs Hhead).
      * rewrite stitch_other; try done.
        { destruct l1; [done|]. done. }
        intros Heq. apply Hha. rewrite addrs_app. apply elem_of_app. left.
        congruence.
    + by apply dchain_stitch.
  - rewrite keys_app. simpl. rewrite keys_app in Hs. by apply sorted_insert.
Qed.

(** The list after [remove] has unstitched a node. *)
Lemma is_dlist_unstitch h l1 a k v l2 :
  is_dlist h (l1 ++ (a, k, v) :: l2) ->
  is_dlist (unstitch h (last_addr head l1) (first_addr l2)) (l1 ++ l2).
Proof.
  intros Hd. destruct (is_dlist_NoDup h _ Hd) as (Hnd & Hha & Hta).
  destruct Hd as (Hht & (p & first & Hhead & Hch) & Hs).
  split; [done|]. split.
  - exists p, (match l1 with [] => first_addr l2 | _ => first end). split.
    + assert (Hhs : head ≠ first_addr l2).
      { intros Heq. destruct (first_addr_cases l2) as [H|H]; [congruence|].
        apply Hha. rewrite addrs_app, addrs_cons. apply elem_of_app. right.
        apply elem_of_cons. right. by rewrite Heq. }
      destruct (last_addr_cases head l1) as [[-> Hl]|[Hne Hl]].
      * rewrite Hl. by rewrite (unstitch_pred h head _ _ Hhs Hhead).
      * rewrite unstitch_other; try done.
        { destruct l1; [done|]. done. }
        intros Heq. apply Hha. rewrite addrs_app. apply elem_of_app. left.
        congruence.
    + by apply (dchain_unstitch h a k v).
  - rewrite keys_app. rewrite keys_app in Hs. simpl in Hs.
    by apply (sorted_remove k).
Qed.

(** *** Steps of a thread that runs alone *)

(** In a steady world a reading step accepts every orec, and sees its
    value. *)
Lemma steady_check e w o :
  steady w ->
  check_orec (set_start_time e (rdtsc w (reads w)))
    (mk_world (orecs w) (rdtsc w) (S (reads w))) o
  = curr (load (orecs w) o) /\
  curr (load (orecs w) o) ≠ END_OF_TIME.
Proof.
  intros (Hclock & _ & Horecs). unfold check_orec. simpl.
  destruct (Horecs o) as [H0 Hle]. destruct (Hclock (reads w)) as [_ Hlt].
  assert (LOCK_BIT < END_OF_TIME) by done.
  destruct (Z.leb_spec (curr (load (orecs w) o)) (rdtsc w (reads w))); [|lia].
  simpl. split; [done|lia].
Qed.

(** [get_leq] by a thread that runs alone, with no snapshot. *)
Lemma get_leq_alone me w h l key fuel :
  is_dlist h l -> steady w -> snapshots me = [] ->
  (length l + 2 <= fuel)%nat ->
  exists a me',
    get_leq orec head tail SNAPSHOT_FREQUENCY AVOID_OREC_CHECKS fuel me w h key
    = Some (a, curr (load (orecs w) (orec a)), me',
            mk_world (orecs w) (rdtsc w) (S (reads w))) /\
    exo me' = ro_end (exo me) /\ stops_at l head key a.
Proof.
  intros (Hht & (p & first & Hhead & Hch) & Hs) Hst Hsnap Hfuel.
  destruct fuel as [|fuel]; [lia|].
  simpl get_leq. rewrite Hsnap. simpl. rewrite Hhead. simpl.
  rewrite Z.eqb_refl.
  set (e1 := set_start_time (exo me) (rdtsc w (reads w))).
  set (w1 := mk_world (orecs w) (rdtsc w) (S (reads w))).
  destruct (steady_check (exo me) w (orec head) Hst) as [Hv Hne].
  fold e1 w1 in Hv. rewrite Hv, (proj2 (Z.eqb_neq _ _) Hne).
  destruct (traverse_stops l fuel (set_exo me e1) w1 h key head
              (curr (load (orecs w) (orec head))) first SNAPSHOT_FREQUENCY)
    as (a & me2 & Ht & He & Hstop); try done.
  - by apply (dchain_chain h l head).
  - intros o. destruct (steady_check (exo me) w o Hst) as [Hvo Hneo].
    simpl. fold e1 w1 in Hvo. rewrite Hvo. done.
  - lia.
  - rewrite Ht. exists a, (rstep_end me2). split; [done|].
    split; [|done]. simpl. rewrite He. done.
Qed.

(** [acquire_continuation] with the value the orec has. *)
Lemma acquire_continuation_takes me w0 w o val :
  owns me w0 w -> Z.testbit (my_lock me) 63 = true ->
  curr (load (orecs w) o) <= val -> val < my_lock me ->
  exists me' w',
    acquire_continuation id me w o val = (true, me', w') /\
    owns me' w0 w' /\
    my_lock me' = my_lock me /\ start_time me' = start_time me /\
    unwound me' = unwound me /\ last_wo_end_time me' = last_wo_end_time me /\
    rdtsc w' = rdtsc w /\ reads w' = reads w /\
    (forall x, x ∈ locks me' <-> (x ∈ locks me \/ x = o)).
Proof.
  intros Hown Hbit Hle Hlt.
  pose proof (acquire_owns (Continuation o val) me w0 w Hown Hbit Hlt) as Hstep.
  assert (Hb : fst (fst (acquire_continuation id me w o val)) = true).
  { unfold acquire_continuation, id.
    destruct (Z.gtb_spec (curr (load (orecs w) o)) val); [lia|].
    by rewrite cas_success. }
  simpl in Hstep. destruct (acquire_continuation id me w o val) as [[b me'] w'].
  simpl in Hb. subst b.
  destruct Hstep as (Hown' & Hml & Hst & Hun & Hlw & Hr & Hrd & Hiff & Hlocks).
  exists me', w'. do 8 (split; [done|]). intros x. split.
  - intros Hx. destruct Hlocks as [Heq|[_ Heq]]; rewrite Heq in Hx; [by left|].
    apply elem_of_app in Hx as [?| ->%list_elem_of_singleton]; [by left|by right].
  - intros [Hx| ->]; [|by apply Hiff].
    destruct Hlocks as [Heq|[_ Heq]]; rewrite Heq; [done|].
    apply elem_of_app. by left.
Qed.

(** [acquire_aggressive] on an orec that was unlocked before the step. *)
Lemma acquire_aggressive_takes me w0 w o :
  owns me w0 w -> Z.testbit (my_lock me) 63 = true ->
  Z.land (curr (load (orecs w0) o)) LOCK_BIT = 0 ->
  exists me' w',
    acquire_aggressive id me w o = (true, me', w') /\
    owns me' w0 w' /\
    my_lock me' = my_lock me /\ start_time me' = start_time me /\
    unwound me' = unwound me /\ last_wo_end_time me' = last_wo_end_time me /\
    rdtsc w' = rdtsc w /\ reads w' = reads w /\
    (forall x, x ∈ locks me' <-> (x ∈ locks me \/ x = o)).
Proof.
  intros Hown Hbit Hfree.
  pose proof (acquire_owns (Aggressive o) me w0 w Hown Hbit I) as Hstep.
  assert (Hb : fst (fst (acquire_aggressive id me w o)) = true).
  { unfold acquire_aggressive, id. destruct Hown as (_ & Hin & Hout).
    destruct (decide (o ∈ locks me)) as [Ho|Ho].
    - rewrite (Hin o Ho). simpl curr.
      rewrite (proj2 (Z.eqb_neq _ _) (lock_bit_set _ Hbit)). simpl.
      apply Z.eqb_refl.
    - destruct (Hout o Ho) as [-> _]. rewrite Hfree. simpl.
      rewrite cas_success; [done|]. by destruct (Hout o Ho) as [-> _]. }
  simpl in Hstep. destruct (acquire_aggressive id me w o) as [[b me'] w'].
  simpl in Hb. subst b.
  destruct Hstep as (Hown' & Hml & Hst & Hun & Hlw & Hr & Hrd & Hiff & Hlocks).
  exists me', w'. do 8 (split; [done|]). intros x. split.
  - intros Hx. destruct Hlocks as [Heq|[_ Heq]]; rewrite Heq in Hx; [by left|].
    apply elem_of_app in Hx as [?| ->%list_elem_of_singleton]; [by left|by right].
  - intros [Hx| ->]; [|by apply Hiff].
    destruct Hlocks as [Heq|[_ Heq]]; rewrite Heq; [done|].
    apply elem_of_app. by left.
Qed.

(** The orecs of a steady world are unlocked, and none carries the lock
    word of an idle descriptor. *)
Lemma steady_unlocked w o :
  steady w -> Z.land (curr (load (orecs w) o)) LOCK_BIT = 0.
Proof.
  intros (Hclock & _ & Horecs). destruct (Horecs o) as [H0 Hle].
  destruct (Hclock (reads w)) as [_ Hlt].
  by apply (below_lock_bit_unlocked _ (rdtsc w (reads w))).
Qed.

Lemma steady_not_mine me w o :
  steady w -> idle me -> curr (load (orecs w) o) < my_lock (exo me).
Proof.
  intros (Hclock & _ & Horecs) (_ & Hbit & Hpos).
  destruct (Horecs o) as [H0 Hle]. destruct (Hclock (reads w)) as [_ Hlt].
  pose proof (locked_word_large _ Hpos (lock_bit_set _ Hbit)). lia.
Qed.

(** A steady world after some reads of the clock, with some orecs set to
    times the clock had reached. *)
Lemma steady_later w w' k :
  steady w -> rdtsc w' = rdtsc w -> reads w' = (reads w + k)%nat ->
  (forall o, curr (load (orecs w') o) = curr (load (orecs w) o) \/
             exists j, (j <= reads w + k)%nat /\
               curr (load (orecs w') o) = rdtsc w j) ->
  steady w'.
Proof.
  intros (Hclock & Hmono & Horecs) Hr Hrd Ho.
  assert (Hle : forall i j, (i <= j)%nat -> rdtsc w i <= rdtsc w j).
  { intros i j Hij. induction Hij as [|j Hij IH]; [lia|].
    specialize (Hmono j). lia. }
  split; [by rewrite Hr|]. split; [by rewrite Hr|].
  intros o. rewrite Hr, Hrd. destruct (Ho o) as [->|(j & Hj & ->)].
  - destruct (Horecs o). specialize (Hle (reads w) (reads w + k)%nat ltac:(lia)).
    lia.
  - destruct (Hclock j). specialize (Hle j (reads w + k)%nat Hj). lia.
Qed.

(** The end of a writing step: [~WStep()] after the writes, and
    [tx.unwind()] then [~WStep()]. *)
Lemma wo_end_owns e w0 w :
  owns e w0 w -> unwound e = false ->
  exists e' w',
    wo_end e w = (e', w') /\ locks e' = [] /\ my_lock e' = my_lock e /\
    rdtsc w' = rdtsc w /\ reads w' = S (reads w) /\
    forall o, curr (load (orecs w') o) =
      if decide (o ∈ locks e) then rdtsc w (reads w)
      else curr (load (orecs w0) o).
Proof.
  intros Hown Hun. unfold wo_end. rewrite Hun. simpl.
  eexists _, _. split; [reflexivity|]. simpl. do 4 (split; [done|]).
  intros o. apply (owns_release (fun _ => rdtsc w (reads w)) e w0 w o Hown).
Qed.

Lemma wstep_unwind_owns e w0 w :
  owns e w0 w ->
  exists e' w',
    wstep_unwind e w = (e', w') /\ locks e' = [] /\ my_lock e' = my_lock e /\
    rdtsc w' = rdtsc w /\ reads w' = reads w /\
    forall o, curr (load (orecs w') o) = curr (load (orecs w0) o).
Proof.
  intros Hown. unfold wstep_unwind, unwind, wo_end. simpl.
  eexists _, _. split; [reflexivity|]. simpl. do 4 (split; [done|]).
  intros o. rewrite (owns_release (fun x => x) e w0 w o Hown).
  by destruct (decide (o ∈ locks e)).
Qed.

(** The start of a writing step of an idle descriptor in a steady
    world. *)
Lemma wo_begin_owns me e w :
  steady w -> idle me ->
  locks e = [] -> my_lock e = my_lock (exo me) ->
  exists e2,
    wo_begin e w = (e2, mk_world (orecs w) (rdtsc w) (S (reads w))) /\
    owns e2 (mk_world (orecs w) (rdtsc w) (S (reads w)))
            (mk_world (orecs w) (rdtsc w) (S (reads w))) /\
    locks e2 = [] /\ my_lock e2 = my_lock (exo me) /\ unwound e2 = false.
Proof.
  intros Hst Hidle Hl Hml. eexists. split; [reflexivity|]. simpl.
  split; [|by rewrite Hml]. apply owns_nothing; [done|]. simpl. intros o.
  rewrite Hml. pose proof (steady_not_mine me w o Hst Hidle). lia.
Qed.

(** One turn of the loops of [insert], [get] and [remove]. *)
Lemma insert_loop_unfold fuel me w h key val :
  insert_loop orec head tail SNAPSHOT_FREQUENCY AVOID_OREC_CHECKS alloc
    (S fuel) me w h key val =
  match get_leq orec head tail SNAPSHOT_FREQUENCY AVOID_OREC_CHECKS
          fuel me w h key with
  | None => None
  | Some (n_obj, n_ver, me1, w1) =>
      match (if n_obj =? head then Some false
             else match h !! n_obj with
                  | Some (mk_node _ _ (Some (k, _))) => Some (k =? key)
                  | _ => None
                  end) with
      | None => None
      | Some true => Some (false, me1, w1, h)
      | Some false =>
          let '(e2, w2) := wo_begin (exo me1) w1 in
          match acquire_continuation id e2 w2 (orec n_obj) n_ver with
          | (false, e3, w3) =>
              let '(e4, w4) := wstep_unwind e3 w3 in
              insert_loop orec head tail SNAPSHOT_FREQUENCY AVOID_OREC_CHECKS
                alloc fuel (set_exo me1 e4) w4 h key val
          | (true, e3, w3) =>
              match h !! n_obj with
              | None => None
              | Some nn =>
                  match acquire_aggressive id e3 w3 (orec (node_next nn)) with
                  | (false, e4, w4) =>
                      let '(e5, w5) := wstep_unwind e4 w4 in
                      insert_loop orec head tail SNAPSHOT_FREQUENCY
                        AVOID_OREC_CHECKS alloc fuel (set_exo me1 e5) w5 h
                        key val
                  | (true, e4, w4) =>
                      let '(e5, w5) := wo_end e4 w4 in
                      Some (true, set_exo me1 e5, w5,
                            stitch h (alloc h) n_obj (node_next nn) key val)
                  end
              end
          end
      end
  end.
Proof. reflexivity. Qed.

Lemma get_loop_unfold fuel me w h key :
  get_loop (S fuel) me w h key =
  match get_leq orec head tail SNAPSHOT_FREQUENCY AVOID_OREC_CHECKS
          fuel me w h key with
  | None => None
  | Some (n_obj, n_ver, me1, w1) =>
      match (if n_obj =? head then Some None
             else match h !! n_obj with
                  | Some (mk_node _ _ (Some (k, v))) =>
                      Some (if k =? key then Some v else None)
                  | _ => None
                  end) with
      | None => None
      | Some None => Some (None, me1, w1)
      | Some (Some v) =>
          if scalar_V then
            let '(e2, w2) := ro_begin (exo me1) w1 in
            if negb (check_continuation w2 (orec n_obj) n_ver) then
              get_loop fuel (set_exo me1 (ro_end e2)) w2 h key
            else Some (Some v, set_exo me1 (ro_end e2), w2)
          else
            let '(e2, w2) := wo_begin (exo me1) w1 in
            match acquire_continuation id e2 w2 (orec n_obj) n_ver with
            | (false, e3, w3) =>
                let '(e4, w4) := wstep_unwind e3 w3 in
                get_loop fuel (set_exo me1 e4) w4 h key
            | (true, e3, w3) =>
                let '(e4, w4) := wstep_unwind e3 w3 in
                Some (Some v, set_exo me1 e4, w4)
            end
      end
  end.
Proof. reflexivity. Qed.

Lemma remove_loop_unfold fuel me w h key :
  remove_loop (S fuel) me w h key =
  match get_leq orec head tail SNAPSHOT_FREQUENCY AVOID_OREC_CHECKS
          fuel me w h key with
  | None => None
  | Some (n_obj, n_ver, me1, w1) =>
      match (if n_obj =? head then Some false
             else match h !! n_obj with
                  | Some (mk_node _ _ (Some (k, _))) => Some (k =? key)
                  | _ => None
                  end), h !! n_obj with
      | Some false, _ => Some (false, me1, w1, h, None)
      | Some true, Some nn =>
          let '(e2, w2) := wo_begin (exo me1) w1 in
          match acquire_continuation id e2 w2 (orec n_obj) n_ver with
          | (false, e3, w3) =>
              let '(e', w') := wstep_unwind e3 w3 in
              remove_loop fuel (set_exo me1 e') w' h key
          | (true, e3, w3) =>
              match acquire_aggressive id e3 w3 (orec (node_prev nn)) with
              | (false, e4, w4) =>
                  let '(e', w') := wstep_unwind e4 w4 in
                  remove_loop fuel (set_exo me1 e') w' h key
              | (true, e4, w4) =>
                  match acquire_aggressive id e4 w4 (orec (node_next nn)) with
                  | (false, e5, w5) =>
                      let '(e', w') := wstep_unwind e5 w5 in
                      remove_loop fuel (set_exo me1 e') w' h key
                  | (true, e5, w5) =>
                      let '(e6, w6) := wo_end e5 w5 in
                      Some (true, set_exo me1 e6, w6,
                            unstitch h (node_prev nn) (node_next nn),
                            Some n_obj)
                  end
              end
          end
      | _, _ => None
      end
  end.
Proof. reflexivity. Qed.

(** Where [get_leq] stops for a key that the list does not hold: at
    [head], or at a node with another key; the successor of that node is
    the first node with a larger key. *)
Lemma stops_at_absent h l key a :
  is_dlist h l -> key ∉ keys l -> stops_at l head key a ->
  exists l1 l2,
    l = l1 ++ l2 /\ a = last_addr head l1 /\
    Forall (fun k => k < key) (keys l1) /\
    Forall (fun k => key < k) (keys l2) /\
    (a = head \/
     exists p nx k v,
       a ≠ head /\ h !! a = Some (mk_node p nx (Some (k, v))) /\ k ≠ key) /\
    exists nd, h !! a = Some nd /\ node_next nd = first_addr l2.
Proof.
  intros Hd Hk [(l1 & v & l2 & ->)|(_ & l1 & l2 & -> & -> & H1 & H2)].
  { exfalso. apply Hk. apply (elem_keys _ a key v).
    apply elem_of_app. right. by left. }
  exists l1, l2. do 4 (split; [done|]).
  destruct (is_dlist_NoDup h _ Hd) as (Hnd & Hha & Hta).
  destruct Hd as (Hht & (p & first & Hhead & Hch) & Hs).
  split.
  - destruct (last_addr_cases head l1) as [[_ Heq]|[_ Hin]]; [by left|].
    right. apply addrs_elem in Hin as (k & v & Hin).
    assert (Hin' : (last_addr head l1, k, v) ∈ l1 ++ l2).
    { apply elem_of_app. by left. }
    destruct (dchain_lookup h _ _ _ _ _ _ Hch Hin') as (Hne & _ & pp & nx & Ha).
    exists pp, nx, k, v. do 2 (split; [done|]).
    intros ->. apply Hk. by apply (elem_keys _ (last_addr head l1) key v).
  - by apply (dchain_pred h l2 l1 head first _ Hch Hhead).
Qed.

(** Where it stops for a key that the list holds: at the node of the
    key. *)
Lemma stops_at_present h l key a :
  is_dlist h l -> key ∈ keys l -> stops_at l head key a ->
  exists l1 v l2,
    l = l1 ++ (a, key, v) :: l2 /\ a ≠ head /\
    h !! a = Some (mk_node (last_addr head l1) (first_addr l2)
                     (Some (key, v))).
Proof.
  intros Hd Hk [(l1 & v & l2 & ->)|(Hnk & _)]; [|done].
  exists l1, v, l2. split; [done|].
  destruct Hd as (Hht & (p & first & Hhead & Hch) & Hs).
  assert (Hin : (a, key, v) ∈ l1 ++ (a, key, v) :: l2).
  { apply elem_of_app. right. by left. }
  destruct (dchain_lookup h _ _ _ _ _ _ Hch Hin) as (Hne & _).
  split; [done|]. by apply (dchain_at h a key v l2 l1 head first).
Qed.

(** The descriptor and the world after a [get_leq] alone. *)
Lemma after_get_leq me me1 w :
  steady w -> idle me -> exo me1 = ro_end (exo (clear_snapshots me)) ->
  idle me1 /\ steady (mk_world (orecs w) (rdtsc w) (S (reads w))).
Proof.
  intros Hst Hidle He. split.
  - unfold idle. rewrite He. simpl. apply Hidle.
  - apply (steady_later w _ 1); try done; [simpl; lia|]. by left.
Qed.

(** *** The mappings of the list *)

(** The map from keys to values that the list [l] holds. *)
Definition contents (l : list (Z * Z * Z)) : gmap Z Z :=
  list_to_map ((fun e => (snd (fst e), snd e)) <$> l).

Lemma contents_cons a k v l : contents ((a, k, v) :: l) = <[k := v]> (contents l).
Proof. done. Qed.

Lemma contents_absent l key : key ∉ keys l -> contents l !! key = None.
Proof.
  intros Hk. apply not_elem_of_list_to_map_1.
  by rewrite <- list_fmap_compose.
Qed.

Lemma contents_insert n key val l2 : forall l1,
  Forall (fun k => k < key) (keys l1) ->
  contents (l1 ++ (n, key, val) :: l2) = <[key := val]> (contents (l1 ++ l2)).
Proof.
  induction l1 as [|[[a k] v] l1 IH]; intros H1; [done|].
  simpl in H1. inversion H1 as [|? ? Hk H1']; subst.
  simpl app. rewrite !contents_cons, IH by done.
  apply insert_insert_ne. lia.
Qed.

Lemma contents_at a key v l2 : forall l1,
  StronglySorted Z.lt (keys (l1 ++ (a, key, v) :: l2)) ->
  contents (l1 ++ (a, key, v) :: l2) !! key = Some v /\
  contents (l1 ++ l2) = delete key (contents (l1 ++ (a, key, v) :: l2)).
Proof.
  induction l1 as [|[[b k] vb] l1 IH]; intros Hs.
  - simpl app in *. rewrite contents_cons, lookup_insert_eq. split; [done|].
    rewrite delete_insert_id; [done|]. apply contents_absent.
    simpl in Hs. apply StronglySorted_inv in Hs as [_ Hall].
    intros Hin. rewrite Forall_forall in Hall. specialize (Hall key Hin). lia.
  - simpl app in *. simpl in Hs. apply StronglySorted_inv in Hs as [Hs Hall].
    destruct (IH Hs) as [Hl Hd].
    assert (Hne : k ≠ key).
    { rewrite Forall_forall in Hall. rewrite keys_app in Hall.
      assert (k < key); [|lia]. apply Hall. apply elem_of_app. right. by left. }
    rewrite !contents_cons, lookup_insert_ne by done. split; [done|].
    rewrite delete_insert_ne by done. by rewrite Hd.
Qed.

(** *** The operations of a thread that runs alone *)

(** [insert] of a key that the list holds. *)
Lemma insert_present_alone me w h l key val fuel :
  is_dlist h l -> steady w -> idle me -> key ∈ keys l ->
  (length l + 3 <= fuel)%nat ->
  exists me' w',
    insert orec head tail SNAPSHOT_FREQUENCY AVOID_OREC_CHECKS alloc
      fuel me w h key val = Some (false, me', w', h) /\
    idle me' /\ steady w' /\
    forall o, curr (load (orecs w') o) = curr (load (orecs w) o).
Proof.
  intros Hd Hst Hidle Hk Hfuel. destruct fuel as [|fuel]; [lia|].
  unfold insert. rewrite insert_loop_unfold.
  destruct (get_leq_alone (clear_snapshots me) w h l key fuel)
    as (a & me1 & -> & He & Hstop); try done; [lia|].
  destruct (stops_at_present h l key a Hd Hk Hstop)
    as (l1 & v & l2 & _ & Hne & Ha).
  rewrite (proj2 (Z.eqb_neq _ _) Hne), Ha, Z.eqb_refl.
  destruct (after_get_leq me me1 w Hst Hidle He) as [Hidle1 Hst1].
  by eexists _, _.
Qed.

(** [insert] of a key that the list does not hold. *)
Lemma insert_absent_alone me w h l key val fuel :
  is_dlist h l -> steady w -> idle me -> key ∉ keys l ->
  h !! alloc h = None -> (length l + 3 <= fuel)%nat ->
  exists l1 l2 me' w',
    l = l1 ++ l2 /\
    insert orec head tail SNAPSHOT_FREQUENCY AVOID_OREC_CHECKS alloc
      fuel me w h key val
    = Some (true, me', w',
            stitch h (alloc h) (last_addr head l1) (first_addr l2) key val) /\
    is_dlist (stitch h (alloc h) (last_addr head l1) (first_addr l2) key val)
      (l1 ++ (alloc h, key, val) :: l2) /\
    contents (l1 ++ (alloc h, key, val) :: l2) = <[key := val]> (contents l) /\
    idle me' /\ steady w' /\
    forall o, curr (load (orecs w') o) =
      if decide (o ∈ [orec (last_addr head l1); orec (first_addr l2)])
      then rdtsc w (S (S (reads w)))
      else curr (load (orecs w) o).
Proof.
  intros Hd Hst Hidle Hk Hfresh Hfuel.
  destruct fuel as [|fuel]; [lia|].
  unfold insert. rewrite insert_loop_unfold.
  destruct (get_leq_alone (clear_snapshots me) w h l key fuel)
    as (a & me1 & -> & He & Hstop); try done; [lia|].
  destruct (stops_at_absent h l key a Hd Hk Hstop)
    as (l1 & l2 & -> & -> & H1 & H2 & Hnode & nd & Hnd & Hnx).
  exists l1, l2.
  assert (Hpres : (if last_addr head l1 =? head then Some false
                   else match h !! last_addr head l1 with
                        | Some (mk_node _ _ (Some (k, _))) => Some (k =? key)
                        | _ => None
                        end) = Some false).
  { destruct Hnode as [Hah|(p & nx & k & v & Hah & Ha & Hne)].
    - by rewrite (proj2 (Z.eqb_eq _ _) Hah).
    - by rewrite (proj2 (Z.eqb_neq _ _) Hah), Ha, (proj2 (Z.eqb_neq _ _) Hne). }
  rewrite Hpres.
  destruct (after_get_leq me me1 w Hst Hidle He) as [Hidle1 Hst1].
  set (w1 := mk_world (orecs w) (rdtsc w) (S (reads w))) in *.
  destruct (wo_begin_owns me (exo me1) w1 Hst1 Hidle)
    as (e2 & -> & Hown2 & Hl2 & Hml2 & Hun2).
  { apply Hidle1. }
  { by rewrite He. }
  set (w2 := mk_world (orecs w1) (rdtsc w1) (S (reads w1))) in *.
  assert (Hst2 : steady w2).
  { apply (steady_later w w2 2); try done; [simpl; lia|]. by left. }
  destruct Hidle as (Hlocks & Hbit & Hpos).
  destruct (acquire_continuation_takes e2 w2 w2 (orec (last_addr head l1))
              (curr (load (orecs w) (orec (last_addr head l1)))) Hown2)
    as (e3 & w3 & -> & Hown3 & Hml3 & _ & Hun3 & _ & Hr3 & Hrd3 & Hl3).
  { by rewrite Hml2. }
  { done. }
  { rewrite Hml2. by apply (steady_not_mine me w). }
  rewrite Hnd, Hnx.
  destruct (acquire_aggressive_takes e3 w2 w3 (orec (first_addr l2)) Hown3)
    as (e4 & w4 & -> & Hown4 & Hml4 & _ & Hun4 & _ & Hr4 & Hrd4 & Hl4).
  { by rewrite Hml3, Hml2. }
  { apply (steady_unlocked w2 _ Hst2). }
  destruct (wo_end_owns e4 w2 w4 Hown4)
    as (e5 & w5 & -> & Hl5 & Hml5 & Hr5 & Hrd5 & Ho5).
  { by rewrite Hun4, Hun3. }
  exists (set_exo me1 e5), w5. do 2 (split; [done|]).
  split; [by apply is_dlist_stitch|].
  split; [by apply contents_insert|].
  assert (Horecs : forall o, curr (load (orecs w5) o) =
            if decide (o ∈ [orec (last_addr head l1); orec (first_addr l2)])
            then rdtsc w (S (S (reads w)))
            else curr (load (orecs w) o)).
  { intros o. rewrite Ho5, Hr4, Hrd4, Hr3, Hrd3. simpl.
    destruct (decide (o ∈ locks e4)) as [Ho|Ho];
      destruct (decide (o ∈ [orec (last_addr head l1); orec (first_addr l2)]))
        as [Ho'|Ho']; try done; exfalso.
    - apply Ho'. destruct (proj1 (Hl4 o) Ho) as [Ho4| ->];
        [|apply elem_of_cons; right; by apply list_elem_of_singleton].
      destruct (proj1 (Hl3 o) Ho4) as [Ho3| ->]; [|by left].
      rewrite Hl2 in Ho3. by apply elem_of_nil in Ho3.
    - apply Ho. apply Hl4.
      apply elem_of_cons in Ho' as [->|Ho']; [left; apply Hl3; by right|].
      apply list_elem_of_singleton in Ho' as ->. by right. }
  split; [|split; [|done]].
  - split; [done|]. simpl. by rewrite Hml5, Hml4, Hml3, Hml2.
  - apply (steady_later w w5 3); try done.
    + by rewrite Hr5, Hr4, Hr3.
    + rewrite Hrd5, Hrd4, Hrd3. simpl. lia.
    + intros o. rewrite Horecs.
      destruct (decide _); [right|by left].
      exists (S (S (reads w))). split; [lia|done].
Qed.

(** [get]: the value the list holds for the key, if any; no orec
    changes. *)
Lemma get_alone me w h l key fuel :
  is_dlist h l -> steady w -> idle me -> (length l + 3 <= fuel)%nat ->
  exists me' w',
    get fuel me w h key = Some (contents l !! key, me', w') /\
    idle me' /\ steady w' /\
    forall o, curr (load (orecs w') o) = curr (load (orecs w) o).
Proof.
  intros Hd Hst Hidle Hfuel. destruct fuel as [|fuel]; [lia|].
  unfold get. rewrite get_loop_unfold.
  destruct (get_leq_alone (clear_snapshots me) w h l key fuel)
    as (a & me1 & -> & He & Hstop); try done; [lia|].
  destruct (after_get_leq me me1 w Hst Hidle He) as [Hidle1 Hst1].
  set (w1 := mk_world (orecs w) (rdtsc w) (S (reads w))) in *.
  destruct (decide (key ∈ keys l)) as [Hk|Hk].
  - destruct (stops_at_present h l key a Hd Hk Hstop)
      as (l1 & v & l2 & -> & Hne & Ha).
    destruct Hd as (_ & _ & Hs).
    destruct (contents_at a key v l2 l1 Hs) as [-> _].
    rewrite (proj2 (Z.eqb_neq _ _) Hne), Ha, Z.eqb_refl.
    set (w2 := mk_world (orecs w1) (rdtsc w1) (S (reads w1))).
    assert (Hst2 : steady w2).
    { apply (steady_later w w2 2); try done; [simpl; lia|]. by left. }
    destruct scalar_V.
    + unfold ro_begin, get_time_relaxed, check_continuation. simpl orecs.
      rewrite Z.leb_refl. simpl negb. cbv beta iota.
      eexists _, _. split; [reflexivity|]. split; [|done].
      unfold idle. simpl. apply Hidle1.
    + destruct (wo_begin_owns me (exo me1) w1 Hst1 Hidle)
        as (e2 & -> & Hown2 & Hl2 & Hml2 & Hun2).
      { apply Hidle1. }
      { by rewrite He. }
      fold w2 in Hown2 |- *.
      destruct (acquire_continuation_takes e2 w2 w2 (orec a)
                  (curr (load (orecs w) (orec a))) Hown2)
        as (e3 & w3 & -> & Hown3 & Hml3 & _ & Hun3 & _ & Hr3 & Hrd3 & Hl3).
      { rewrite Hml2. apply Hidle. }
      { done. }
      { rewrite Hml2. by apply (steady_not_mine me w). }
      destruct (wstep_unwind_owns e3 w2 w3 Hown3)
        as (e4 & w4 & -> & Hl4 & Hml4 & Hr4 & Hrd4 & Ho4).
      exists (set_exo me1 e4), w4. split; [done|].
      split; [|split; [|done]].
      * split; [done|]. simpl. rewrite Hml4, Hml3, Hml2. apply Hidle.
      * apply (steady_later w w4 2); try done.
        -- by rewrite Hr4, Hr3.
        -- by rewrite Hrd4, Hrd3; simpl; lia.
        -- intros o. left. by rewrite Ho4.
  - destruct (stops_at_absent h l key a Hd Hk Hstop)
      as (l1 & l2 & _ & _ & _ & _ & Hnode & _).
    rewrite (contents_absent l key Hk).
    assert (Hfound : (if a =? head then Some None
                      else match h !! a with
                           | Some (mk_node _ _ (Some (k, v))) =>
                               Some (if k =? key then Some v else None)
                           | _ => None
                           end) = Some (@None Z)).
    { destruct Hnode as [Hah|(p & nx & k & v & Hah & Ha & Hne)].
      - by rewrite (proj2 (Z.eqb_eq _ _) Hah).
      - by rewrite (proj2 (Z.eqb_neq _ _) Hah), Ha,
          (proj2 (Z.eqb_neq _ _) Hne). }
    rewrite Hfound. by eexists _, _.
Qed.

(** [remove] of a key that the list holds. *)
Lemma remove_present_alone me w h l key fuel :
  is_dlist h l -> steady w -> idle me -> key ∈ keys l ->
  (length l + 3 <= fuel)%nat ->
  exists l1 a v l2 me' w',
    l = l1 ++ (a, key, v) :: l2 /\
    remove fuel me w h key
    = Some (true, me', w',
            unstitch h (last_addr head l1) (first_addr l2), Some a) /\
    is_dlist (unstitch h (last_addr head l1) (first_addr l2)) (l1 ++ l2) /\
    contents (l1 ++ l2) = delete key (contents l) /\
    idle me' /\ steady w' /\
    forall o, curr (load (orecs w') o) =
      if decide (o ∈ [orec a; orec (last_addr head l1); orec (first_addr l2)])
      then rdtsc w (S (S (reads w)))
      else curr (load (orecs w) o).
Proof.
  intros Hd Hst Hidle Hk Hfuel. destruct fuel as [|fuel]; [lia|].
  unfold remove. rewrite remove_loop_unfold.
  destruct (get_leq_alone (clear_snapshots me) w h l key fuel)
    as (a & me1 & -> & He & Hstop); try done; [lia|].
  destruct (stops_at_present h l key a Hd Hk Hstop)
    as (l1 & v & l2 & -> & Hne & Ha).
  exists l1, a, v, l2.
  rewrite (proj2 (Z.eqb_neq _ _) Hne), Ha, Z.eqb_refl.
  cbn [node_prev node_next].
  destruct (after_get_leq me me1 w Hst Hidle He) as [Hidle1 Hst1].
  set (w1 := mk_world (orecs w) (rdtsc w) (S (reads w))) in *.
  destruct (wo_begin_owns me (exo me1) w1 Hst1 Hidle)
    as (e2 & -> & Hown2 & Hl2 & Hml2 & Hun2).
  { apply Hidle1. }
  { by rewrite He. }
  set (w2 := mk_world (orecs w1) (rdtsc w1) (S (reads w1))) in *.
  assert (Hst2 : steady w2).
  { apply (steady_later w w2 2); try done; [simpl; lia|]. by left. }
  destruct Hidle as (Hlocks & Hbit & Hpos).
  destruct (acquire_continuation_takes e2 w2 w2 (orec a)
              (curr (load (orecs w) (orec a))) Hown2)
    as (e3 & w3 & -> & Hown3 & Hml3 & _ & Hun3 & _ & Hr3 & Hrd3 & Hl3).
  { by rewrite Hml2. }
  { done. }
  { rewrite Hml2. by apply (steady_not_mine me w). }
  destruct (acquire_aggressive_takes e3 w2 w3 (orec (last_addr head l1)) Hown3)
    as (e4 & w4 & -> & Hown4 & Hml4 & _ & Hun4 & _ & Hr4 & Hrd4 & Hl4).
  { by rewrite Hml3, Hml2. }
  { apply (steady_unlocked w2 _ Hst2). }
  destruct (acquire_aggressive_takes e4 w2 w4 (orec (first_addr l2)) Hown4)
    as (e5 & w5 & -> & Hown5 & Hml5 & _ & Hun5 & _ & Hr5 & Hrd5 & Hl5).
  { by rewrite Hml4, Hml3, Hml2. }
  { apply (steady_unlocked w2 _ Hst2). }
  destruct (wo_end_owns e5 w2 w5 Hown5)
    as (e6 & w6 & -> & Hl6 & Hml6 & Hr6 & Hrd6 & Ho6).
  { by rewrite Hun5, Hun4, Hun3. }
  exists (set_exo me1 e6), w6. do 2 (split; [done|]).
  split; [by apply (is_dlist_unstitch h l1 a key v l2)|].
  split; [destruct Hd as (_ & _ & Hs); by apply (contents_at a key v l2 l1)|].
  assert (Horecs : forall o, curr (load (orecs w6) o) =
            if decide (o ∈ [orec a; orec (last_addr head l1);
                            orec (first_addr l2)])
            then rdtsc w (S (S (reads w)))
            else curr (load (orecs w) o)).
  { intros o. rewrite Ho6, Hr5, Hrd5, Hr4, Hrd4, Hr3, Hrd3. simpl.
    destruct (decide (o ∈ locks e5)) as [Ho|Ho];
      destruct (decide (o ∈ [orec a; orec (last_addr head l1);
                             orec (first_addr l2)]))
        as [Ho'|Ho']; try done; exfalso.
    - apply Ho'. rewrite !elem_of_cons.
      destruct (proj1 (Hl5 o) Ho) as [Ho5| ->]; [|by right; right; left].
      destruct (proj1 (Hl4 o) Ho5) as [Ho4| ->]; [|by right; left].
      destruct (proj1 (Hl3 o) Ho4) as [Ho3| ->]; [|by left].
      rewrite Hl2 in Ho3. by apply elem_of_nil in Ho3.
    - apply Ho. apply Hl5. rewrite !elem_of_cons in Ho'.
      destruct Ho' as [->|[->|[->|Ho']]].
      + left. apply Hl4. left. apply Hl3. by right.
      + left. apply Hl4. by right.
      + by right.
      + by apply elem_of_nil in Ho'. }
  split; [|split; [|done]].
  - split; [done|]. simpl. by rewrite Hml6, Hml5, Hml4, Hml3, Hml2.
  - apply (steady_later w w6 3); try done.
    + by rewrite Hr6, Hr5, Hr4, Hr3.
    + rewrite Hrd6, Hrd5, Hrd4, Hrd3. simpl. lia.
    + intros o. rewrite Horecs.
      destruct (decide _); [right|by left].
      exists (S (S (reads w))). split; [lia|done].
Qed.

(** [remove] of a key that the list does not hold. *)
Lemma remove_absent_alone me w h l key fuel :
  is_dlist h l -> steady w -> idle me -> key ∉ keys l ->
  (length l + 3 <= fuel)%nat ->
  exists me' w',
    remove fuel me w h key = Some (false, me', w', h, None) /\
    idle me' /\ steady w' /\
    forall o, curr (load (orecs w') o) = curr (load (orecs w) o).
Proof.
  intros Hd Hst Hidle Hk Hfuel. destruct fuel as [|fuel]; [lia|].
  unfold remove. rewrite remove_loop_unfold.
  destruct (get_leq_alone (clear_snapshots me) w h l key fuel)
    as (a & me1 & -> & He & Hstop); try done; [lia|].
  destruct (stops_at_absent h l key a Hd Hk Hstop)
    as (l1 & l2 & _ & _ & _ & _ & Hnode & _).
  destruct (after_get_leq me me1 w Hst Hidle He) as [Hidle1 Hst1].
  assert (Hpres : (if a =? head then Some false
                   else match h !! a with
                        | Some (mk_node _ _ (Some (k, _))) => Some (k =? key)
                        | _ => None
                        end) = Some false).
  { destruct Hnode as [Hah|(p & nx & k & v & Hah & Ha & Hne)].
    - by rewrite (proj2 (Z.eqb_eq _ _) Hah).
    - by rewrite (proj2 (Z.eqb_neq _ _) Hah), Ha, (proj2 (Z.eqb_neq _ _) Hne). }
  rewrite Hpres. by eexists _, _.
Qed.

(** *** Runs of operations *)

(** A call of the map, and what it returns: the [bool] of [insert] and
    [remove], or the value [get] stores to [val] when it returns true. *)
Inductive op_t :=
| Insert (key val : Z)
| Get (key : Z)
| Remove (key : Z).

Inductive ret_t :=
| Done (b : bool)
| Got (v : option Z).

Definition call (fuel : nat) (op : op_t) (me : stmcas_t) (w : world)
    (h : gmap Z node_t) : option (ret_t * stmcas_t * world * gmap Z node_t) :=
  match op with
  | Insert key val =>
      match insert orec head tail SNAPSHOT_FREQUENCY AVOID_OREC_CHECKS alloc
              fuel me w h key val with
      | Some (b, me', w', h') => Some (Done b, me', w', h')
      | None => None
      end
  | Get key =>
      match get fuel me w h key with
      | Some (v, me', w') => Some (Got v, me', w', h)
      | None => None
      end
  | Remove key =>
      match remove fuel me w h key with
      | Some (b, me', w', h', _) => Some (Done b, me', w', h')
      | None => None
      end
  end.

(** The calls [ops] one after the other, by one thread. *)
Fixpoint calls (fuel : nat) (ops : list op_t) (me : stmcas_t) (w : world)
    (h : gmap Z node_t)
  : option (list ret_t * stmcas_t * world * gmap Z node_t) :=
  match ops with
  | [] => Some ([], me, w, h)
  | op :: ops' =>
      match call fuel op me w h with
      | None => None
      | Some (r, me1, w1, h1) =>
          match calls fuel ops' me1 w1 h1 with
          | None => None
          | Some (rs, me2, w2, h2) => Some (r :: rs, me2, w2, h2)
          end
      end
  end.

(** The same calls on a finite map from keys to values: [insert] does not
    replace a mapping. *)
Definition map_call (op : op_t) (m : gmap Z Z) : ret_t * gmap Z Z :=
  match op with
  | Insert key val =>
      match m !! key with
      | Some _ => (Done false, m)
      | None => (Done true, <[key := val]> m)
      end
  | Get key => (Got (m !! key), m)
  | Remove key =>
      match m !! key with
      | Some _ => (Done true, delete key m)
      | None => (Done false, m)
      end
  end.

Fixpoint map_calls (ops : list op_t) (m : gmap Z Z) : list ret_t * gmap Z Z :=
  match ops with
  | [] => ([], m)
  | op :: ops' =>
      let '(r, m1) := map_call op m in
      let '(rs, m2) := map_calls ops' m1 in
      (r :: rs, m2)
  end.

Lemma contents_present l key : key ∈ keys l -> is_Some (contents l !! key).
Proof.
  intros Hk. destruct (contents l !! key) eqn:Hl; [done|]. exfalso.
  apply not_elem_of_list_to_map_2 in Hl. apply Hl.
  by rewrite <- list_fmap_compose.
Qed.

(** One call of a thread that runs alone does what the finite map does. *)
Lemma call_refines op me w h l fuel :
  (forall h, h !! alloc h = None) ->
  is_dlist h l -> steady w -> idle me -> (length l + 3 <= fuel)%nat ->
  exists me' w' h' l',
    call fuel op me w h = Some (fst (map_call op (contents l)), me', w', h') /\
    is_dlist h' l' /\ contents l' = snd (map_call op (contents l)) /\
    (length l' <= S (length l))%nat /\ idle me' /\ steady w'.
Proof.
  intros Halloc Hd Hst Hidle Hfuel. destruct op as [key val|key|key]; simpl.
  - destruct (decide (key ∈ keys l)) as [Hk|Hk].
    + destruct (insert_present_alone me w h l key val fuel)
        as (me' & w' & -> & Hidle' & Hst' & _); try done.
      destruct (contents_present l key Hk) as [v ->]. simpl.
      exists me', w', h, l. do 3 (split; [done|]). split; [lia|done].
    + destruct (insert_absent_alone me w h l key val fuel)
        as (l1 & l2 & me' & w' & -> & -> & Hd' & Hc & Hidle' & Hst' & _);
        try done.
      rewrite (contents_absent _ key Hk). simpl.
      eexists me', w', _, _. split; [done|]. split; [exact Hd'|].
      split; [done|]. split; [|done].
      rewrite !length_app. simpl. lia.
  - destruct (get_alone me w h l key fuel)
      as (me' & w' & -> & Hidle' & Hst' & _); try done.
    exists me', w', h, l. do 3 (split; [done|]). split; [lia|done].
  - destruct (decide (key ∈ keys l)) as [Hk|Hk].
    + destruct (remove_present_alone me w h l key fuel)
        as (l1 & a & v & l2 & me' & w' & -> & -> & Hd' & Hc & Hidle' & Hst' & _);
        try done.
      destruct (contents_present _ key Hk) as [v' ->]. simpl.
      eexists me', w', _, _. split; [done|]. split; [exact Hd'|].
      split; [done|]. split; [|done].
      rewrite !length_app. simpl. lia.
    + destruct (remove_absent_alone me w h l key fuel)
        as (me' & w' & -> & Hidle' & Hst' & _); try done.
      rewrite (contents_absent _ key Hk). simpl.
      exists me', w', h, l. do 3 (split; [done|]). split; [lia|done].
Qed.

(** X18.  [insert] of a key that the map does not hold, by a thread that
    runs alone on a heap that holds the sorted list [l], with a fresh
    address from the allocator: it returns true; the list splits around the
    key, and the heap is the one with the new node stitched in between the
    last node with a smaller key ([head] if none) and the first with a
    larger one ([tail] if none); it holds the sorted list with the new
    mapping; the orecs of these two nodes carry the time read at the end of
    the step, every other orec is as it was, none stays locked, and the
    descriptor holds no orec. *)
Theorem insert_absent_stitches me w h l key val fuel :
  is_dlist h l -> steady w -> idle me -> key ∉ keys l ->
  h !! alloc h = None -> (length l + 3 <= fuel)%nat ->
  exists l1 l2 me' w',
    l = l1 ++ l2 /\
    insert orec head tail SNAPSHOT_FREQUENCY AVOID_OREC_CHECKS alloc
      fuel me w h key val
    = Some (true, me', w',
            stitch h (alloc h) (last_addr head l1) (first_addr l2) key val) /\
    is_dlist (stitch h (alloc h) (last_addr head l1) (first_addr l2) key val)
      (l1 ++ (alloc h, key, val) :: l2) /\
    contents (l1 ++ (alloc h, key, val) :: l2) = <[key := val]> (contents l) /\
    idle me' /\ steady w' /\
    forall o, curr (load (orecs w') o) =
      if decide (o ∈ [orec (last_addr head l1); orec (first_addr l2)])
      then rdtsc w (S (S (reads w)))
      else curr (load (orecs w) o).
Proof. apply insert_absent_alone. Qed.

(** X19.  [get] by a thread that runs alone on a heap that holds the
    sorted list [l]: it returns the value that [l] maps the key to, or false
    when there is none, for a scalar value type and for any other; every
    orec has the value it had, and the descriptor holds no orec. *)
Theorem get_returns_mapping me w h l key fuel :
  is_dlist h l -> steady w -> idle me -> (length l + 3 <= fuel)%nat ->
  exists me' w',
    get fuel me w h key = Some (contents l !! key, me', w') /\
    idle me' /\ steady w' /\
    forall o, curr (load (orecs w') o) = curr (load (orecs w) o).
Proof. apply get_alone. Qed.

(** X20.  [remove] by a thread that runs alone on a heap that holds the
    sorted list [l].  For a key of [l] it returns true, the heap is the one
    with the neighbours of the node linked to each other, which holds the
    list without the mapping; the node is handed to [reclaim], and stays in
    the heap as it was; the orecs of the node and of its two neighbours
    carry the time read at the end of the step.  For any other key it
    returns false and changes neither the heap nor an orec, and hands
    nothing to [reclaim]. *)
Theorem remove_unstitches me w h l key fuel :
  is_dlist h l -> steady w -> idle me -> (length l + 3 <= fuel)%nat ->
  (key ∈ keys l ->
   exists l1 a v l2 me' w',
     l = l1 ++ (a, key, v) :: l2 /\
     remove fuel me w h key
     = Some (true, me', w',
             unstitch h (last_addr head l1) (first_addr l2), Some a) /\
     is_dlist (unstitch h (last_addr head l1) (first_addr l2)) (l1 ++ l2) /\
     unstitch h (last_addr head l1) (first_addr l2) !! a = h !! a /\
     contents (l1 ++ l2) = delete key (contents l) /\
     idle me' /\ steady w' /\
     forall o, curr (load (orecs w') o) =
       if decide (o ∈ [orec a; orec (last_addr head l1); orec (first_addr l2)])
       then rdtsc w (S (S (reads w)))
       else curr (load (orecs w) o)) /\
  (key ∉ keys l ->
   exists me' w',
     remove fuel me w h key = Some (false, me', w', h, None) /\
     idle me' /\ steady w' /\
     forall o, curr (load (orecs w') o) = curr (load (orecs w) o)).
Proof.
  intros Hd Hst Hidle Hfuel. split; intros Hk.
  - destruct (remove_present_alone me w h l key fuel)
      as (l1 & a & v & l2 & me' & w' & -> & Hr & Hd' & Hc & Hrest); try done.
    exists l1, a, v, l2, me', w'. do 3 (split; [done|]). split; [|done].
    destruct (is_dlist_NoDup h _ Hd) as (Hnd & Hha & Hta).
    apply unstitch_other.
    + intros Heq. destruct (last_addr_cases head l1) as [[_ H]|[_ H]].
      * apply Hha. rewrite addrs_app, addrs_cons. apply elem_of_app. right.
        apply elem_of_cons. left. congruence.
      * rewrite addrs_app, addrs_cons in Hnd.
        apply NoDup_app in Hnd as (_ & Hdis & _).
        apply (Hdis a); [by rewrite Heq|by left].
    + intros Heq. destruct (first_addr_cases l2) as [H|H].
      * apply Hta. rewrite addrs_app, addrs_cons. apply elem_of_app. right.
        apply elem_of_cons. left. congruence.
      * rewrite addrs_app, addrs_cons in Hnd.
        apply NoDup_app in Hnd as (_ & _ & Hnd).
        apply NoDup_cons in Hnd as [Hnin _]. apply Hnin. by rewrite Heq.
  - by apply (remove_absent_alone me w h l).
Qed.

(** X21.  The constructor: for two sentinels at distinct addresses, the
    heap it builds holds the empty list, and its writing step changes no
    orec. *)
Theorem dlist_new_empty me w :
  head ≠ tail -> steady w -> idle me ->
  exists me' w' h,
    dlist_new me w = (me', w', h) /\ is_dlist h [] /\
    idle me' /\ steady w' /\
    forall o, curr (load (orecs w') o) = curr (load (orecs w) o).
Proof.
  intros Hht Hst Hidle. unfold dlist_new.
  destruct (wo_begin_owns me (exo me) w Hst Hidle)
    as (e2 & -> & Hown2 & Hl2 & Hml2 & Hun2); try done; [apply Hidle|].
  set (w1 := mk_world (orecs w) (rdtsc w) (S (reads w))) in *.
  destruct (wo_end_owns e2 w1 w1 Hown2 Hun2)
    as (e3 & w3 & -> & Hl3 & Hml3 & Hr3 & Hrd3 & Ho3).
  eexists _, _, _. split; [reflexivity|].
  assert (Horecs : forall o, curr (load (orecs w3) o) = curr (load (orecs w) o)).
  { intros o. rewrite Ho3, Hl2. destruct (decide (o ∈ [])) as [Ho|]; [|done].
    by apply elem_of_nil in Ho. }
  split; [|split; [|split; [|done]]].
  - split; [done|]. split; [|constructor].
    exists 0, tail. split.
    + rewrite lookup_alter_ne by done. rewrite lookup_alter_eq.
      by rewrite lookup_insert_ne, lookup_insert_eq.
    + split; [done|]. exists 0. rewrite lookup_alter_eq.
      rewrite lookup_alter_ne by done. by rewrite lookup_insert_eq.
  - split; [done|]. simpl. rewrite Hml3, Hml2. apply Hidle.
  - apply (steady_later w w3 2); try done.
    + rewrite Hrd3. simpl. lia.
    + intros o. left. apply Horecs.
Qed.

(** X22.  A thread that runs alone: any sequence of [insert], [get] and
    [remove] calls on a heap that holds a sorted list returns what the same
    calls return on the finite map of the list's mappings, with an [insert]
    that does not replace; the heap then holds a sorted list with the
    mappings of that map.  The allocator returns an address that is not in
    use. *)
Theorem calls_as_sorted_map ops me w h l fuel :
  (forall h, h !! alloc h = None) ->
  is_dlist h l -> steady w -> idle me ->
  (length l + length ops + 3 <= fuel)%nat ->
  exists me' w' h' l',
    calls fuel ops me w h
    = Some (fst (map_calls ops (contents l)), me', w', h') /\
    is_dlist h' l' /\ contents l' = snd (map_calls ops (contents l)) /\
    idle me' /\ steady w'.
Proof.
  revert me w h l.
  induction ops as [|op ops IH]; intros me w h l Halloc Hd Hst Hidle Hfuel.
  - simpl. by exists me, w, h, l.
  - simpl in Hfuel. simpl calls. simpl map_calls.
    destruct (call_refines op me w h l fuel)
      as (me1 & w1 & h1 & l1 & -> & Hd1 & Hc1 & Hlen & Hidle1 & Hst1);
      try done; [lia|].
    destruct (map_call op (contents l)) as [r m1]. simpl in Hc1. simpl fst.
    destruct (IH me1 w1 h1 l1)
      as (me2 & w2 & h2 & l2 & -> & Hd2 & Hc2 & Hidle2 & Hst2);
      try done; [lia|].
    rewrite Hc1 in *.
    destruct (map_calls ops m1) as [rs m2]. simpl in *.
    by exists me2, w2, h2, l2.
Qed.

End Map.

(** *** The theorems at concrete inputs *)

(** *** A map of three mappings *)

(** The thread whose context is at address 4096, between operations, and
    a world with no orec stored yet, whose clock has reached 100. *)
Definition thread_4096 : stmcas_t := mk_stmcas (exotm_new 4096) [].

Definition clock_100 : world :=
  mk_world ∅ (fun n => Z.min (100 + Z.of_nat n) 1000000) 0.

Lemma thread_4096_idle : idle thread_4096.
Proof. split; [done|]. split; [reflexivity|]. vm_compute. discriminate. Qed.

Lemma clock_100_steady : steady clock_100.
Proof.
  assert (LOCK_BIT = 9223372036854775808) as Hbit by reflexivity.
  split; [|split].
  - intros n. simpl. lia.
  - intros n. simpl. lia.
  - intros o. unfold load. simpl. rewrite lookup_empty. simpl. lia.
Qed.

Lemma three_nodes_is_dlist : is_dlist 1000 2000 three_nodes three_mappings.
Proof.
  split; [done|]. split.
  - exists 0, 3000. split; [reflexivity|]. simpl.
    split; [done|]. split; [done|]. split; [done|].
    exists 4000. split; [reflexivity|].
    split; [done|]. split; [done|]. split; [done|].
    exists 5000. split; [reflexivity|].
    split; [done|]. split; [done|]. split; [done|].
    exists 2000. split; [reflexivity|].
    split; [done|]. exists 0. reflexivity.
  - repeat constructor; lia.
Qed.

(** [insert_absent_stitches] at [insert(7, 68)] on the map of three
    mappings. *)
Lemma insert_absent_stitches_witness :
  exists l1 l2 me' w',
    three_mappings = l1 ++ l2 /\
    insert id 1000 2000 2 false (fun _ => 9999) 10 thread_4096 clock_100
      three_nodes 7 68
    = Some (true, me', w',
            stitch three_nodes 9999 (last_addr 1000 l1) (first_addr 2000 l2)
              7 68) /\
    is_dlist 1000 2000
      (stitch three_nodes 9999 (last_addr 1000 l1) (first_addr 2000 l2) 7 68)
      (l1 ++ (9999, 7, 68) :: l2).
Proof.
  destruct (insert_absent_stitches id 1000 2000 2 false (fun _ => 9999)
              thread_4096 clock_100 three_nodes three_mappings 7 68 10)
    as (l1 & l2 & me' & w' & Hl & Hins & Hd & _).
  - exact three_nodes_is_dlist.
  - exact clock_100_steady.
  - exact thread_4096_idle.
  - simpl. rewrite !elem_of_cons, elem_of_nil. lia.
  - reflexivity.
  - simpl. lia.
  - exists l1, l2, me', w'. split; [exact Hl|]. split; [exact Hins|exact Hd].
Defined.
(** [get_returns_mapping] at [get(4)] and [get(5)] on that map, with a
    value type that is a scalar. *)
Lemma get_returns_mapping_witness :
  (exists me' w',
     get id 1000 2000 2 false true 10 thread_4096 clock_100 three_nodes 4
     = Some (Some 66, me', w')) /\
  (exists me' w',
     get id 1000 2000 2 false true 10 thread_4096 clock_100 three_nodes 5
     = Some (None, me', w')).
Proof.
  split.
  - destruct (get_returns_mapping id 1000 2000 2 false true thread_4096
                clock_100 three_nodes three_mappings 4 10)
      as (me' & w' & Hget & _).
    + exact three_nodes_is_dlist.
    + exact clock_100_steady.
    + exact thread_4096_idle.
    + simpl. lia.
    + exists me', w'. exact Hget.
  - destruct (get_returns_mapping id 1000 2000 2 false true thread_4096
                clock_100 three_nodes three_mappings 5 10)
      as (me' & w' & Hget & _).
    + exact three_nodes_is_dlist.
    + exact clock_100_steady.
    + exact thread_4096_idle.
    + simpl. lia.
    + exists me', w'. exact Hget.
Defined.

(** [remove_unstitches] at [remove(4)] on that map. *)
Lemma remove_unstitches_witness :
  exists l1 a v l2 me' w',
    three_mappings = l1 ++ (a, 4, v) :: l2 /\
    remove id 1000 2000 2 false 10 thread_4096 clock_100 three_nodes 4
    = Some (true, me', w',
            unstitch three_nodes (last_addr 1000 l1) (first_addr 2000 l2),
            Some a) /\
    is_dlist 1000 2000
      (unstitch three_nodes (last_addr 1000 l1) (first_addr 2000 l2))
      (l1 ++ l2).
Proof.
  destruct (remove_unstitches id 1000 2000 2 false thread_4096 clock_100
              three_nodes three_mappings 4 10) as [Hpresent _].
  - exact three_nodes_is_dlist.
  - exact clock_100_steady.
  - exact thread_4096_idle.
  - simpl. lia.
  - destruct Hpresent as (l1 & a & v & l2 & me' & w' & Hl & Hrm & Hd & _).
    + simpl. right. left.
    + exists l1, a, v, l2, me', w'.
      split; [exact Hl|]. split; [exact Hrm|exact Hd].
Defined.

(** [dlist_new_empty] with the sentinels at 1000 and 2000. *)
Lemma dlist_new_empty_witness :
  exists me' w' h,
    dlist_new 1000 2000 thread_4096 clock_100 = (me', w', h) /\
    is_dlist 1000 2000 h [].
Proof.
  destruct (dlist_new_empty 1000 2000 thread_4096 clock_100)
    as (me' & w' & h & Hnew & Hd & _).
  - done.
  - exact clock_100_steady.
  - exact thread_4096_idle.
  - exists me', w', h. split; [exact Hnew|exact Hd].
Defined.

(** An allocator that returns an address at which the heap has no
    node. *)
Definition unused (h : gmap Z node_t) : Z := fresh (dom h : gset Z).

Lemma unused_fresh h : h !! unused h = None.
Proof.
  apply (not_elem_of_dom (D := gset Z)). unfold unused.
  exact (is_fresh (dom h : gset Z)).
Qed.

(** [calls_as_sorted_map] at five calls on that map. *)
Lemma calls_as_sorted_map_witness :
  exists me' w' h' l',
    calls id 1000 2000 2 false unused true 12
      [Insert 7 68; Get 7; Remove 4; Get 4; Insert 2 0]
      thread_4096 clock_100 three_nodes
    = Some ([Done true; Got (Some 68); Done true; Got None; Done false],
            me', w', h') /\
    is_dlist 1000 2000 h' l' /\
    contents l' = <[7 := 68]> (delete 4 (contents three_mappings)).
Proof.
  destruct (calls_as_sorted_map id 1000 2000 2 false unused true
              [Insert 7 68; Get 7; Remove 4; Get 4; Insert 2 0]
              thread_4096 clock_100 three_nodes three_mappings 12)
    as (me' & w' & h' & l' & Hcalls & Hd & Hc & _).
  - exact unused_fresh.
  - exact three_nodes_is_dlist.
  - exact clock_100_steady.
  - exact thread_4096_idle.
  - simpl. lia.
  - exists me', w', h', l'. split; [exact Hcalls|]. split; [exact Hd|].
    rewrite Hc. apply map_eq. intros k. 
    vm_compute. reflexivity.
Defined.

End DlistOps.
